(** * Regular-expression automata: NFA fragments, subset construction, minimization

    A shallow embedding of [NFA.js], [NFA-DFA-RegExp.js] and
    [dfa-minimization.js].  JavaScript objects live in explicit stores and are
    named by references (indices), so that object identity, in-place mutation
    and memoised fields are modelled as the code has them.  Recursive methods
    and [while] loops carry a fuel argument.  In the automaton code [None]
    means out of fuel or a JavaScript [TypeError] (property access on
    [undefined]); [minimize] tells the two apart with [completion]. *)

From Stdlib Require Import Lia NArith Ascii String DecimalString DecimalNat.
From stdpp Require Import base option list sets strings sorting.

(** ** JavaScript collections *)

(** Symbols are JavaScript strings; an input string is the sequence of its
    one-character strings ([string[0]], [string.slice(1)]). *)
Abbreviation symbol := string (only parsing).

Definition EPSILON : symbol := "ε".
Definition EPSILON_CLOSURE : symbol := EPSILON +:+ "*".

(** Object references. *)
Abbreviation ref := nat (only parsing).

(** An ES6 [Set] of references or numbers: insertion-ordered, duplicate-free. *)
Definition Set_has (s : list nat) (x : nat) : bool := existsb (Nat.eqb x) s.
Arguments Set_has : simpl never.

Definition Set_add (s : list nat) (x : nat) : list nat :=
  if Set_has s x then s else s ++ [x].

Definition Set_from (l : list nat) : list nat := foldl Set_add [] l.

(** An ES6 [Map] with string keys: insertion-ordered. *)
Fixpoint Map_get {V} (m : list (symbol * V)) (k : symbol) : option V :=
  match m with
  | [] => None
  | (k', v) :: m' => if String.eqb k k' then Some v else Map_get m' k
  end.

Fixpoint Map_set {V} (m : list (symbol * V)) (k : symbol) (v : V) : list (symbol * V) :=
  match m with
  | [] => [(k, v)]
  | (k', v') :: m' =>
      if String.eqb k k' then (k, v) :: m' else (k', v') :: Map_set m' k v
  end.

(** A [Set] of strings (the alphabet, the DFA accepting labels). *)
Definition SSet_has (s : list string) (x : string) : bool := existsb (String.eqb x) s.

Definition SSet_add (s : list string) (x : string) : list string :=
  if SSet_has s x then s else s ++ [x].

(** ** Automaton states ([State], [NFAState]) *)

(** [_transitions] is a [Map] from symbol to a [Set] of target states;
    [_epsilonClosure] and [number] are the fields added lazily by
    [getEpsilonClosure] and by the table builder. *)
Record State := mkState {
  _transitions : list (symbol * list ref);
  accepting : bool;
  _epsilonClosure : option (list ref);
  number : option nat
}.

(** [new NFAState({accepting})] *)
Definition new_State (acc : bool) : State := mkState [] acc None None.

Definition with_transitions (t : list (symbol * list ref)) (st : State) : State :=
  mkState t (accepting st) (_epsilonClosure st) (number st).
Definition with_accepting (a : bool) (st : State) : State :=
  mkState (_transitions st) a (_epsilonClosure st) (number st).
Definition with_epsilonClosure (c : list ref) (st : State) : State :=
  mkState (_transitions st) (accepting st) (Some c) (number st).
Definition with_number (n : nat) (st : State) : State :=
  mkState (_transitions st) (accepting st) (_epsilonClosure st) (Some n).

(** The store of state objects. *)
Abbreviation heap := (list State) (only parsing).

Definition alloc (st : State) (h : heap) : ref * heap := (length h, h ++ [st]).

(** [getTransitionsOnSymbol]: a miss stores a new empty set under [symbol]. *)
Definition getTransitionsOnSymbol (this : ref) (symbol : symbol) (h : heap)
  : option (list ref * heap) :=
  st ← h !! this;
  match Map_get (_transitions st) symbol with
  | Some transitions => Some (transitions, h)
  | None =>
      Some ([], <[this := with_transitions (Map_set (_transitions st) symbol []) st]> h)
  end.

(** [addTransition]: [this.getTransitionsOnSymbol(symbol).add(toState)]. *)
Definition addTransition (this : ref) (symbol : symbol) (toState : ref) (h : heap)
  : option heap :=
  '(transitions, h) ← getTransitionsOnSymbol this symbol h;
  st ← h !! this;
  Some (<[this := with_transitions
                    (Map_set (_transitions st) symbol (Set_add transitions toState)) st]> h).

(** [for (const x of l) { if (body(x)) return true; }  return false;]
    with the state threaded through the iterations. *)
Fixpoint for_of_some {A St} (body : A → St → option (bool * St)) (l : list A) (s : St)
  : option (bool * St) :=
  match l with
  | [] => Some (false, s)
  | x :: l' =>
      match body x s with
      | Some (true, s') => Some (true, s')
      | Some (false, s') => for_of_some body l' s'
      | None => None
      end
  end.

(** [matches(string, visited = new Set())], in [NFA.js] ([State]) and in
    [NFA-DFA-RegExp.js] ([NFAState]) alike.  The [visited] set is an object
    shared with the callee, so the callee's additions are returned. *)
Fixpoint matches (fuel : nat) (this : ref) (string : list symbol)
    (visited : list ref) (h : heap) : option (bool * (list ref * heap)) :=
  match fuel with
  | 0 => None
  | S fuel =>
      st ← h !! this;
      if Set_has visited this then Some (false, (visited, h)) else
      let visited := Set_add visited this in
      match string with
      | [] =>
          if accepting st then Some (true, (visited, h)) else
          '(eps, h) ← getTransitionsOnSymbol this EPSILON h;
          for_of_some (λ nextState '(visited, h), matches fuel nextState [] visited h)
                      eps (visited, h)
      | symbol :: rest =>
          '(symbolTransitions, h) ← getTransitionsOnSymbol this symbol h;
          match for_of_some
                  (λ nextState h,
                     match matches fuel nextState rest [] h with
                     | Some (b, (_, h)) => Some (b, h)
                     | None => None
                     end)
                  symbolTransitions h with
          | None => None
          | Some (true, h) => Some (true, (visited, h))
          | Some (false, h) =>
              '(eps, h) ← getTransitionsOnSymbol this EPSILON h;
              for_of_some (λ nextState '(visited, h), matches fuel nextState string visited h)
                          eps (visited, h)
          end
      end
  end.

(** [forEach(state => closure.add(state))] *)
Definition Set_addAll (s : list nat) (l : list nat) : list nat := foldl Set_add s l.

Definition closure_of (h : heap) (s : ref) : list ref :=
  default [] (st ← h !! s; _epsilonClosure st).

Definition set_closure (s : ref) (c : list ref) (h : heap) : heap :=
  match h !! s with
  | Some st => <[s := with_epsilonClosure c st]> h
  | None => h
  end.

(** [getEpsilonClosure]: the result set is installed in [this._epsilonClosure]
    before the successors are visited, and every [closure.add] writes to that
    same object, so a re-entrant call on a state still being computed returns
    its set as filled so far. *)
Fixpoint getEpsilonClosure (fuel : nat) (this : ref) (h : heap)
  : option (list ref * heap) :=
  match fuel with
  | 0 => None
  | S fuel =>
      st ← h !! this;
      match _epsilonClosure st with
      | Some closure => Some (closure, h)
      | None =>
          '(epsilonTransitions, h) ← getTransitionsOnSymbol this EPSILON h;
          let h := set_closure this (Set_add [] this) h in
          h ← foldl (λ oh nextState,
                 h ← oh;
                 if Set_has (closure_of h this) nextState then Some h else
                 let h := set_closure this (Set_add (closure_of h this) nextState) h in
                 '(nextClosure, h) ← getEpsilonClosure fuel nextState h;
                 Some (set_closure this (Set_addAll (closure_of h this) nextClosure) h))
               (Some h) epsilonTransitions;
          Some (closure_of h this, h)
      end
  end.

(** ** Plain JavaScript objects *)

(** An object whose keys are state ids.  Integer keys are enumerated in
    ascending numeric order ([Object.keys], [for ... in]); a number used as
    a key and the key string read back with [Number(...)] are identified.
    State ids are taken below [2^32 - 1], the range in which JavaScript
    orders integer keys numerically. *)
Abbreviation iobj V := (list (nat * V)) (only parsing).

Fixpoint iobj_get {V} (o : iobj V) (k : nat) : option V :=
  match o with
  | [] => None
  | (k', v) :: o' => if k =? k' then Some v else iobj_get o' k
  end.

Fixpoint iobj_set {V} (o : iobj V) (k : nat) (v : V) : iobj V :=
  match o with
  | [] => [(k, v)]
  | (k', v') :: o' =>
      if k =? k' then (k, v) :: o'
      else if k <? k' then (k, v) :: o
      else (k', v') :: iobj_set o' k v
  end.

Definition iobj_keys {V} (o : iobj V) : list nat := o.*1.

(** An object whose keys are arbitrary strings (symbols, DFA labels).  Keys
    that are canonical array indices come first in ascending numeric order,
    the others follow in insertion order.  Only own properties are
    modelled, not the prototype chain: the model is that of the JavaScript
    object for keys other than ['__proto__'] (an assignment to that name
    sets the prototype and stores no column) and for reads of names that
    [Object.prototype] does not define. *)
Abbreviation sobj V := (list (string * V)) (only parsing).

Definition digit_of (a : ascii) : option N :=
  let n := N_of_ascii a in
  if ((48 <=? n) && (n <=? 57))%N then Some (n - 48)%N else None.

Fixpoint digits_value (s : string) (acc : N) : option N :=
  match s with
  | EmptyString => Some acc
  | String a s' => d ← digit_of a; digits_value s' (10 * acc + d)%N
  end.

Definition array_index (s : string) : option N :=
  match s with
  | EmptyString => None
  | String a s' =>
      if (N_of_ascii a =? 48)%N && negb (String.eqb s' "") then None
      else n ← digits_value s 0; if (n <? 4294967295)%N then Some n else None
  end.

Definition key_before (k k' : string) : bool :=
  match array_index k, array_index k' with
  | Some n, Some n' => (n <? n')%N
  | Some _, None => true
  | None, _ => false
  end.

Fixpoint Object_get {V} (o : sobj V) (k : string) : option V :=
  match o with
  | [] => None
  | (k', v) :: o' => if String.eqb k k' then Some v else Object_get o' k
  end.

Fixpoint Object_set {V} (o : sobj V) (k : string) (v : V) : sobj V :=
  match o with
  | [] => [(k, v)]
  | (k', v') :: o' =>
      if String.eqb k k' then (k, v) :: o'
      else if key_before k k' then (k, v) :: o
      else (k', v') :: Object_set o' k v
  end.

Fixpoint Object_delete {V} (o : sobj V) (k : string) : sobj V :=
  match o with
  | [] => []
  | (k', v') :: o' => if String.eqb k k' then o' else (k', v') :: Object_delete o' k
  end.

Definition Object_keys {V} (o : sobj V) : list string := o.*1.

(** [Number.prototype.toString] on a non-negative integer, and
    [Array.prototype.join(',')] on an array of such numbers. *)
Definition Number_toString (n : nat) : string :=
  NilEmpty.string_of_uint (Nat.to_uint n).

Fixpoint join (l : list nat) : string :=
  match l with
  | [] => ""
  | [n] => Number_toString n
  | n :: l' => Number_toString n +:+ "," +:+ join l'
  end.

(** ** NFA fragments *)

Abbreviation nfa_table := (iobj (sobj (list nat))) (only parsing).

(** An [NFA] object: the two boundary states and the memoised fields. *)
Record NFA := mkNFA {
  in_ : ref;
  out : ref;
  _transitionTable : option nfa_table;
  _acceptingStates : option (list ref);
  _alphabet : option (list symbol);
  _acceptingStateNumbers : option (list nat)
}.

(** The program state: all state objects and all fragment objects. *)
Record store := mkStore { states : heap; nfas : list NFA }.

Definition empty_store : store := mkStore [] [].

Definition new_NFAState (acc : bool) (σ : store) : ref * store :=
  let '(r, h) := alloc (new_State acc) (states σ) in (r, mkStore h (nfas σ)).

Definition new_NFA (inState outState : ref) (σ : store) : ref * store :=
  (length (nfas σ),
   mkStore (states σ) (nfas σ ++ [mkNFA inState outState None None None None])).

Definition on_states {A} (f : heap → option (A * heap)) (σ : store) : option (A * store) :=
  '(a, h) ← f (states σ); Some (a, mkStore h (nfas σ)).

Definition upd_states (f : heap → option heap) (σ : store) : option store :=
  h ← f (states σ); Some (mkStore h (nfas σ)).

Definition set_accepting (s : ref) (a : bool) (h : heap) : option heap :=
  st ← h !! s; Some (<[s := with_accepting a st]> h).

Definition set_out (f : ref) (o : ref) (σ : store) : option store :=
  n ← nfas σ !! f;
  Some (mkStore (states σ)
          (<[f := mkNFA (in_ n) o (_transitionTable n) (_acceptingStates n)
                    (_alphabet n) (_acceptingStateNumbers n)]> (nfas σ))).

(** [char(c)]: [[in] --c--> [out]] *)
Definition char (c : symbol) (σ : store) : option (ref * store) :=
  let '(inState, σ) := new_NFAState false σ in
  let '(outState, σ) := new_NFAState true σ in
  σ ← upd_states (addTransition inState c outState) σ;
  Some (new_NFA inState outState σ).

(** [e()] *)
Definition e (σ : store) : option (ref * store) := char EPSILON σ.

(** [altPair(first, second)]; every field is read when its statement runs,
    the assignment [first.out = second.in] included. *)
Definition altPair (first second : ref) (σ : store) : option (ref * store) :=
  f ← nfas σ !! first;
  σ ← upd_states (set_accepting (out f) false) σ;
  s ← nfas σ !! second;
  σ ← upd_states (set_accepting (out s) true) σ;
  σ ← upd_states (addTransition (out f) EPSILON (in_ s)) σ;
  σ ← set_out first (in_ s) σ;
  f ← nfas σ !! first;
  s ← nfas σ !! second;
  Some (new_NFA (in_ f) (out s) σ).

(** [orPair(first, second)] of [NFA-DFA-RegExp.js]; the [NFA.js] version
    leaves the [accepting] flags of the two operands untouched. *)
Definition orPair (first second : ref) (σ : store) : option (ref * store) :=
  let '(inState, σ) := new_NFAState false σ in
  let '(outState, σ) := new_NFAState false σ in
  f ← nfas σ !! first;
  s ← nfas σ !! second;
  σ ← upd_states (addTransition inState EPSILON (in_ f)) σ;
  σ ← upd_states (addTransition inState EPSILON (in_ s)) σ;
  σ ← upd_states (set_accepting outState true) σ;
  σ ← upd_states (set_accepting (out f) false) σ;
  σ ← upd_states (set_accepting (out s) false) σ;
  σ ← upd_states (addTransition (out f) EPSILON outState) σ;
  σ ← upd_states (addTransition (out s) EPSILON outState) σ;
  Some (new_NFA inState outState σ).

(** [alt(first, ...fragments)] and [or(first, ...fragments)]: left folds. *)
Definition fold_pairs (pair : ref → ref → store → option (ref * store))
    (first : ref) (fragments : list ref) (σ : store) : option (ref * store) :=
  foldl (λ acc fragment,
           match acc with
           | Some (first, σ) => pair first fragment σ
           | None => None
           end)
        (Some (first, σ)) fragments.

Definition alt := fold_pairs altPair.
Definition or := fold_pairs orPair.

(** [rep(fragment)]: Kleene star. *)
Definition rep (fragment : ref) (σ : store) : option (ref * store) :=
  let '(inState, σ) := new_NFAState false σ in
  let '(outState, σ) := new_NFAState true σ in
  f ← nfas σ !! fragment;
  σ ← upd_states (addTransition inState EPSILON (in_ f)) σ;
  σ ← upd_states (addTransition inState EPSILON outState) σ;
  σ ← upd_states (set_accepting (out f) false) σ;
  σ ← upd_states (addTransition (out f) EPSILON outState) σ;
  σ ← upd_states (addTransition outState EPSILON (in_ f)) σ;
  Some (new_NFA inState outState σ).

(** [NFA.matches(string)]: [this.in.matches(string)] with a fresh
    [visited] set. *)
Definition NFA_matches (fuel : nat) (this : ref) (string : list symbol) (σ : store)
  : option (bool * store) :=
  n ← nfas σ !! this;
  match matches fuel (in_ n) string [] (states σ) with
  | Some (b, (_, h)) => Some (b, mkStore h (nfas σ))
  | None => None
  end.

(** ** NFA transition table *)

(** The variables captured by the [visitState] closure. *)
Record build := mkBuild {
  b_heap : heap;
  b_table : nfa_table;
  b_accepting : list ref;
  b_visited : list ref
}.

Definition number_of (h : heap) (s : ref) : option nat := st ← h !! s; number st.

(** [table[n][symbol] = v] *)
Definition table_set_cell (t : nfa_table) (n : nat) (symbol : symbol) (v : list nat)
  : option nfa_table :=
  row ← iobj_get t n; Some (iobj_set t n (Object_set row symbol v)).

(** [visitState(state)]: depth-first numbering; the row of a state is
    filled symbol by symbol after the targets of that symbol have been
    visited.  (The local set [symbols] is written but never read.) *)
Fixpoint visitState (fuel : nat) (state : ref) (β : build) : option build :=
  match fuel with
  | 0 => None
  | S fuel =>
      if Set_has (b_visited β) state then Some β else
      st ← b_heap β !! state;
      let visited := Set_add (b_visited β) state in
      let n := length visited in
      let β := mkBuild (<[state := with_number n st]> (b_heap β))
                       (iobj_set (b_table β) n [])
                       (if accepting st then Set_add (b_accepting β) state
                        else b_accepting β)
                       visited in
      foldl (λ acc (entry : symbol * list ref),
               β ← acc;
               r ← foldl (λ acc nextState,
                            match acc with
                            | Some (combinedState, β) =>
                                β ← visitState fuel nextState β;
                                k ← number_of (b_heap β) nextState;
                                Some (combinedState ++ [k], β)
                            | None => None
                            end)
                         (Some ([], β)) entry.2;
               t ← table_set_cell (b_table r.2) n entry.1 r.1;
               Some (mkBuild (b_heap r.2) t (b_accepting r.2) (b_visited r.2)))
            (Some β) (_transitions st)
  end.

(** [[...state.getEpsilonClosure()].map(s => s.number)] *)
Definition closure_numbers (h : heap) (closure : list ref) : option (list nat) :=
  mapM (number_of h) closure.

(** The [visited.forEach] pass that replaces the [ε] column by [ε*]. *)
Definition append_closures (fuel : nat) (visited : list ref) (h : heap) (t : nfa_table)
  : option (heap * nfa_table) :=
  foldl (λ acc state,
           match acc with
           | Some (h, t) =>
               n ← number_of h state;
               row ← iobj_get t n;
               let t := iobj_set t n (Object_delete row EPSILON) in
               '(closure, h) ← getEpsilonClosure fuel state h;
               ns ← closure_numbers h closure;
               t ← table_set_cell t n EPSILON_CLOSURE ns;
               Some (h, t)
           | None => None
           end)
        (Some (h, t)) visited.

Definition set_nfa (this : ref) (n : NFA) (σ : store) : store :=
  mkStore (states σ) (<[this := n]> (nfas σ)).

(** [NFA.getTransitionTable()] *)
Definition NFA_getTransitionTable (fuel : nat) (this : ref) (σ : store)
  : option (nfa_table * store) :=
  n ← nfas σ !! this;
  match _transitionTable n with
  | Some t => Some (t, σ)
  | None =>
      β ← visitState fuel (in_ n) (mkBuild (states σ) [] [] []);
      '(h, t) ← append_closures fuel (b_visited β) (b_heap β) (b_table β);
      Some (t, set_nfa this
                 (mkNFA (in_ n) (out n) (Some t) (Some (b_accepting β))
                        (_alphabet n) (_acceptingStateNumbers n))
                 (mkStore h (nfas σ)))
  end.

(** [NFA.getAlphabet()] *)
Definition NFA_getAlphabet (fuel : nat) (this : ref) (σ : store)
  : option (list symbol * store) :=
  n ← nfas σ !! this;
  match _alphabet n with
  | Some a => Some (a, σ)
  | None =>
      '(table, σ) ← NFA_getTransitionTable fuel this σ;
      let a := foldl (λ a (row : nat * sobj (list nat)),
                        foldl (λ a symbol,
                                 if String.eqb symbol EPSILON_CLOSURE then a
                                 else SSet_add a symbol)
                              a (Object_keys row.2))
                     [] table in
      n ← nfas σ !! this;
      Some (a, set_nfa this
                 (mkNFA (in_ n) (out n) (_transitionTable n) (_acceptingStates n)
                        (Some a) (_acceptingStateNumbers n)) σ)
  end.

(** [NFA.getAcceptingStates()] *)
Definition NFA_getAcceptingStates (fuel : nat) (this : ref) (σ : store)
  : option (list ref * store) :=
  n ← nfas σ !! this;
  match _acceptingStates n with
  | Some a => Some (a, σ)
  | None =>
      '(_, σ) ← NFA_getTransitionTable fuel this σ;
      n ← nfas σ !! this;
      a ← _acceptingStates n;
      Some (a, σ)
  end.

(** [NFA.getAcceptingStateNumbers()] *)
Definition NFA_getAcceptingStateNumbers (fuel : nat) (this : ref) (σ : store)
  : option (list nat * store) :=
  n ← nfas σ !! this;
  match _acceptingStateNumbers n with
  | Some a => Some (a, σ)
  | None =>
      '(acc, σ) ← NFA_getAcceptingStates fuel this σ;
      ns ← mapM (number_of (states σ)) acc;
      let a := Set_from ns in
      n ← nfas σ !! this;
      Some (a, set_nfa this
                 (mkNFA (in_ n) (out n) (_transitionTable n) (_acceptingStates n)
                        (_alphabet n) (Some a)) σ)
  end.

(** ** DFA by subset construction *)

Abbreviation dfa_table := (sobj (sobj string)) (only parsing).

(** A [DFA] object: the reference to its NFA and the fields filled by
    [getTransitionTable]. *)
Record DFA := mkDFA {
  dfa_nfa : ref;
  dfa_transitionTable : option dfa_table;
  dfa_startingStateNumber : option string;
  dfa_acceptingStateNumbers : option (list string)
}.

Definition new_DFA (nfa : ref) : DFA := mkDFA nfa None None None.

(** The body of [states.forEach(state => ...)] for one alphabet symbol:
    the concatenated closures of the targets, or [None] when [nfaTable[state]]
    is missing. *)
Definition onSymbol_of (nfaTable : nfa_table) (states : list nat) (symbol : symbol)
  : option (list nat) :=
  foldl (λ acc state,
           onSymbol ← acc;
           row ← iobj_get nfaTable state;
           match Object_get row symbol with
           | None => Some onSymbol
           | Some nfaStatesOnSymbol =>
               foldl (λ acc nfaStateOnSymbol,
                        onSymbol ← acc;
                        match iobj_get nfaTable nfaStateOnSymbol with
                        | None => Some onSymbol
                        | Some row' =>
                            c ← Object_get row' EPSILON_CLOSURE;
                            Some (onSymbol ++ c)
                        end)
                     (Some onSymbol) nfaStatesOnSymbol
           end)
        (Some []) states.

(** The variables of the worklist loop. *)
Record subset_state := mkSubset {
  worklist : list (list nat);
  dfaTable : dfa_table;
  acceptingLabels : list string
}.

Definition Object_has {V} (o : sobj V) (k : string) : bool :=
  match Object_get o k with Some _ => true | None => false end.

(** One alphabet symbol inside one iteration of the [while] loop: the
    body of [this.getAlphabet().forEach(symbol => ...)]. *)
Definition subset_symbol (fuel : nat) (nfa : ref) (nfaTable : nfa_table)
    (states : list nat) (dfaStateLabel : string) (symbol : symbol)
    (s : subset_state) (σ : store) : option (subset_state * store) :=
  onSymbol ← onSymbol_of nfaTable states symbol;
  let dfaStatesOnSymbol := Set_from onSymbol in
  match dfaStatesOnSymbol with
  | [] => Some (s, σ)
  | _ =>
      let dfaOnSymbolStr := join dfaStatesOnSymbol in
      '(nfaAcceptingStates, σ) ← NFA_getAcceptingStateNumbers fuel nfa σ;
      let acc := if existsb (Set_has dfaStatesOnSymbol) nfaAcceptingStates
                 then SSet_add (acceptingLabels s) dfaOnSymbolStr
                 else acceptingLabels s in
      row ← Object_get (dfaTable s) dfaStateLabel;
      let t := Object_set (dfaTable s) dfaStateLabel
                 (Object_set row symbol dfaOnSymbolStr) in
      Some (mkSubset (if Object_has t dfaOnSymbolStr then worklist s
                      else dfaStatesOnSymbol :: worklist s)
                     t acc,
            σ)
  end.

(** One iteration: [worklist.shift()], a fresh row, then every symbol of
    [this.getAlphabet()]. *)
Definition subset_step (fuel : nat) (nfa : ref) (nfaTable : nfa_table)
    (states : list nat) (s : subset_state) (σ : store)
  : option (subset_state * store) :=
  let dfaStateLabel := join states in
  '(alphabet, σ) ← NFA_getAlphabet fuel nfa σ;
  foldl (λ acc symbol,
           '(s, σ) ← acc;
           subset_symbol fuel nfa nfaTable states dfaStateLabel symbol s σ)
        (Some (mkSubset (worklist s) (Object_set (dfaTable s) dfaStateLabel [])
                        (acceptingLabels s),
               σ))
        alphabet.

(** [while (worklist.length > 0) { ... }]; [rounds] bounds the number of
    iterations, [fuel] is handed to the NFA getters. *)
Fixpoint subset_while (rounds fuel : nat) (nfa : ref) (nfaTable : nfa_table)
    (s : subset_state) (σ : store) : option (subset_state * store) :=
  match worklist s with
  | [] => Some (s, σ)
  | states :: rest =>
      match rounds with
      | 0 => None
      | S rounds =>
          '(s, σ) ← subset_step fuel nfa nfaTable states
                      (mkSubset rest (dfaTable s) (acceptingLabels s)) σ;
          subset_while rounds fuel nfa nfaTable s σ
      end
  end.

(** [DFA.getTransitionTable()] *)
Definition DFA_getTransitionTable (fuel : nat) (this : DFA) (σ : store)
  : option (dfa_table * DFA * store) :=
  match dfa_transitionTable this with
  | Some t => Some (t, this, σ)
  | None =>
      '(nfaTable, σ) ← NFA_getTransitionTable fuel (dfa_nfa this) σ;
      first ← head (iobj_keys nfaTable);
      row ← iobj_get nfaTable first;
      startState ← Object_get row EPSILON_CLOSURE;
      '(s, σ) ← subset_while fuel fuel (dfa_nfa this) nfaTable
                   (mkSubset [startState] [] []) σ;
      Some (dfaTable s,
            mkDFA (dfa_nfa this) (Some (dfaTable s)) (Some (join startState))
                  (Some (acceptingLabels s)),
            σ)
  end.

(** [DFA.getStartingStateNumber()]; an unset or empty label is falsy. *)
Definition DFA_getStartingStateNumber (fuel : nat) (this : DFA) (σ : store)
  : option (option string * DFA * store) :=
  match dfa_startingStateNumber this with
  | Some (String a l) => Some (Some (String a l), this, σ)
  | _ =>
      '(_, this, σ) ← DFA_getTransitionTable fuel this σ;
      Some (dfa_startingStateNumber this, this, σ)
  end.

(** [DFA.getAcceptingStateNumbers()] *)
Definition DFA_getAcceptingStateNumbers (fuel : nat) (this : DFA) (σ : store)
  : option (list string * DFA * store) :=
  match dfa_acceptingStateNumbers this with
  | Some a => Some (a, this, σ)
  | None =>
      '(_, this, σ) ← DFA_getTransitionTable fuel this σ;
      a ← dfa_acceptingStateNumbers this;
      Some (a, this, σ)
  end.

(** The [while (string[i])] loop of [DFA.matches]: [Some None] is the
    [return false] on a missing transition, [None] a [TypeError] on a label
    without a row. *)
Fixpoint dfa_walk (table : dfa_table) (state : string) (input : list symbol)
  : option (option string) :=
  match input with
  | [] => Some (Some state)
  | c :: rest =>
      row ← Object_get table state;
      match Object_get row c with
      | Some (String a l) => dfa_walk table (String a l) rest
      | _ => Some None
      end
  end.

(** [DFA.matches(string)] *)
Definition DFA_matches (fuel : nat) (this : DFA) (string : list symbol) (σ : store)
  : option (bool * DFA * store) :=
  '(start, this, σ) ← DFA_getStartingStateNumber fuel this σ;
  state ← start;
  '(table, this, σ) ← DFA_getTransitionTable fuel this σ;
  r ← dfa_walk table state string;
  match r with
  | None => Some (false, this, σ)
  | Some state =>
      '(acc, this, σ) ← DFA_getAcceptingStateNumbers fuel this σ;
      Some (SSet_has acc state, this, σ)
  end.

(** ** DFA minimization ([dfa-minimization.js]) *)

(** Outcome of a call: a value, a thrown [TypeError], or fuel exhausted in
    the [while] loop. *)
Inductive completion (A : Type) : Type :=
  | Normal (a : A)
  | Throw
  | OutOfFuel.
Arguments Normal {A} a.
Arguments Throw {A}.
Arguments OutOfFuel {A}.

(** A DFA table: state id -> symbol -> target id.  A cell can hold
    [undefined] ([None]): [minimize] writes the result of a failed
    [remaped.get] into its output. *)
Abbreviation min_row := (sobj (option nat)) (only parsing).
Abbreviation min_table := (iobj min_row) (only parsing).

(** The module-level variables.  [Set] objects are compared by identity
    and filled in place, so they live in a store; [accepting] is the first
    object allocated.  [currentTransitionMap] maps a state id to the [Set]
    object of its class. *)
Record mstate := mkM {
  sets : list (list nat);
  currentTransitionMap : iobj ref
}.

(** [let table = {1: {a: 2, b: 3}, 2: {}, 3: {}}] *)
Definition table : min_table :=
  [(1, [("a", Some 2); ("b", Some 3)]); (2, []); (3, [])].

(** [const accepting = new Set([2, 3])] *)
Definition accepting_ref : ref := 0.

(** [const alphabet = new Set(['a', 'b'])] *)
Definition alphabet : list symbol := ["a"; "b"].

(** The module variables as they are declared (lines 12 to 31):
    [accepting] holds [{2, 3}] and [currentTransitionMap = {}].  This is the
    state in which the file's own call [minimize(table)], its last line,
    starts; [module_loaded] below is the state that call leaves. *)
Definition module_init : mstate := mkM [[2; 3]] [].

Definition set_of (m : mstate) (r : ref) : list nat := default [] (sets m !! r).

(** [s1[symbol] === s2[symbol]] for two [Set] objects: a [Set] has no own
    string-keyed property; of the inherited ones only the [size] accessor
    depends on the object, every other name is the same function or object
    for both, and an unknown name is [undefined] for both. *)
Definition Set_prop_same (s1 s2 : list nat) (symbol : symbol) : bool :=
  if String.eqb symbol "size" then length s1 =? length s2 else true.

(** [goToSameSet(s1, s2, symbol)] *)
Definition goToSameSet (m : mstate) (s1 s2 : nat) (symbol : symbol) : bool :=
  match iobj_get (currentTransitionMap m) s1, iobj_get (currentTransitionMap m) s2 with
  | Some c1, Some c2 => Set_prop_same (set_of m c1) (set_of m c2) symbol
  | _, _ => false
  end.

(** [areEquivalent(s1, s2)] *)
Definition areEquivalent (m : mstate) (s1 s2 : nat) : bool :=
  forallb (goToSameSet m s1 s2) alphabet.

(** [[...s].sort()]: the default comparison is on the decimal strings. *)
Fixpoint sort_insert (x : nat) (l : list nat) : list nat :=
  match l with
  | [] => [x]
  | y :: l' =>
      if String.leb (Number_toString y) (Number_toString x)
      then y :: sort_insert x l' else x :: l
  end.

Definition Array_sort (l : list nat) : list nat := foldl (λ acc x, sort_insert x acc) [] l.

(** [sameRow(r1, r2)]; [r2] is [undefined] in the first test. *)
Definition sameRow (m : mstate) (r1 : list ref) (r2 : option (list ref)) : bool :=
  match r2 with
  | None => false
  | Some r2 =>
      (length r1 =? length r2) &&
      forallb (λ p : ref * ref,
                 (length (set_of m p.1) =? length (set_of m p.2)) &&
                 String.eqb (join (Array_sort (set_of m p.1)))
                            (join (Array_sort (set_of m p.2))))
              (zip r1 r2)
  end.

(** The [allStates.forEach] pass: every row of the table is filed under
    [accepting] or under the fresh set [nonAccepting]. *)
Definition init_classes (table : min_table) (m : mstate) : ref * mstate :=
  let nonAccepting := length (sets m) in
  (nonAccepting,
   foldl (λ m state,
            if Set_has (set_of m accepting_ref) state
            then mkM (sets m) (iobj_set (currentTransitionMap m) state accepting_ref)
            else mkM (<[nonAccepting := Set_add (set_of m nonAccepting) state]> (sets m))
                     (iobj_set (currentTransitionMap m) state nonAccepting))
         (mkM (sets m ++ [[]]) (currentTransitionMap m))
         (iobj_keys table)).

(** One iteration of [restSets]: [state] joins the class of the first
    handled state (in key order) it is equivalent to, or opens a class. *)
Definition handle_state (acc : mstate * iobj ref) (state : nat) : mstate * iobj ref :=
  let '(m, handledStates) := acc in
  match find (λ handledState, areEquivalent m state handledState)
             (iobj_keys handledStates) with
  | Some handledState =>
      match iobj_get handledStates handledState with
      | Some r =>
          (mkM (<[r := Set_add (set_of m r) state]> (sets m)) (currentTransitionMap m),
           iobj_set handledStates state r)
      | None => acc
      end
  | None =>
      (mkM (sets m ++ [[state]]) (currentTransitionMap m),
       iobj_set handledStates state (length (sets m)))
  end.

(** [Object.assign(target, source)] *)
Definition Object_assign (target source : iobj ref) : iobj ref :=
  foldl (λ t (kv : nat * ref), iobj_set t kv.1 kv.2) target source.

(** The body of [for (const set of current)].  A class is never empty;
    the model stops if it meets one. *)
Definition handle_set (acc : completion (mstate * iobj ref)) (set : ref)
  : completion (mstate * iobj ref) :=
  match acc with
  | Normal (m, newTransitionMap) =>
      match set_of m set with
      | [] => Throw
      | first :: rest =>
          let '(m, handledStates) :=
            foldl handle_state
                  (mkM (sets m ++ [[first]]) (currentTransitionMap m),
                   iobj_set [] first (length (sets m)))
                  rest in
          Normal (m, Object_assign newTransitionMap handledStates)
      end
  | other => other
  end.

Arguments handle_set : simpl never.

(** The body of the [while] loop: returns the new [current]. *)
Definition refine_round (m : mstate) (current : list ref) : completion (mstate * list ref) :=
  match foldl handle_set (Normal (m, [])) current with
  | Normal (m, newTransitionMap) =>
      Normal (mkM (sets m) newTransitionMap, Set_from (newTransitionMap.*2))
  | Throw => Throw
  | OutOfFuel => OutOfFuel
  end.

(** [while (!sameRow(current, previous)) { ... }] *)
Fixpoint refine (fuel : nat) (m : mstate) (current : list ref) (previous : option (list ref))
  : completion (mstate * list ref) :=
  if sameRow m current previous then Normal (m, current) else
  match fuel with
  | 0 => OutOfFuel
  | S fuel =>
      match refine_round m current with
      | Normal (m', newSets) => refine fuel m' newSets (Some current)
      | other => other
      end
  end.

(** [remaped]: a [Map] from [Set] object to its 1-based index. *)
Fixpoint RMap_get (m : list (ref * nat)) (k : ref) : option nat :=
  match m with
  | [] => None
  | (k', v) :: m' => if k =? k' then Some v else RMap_get m' k
  end.

Fixpoint RMap_set (m : list (ref * nat)) (k : ref) (v : nat) : list (ref * nat) :=
  match m with
  | [] => [(k, v)]
  | (k', v') :: m' => if k =? k' then (k, v) :: m' else (k', v') :: RMap_set m' k v
  end.

Definition remap (current : list ref) : list (ref * nat) :=
  (foldl (λ (acc : list (ref * nat) * nat) set, (RMap_set acc.1 set acc.2, S acc.2))
         ([], 1) current).1.

(** A number is truthy unless it is [0]; [undefined] is falsy. *)
Definition truthy (v : option (option nat)) : option nat :=
  match v with
  | Some (Some (S n)) => Some (S n)
  | _ => None
  end.

(** Step 2 of [minimize], innermost body: the cell of [symbol] in the
    row [idx] of the class [set]. *)
Definition build_cell (table : min_table) (m : mstate) (remaped : list (ref * nat))
    (entry : ref * nat) (acc : completion min_table) (symbol : symbol)
  : completion min_table :=
  match acc with
  | Normal minimized =>
      match head (set_of m entry.1) ≫= iobj_get table with
      | None => Throw
      | Some row =>
          match truthy (Object_get row symbol) with
          | None => Normal minimized
          | Some originalTransition =>
              let target :=
                iobj_get (currentTransitionMap m) originalTransition ≫= RMap_get remaped in
              Normal (iobj_set minimized entry.2
                        (Object_set (default [] (iobj_get minimized entry.2)) symbol target))
          end
      end
  | other => other
  end.

(** The body of [for (const [set, idx] of remaped.entries())]. *)
Definition build_row (table : min_table) (m : mstate) (remaped : list (ref * nat))
    (acc : completion min_table) (entry : ref * nat) : completion min_table :=
  foldl (build_cell table m remaped entry)
        (match acc with
         | Normal minimized => Normal (iobj_set minimized entry.2 [])
         | other => other
         end)
        alphabet.

(** One row per class, copied from the first member of the class. *)
Definition build_minimized (table : min_table) (m : mstate) (remaped : list (ref * nat))
  : completion min_table :=
  foldl (build_row table m remaped) (Normal []) remaped.

(** [minimize(table)]: the result and the module state it leaves. *)
Definition minimize (fuel : nat) (table : min_table) (m : mstate)
  : completion min_table * mstate :=
  let '(nonAccepting, m) := init_classes table m in
  let current :=
    List.filter (λ set, 0 <? length (set_of m set)) [nonAccepting; accepting_ref] in
  match refine fuel m current None with
  | Normal (m, current) => (build_minimized table m (remap current), m)
  | Throw => (Throw, m)
  | OutOfFuel => (OutOfFuel, m)
  end.

(** ** Path semantics of a state graph *)

(** The targets of [s] on symbol [c], and the accepting flag, read without
    touching the store. *)
Definition targets (h : heap) (s : ref) (c : symbol) : list ref :=
  match h !! s with
  | Some st => default [] (Map_get (_transitions st) c)
  | None => []
  end.

Definition is_accepting (h : heap) (s : ref) : bool :=
  match h !! s with
  | Some st => accepting st
  | None => false
  end.

(** [accepts h s w]: the walk that [matches] performs.  From [s] it
    follows [EPSILON] edges without reading and edges labelled with the
    next input character while reading it, until [w] is used up in an
    accepting state.  The edge map is keyed by strings and [EPSILON] is the
    string ['ε'], so when the next input character is ['ε'] the walk also
    follows an [EPSILON] edge while reading it; [run] below is the path
    notion that excludes this. *)
Inductive accepts (h : heap) : ref → list symbol → Prop :=
  | accepts_end s :
      is_accepting h s = true → accepts h s []
  | accepts_epsilon s t w :
      t ∈ targets h s EPSILON → accepts h t w → accepts h s w
  | accepts_symbol s t c w :
      t ∈ targets h s c → accepts h t w → accepts h s (c :: w).

(** Every reference stored in a transition set names a state of the store
    (JavaScript references cannot dangle). *)
Definition wf_heap (h : heap) : bool :=
  forallb (λ st, forallb (λ e : symbol * list ref, forallb (λ t, t <? length h) e.2)
                         (_transitions st)) h.

(** Fuel that suffices for [matches] on input [w] in store [h]. *)
Definition matches_fuel (h : heap) (w : list symbol) : nat :=
  length w * S (length h) + S (length h).

(** Two stores describe the same graph: [getTransitionsOnSymbol] only
    ever adds empty target sets. *)
Definition same_graph (h h' : heap) : Prop :=
  length h' = length h ∧
  (∀ s, is_accepting h' s = is_accepting h s) ∧
  (∀ s c, targets h' s c = targets h s c).

(** [goal h w x]: from [x] the walk on [w] succeeds without a further
    epsilon step: [x] is accepting when [w] is empty, otherwise an edge on
    the first symbol leads to a state that accepts the rest. *)
Definition goal (h : heap) (w : list symbol) (x : ref) : Prop :=
  match w with
  | [] => is_accepting h x = true
  | c :: r => ∃ t, t ∈ targets h x c ∧ accepts h t r
  end.

(** A [visited] set of the store: duplicate-free references to its states. *)
Definition valid_visited (h : heap) (V : list ref) : Prop :=
  NoDup V ∧ ∀ x, x ∈ V → x < length h.

(** What a call [matches(w, V)] on [s] that returns [b] and leaves the
    visited set [V'] guarantees. *)
Definition dfs_post (h : heap) (w : list symbol) (s : ref) (V : list ref)
    (b : bool) (V' : list ref) : Prop :=
  valid_visited h V' ∧ V ⊆ V' ∧ length V ≤ length V' ∧
  if b then accepts h s w
  else s ∈ V' ∧
       ∀ x, x ∈ V' → x ∉ V →
            ¬ goal h w x ∧ ∀ t, t ∈ targets h x EPSILON → t ∈ V'.

(** The contract of [matches] with [fuel] units of fuel, on the graph
    of [h]. *)
Definition matches_ok (h : heap) (fuel : nat) : Prop :=
  ∀ w s V h',
    same_graph h h' → s < length h → valid_visited h V →
    length w * S (length h) + (length h - length V) + 1 ≤ fuel →
    ∃ b V' h'',
      matches fuel s w V h' = Some (b, (V', h'')) ∧ same_graph h h'' ∧ dfs_post h w s V b V'.

(** ** Labels of the subset construction *)

Fixpoint no_comma (s : string) : Prop :=
  match s with
  | EmptyString => True
  | String a s' => a ≠ ","%char ∧ no_comma s'
  end.

(** ** What [minimize] computes *)

(** The keys of an integer-keyed object come in ascending order. *)
Fixpoint iobj_sorted {V} (o : iobj V) : Prop :=
  match o with
  | [] => True
  | (k, _) :: o' => Forall (λ p : nat * V, k < p.1) o' ∧ iobj_sorted o'
  end.

(** [accepting] still holds the two ids it was created with. *)
Definition module_ok (m : mstate) : Prop := sets m !! accepting_ref = Some [2; 3].

Definition has_entry {V} (o : iobj V) (k : nat) : bool :=
  match iobj_get o k with Some _ => true | None => false end.

(** The rows of the table that are not accepting ids, in key order. *)
Definition nonAccepting_ids (t : min_table) : list nat :=
  Set_from (List.filter (λ k, negb (Set_has [2; 3] k)) (iobj_keys t)).

(** Whether the non-accepting class holds the smallest id, and so is
    numbered first. *)
Definition nonAccepting_first (t : min_table) : bool :=
  existsb (λ k, k <? 2) (nonAccepting_ids t).

(** The result state of an id: the accepting ids form one class, the
    remaining rows the other. *)
Definition class_index (t : min_table) (x : nat) : option nat :=
  if Set_has [2; 3] x then
    Some (match nonAccepting_ids t with
          | [] => 1
          | _ => if nonAccepting_first t then 2 else 1
          end)
  else if Set_has (nonAccepting_ids t) x then
    Some (if nonAccepting_first t then 1 else 2)
  else None.

(** The row copied from the row of [first]. *)
Definition spec_row (t : min_table) (first : nat) : min_row :=
  foldl (λ row symbol,
           match truthy (iobj_get t first ≫= λ r, Object_get r symbol) with
           | Some target => Object_set row symbol (class_index t target)
           | None => row
           end)
        [] alphabet.

(** The table [minimize] returns when the table has a row for id 2 and
    id 3 has a row or a left-over class. *)
Definition minimized_spec (t : min_table) : min_table :=
  match nonAccepting_ids t with
  | [] => [(1, spec_row t 2)]
  | n :: _ =>
      if nonAccepting_first t then [(1, spec_row t n); (2, spec_row t 2)]
      else [(1, spec_row t 2); (2, spec_row t n)]
  end.

(** What a refinement round needs: [current] lists the class objects of
    the non-accepting rows (when there are any) and of the accepting ids, in
    either order, and every member has an entry in [currentTransitionMap]. *)
Definition round_input (t : min_table) (m : mstate) (current : list ref) : Prop :=
  module_ok m ∧
  (∀ x, x ∈ [2; 3] ++ nonAccepting_ids t → has_entry (currentTransitionMap m) x = true) ∧
  ∃ rN rA,
    rN ≠ rA ∧ rN < length (sets m) ∧ rA < length (sets m) ∧
    set_of m rA = [2; 3] ∧
    (nonAccepting_ids t ≠ [] → set_of m rN = nonAccepting_ids t) ∧
    (current = match nonAccepting_ids t with [] => [rA] | _ => [rN; rA] end ∨
     current = match nonAccepting_ids t with [] => [rA] | _ => [rA; rN] end).

(** What a refinement round establishes: the same two classes, listed
    with the class of the smallest id first, and [currentTransitionMap]
    sending exactly their members to them. *)
Definition round_output (t : min_table) (m : mstate) (current : list ref) : Prop :=
  module_ok m ∧
  ∃ rN rA,
    rN ≠ rA ∧ rN < length (sets m) ∧ rA < length (sets m) ∧
    set_of m rA = [2; 3] ∧
    (nonAccepting_ids t ≠ [] → set_of m rN = nonAccepting_ids t) ∧
    current = match nonAccepting_ids t with
              | [] => [rA]
              | _ => if nonAccepting_first t then [rN; rA] else [rA; rN]
              end ∧
    ∀ x, iobj_get (currentTransitionMap m) x
         = if Set_has [2; 3] x then Some rA
           else if Set_has (nonAccepting_ids t) x then Some rN else None.

(** ** Invariants of the NFA table builder *)

(** A store on which no table has been built yet: no state carries a
    [number] or a memoised closure, no fragment a memoised table. *)
Definition fresh_store (σ : store) : bool :=
  forallb (λ st, match number st, _epsilonClosure st with
                 | None, None => true
                 | _, _ => false
                 end) (states σ)
  && forallb (λ n, match _transitionTable n with None => true | Some _ => false end)
             (nfas σ).

(** Memoised closures are [Set]s. *)
Definition closures_nodup (h : heap) : Prop :=
  ∀ s st c, h !! s = Some st → _epsilonClosure st = Some c → NoDup c.

(** The numbers in the store are the 1-based positions in [visited]. *)
Definition numbering_ok (h : heap) (visited : list ref) : Prop :=
  NoDup visited ∧
  (∀ x k, number_of h x = Some k → ∃ i, visited !! i = Some x ∧ k = S i) ∧
  (∀ i x, visited !! i = Some x → number_of h x = Some (S i)).

(** The rows of the table are numbered by visited states. *)
Definition keys_ok (t : nfa_table) (visited : list ref) : Prop :=
  ∀ k, k ∈ iobj_keys t → ∃ i, k = S i ∧ i < length visited.

Definition build_ok (β : build) : Prop :=
  numbering_ok (b_heap β) (b_visited β) ∧ keys_ok (b_table β) (b_visited β) ∧
  closures_nodup (b_heap β).

(** The closure column of row [k], when present, is duplicate-free. *)
Definition closure_cell_ok (t : nfa_table) (k : nat) : Prop :=
  ∀ row c, iobj_get t k = Some row → Object_get row EPSILON_CLOSURE = Some c → NoDup c.

(** ** Example inputs *)

(** The state objects of [rep(char('a'))]: 0 and 1 are the two states of
    [char('a')], 2 and 3 the entry and exit states added by [rep]. *)
Definition star_heap : heap :=
  [mkState [("a", [1])] false None None;
   mkState [(EPSILON, [3])] false None None;
   mkState [(EPSILON, [0; 3])] false None None;
   mkState [(EPSILON, [0])] true None None].

(** The store after [rep(char('a'))]: fragment 0 is [char('a')], fragment 1
    the star. *)
Definition star_store : store :=
  mkStore star_heap [mkNFA 0 1 None None None None; mkNFA 2 3 None None None None].

(** The DFA table built for fragment 1 of [star_store], and the DFA object
    after the construction. *)
Definition star_dfa_table : dfa_table :=
  [(join [1; 2; 4], [("a", join [3; 4; 2])]); (join [3; 4; 2], [("a", join [3; 4; 2])])].

Definition star_dfa : DFA :=
  mkDFA 1 (Some star_dfa_table) (Some (join [1; 2; 4])) (Some [join [3; 4; 2]]).


(** [rep(char('a'))]: zero or more [a]. *)
Definition a_star : option (ref * store) :=
  '(a, σ) ← char "a" empty_store; rep a σ.

(** [char('a')] *)
Definition just_a : option (ref * store) := char "a" empty_store.

(** [rep(alt(rep(char('x')), rep(or(char('b'), char('x')))))]: a star
    around "zero or more x, then zero or more of b-or-x". *)
Definition xs_then_bxs_star : option (ref * store) :=
  '(x1, σ) ← char "x" empty_store;
  '(r1, σ) ← rep x1 σ;
  '(b, σ) ← char "b" σ;
  '(x2, σ) ← char "x" σ;
  '(o2, σ) ← or b [x2] σ;
  '(r2, σ) ← rep o2 σ;
  '(al, σ) ← alt r1 [r2] σ;
  rep al σ.

(** Four states on one epsilon cycle [0 -> 1 -> 2 -> 3 -> 0], built with
    [new NFAState()] and [addTransition(EPSILON, ...)]. *)
Definition epsilon_cycle4 : option heap :=
  let h := [new_State false; new_State false; new_State false; new_State false] in
  h ← addTransition 0 EPSILON 1 h;
  h ← addTransition 1 EPSILON 2 h;
  h ← addTransition 2 EPSILON 3 h;
  addTransition 3 EPSILON 0 h.

(** A table in which states 1 and 4 are both non-accepting, 1 moves into
    the accepting class on [a] and 4 stays in the non-accepting class. *)
Definition table_1_4 : min_table :=
  [(1, [("a", Some 2)]); (2, []); (3, []); (4, [("a", Some 4)])].

(** A table with a row for the accepting id 2 but none for 3. *)
Definition table_no_3 : min_table := [(1, [("a", Some 2)]); (2, [])].

(** The module state left by [minimize(table_1_4)] run on the variables
    as declared. *)
Definition state_after_table_1_4 : mstate :=
  mkM [[2; 3]; [1; 4]; [1; 4]; [2; 3]] [(1, 2); (2, 3); (3, 3); (4, 2)].

(** A table whose two rows are the two accepting ids. *)
Definition table_2_3 : min_table := [(2, []); (3, [])].

(** The module state once the file is loaded: its last line has run
    [minimize(table)] on the variables as declared. *)
Definition module_loaded : mstate :=
  mkM [[2; 3]; [1]; [1]; [2; 3]] [(1, 2); (2, 3); (3, 3)].

(** ** Runs and languages of combinator expressions *)

(** [run h s w u]: a path from [s] to [u] that reads [w]; an [EPSILON]
    edge is taken without reading, an edge on another symbol reads it. *)
Inductive run (h : heap) : ref → list symbol → ref → Prop :=
  | run_nil s : run h s [] s
  | run_epsilon s t u w :
      t ∈ targets h s EPSILON → run h t w u → run h s w u
  | run_symbol s t u c w :
      c ≠ EPSILON → t ∈ targets h s c → run h t w u → run h s (c :: w) u.

(** Concatenation and iteration of languages. *)
Definition cat (L1 L2 : list symbol → Prop) (w : list symbol) : Prop :=
  ∃ w1 w2, w = w1 ++ w2 ∧ L1 w1 ∧ L2 w2.

Definition alternative (L1 L2 : list symbol → Prop) (w : list symbol) : Prop :=
  L1 w ∨ L2 w.

Inductive star (L : list symbol → Prop) : list symbol → Prop :=
  | star_nil : star L []
  | star_app w1 w2 : L w1 → star L w2 → star L (w1 ++ w2).

(** A nest of combinator calls, as the callers write them:
    [char(c)], [e()], [alt(first, ...fragments)], [or(first, ...fragments)],
    [rep(fragment)]. *)
#[local] Set Warnings "-register-all".
Inductive expr : Type :=
  | Char (c : symbol)
  | Eps
  | Alt (first : expr) (fragments : list expr)
  | Or (first : expr) (fragments : list expr)
  | Rep (fragment : expr).

(** The arguments of a call are evaluated from left to right. *)
Definition eval_args (eval : expr → store → option (ref * store))
  : list expr → store → option (list ref * store) :=
  fix go (rs : list expr) (σ : store) : option (list ref * store) :=
    match rs with
    | [] => Some ([], σ)
    | r :: rs =>
        '(f, σ) ← eval r σ;
        '(fs, σ) ← go rs σ;
        Some (f :: fs, σ)
    end.

(** Evaluation of a call nest: first the arguments, then the combinator. *)
Fixpoint eval (r : expr) (σ : store) : option (ref * store) :=
  match r with
  | Char c => char c σ
  | Eps => e σ
  | Alt first fragments =>
      '(first, σ) ← eval first σ;
      '(fragments, σ) ← eval_args eval fragments σ;
      alt first fragments σ
  | Or first fragments =>
      '(first, σ) ← eval first σ;
      '(fragments, σ) ← eval_args eval fragments σ;
      or first fragments σ
  | Rep fragment =>
      '(fragment, σ) ← eval fragment σ;
      rep fragment σ
  end.

(** The language a call nest denotes: [char(c)] the one-symbol word
    (the empty word when [c] is [EPSILON]), [alt] the concatenation, [or] the
    union, [rep] the iteration. *)
Fixpoint lang (r : expr) : list symbol → Prop :=
  match r with
  | Char c => λ w, if decide (c = EPSILON) then w = [] else w = [c]
  | Eps => λ w, w = []
  | Alt first fragments => foldl cat (lang first) (map lang fragments)
  | Or first fragments => foldl alternative (lang first) (map lang fragments)
  | Rep fragment => star (lang fragment)
  end.

(** [frag h R i o L]: the states [R] form a fragment with entry [i] and
    exit [o]: no edge leaves [R], [o] is its only accepting state, and the
    words read on the way from [i] to [o] are those of [L]. *)
Definition frag (h : heap) (R : ref → Prop) (i o : ref) (L : list symbol → Prop) : Prop :=
  R i ∧ R o ∧ (∀ x, R x → x < length h) ∧
  (∀ x c y, R x → y ∈ targets h x c → R y) ∧
  (∀ x, R x → (is_accepting h x = true ↔ x = o)) ∧
  (∀ w, run h i w o ↔ L w).

(** What a pair combinator owes: applied to two fragments with disjoint
    state sets it returns a new fragment object for the combined language,
    built from the states of the operands and freshly allocated ones, and it
    leaves every other state and every other fragment object alone. *)
Definition pair_spec (pair : ref → ref → store → option (ref * store))
    (comb : (list symbol → Prop) → (list symbol → Prop) → list symbol → Prop) : Prop :=
  ∀ first second σ n1 n2 R1 R2 L1 L2,
    wf_heap (states σ) = true →
    nfas σ !! first = Some n1 → nfas σ !! second = Some n2 →
    frag (states σ) R1 (in_ n1) (out n1) L1 →
    frag (states σ) R2 (in_ n2) (out n2) L2 →
    (∀ x, R1 x → R2 x → False) →
    ∃ σ' n R',
      pair first second σ = Some (length (nfas σ), σ') ∧
      length (nfas σ') = S (length (nfas σ)) ∧
      nfas σ' !! length (nfas σ) = Some n ∧
      (∀ k, k ≠ first → k < length (nfas σ) → nfas σ' !! k = nfas σ !! k) ∧
      length (states σ) ≤ length (states σ') ∧
      (∀ x, x < length (states σ) → ¬ R1 x → ¬ R2 x → states σ' !! x = states σ !! x) ∧
      wf_heap (states σ') = true ∧
      frag (states σ') R' (in_ n) (out n) (comb L1 L2) ∧
      (∀ x, R' x → R1 x ∨ R2 x ∨ length (states σ) ≤ x).

(** What the evaluation of a call nest [r] establishes, from any store. *)
Definition eval_inv (r : expr) : Prop :=
  ∀ σ, wf_heap (states σ) = true →
    ∃ f σ' n R,
      eval r σ = Some (f, σ') ∧ nfas σ' !! f = Some n ∧ length (nfas σ) ≤ f ∧
      wf_heap (states σ') = true ∧
      frag (states σ') R (in_ n) (out n) (lang r) ∧
      (∀ x, R x → length (states σ) ≤ x) ∧
      length (states σ) ≤ length (states σ') ∧
      (∀ x, x < length (states σ) → states σ' !! x = states σ !! x) ∧
      length (nfas σ) ≤ length (nfas σ') ∧
      (∀ k, k < length (nfas σ) → nfas σ' !! k = nfas σ !! k).

(** The same for an argument list: one fragment per argument, on
    pairwise disjoint state sets. *)
Definition args_inv (rs : list expr) : Prop :=
  ∀ σ, wf_heap (states σ) = true →
    ∃ fs σ' (Rf : ref → ref → Prop) (Lf : ref → list symbol → Prop),
      eval_args eval rs σ = Some (fs, σ') ∧
      wf_heap (states σ') = true ∧ NoDup fs ∧
      (∀ f, f ∈ fs → length (nfas σ) ≤ f ∧
         ∃ n, nfas σ' !! f = Some n ∧ frag (states σ') (Rf f) (in_ n) (out n) (Lf f) ∧
              ∀ x, Rf f x → length (states σ) ≤ x) ∧
      (∀ f g x, f ∈ fs → g ∈ fs → f ≠ g → Rf f x → Rf g x → False) ∧
      map Lf fs = map lang rs ∧
      length (states σ) ≤ length (states σ') ∧
      (∀ x, x < length (states σ) → states σ' !! x = states σ !! x) ∧
      length (nfas σ) ≤ length (nfas σ') ∧
      (∀ k, k < length (nfas σ) → nfas σ' !! k = nfas σ !! k).

(** ** Epsilon closures *)

(** The memoised closure of a state, if it has one. *)
Definition memo (h : heap) (s : ref) : option (list ref) :=
  st ← h !! s; _epsilonClosure st.

(** [u] can be reached from [s] along [EPSILON] edges. *)
Inductive eps_reach (h : heap) : ref → ref → Prop :=
  | eps_reach_refl s : eps_reach h s s
  | eps_reach_step s t u :
      t ∈ targets h s EPSILON → eps_reach h t u → eps_reach h s u.

(** No state carries a memoised closure. *)
Definition unmemoised (h : heap) : bool :=
  forallb (λ st, match _epsilonClosure st with None => true | Some _ => false end) h.

(** The number of states without a memoised closure. *)
Definition pending (h : heap) : nat :=
  length (List.filter (λ st, match _epsilonClosure st with None => true | Some _ => false end) h).

(** The memoised sets of [h], on the graph [g]: each is duplicate-free,
    starts with its owner, and holds only states that are reachable from the
    owner; every member has a set of its own, except possibly [callee], the
    state whose computation is about to start. *)
Definition memo_inv (g h : heap) (callee : option ref) : Prop :=
  same_graph g h ∧
  ∀ s c, memo h s = Some c →
    NoDup c ∧ head c = Some s ∧
    ∀ y, y ∈ c → eps_reach g s y ∧ (memo h y ≠ None ∨ callee = Some y).

(** What a call on [this] that takes [h] to [h'] and returns [c]
    guarantees. *)
Definition closure_post (g h : heap) (this : ref) (c : list ref) (h' : heap) : Prop :=
  memo_inv g h' None ∧
  memo h' this = Some c ∧
  (∀ s, memo h s ≠ None → memo h' s = memo h s) ∧
  pending h' ≤ pending h ∧
  ∀ d cd, memo h d = None → memo h' d = Some cd →
    (∀ y, y ∈ cd → y ∈ c) ∧ (∀ y, y ∈ targets g d EPSILON → y ∈ cd).

(** The state of the loop over the epsilon successors of [this], after
    the successors [seen] have been handled. *)
Definition loop_inv (g h : heap) (this : ref) (seen : list ref) (hk : heap) : Prop :=
  memo_inv g hk None ∧
  (∃ ck, memo hk this = Some ck ∧ ∀ y, y ∈ seen → y ∈ ck) ∧
  (∀ s, s ≠ this → memo h s ≠ None → memo hk s = memo h s) ∧
  pending hk < pending h ∧
  (∀ d cd, d ≠ this → memo h d = None → memo hk d = Some cd →
     (∀ y, y ∈ cd → y ∈ closure_of hk this) ∧
     (∀ y, y ∈ targets g d EPSILON → y ∈ cd)).


(** The store [star_heap] after [getEpsilonClosure] on state 2, and the
    same store after a further [addTransition]. *)
Definition star_heap_closed : heap :=
  Eval vm_compute in default [] (snd <$> getEpsilonClosure 5 2 star_heap).

Definition star_heap_extended : heap :=
  Eval vm_compute in default [] (addTransition 0 "b" 3 star_heap_closed).

(** ** The worklist loop of the subset construction *)

(** The test of [DFA.getTransitionTable]: some NFA accepting id is in the
    id set. *)
Definition hits (nfaAcceptingStates ids : list nat) : bool :=
  existsb (Set_has ids) nfaAcceptingStates.

(** The memoised fields of the fragment object behind a DFA. *)
Definition table_memo (σ : store) (nfa : ref) : option nfa_table :=
  n ← nfas σ !! nfa; _transitionTable n.

Definition acc_memo (σ : store) (nfa : ref) : option (list nat) :=
  n ← nfas σ !! nfa; _acceptingStateNumbers n.

Definition alpha_memo (σ : store) (nfa : ref) : option (list symbol) :=
  n ← nfas σ !! nfa; _alphabet n.

(** The invariant of the [while] loop: the NFA table is memoised; the
    start label and every transition target has a row or is still on the
    worklist; a label is in the accepting set only if, and a transition
    target if and only if, its id list holds an NFA accepting id; the
    columns are symbols of the alphabet. *)
Definition subset_inv (nfa : ref) (start : string) (s : subset_state) (σ : store) : Prop :=
  table_memo σ nfa ≠ None ∧
  (Object_has (dfaTable s) start = true ∨ ∃ ids, ids ∈ worklist s ∧ join ids = start) ∧
  (∀ label row sym target, (label, row) ∈ dfaTable s → (sym, target) ∈ row →
     Object_has (dfaTable s) target = true ∨ ∃ ids, ids ∈ worklist s ∧ join ids = target) ∧
  match acc_memo σ nfa with
  | Some a =>
      (∀ l, l ∈ acceptingLabels s → ∃ ids, l = join ids ∧ hits a ids = true) ∧
      (∀ label row sym target, (label, row) ∈ dfaTable s → (sym, target) ∈ row →
         ∃ ids, target = join ids ∧ ids ≠ [] ∧
                (hits a ids = true → target ∈ acceptingLabels s))
  | None => acceptingLabels s = [] ∧ ∀ label row, (label, row) ∈ dfaTable s → row = []
  end ∧
  match alpha_memo σ nfa with
  | Some al =>
      ∀ label row sym target, (label, row) ∈ dfaTable s → (sym, target) ∈ row → sym ∈ al
  | None => ∀ label row, (label, row) ∈ dfaTable s → row = []
  end.

(** The store after [DFA.getTransitionTable] on fragment 1 of
    [star_store]. *)
Definition star_store_built : store :=
  Eval vm_compute in
    default empty_store (snd <$> DFA_getTransitionTable 10 (new_DFA 1) star_store).

(** ** Rows of the NFA table *)

(** The number of columns named [EPSILON] in a row. *)
Definition eps_columns (row : sobj (list nat)) : nat :=
  length (List.filter (λ p : string * list nat, String.eqb p.1 EPSILON) row).

(** A row while the table is being built for [N] numbered states: at most
    one [EPSILON] column, and every id in a cell is one of the numbers
    [1..N]. *)
Definition row_ok (N : nat) (row : sobj (list nat)) : Prop :=
  eps_columns row ≤ 1 ∧
  ∀ sym ids id, Object_get row sym = Some ids → id ∈ ids → 1 ≤ id ≤ N.

(** The table under construction has a row for every numbered state, and
    its rows are as above. *)
Definition table_ok (β : build) : Prop :=
  iobj_sorted (b_table β) ∧
  (∀ i, i < length (b_visited β) → is_Some (iobj_get (b_table β) (S i))) ∧
  ∀ k row, iobj_get (b_table β) k = Some row → row_ok (length (b_visited β)) row.

(** Row [k], when present, has lost its [EPSILON] column and carries the
    closure column. *)
Definition row_closed (t : nfa_table) (k : nat) : Prop :=
  ∀ row, iobj_get t k = Some row →
    Object_get row EPSILON = None ∧ is_Some (Object_get row EPSILON_CLOSURE).

(** The NFA table memoised in [star_store_built], and that store after one
    more [addTransition]. *)
Definition star_nfa_table : nfa_table :=
  Eval vm_compute in default [] (table_memo star_store_built 1).

Definition star_store_extended : store :=
  Eval vm_compute in
    default empty_store (upd_states (addTransition 0 "b" 3) star_store_built).

(** [star_store] after [getAlphabet] on fragment 1. *)
Definition star_store_alphabet : store :=
  Eval vm_compute in default empty_store (snd <$> NFA_getAlphabet 10 1 star_store).

(** ** Rows of a minimized table *)

(** A row of the result: its columns are symbols of the alphabet; each
    copies a transition of some row of the input table to a non-zero id,
    and holds the index of a class or [undefined]. *)
Definition min_row_ok (t : min_table) (remaped : list (ref * nat)) (row : min_row) : Prop :=
  ∀ c v, Object_get row c = Some v →
    (c = "a" ∨ c = "b") ∧
    (∀ j, v = Some j → j ∈ remaped.*2) ∧
    ∃ first rowT tr, iobj_get t first = Some rowT ∧ Object_get rowT c = Some (Some (S tr)).

(** ** The order of [Array.prototype.sort] *)

(** The default comparison of [sort]: by the decimal strings. *)
Definition sort_order (x y : nat) : Prop :=
  String.leb (Number_toString x) (Number_toString y) = true.

(** ** [NFA.js] *)

(** [Set.prototype.get = function(index) { return [...this][index]; }] *)
Definition Set_get (this : list ref) (index : nat) : option ref := this !! index.

(** [goto(symbol, index = 0)]: the target number [index] on [symbol], in
    insertion order; [undefined] ([None]) when there is none.  The lookup
    goes through [getTransitionsOnSymbol], which stores an empty set on a
    miss. *)
Definition goto (this : ref) (symbol : symbol) (index : nat) (h : heap)
  : option (option ref * heap) :=
  '(transitions, h) ← getTransitionsOnSymbol this symbol h;
  Some (Set_get transitions index, h).

(** [State], [matches], [char], [e], [altPair], [alt] and [rep] of [NFA.js]
    are those of [NFA-DFA-RegExp.js]; its [orPair] does not clear the
    [accepting] flags of the operands' exits. *)
Module NFA_js.

Definition orPair (first second : ref) (σ : store) : option (ref * store) :=
  let '(inState, σ) := new_NFAState false σ in
  let '(outState, σ) := new_NFAState false σ in
  f ← nfas σ !! first;
  s ← nfas σ !! second;
  σ ← upd_states (addTransition inState EPSILON (in_ f)) σ;
  σ ← upd_states (addTransition inState EPSILON (in_ s)) σ;
  σ ← upd_states (set_accepting outState true) σ;
  σ ← upd_states (addTransition (out f) EPSILON outState) σ;
  σ ← upd_states (addTransition (out s) EPSILON outState) σ;
  Some (new_NFA inState outState σ).

Definition or := fold_pairs orPair.

End NFA_js.

(** [multi_frag h R i o L X]: as [frag], but [R] may hold accepting states
    other than the exit [o]: [L] are the words read on the way from [i] to
    [o], [X] those read on the way from [i] to another accepting state. *)
Definition multi_frag (h : heap) (R : ref → Prop) (i o : ref)
    (L X : list symbol → Prop) : Prop :=
  R i ∧ R o ∧ (∀ x, R x → x < length h) ∧
  (∀ x c y, R x → y ∈ targets h x c → R y) ∧
  is_accepting h o = true ∧
  (∀ w, run h i w o ↔ L w) ∧
  (∀ w, (∃ u, u ≠ o ∧ is_accepting h u = true ∧ run h i w u) ↔ X w).

(** The store [h] with the accepting flags replaced by [keep]. *)
Definition only_accepting (keep : ref → bool) (h : heap) : heap :=
  imap (λ x st, with_accepting (keep x) st) h.

(** What a pair combinator does to a first operand with several accepting
    states: [comb] gives the language of the exit, [combx] the language of
    the other accepting states, and [Q] relates the stores before and
    after. *)
Definition multi_pair_spec (pair : ref → ref → store → option (ref * store))
    (comb : (list symbol → Prop) → (list symbol → Prop) → list symbol → Prop)
    (combx : (list symbol → Prop) → (list symbol → Prop) → (list symbol → Prop)
             → list symbol → Prop)
    (Q : store → store → Prop) : Prop :=
  ∀ first second σ n1 n2 R1 R2 L1 X1 L2,
    wf_heap (states σ) = true →
    nfas σ !! first = Some n1 → nfas σ !! second = Some n2 →
    multi_frag (states σ) R1 (in_ n1) (out n1) L1 X1 →
    frag (states σ) R2 (in_ n2) (out n2) L2 →
    (∀ x, R1 x → R2 x → False) →
    ∃ σ' n R',
      pair first second σ = Some (length (nfas σ), σ') ∧
      length (nfas σ') = S (length (nfas σ)) ∧
      nfas σ' !! length (nfas σ) = Some n ∧
      (∀ k, k ≠ first → k < length (nfas σ) → nfas σ' !! k = nfas σ !! k) ∧
      length (states σ) ≤ length (states σ') ∧
      (∀ x, x < length (states σ) → ¬ R1 x → ¬ R2 x → states σ' !! x = states σ !! x) ∧
      wf_heap (states σ') = true ∧
      multi_frag (states σ') R' (in_ n) (out n) (comb L1 L2) (combx L1 X1 L2) ∧
      (∀ x, R' x → R1 x ∨ R2 x ∨ length (states σ) ≤ x) ∧
      Q σ σ'.

(** The languages after a fold of such a combinator. *)
Definition multi_step
    (comb : (list symbol → Prop) → (list symbol → Prop) → list symbol → Prop)
    (combx : (list symbol → Prop) → (list symbol → Prop) → (list symbol → Prop)
             → list symbol → Prop)
    (LX : (list symbol → Prop) * (list symbol → Prop)) (L2 : list symbol → Prop)
  : (list symbol → Prop) * (list symbol → Prop) :=
  (comb LX.1 L2, combx LX.1 LX.2 L2).

(** The other accepting states after [orPair] of [NFA.js] and after
    [altPair]. *)
Definition or_extra (L1 X1 L2 : list symbol → Prop) (w : list symbol) : Prop :=
  X1 w ∨ L1 w ∨ L2 w.

Definition alt_extra (L1 X1 L2 : list symbol → Prop) (w : list symbol) : Prop := X1 w.

(** The accepting flags of the states that were there are as before. *)
Definition keeps_flags (σ σ' : store) : Prop :=
  length (states σ) ≤ length (states σ') ∧
  ∀ x, x < length (states σ) →
       is_accepting (states σ') x = is_accepting (states σ) x.

(** Call nests of [NFA.js]: the evaluation with its [or]; [or_free] holds
    of the nests in which [or] does not occur, for which the two files run
    the same code. *)
Fixpoint eval_js (r : expr) (σ : store) : option (ref * store) :=
  match r with
  | Char c => char c σ
  | Eps => e σ
  | Alt first fragments =>
      '(first, σ) ← eval_js first σ;
      '(fragments, σ) ← eval_args eval_js fragments σ;
      alt first fragments σ
  | Or first fragments =>
      '(first, σ) ← eval_js first σ;
      '(fragments, σ) ← eval_args eval_js fragments σ;
      NFA_js.or first fragments σ
  | Rep fragment =>
      '(fragment, σ) ← eval_js fragment σ;
      rep fragment σ
  end.

Fixpoint or_free (r : expr) : bool :=
  match r with
  | Char _ | Eps => true
  | Alt first fragments => or_free first && forallb or_free fragments
  | Or _ _ => false
  | Rep fragment => or_free fragment
  end.

(** ** The classes of a refinement round *)

(** [currentTransitionMap] and [current] as a round of [minimize] leaves
    them: [current] lists the classes in the order in which the ids meet
    them, every id with an entry is a member of its class, and every member
    of that class has this entry. *)
Definition class_map_ok (m : mstate) (current : list ref) : Prop :=
  iobj_sorted (currentTransitionMap m) ∧
  current = Set_from ((currentTransitionMap m).*2) ∧
  (∀ x r, iobj_get (currentTransitionMap m) x = Some r →
          x ∈ set_of m r ∧ NoDup (set_of m r)) ∧
  (∀ x y r, iobj_get (currentTransitionMap m) x = Some r → y ∈ set_of m r →
            iobj_get (currentTransitionMap m) y = Some r).

(** Some class of [current] has [a] as its first member. *)
Definition heads_class (m : mstate) (current : list ref) (a : nat) : Prop :=
  ∃ r, r ∈ current ∧ head (set_of m r) = Some a.


(** ** The accepting states the table builder collects *)

(** [_acceptingStates] during the walk: the visited states whose flag is
    set in the store [g] the walk started from; the walk changes no flag. *)
Definition accepting_ok (g : heap) (β : build) : Prop :=
  (∀ s, is_accepting (b_heap β) s = is_accepting g s) ∧
  (∀ s, s ∈ b_accepting β ↔ s ∈ b_visited β ∧ is_accepting g s = true).

(** Neither accepting set of the fragment has been computed. *)
Definition no_accepting_memo (σ : store) (nfa : ref) : bool :=
  match nfas σ !! nfa with
  | Some n =>
      match _acceptingStates n, _acceptingStateNumbers n with
      | None, None => true
      | _, _ => false
      end
  | None => false
  end.

Definition star_store_accepting : store :=
  Eval vm_compute in
    default star_store ('(_, σ) ← NFA_getAcceptingStateNumbers 10 1 star_store; Some σ).

(** ** What the tables say about the graph *)

(** The keys of every [_transitions] map are distinct. *)
Definition unique_keys (h : heap) : bool :=
  forallb (λ st, bool_decide (NoDup ((_transitions st).*1))) h.

(** [h] is [g] with state numbers: the same transitions, flags and
    closures. *)
Definition numbered_copy (g h : heap) : Prop :=
  length h = length g ∧
  ∀ s st, h !! s = Some st →
    ∃ st0, g !! s = Some st0 ∧ _transitions st = _transitions st0 ∧
           accepting st = accepting st0 ∧ _epsilonClosure st = _epsilonClosure st0.

(** During the walk of [visitState]: every id in a cell of the row of a
    state is the number of a target of that state on the symbol of the
    column. *)
Definition cols_sound (g : heap) (β : build) : Prop :=
  ∀ k row sym ids id,
    iobj_get (b_table β) k = Some row → (sym, ids) ∈ row → id ∈ ids →
    ∃ s u, number_of (b_heap β) s = Some k ∧ number_of (b_heap β) u = Some id ∧
           u ∈ targets g s sym.

(** The finished table, on the graph [g] with the numbers of [h]: a
    column other than the closure column lists targets, the closure column
    states reached along [EPSILON] edges. *)
Definition plain_sound (g h : heap) (t : nfa_table) : Prop :=
  ∀ k row sym ids id,
    sym ≠ EPSILON_CLOSURE → iobj_get t k = Some row → (sym, ids) ∈ row → id ∈ ids →
    ∃ s u, number_of h s = Some k ∧ number_of h u = Some id ∧ u ∈ targets g s sym.

Definition closure_sound (g h : heap) (t : nfa_table) (k : nat) : Prop :=
  ∀ row c id,
    iobj_get t k = Some row → Object_get row EPSILON_CLOSURE = Some c → id ∈ c →
    ∃ s u, number_of h s = Some k ∧ number_of h u = Some id ∧ eps_reach g s u.

Definition nfa_table_sound (g h : heap) (t : nfa_table) : Prop :=
  plain_sound g h t ∧ ∀ k, closure_sound g h t k.

(** Every id of [ids'] numbers a state that a state numbered in [ids]
    reaches by an edge on [sym] followed by [EPSILON] edges. *)
Definition step_sound (g h : heap) (ids : list nat) (sym : symbol) (ids' : list nat) : Prop :=
  ∀ id', id' ∈ ids' →
    ∃ id s x u, id ∈ ids ∧ number_of h s = Some id ∧ x ∈ targets g s sym ∧
                eps_reach g x u ∧ number_of h u = Some id'.

(** The cells of a DFA table under construction. *)
Definition cells_sound (g h : heap) (t : dfa_table) : Prop :=
  ∀ label row sym target, (label, row) ∈ t → (sym, target) ∈ row →
    ∃ ids ids', label = join ids ∧ target = join ids' ∧ step_sound g h ids sym ids'.

(** The store once the NFA table of fragment [nfa] has been built on the
    graph [g]: the states are [h], the table is memoised with the
    accepting states, and the other memoised fields, when set, hold
    numbers of accepting states and symbols other than the closure
    column. *)
Definition table_built (g h : heap) (nfa : ref) (nfaTable : nfa_table) (σ : store) : Prop :=
  states σ = h ∧
  ∃ n, nfas σ !! nfa = Some n ∧ _transitionTable n = Some nfaTable ∧
       (∃ accs, _acceptingStates n = Some accs ∧ ∀ s, s ∈ accs → is_accepting g s = true) ∧
       (∀ a k, _acceptingStateNumbers n = Some a → k ∈ a →
          ∃ s, number_of h s = Some k ∧ is_accepting g s = true) ∧
       (∀ al, _alphabet n = Some al → EPSILON_CLOSURE ∉ al).

(** A fragment object as the combinators leave it: nothing memoised. *)
Definition no_memo (n : NFA) : bool :=
  match _transitionTable n, _acceptingStates n, _alphabet n, _acceptingStateNumbers n with
  | None, None, None, None => true
  | _, _, _, _ => false
  end.

(** ** Further example inputs *)

(** The state objects of [e()]: the entry state 0 with its one edge,
    labelled [EPSILON], to the accepting exit state 1. *)
Definition e_heap : heap :=
  [mkState [(EPSILON, [1])] false None None; mkState [] true None None].

(** ** The id lists behind the labels of a DFA table *)

(** The id lists that the subset construction collects from an NFA table:
    the start list, and from a collected list [ids] and a symbol the
    closures of the targets, concatenated in order ([onSymbol_of]) and
    passed through a [Set], which keeps each id at its first occurrence;
    an empty result is dropped. *)
Inductive collected (nfaTable : nfa_table) (startState : list nat) : list nat → Prop :=
  | collected_start : collected nfaTable startState startState
  | collected_step ids sym os :
      collected nfaTable startState ids →
      onSymbol_of nfaTable ids sym = Some os → Set_from os ≠ [] →
      collected nfaTable startState (Set_from os).

(** The worklist and the DFA table while the loop runs: every list on the
    worklist is collected, every row key joins a collected list, and the
    cell of that row on a symbol joins the list collected from it on that
    symbol, which is a collected list in turn. *)
Definition subset_exact (nfaTable : nfa_table) (startState : list nat) (s : subset_state)
  : Prop :=
  (∀ ids, ids ∈ worklist s → collected nfaTable startState ids) ∧
  ∀ label row, (label, row) ∈ dfaTable s →
    ∃ ids, label = join ids ∧ collected nfaTable startState ids ∧
      ∀ sym target, (sym, target) ∈ row →
        ∃ os, onSymbol_of nfaTable ids sym = Some os ∧ target = join (Set_from os) ∧
              collected nfaTable startState (Set_from os).

(** [id] occurs in the closure column of some row of the NFA table. *)
Definition closure_id (nfaTable : nfa_table) (id : nat) : Prop :=
  ∃ k row c, iobj_get nfaTable k = Some row ∧
             Object_get row EPSILON_CLOSURE = Some c ∧ id ∈ c.

(** The repository's own example, [or(char('x'), char('y'))]: fragment 2
    of the store [x_or_y_store]. *)
Definition x_or_y : option (ref * store) :=
  '(x, σ) ← char "x" empty_store;
  '(y, σ) ← char "y" σ;
  or x [y] σ.

Definition x_or_y_store : store :=
  Eval vm_compute in default empty_store (snd <$> x_or_y).

(** The store on which the example run of the file builds the DFA: after
    [nfa.getTransitionTable()], [nfa.getAcceptingStateNumbers()],
    [nfa.matches('x')] and [nfa.matches('y')]. *)
Definition x_or_y_queried : store :=
  Eval vm_compute in
    default empty_store
      ('(_, σ) ← NFA_getTransitionTable 20 2 x_or_y_store;
       '(_, σ) ← NFA_getAcceptingStateNumbers 20 2 σ;
       '(_, σ) ← NFA_matches 20 2 ["x"] σ;
       '(_, σ) ← NFA_matches 20 2 ["y"] σ;
       Some σ).

(** The DFA table of the example, the DFA object and the store after the
    construction. *)
Definition x_or_y_dfa_table : dfa_table :=
  Eval vm_compute in
    default [] ('(t, _, _) ← DFA_getTransitionTable 20 (new_DFA 2) x_or_y_queried; Some t).

Definition x_or_y_dfa : DFA :=
  Eval vm_compute in
    default (new_DFA 2)
      ('(_, d, _) ← DFA_getTransitionTable 20 (new_DFA 2) x_or_y_queried; Some d).

Definition x_or_y_built : store :=
  Eval vm_compute in
    default empty_store
      ('(_, _, σ) ← DFA_getTransitionTable 20 (new_DFA 2) x_or_y_queried; Some σ).

(** ** The states the table builder reaches *)

(** [u] can be reached from [s] along edges on any symbol, [EPSILON]
    included. *)
Inductive reaches (h : heap) : ref → ref → Prop :=
  | reaches_refl s : reaches h s s
  | reaches_step s c t u : t ∈ targets h s c → reaches h t u → reaches h s u.

(** What a call of [visitState] on [state] adds to [visited]: nothing is
    removed, [state] is in the set afterwards, and every state that was
    added is reachable from [state] and has all its targets in the set. *)
Definition visit_post (g : heap) (state : ref) (β β' : build) : Prop :=
  (∀ x, x ∈ b_visited β → x ∈ b_visited β') ∧
  state ∈ b_visited β' ∧
  ∀ x, x ∈ b_visited β' → x ∉ b_visited β →
    reaches g state x ∧ ∀ c t, t ∈ targets g x c → t ∈ b_visited β'.

(** No transition is labelled ['__proto__'], the one property name that
    an assignment to a plain object does not store as a column. *)
Definition no_proto_key (h : heap) : bool :=
  forallb (λ st, forallb (λ e : symbol * list ref, negb (String.eqb e.1 "__proto__"))
                         (_transitions st)) h.

(** ** The builder on a store that carries numbers and closures *)

(** What the walk of [visitState] keeps whatever numbers the states carried
    before: the visited states are numbered by their positions, the rows
    are those positions, in ascending order, and no row has two [EPSILON]
    columns. *)
Definition build_weak (β : build) : Prop :=
  NoDup (b_visited β) ∧
  (∀ i x, b_visited β !! i = Some x → number_of (b_heap β) x = Some (S i)) ∧
  keys_ok (b_table β) (b_visited β) ∧
  iobj_sorted (b_table β) ∧
  (∀ i, i < length (b_visited β) → is_Some (iobj_get (b_table β) (S i))) ∧
  ∀ k row, iobj_get (b_table β) k = Some row → eps_columns row ≤ 1.

(** Row [k], when present, has no [EPSILON] column. *)
Definition eps_free (t : nfa_table) (k : nat) : Prop :=
  ∀ row, iobj_get t k = Some row → Object_get row EPSILON = None.

(** [rep(char('a'))] built after [getTransitionTable] has run on the
    operand [char('a')]: the states of the operand carry numbers and
    memoised closures when the star is built around them. *)
Definition star_over_tabled_operand : store :=
  Eval vm_compute in
    default empty_store
      ('(a, σ) ← char "a" empty_store;
       '(_, σ) ← NFA_getTransitionTable 10 a σ;
       '(_, σ) ← rep a σ;
       Some σ).

(** That store after [getAlphabet] on the star, fragment 1. *)
Definition star_over_tabled_operand_alphabet : store :=
  Eval vm_compute in
    default empty_store (snd <$> NFA_getAlphabet 10 1 star_over_tabled_operand).

(** * Properties *)

(** ** Evaluations on concrete inputs *)

(** [getTransitionsOnSymbol] is not read-only: a miss appends an entry
    with an empty target set to the transition map of the state. *)
Lemma getTransitionsOnSymbol_miss_stores (this : ref) (c : symbol) (h : heap) (st : State) :
  h !! this = Some st →
  Map_get (_transitions st) c = None →
  getTransitionsOnSymbol this c h
  = Some ([], <[this := with_transitions (Map_set (_transitions st) c []) st]> h)
  ∧ Map_get (Map_set (_transitions st) c []) c = Some [].
Proof.
  intros Hst Hmiss. unfold getTransitionsOnSymbol. rewrite Hst. simpl. rewrite Hmiss.
  split; [reflexivity|].
  clear. induction (_transitions st) as [|[k v] m IH]; simpl.
  - by rewrite String.eqb_refl.
  - destruct (String.eqb c k) eqn:E; simpl; [by rewrite String.eqb_refl|by rewrite E].
Qed.

(** C1, evaluated at the input on which the two acceptance tests differ:
    for [rep(char('a'))] and the empty string the graph walk [NFA.matches]
    returns [true] while [DFA.matches] on the DFA built from the same NFA
    returns [false], whether or not the graph walk ran first. *)
Theorem nfa_dfa_disagree_on_empty_input :
  ('(f, σ) ← a_star; '(b, _) ← NFA_matches 10 f [] σ; Some b) = Some true ∧
  ('(f, σ) ← a_star; '(b, _, _) ← DFA_matches 10 (new_DFA f) [] σ; Some b) = Some false ∧
  ('(f, σ) ← a_star; '(_, σ) ← NFA_matches 10 f [] σ;
   '(b, _, _) ← DFA_matches 10 (new_DFA f) [] σ; Some b) = Some false.
Proof. split_and!; vm_compute; reflexivity. Qed.

(** C2, evaluated at the input on which it fails: in the DFA built for
    [rep(char('a'))] the start label is ["1,2,4"] and is a row of the table,
    the NFA accepting ids are [{4}], so the start label encodes an accepting
    id; yet the DFA accepting set is [{"3,4,2"}] (only transition targets are
    ever tested) and [DFA.matches] on the empty input returns [false]. *)
Theorem start_label_never_marked_accepting :
  ('(f, σ) ← a_star;
   '(t, d, σ) ← DFA_getTransitionTable 10 (new_DFA f) σ;
   '(nfaAccepting, σ) ← NFA_getAcceptingStateNumbers 10 f σ;
   '(b, _, _) ← DFA_matches 10 d [] σ;
   Some (dfa_startingStateNumber d, Object_keys t, nfaAccepting,
         dfa_acceptingStateNumbers d, b))
  = Some (Some (join [1; 2; 4]), [join [1; 2; 4]; join [3; 4; 2]], [4],
          Some [join [3; 4; 2]], false)
  ∧ existsb (Set_has [1; 2; 4]) [4] = true
  ∧ SSet_has [join [3; 4; 2]] (join [1; 2; 4]) = false.
Proof. split_and!; vm_compute; reflexivity. Qed.

(** C7, evaluated at the input on which it fails: on the four-state
    epsilon cycle, [getEpsilonClosure] on state 0 returns all four states,
    but the set memoised meanwhile for state 3 is [{3, 0, 1}]: the next call
    on state 3 returns it without state 2, which lies on the same cycle. *)
Theorem memoised_closure_loses_cycle_member :
  (h ← epsilon_cycle4;
   '(c0, h) ← getEpsilonClosure 10 0 h;
   '(c3, h) ← getEpsilonClosure 10 3 h;
   Some (c0, c3))
  = Some ([0; 1; 2; 3], [3; 0; 1])
  ∧ (h ← epsilon_cycle4;
     Some (targets h 0 EPSILON, targets h 1 EPSILON, targets h 2 EPSILON,
           targets h 3 EPSILON))
    = Some ([1], [2], [3], [0]).
Proof. split_and!; vm_compute; reflexivity. Qed.

(** The same loss in a table built from the combinators: in the NFA table
    of [xs_then_bxs_star] the closure column of state 12 holds state 2 but
    not the states 6, 7, 8 of the closure column of state 2. *)
Lemma closure_column_incomplete_on_fragment :
  ('(f, σ) ← xs_then_bxs_star;
   '(t, σ) ← NFA_getTransitionTable 30 f σ;
   c12 ← iobj_get t 12 ≫= (λ row, Object_get row EPSILON_CLOSURE);
   c2 ← iobj_get t 2 ≫= (λ row, Object_get row EPSILON_CLOSURE);
   Some (c12, c2))
  = Some ([12; 2; 3; 5], [2; 3; 5; 6; 7; 8; 13; 11; 12]).
Proof. vm_compute; reflexivity. Qed.

(** C10: querying is not read-only.  For [char('a')] and the input ["b"]:
    [NFA.matches] stores an empty set under [b] in the entry state; a table
    built afterwards has the column [b] with no targets in row 1 and the
    alphabet is [{a, b}]; when the table is built first the alphabet is
    [{a}] and stays so after the same [matches] call. *)
Theorem matches_before_table_enlarges_alphabet :
  ('(f, σ) ← just_a; st ← states σ !! 0; Some (_transitions st))
  = Some [("a", [1])]
  ∧ ('(f, σ) ← just_a;
     '(b, σ) ← NFA_matches 10 f ["b"] σ;
     st ← states σ !! 0;
     '(t, σ) ← NFA_getTransitionTable 10 f σ;
     '(a, σ) ← NFA_getAlphabet 10 f σ;
     Some (b, Map_get (_transitions st) "b", t, a))
    = Some (false, Some [],
            [(1, [("a", [2]); ("b", []); (EPSILON_CLOSURE, [1])]);
             (2, [(EPSILON_CLOSURE, [2])])],
            ["a"; "b"])
  ∧ ('(f, σ) ← just_a;
     '(t, σ) ← NFA_getTransitionTable 10 f σ;
     '(a, σ) ← NFA_getAlphabet 10 f σ;
     '(b, σ) ← NFA_matches 10 f ["b"] σ;
     '(a', σ) ← NFA_getAlphabet 10 f σ;
     Some (t, a, b, a'))
    = Some ([(1, [("a", [2]); (EPSILON_CLOSURE, [1])]); (2, [(EPSILON_CLOSURE, [2])])],
            ["a"], false, ["a"]).
Proof. split_and!; vm_compute; reflexivity. Qed.

(** ** Minimization: fuel and evaluations *)

Lemma refine_fuel_S (fuel : nat) : ∀ m current previous,
  refine fuel m current previous ≠ OutOfFuel →
  refine (S fuel) m current previous = refine fuel m current previous.
Proof.
  induction fuel as [|fuel IH]; intros m current previous Hne.
  - simpl in *. destruct (sameRow m current previous); congruence.
  - change (refine (S (S fuel)) m current previous)
      with (if sameRow m current previous then Normal (m, current)
            else match refine_round m current with
                 | Normal (m', newSets) => refine (S fuel) m' newSets (Some current)
                 | other => other
                 end).
    change (refine (S fuel) m current previous)
      with (if sameRow m current previous then Normal (m, current)
            else match refine_round m current with
                 | Normal (m', newSets) => refine fuel m' newSets (Some current)
                 | other => other
                 end) in Hne |- *.
    destruct (sameRow m current previous); [reflexivity|].
    destruct (refine_round m current) as [[m' newSets]| |]; try reflexivity.
    apply IH, Hne.
Qed.

Lemma refine_more_fuel (fuel extra : nat) m current previous :
  refine fuel m current previous ≠ OutOfFuel →
  refine (fuel + extra) m current previous = refine fuel m current previous.
Proof.
  intros Hne. induction extra as [|extra IH].
  - by rewrite Nat.add_0_r.
  - rewrite Nat.add_succ_r, refine_fuel_S; [exact IH|]. by rewrite IH.
Qed.

(** Once a run has an outcome, more fuel does not change it. *)
Lemma minimize_more_fuel (fuel extra : nat) (t : min_table) (m : mstate) :
  (minimize fuel t m).1 ≠ OutOfFuel →
  minimize (fuel + extra) t m = minimize fuel t m.
Proof.
  unfold minimize. destruct (init_classes t m) as [nonAccepting m0].
  intros Hne. rewrite refine_more_fuel; [reflexivity|].
  intros E. rewrite E in Hne. by apply Hne.
Qed.

(** [areEquivalent] never consults the table: for the alphabet of the
    module it only tests that both ids have an entry in
    [currentTransitionMap]. *)
Lemma areEquivalent_only_tests_presence (m : mstate) (s1 s2 : nat) :
  areEquivalent m s1 s2
  = match iobj_get (currentTransitionMap m) s1, iobj_get (currentTransitionMap m) s2 with
    | Some _, Some _ => true
    | _, _ => false
    end.
Proof.
  unfold areEquivalent, alphabet, goToSameSet. simpl.
  destruct (iobj_get (currentTransitionMap m) s1), (iobj_get (currentTransitionMap m) s2);
    reflexivity.
Qed.

(** C3, evaluated at the input on which it fails: in [table_1_4] the ids
    1 and 4 start in the same class (object 1, the non-accepting set); on [a]
    id 1 moves to id 2, whose class is the accepting set (object 0), and id 4
    moves to id 4, whose class is object 1.  [areEquivalent] still answers
    [true], the two ids stay in one subgroup, and the minimized table has two
    states. *)
Theorem areEquivalent_ignores_transition_targets :
  let m := (init_classes table_1_4 module_init).2 in
  currentTransitionMap m = [(1, 1); (2, 0); (3, 0); (4, 1)]
  ∧ (iobj_get table_1_4 1 ≫= λ row, Object_get row "a") = Some (Some 2)
  ∧ (iobj_get table_1_4 4 ≫= λ row, Object_get row "a") = Some (Some 4)
  ∧ iobj_get (currentTransitionMap m) 2 ≠ iobj_get (currentTransitionMap m) 4
  ∧ areEquivalent m 4 1 = true
  ∧ minimize 5 table_1_4 module_init
    = (Normal [(1, [("a", Some 2)]); (2, [])],
       mkM [[2; 3]; [1; 4]; [1; 4]; [2; 3]] [(1, 2); (2, 3); (3, 3); (4, 2)]).
Proof. split_and!; try (vm_compute; reflexivity). vm_compute. congruence. Qed.

(** C9: on the table of the module, started from the variables as the
    module declares them (the file's own call), [minimize] returns the
    two-state table
    [{1: {a: 2, b: 2}, 2: {}}]; ids 2 and 3 share one class object (contents
    [{2, 3}], result state 2), id 1 is alone in the other class (result state
    1, not accepting), and state 1 moves to state 2 on [a] and on [b]. *)
Theorem example_table_minimized (fuel : nat) :
  minimize (S fuel) table module_init
  = (Normal [(1, [("a", Some 2); ("b", Some 2)]); (2, [])],
     mkM [[2; 3]; [1]; [1]; [2; 3]] [(1, 2); (2, 3); (3, 3)])
  ∧ length [(1, [("a", Some 2); ("b", Some 2)]); (2, @nil (string * option nat))] = 2
  ∧ Set_has [2; 3] 1 = false.
Proof.
  split_and!; try reflexivity.
  change (S fuel) with (1 + fuel). rewrite minimize_more_fuel.
  - vm_compute; reflexivity.
  - vm_compute. discriminate.
Qed.

(** Against C5 as stated: the mapping is not local to a run.  With
    [currentTransitionMap] still empty, as declared, [minimize(table_no_3)]
    throws; run after [minimize(table)], the file's own call, it reads the
    entry that call left for id 3 and returns a table. *)
Lemma minimize_depends_on_earlier_run :
  (minimize 5 table_no_3 module_init).1 = Throw
  ∧ (minimize 5 table_no_3 (minimize 5 table module_init).2).1
    = Normal [(1, [("a", Some 2)]); (2, [])].
Proof. split; vm_compute; reflexivity. Qed.

(** Against C8 as stated: [minimize(table_2_3)] returns the one-state
    table [{1: {}}], and [minimize] applied to that result throws. *)
Lemma minimize_twice_throws_on_all_accepting :
  (minimize 5 table_2_3 module_init).1 = Normal [(1, [])]
  ∧ (minimize 5 [(1, [])] (minimize 5 table_2_3 module_init).2).1 = Throw.
Proof. split; vm_compute; reflexivity. Qed.

(** ** The graph walk [matches] decides path acceptance *)

Lemma Set_has_elem_of (V : list nat) (x : nat) : Set_has V x = true ↔ x ∈ V.
Proof.
  unfold Set_has. rewrite existsb_exists. split.
  - intros (y & Hy & E). apply Nat.eqb_eq in E. subst. by apply list_elem_of_In.
  - intros H. exists x. split; [by apply list_elem_of_In|apply Nat.eqb_refl].
Qed.

Lemma Set_has_false (V : list nat) (x : nat) : Set_has V x = false ↔ x ∉ V.
Proof.
  rewrite <- Set_has_elem_of. destruct (Set_has V x); split; congruence.
Qed.

Lemma Set_add_fresh (V : list nat) (x : nat) : x ∉ V → Set_add V x = V ++ [x].
Proof. intros H. unfold Set_add. apply Set_has_false in H. by rewrite H. Qed.

Lemma Set_add_present (V : list nat) (x : nat) : x ∈ V → Set_add V x = V.
Proof. intros H. unfold Set_add. apply Set_has_elem_of in H. by rewrite H. Qed.

Lemma Set_add_NoDup (V : list nat) (x : nat) : NoDup V → NoDup (Set_add V x).
Proof.
  intros H. destruct (decide (x ∈ V)) as [Hx|Hx].
  - by rewrite Set_add_present.
  - rewrite Set_add_fresh by done. apply NoDup_app. split_and!; [done| |apply NoDup_singleton].
    intros y Hy ->%list_elem_of_singleton. done.
Qed.

Lemma Set_add_elem_of (V : list nat) (x y : nat) : y ∈ Set_add V x ↔ y ∈ V ∨ y = x.
Proof.
  destruct (decide (x ∈ V)) as [Hx|Hx].
  - rewrite Set_add_present by done. split; [auto|]. intros [?| ->]; done.
  - rewrite Set_add_fresh by done. rewrite elem_of_app, list_elem_of_singleton. done.
Qed.

Lemma Map_get_set {V} (m : list (symbol * V)) (k k' : symbol) (v : V) :
  Map_get (Map_set m k v) k' = if String.eqb k' k then Some v else Map_get m k'.
Proof.
  induction m as [|[k0 v0] m IH]; simpl.
  - reflexivity.
  - destruct (String.eqb k k0) eqn:E; simpl.
    + apply String.eqb_eq in E. subst k0. by destruct (String.eqb k' k).
    + rewrite IH. destruct (String.eqb k' k0) eqn:E'; [|reflexivity].
      destruct (String.eqb k' k) eqn:E''; [|reflexivity].
      apply String.eqb_eq in E', E''. subst. by rewrite String.eqb_refl in E.
Qed.

Lemma same_graph_refl (h : heap) : same_graph h h.
Proof. by split_and!. Qed.

Lemma same_graph_trans (h1 h2 h3 : heap) :
  same_graph h1 h2 → same_graph h2 h3 → same_graph h1 h3.
Proof.
  intros (L1 & A1 & T1) (L2 & A2 & T2). split_and!.
  - congruence.
  - intros s. by rewrite A2, A1.
  - intros s c. by rewrite T2, T1.
Qed.

(** A query returns the targets of the graph and leaves the graph as it
    is. *)
Lemma getTransitionsOnSymbol_graph (h : heap) (s : ref) (c : symbol) :
  s < length h →
  ∃ h', getTransitionsOnSymbol s c h = Some (targets h s c, h') ∧ same_graph h h'.
Proof.
  intros Hs. destruct (lookup_lt_is_Some_2 h s Hs) as [st Hst].
  unfold getTransitionsOnSymbol, targets. rewrite Hst. simpl.
  destruct (Map_get (_transitions st) c) as [l|] eqn:E.
  - eexists. split; [reflexivity|apply same_graph_refl].
  - eexists. split; [reflexivity|]. split_and!.
    + by rewrite length_insert.
    + intros s'. unfold is_accepting.
      destruct (decide (s' = s)) as [->|Hne].
      * by rewrite list_lookup_insert_eq, Hst by done.
      * by rewrite list_lookup_insert_ne by done.
    + intros s' c'. unfold targets.
      destruct (decide (s' = s)) as [->|Hne].
      * rewrite list_lookup_insert_eq, Hst by done. simpl. rewrite Map_get_set.
        destruct (String.eqb c' c) eqn:E'; [|reflexivity].
        apply String.eqb_eq in E'. subst. by rewrite E.
      * by rewrite list_lookup_insert_ne by done.
Qed.

Lemma wf_heap_targets (h : heap) :
  wf_heap h = true → ∀ s c t, t ∈ targets h s c → t < length h.
Proof.
  unfold wf_heap, targets. intros Hwf s c t Ht.
  destruct (h !! s) as [st|] eqn:Hst; [|by apply not_elem_of_nil in Ht].
  rewrite forallb_forall in Hwf.
  assert (In st h) as Hin by (apply list_elem_of_In; eapply list_elem_of_lookup_2; done).
  specialize (Hwf _ Hin). rewrite forallb_forall in Hwf.
  destruct (Map_get (_transitions st) c) as [l|] eqn:E;
    [|by apply not_elem_of_nil in Ht].
  simpl in Ht.
  assert (In (c, l) (_transitions st)) as Hin'.
  { clear -E. induction (_transitions st) as [|[k v] m IH]; simpl in *; [done|].
    destruct (String.eqb c k) eqn:E'.
    - apply String.eqb_eq in E'. left. congruence.
    - right. auto. }
  specialize (Hwf _ Hin'). simpl in Hwf. rewrite forallb_forall in Hwf.
  apply Nat.ltb_lt, Hwf. by apply list_elem_of_In.
Qed.

Lemma valid_visited_length (h : heap) (V : list ref) :
  valid_visited h V → length V ≤ length h.
Proof.
  intros [Hnd Hlt].
  rewrite <- (length_seq (length h) 0).
  apply NoDup_incl_length; [by apply NoDup_ListNoDup|].
  intros x Hx. apply in_seq. apply list_elem_of_In, Hlt in Hx. lia.
Qed.

Lemma valid_visited_add (h : heap) (V : list ref) (s : ref) :
  valid_visited h V → s < length h → valid_visited h (Set_add V s).
Proof.
  intros [Hnd Hlt] Hs. split; [by apply Set_add_NoDup|].
  intros x [Hx| ->]%Set_add_elem_of; auto.
Qed.

(** If a set of states contains [s], is closed under epsilon edges and
    holds no goal state, then [s] does not accept. *)
Lemma accepts_goal_in_closed (h : heap) (V : list ref) (s : ref) (w : list symbol) :
  accepts h s w →
  (∀ x, x ∈ V → ∀ t, t ∈ targets h x EPSILON → t ∈ V) →
  s ∈ V → ∃ x, x ∈ V ∧ goal h w x.
Proof.
  intros Hacc Hclosed. induction Hacc as [s Ha|s t w Ht _ IH|s t c w Ht Hacc _]; intros Hs.
  - exists s. by split.
  - apply IH. by eapply Hclosed.
  - exists s. split; [done|]. simpl. eauto.
Qed.

Lemma dfs_post_root_false (h : heap) (w : list symbol) (s : ref) (V' : list ref) :
  dfs_post h w s [] false V' → ¬ accepts h s w.
Proof.
  intros (_ & _ & _ & Hs & Hnew) Hacc.
  destruct (accepts_goal_in_closed h V' s w Hacc) as (x & Hx & Hgoal); [|done|].
  - intros x Hx t Ht. eapply Hnew; [done|apply not_elem_of_nil|done].
  - eapply Hnew; [done|apply not_elem_of_nil|done].
Qed.

Lemma matches_unfold (fuel : nat) (this : ref) (w : list symbol) (visited : list ref)
    (h : heap) :
  matches (S fuel) this w visited h
  = (st ← h !! this;
     if Set_has visited this then Some (false, (visited, h)) else
     let visited := Set_add visited this in
     match w with
     | [] =>
         if accepting st then Some (true, (visited, h)) else
         '(eps, h) ← getTransitionsOnSymbol this EPSILON h;
         for_of_some (λ nextState '(visited, h), matches fuel nextState [] visited h)
                     eps (visited, h)
     | symbol :: rest =>
         '(symbolTransitions, h) ← getTransitionsOnSymbol this symbol h;
         match for_of_some
                 (λ nextState h,
                    match matches fuel nextState rest [] h with
                    | Some (b, (_, h)) => Some (b, h)
                    | None => None
                    end)
                 symbolTransitions h with
         | None => None
         | Some (true, h) => Some (true, (visited, h))
         | Some (false, h) =>
             '(eps, h) ← getTransitionsOnSymbol this EPSILON h;
             for_of_some (λ nextState '(visited, h), matches fuel nextState w visited h)
                         eps (visited, h)
         end
     end).
Proof. destruct w; reflexivity. Qed.

Section graph_walk.
Variable h : heap.
Hypothesis Hwf : wf_heap h = true.

(** The loop over the epsilon successors, all called with the shared
    [visited] set. *)
Lemma epsilon_loop_ok (fuel : nat) (w : list symbol)
    (body : ref → list ref * heap → option (bool * (list ref * heap))) :
  (∀ t V h', body t (V, h') = matches fuel t w V h') →
  matches_ok h fuel →
  ∀ l V h',
    (∀ t, t ∈ l → t < length h) → same_graph h h' → valid_visited h V →
    length w * S (length h) + (length h - length V) + 1 ≤ fuel →
    ∃ b V' h'',
      for_of_some body l (V, h') = Some (b, (V', h'')) ∧ same_graph h h'' ∧
      valid_visited h V' ∧ V ⊆ V' ∧ length V ≤ length V' ∧
      if b then ∃ t, t ∈ l ∧ accepts h t w
      else (∀ t, t ∈ l → t ∈ V') ∧
           ∀ x, x ∈ V' → x ∉ V →
                ¬ goal h w x ∧ ∀ t, t ∈ targets h x EPSILON → t ∈ V'.
Proof.
  intros Hbody IH l. induction l as [|t l IHl]; intros V h' Hl Hg HV Hfuel.
  - exists false, V, h'. split_and!; try done. by intros t Ht%not_elem_of_nil.
  - destruct (IH w t V h' Hg) as (b1 & V1 & h1 & Hm & Hg1 & HV1 & Hsub1 & Hlen1 & Hpost1);
      [apply Hl; left|done|done|].
    simpl. rewrite Hbody, Hm. destruct b1.
    + exists true, V1, h1. split_and!; try done. exists t. split; [left|done].
    + destruct Hpost1 as [Ht1 Hnew1].
      destruct (IHl V1 h1) as (b & V' & h'' & Hloop & Hg' & HV' & Hsub' & Hlen' & Hpost');
        [intros; apply Hl; by right|done|done|lia|].
      exists b, V', h''. split_and!; try done; [by etrans|lia|].
      destruct b.
      * destruct Hpost' as (t' & Ht' & Hacc). exists t'. split; [by right|done].
      * destruct Hpost' as [Hall Hnew']. split.
        -- intros t' [->|Ht']%elem_of_cons; [by apply Hsub'|auto].
        -- intros x Hx HxV. destruct (decide (x ∈ V1)) as [Hx1|Hx1].
           ++ destruct (Hnew1 x Hx1 HxV) as [Hng Hsucc]. split; [done|].
              intros t' Ht'. apply Hsub'. auto.
           ++ auto.
Qed.

(** The loop over the successors on the first symbol, each called with
    a fresh [visited] set. *)
Lemma symbol_loop_ok (fuel : nat) (r : list symbol)
    (body : ref → heap → option (bool * heap)) :
  (∀ t h', body t h' = match matches fuel t r [] h' with
                       | Some (b, (_, h)) => Some (b, h)
                       | None => None
                       end) →
  matches_ok h fuel →
  ∀ l h',
    (∀ t, t ∈ l → t < length h) → same_graph h h' →
    length r * S (length h) + length h + 1 ≤ fuel →
    ∃ b h'',
      for_of_some body l h' = Some (b, h'') ∧ same_graph h h'' ∧
      if b then ∃ t, t ∈ l ∧ accepts h t r else ∀ t, t ∈ l → ¬ accepts h t r.
Proof.
  intros Hbody IH l. induction l as [|t l IHl]; intros h' Hl Hg Hfuel.
  - exists false, h'. split_and!; try done. by intros t Ht%not_elem_of_nil.
  - destruct (IH r t [] h' Hg) as (b1 & V1 & h1 & Hm & Hg1 & Hpost1);
      [apply Hl; left|split; [apply NoDup_nil_2|by intros x Hx%not_elem_of_nil]|simpl; lia|].
    simpl. rewrite Hbody, Hm. destruct b1.
    + exists true, h1. split_and!; try done. exists t. split; [left|].
      by destruct Hpost1 as (_ & _ & _ & Hacc).
    + destruct (IHl h1) as (b & h'' & Hloop & Hg' & Hpost');
        [intros; apply Hl; by right|done|done|].
      exists b, h''. split_and!; try done. destruct b.
      * destruct Hpost' as (t' & Ht' & Hacc). exists t'. split; [by right|done].
      * intros t' [->|Ht']%elem_of_cons; [|auto].
        by eapply dfs_post_root_false.
Qed.

Lemma matches_ok_all (fuel : nat) : matches_ok h fuel.
Proof.
  induction fuel as [|fuel IH]; intros w s V h' Hg Hs HV Hfuel; [lia|].
  rewrite matches_unfold.
  destruct Hg as (Hlen & Hacc & Htg).
  assert (s < length h') as Hs' by lia.
  destruct (lookup_lt_is_Some_2 h' s Hs') as [st Hst]. rewrite Hst. simpl.
  destruct (Set_has V s) eqn:Hin.
  { apply Set_has_elem_of in Hin. exists false, V, h'. unfold dfs_post.
    split_and!; try done. }
  apply Set_has_false in Hin.
  pose proof (valid_visited_add h V s HV Hs) as HV1.
  pose proof (valid_visited_length h _ HV1) as Hle1.
  assert (length (Set_add V s) = S (length V)) as Hlen1.
  { rewrite Set_add_fresh by done. rewrite length_app. simpl. lia. }
  assert (V ⊆ Set_add V s) as Hsub1.
  { intros x Hx. apply Set_add_elem_of. by left. }
  assert (s ∈ Set_add V s) as Hs1 by (apply Set_add_elem_of; by right).
  assert (is_accepting h s = accepting st) as Hacc_s.
  { rewrite <- Hacc. unfold is_accepting. by rewrite Hst. }
  assert (∀ c, ∃ h1, getTransitionsOnSymbol s c h' = Some (targets h s c, h1) ∧
                     same_graph h h1) as Hget.
  { intros c. destruct (getTransitionsOnSymbol_graph h' s c Hs') as (h1 & E & Hg1).
    exists h1. rewrite <- Htg. split; [done|].
    eapply same_graph_trans; [|done]. by split_and!. }
  assert (∀ c h1, same_graph h h1 → ∃ h2,
            getTransitionsOnSymbol s c h1 = Some (targets h s c, h2) ∧
            same_graph h h2) as Hget'.
  { intros c h1 Hg1. pose proof Hg1 as (Hl1 & _ & Ht1).
    destruct (getTransitionsOnSymbol_graph h1 s c) as (h2 & E & Hg2); [lia|].
    exists h2. rewrite <- Ht1. split; [done|]. by eapply same_graph_trans. }
  (* the final epsilon loop, shared by both branches *)
  assert (∀ h1, same_graph h h1 → ¬ goal h w s →
            length w * S (length h) + (length h - length (Set_add V s)) + 1 ≤ fuel →
            ∃ b V' h'',
              ('(eps, h) ← getTransitionsOnSymbol s EPSILON h1;
               for_of_some (λ nextState '(visited, h), matches fuel nextState w visited h)
                           eps (Set_add V s, h))
              = Some (b, (V', h'')) ∧ same_graph h h'' ∧ dfs_post h w s V b V') as Heps.
  { intros h1 Hg1 Hng Hfuel1.
    destruct (Hget' EPSILON h1 Hg1) as (h2 & E & Hg2). rewrite E. simpl.
    destruct (epsilon_loop_ok fuel w
                (λ nextState '(visited, h), matches fuel nextState w visited h)
                (λ _ _ _, eq_refl) IH (targets h s EPSILON) (Set_add V s) h2)
      as (b & V' & h'' & Hloop & Hg' & HV' & Hsub' & Hlen' & Hpost');
      [intros t Ht; by eapply wf_heap_targets|done|done|done|].
    exists b, V', h''. unfold dfs_post. split_and!; try done; [by etrans|lia|].
    destruct b.
    - destruct Hpost' as (t & Ht & Hacc_t). by eapply accepts_epsilon.
    - destruct Hpost' as [Hall Hnew]. split; [auto|].
      intros x Hx HxV. destruct (decide (x = s)) as [->|Hne].
      + split; [done|]. auto.
      + apply Hnew; [done|]. intros [?| ->]%Set_add_elem_of; done. }
  destruct w as [|c r].
  - destruct (accepting st) eqn:Ha.
    + exists true, (Set_add V s), h'. unfold dfs_post. split_and!; try done; [lia|].
      apply accepts_end. congruence.
    + apply Heps; [by split_and!| |simpl in *; lia].
      simpl. congruence.
  - destruct (Hget c) as (h1 & E & Hg1). rewrite E. simpl.
    destruct (symbol_loop_ok fuel r
                (λ nextState h,
                   match matches fuel nextState r [] h with
                   | Some (b, (_, h)) => Some (b, h)
                   | None => None
                   end)
                (λ _ _, eq_refl) IH (targets h s c) h1)
      as (b & h2 & Hloop & Hg2 & Hpost);
      [intros t Ht; by eapply wf_heap_targets|done|simpl in *; lia|].
    rewrite Hloop. destruct b.
    + exists true, (Set_add V s), h2. unfold dfs_post. split_and!; try done; [lia|].
      destruct Hpost as (t & Ht & Hacc_t). by eapply accepts_symbol.
    + apply Heps; [done| |simpl in *; lia].
      intros (t & Ht & Hacc_t). by eapply Hpost.
Qed.
End graph_walk.

(** The graph walk [matches], started with an empty [visited] set,
    returns (with [matches_fuel h w] units of fuel or more), and it returns
    [true] exactly when [accepts h s w] holds: the walk relation of the
    code, in which an edge labelled ['ε'] is followed without reading and
    also when the next input character is ['ε'].  The same holds for
    [State.matches] of [NFA.js], whose text is identical. *)
Lemma matches_decides_walk (h : heap) (s : ref) (w : list symbol) (fuel : nat) :
  wf_heap h = true → s < length h → matches_fuel h w ≤ fuel →
  ∃ b visited h',
    matches fuel s w [] h = Some (b, (visited, h')) ∧ (b = true ↔ accepts h s w).
Proof.
  intros Hwf Hs Hfuel.
  destruct (matches_ok_all h Hwf fuel w s [] h) as (b & V' & h' & Hm & _ & Hpost).
  - apply same_graph_refl.
  - done.
  - split; [apply NoDup_nil_2|by intros x Hx%not_elem_of_nil].
  - unfold matches_fuel in Hfuel. simpl. lia.
  - exists b, V', h'. split; [done|]. destruct b.
    + destruct Hpost as (_ & _ & _ & Hacc). done.
    + split; [done|]. intros Hacc. by apply dfs_post_root_false in Hpost.
Qed.

(** ** Labels of the subset construction are joined id lists *)

Lemma string_of_uint_no_comma (d : Decimal.uint) : no_comma (NilEmpty.string_of_uint d).
Proof. induction d; simpl; try done; split; done. Qed.

Lemma Number_toString_no_comma (n : nat) : no_comma (Number_toString n).
Proof. apply string_of_uint_no_comma. Qed.

Lemma Number_toString_inj (n m : nat) : Number_toString n = Number_toString m → n = m.
Proof.
  unfold Number_toString. intros E. apply Unsigned.to_uint_inj.
  assert (Some (Nat.to_uint n) = Some (Nat.to_uint m)) as E'; [|congruence].
  by rewrite <- !NilEmpty.usu, E.
Qed.

Lemma Number_toString_nonempty (n : nat) : Number_toString n ≠ "".
Proof.
  unfold Number_toString. intros E.
  assert (Nat.to_uint n ≠ Decimal.Nil) as Hne.
  { rewrite <- (Unsigned.of_to n) at 1. rewrite Unsigned.to_of.
    apply DecimalFacts.unorm_nonnil. }
  destruct (Nat.to_uint n); simpl in E; congruence.
Qed.

Lemma append_nil_l (s : string) : "" +:+ s = s.
Proof. reflexivity. Qed.

Lemma append_cons (a : ascii) (s1 s2 : string) : String a s1 +:+ s2 = String a (s1 +:+ s2).
Proof. reflexivity. Qed.

Lemma append_nil_r (s : string) : s +:+ "" = s.
Proof. induction s as [|a s IH]; [done|]. by rewrite append_cons, IH. Qed.

(** Two strings without commas, each followed by nothing or by a comma
    and more, are equal only piece by piece. *)
Lemma append_comma_split (s1 : string) : ∀ s2 r1 r2,
  no_comma s1 → no_comma s2 →
  (r1 = "" ∨ ∃ r, r1 = String ","%char r) →
  (r2 = "" ∨ ∃ r, r2 = String ","%char r) →
  s1 +:+ r1 = s2 +:+ r2 → s1 = s2 ∧ r1 = r2.
Proof.
  induction s1 as [|a s1 IH]; intros s2 r1 r2 H1 H2 T1 T2 E.
  - destruct s2 as [|b s2]; rewrite ?append_nil_l, ?append_cons in E; [done|].
    destruct H2 as [Hb _]. destruct T1 as [->|[r ->]]; [done|]. congruence.
  - destruct s2 as [|b s2]; rewrite ?append_nil_l, ?append_cons in E.
    + destruct H1 as [Ha _]. destruct T2 as [->|[r ->]]; [done|]. congruence.
    + injection E as -> E. destruct H1 as [_ H1], H2 as [_ H2].
      destruct (IH s2 r1 r2 H1 H2 T1 T2 E) as [-> ->]. done.
Qed.

Lemma join_cons (n : nat) (l : list nat) :
  join (n :: l)
  = Number_toString n +:+ match l with [] => "" | _ => String ","%char (join l) end.
Proof.
  destruct l as [|m l]; [|done]. simpl. by rewrite append_nil_r.
Qed.

(** [join] is injective: a label determines its id list, order included. *)
Lemma join_inj (l1 : list nat) : ∀ l2, join l1 = join l2 → l1 = l2.
Proof.
  induction l1 as [|n1 l1 IH]; intros [|n2 l2] E; [done| | |].
  - rewrite join_cons in E. simpl in E.
    pose proof (Number_toString_nonempty n2). destruct (Number_toString n2); done.
  - rewrite join_cons in E. simpl in E.
    pose proof (Number_toString_nonempty n1). destruct (Number_toString n1); done.
  - rewrite !join_cons in E.
    apply append_comma_split in E as [En Et];
      [|apply Number_toString_no_comma|apply Number_toString_no_comma| |].
    + apply Number_toString_inj in En as ->. f_equal.
      destruct l1 as [|a l1], l2 as [|b l2]; try done.
      injection Et as Et. by apply IH.
    + destruct l1; [by left|right; eauto].
    + destruct l2; [by left|right; eauto].
Qed.

Lemma Set_addAll_NoDup (l acc : list nat) : NoDup acc → NoDup (Set_addAll acc l).
Proof.
  unfold Set_addAll. revert acc.
  induction l as [|x l IH]; intros acc H; simpl; [done|]. by apply IH, Set_add_NoDup.
Qed.

Lemma Set_from_NoDup (l : list nat) : NoDup (Set_from l).
Proof. apply (Set_addAll_NoDup l []), NoDup_nil_2. Qed.

Lemma Object_get_elem_of {V} (o : list (string * V)) (k : string) (v : V) :
  Object_get o k = Some v → (k, v) ∈ o.
Proof.
  induction o as [|[k' v'] o IH]; simpl; [done|].
  destruct (String.eqb k k') eqn:E.
  - apply String.eqb_eq in E. intros [= ->]. subst. left.
  - intros H. right. auto.
Qed.

Lemma Object_set_elem_of {V} (o : list (string * V)) (k : string) (v : V) (p : string * V) :
  p ∈ Object_set o k v → p = (k, v) ∨ p ∈ o.
Proof.
  induction o as [|[k' v'] o IH]; simpl.
  - intros ->%list_elem_of_singleton. by left.
  - destruct (String.eqb k k').
    + intros [->|H]%elem_of_cons; [by left|right; by right].
    + destruct (key_before k k').
      * intros [->|H]%elem_of_cons; [by left|by right].
      * intros [->|H]%elem_of_cons; [right; left|].
        destruct (IH H) as [->|H']; [by left|right; by right].
Qed.

(** ** Integer-keyed objects *)

Lemma iobj_get_set {V} (o : list (nat * V)) (k k' : nat) (v : V) :
  iobj_get (iobj_set o k v) k' = if k' =? k then Some v else iobj_get o k'.
Proof.
  induction o as [|[k0 v0] o IH]; simpl.
  - reflexivity.
  - destruct (k =? k0) eqn:E; simpl.
    + apply Nat.eqb_eq in E. subst k0. by destruct (k' =? k).
    + destruct (k <? k0) eqn:E2; simpl.
      * by destruct (k' =? k).
      * rewrite IH. destruct (k' =? k0) eqn:E3; [|reflexivity].
        destruct (k' =? k) eqn:E4; [|reflexivity].
        apply Nat.eqb_eq in E3, E4. subst. by rewrite Nat.eqb_refl in E.
Qed.

Lemma iobj_set_Forall {V} (P : nat * V → Prop) (o : list (nat * V)) (k : nat) (v : V) :
  Forall P o → P (k, v) → Forall P (iobj_set o k v).
Proof.
  intros Ho Hk. induction Ho as [|[k0 v0] o H0 Ho IH]; simpl.
  - by constructor.
  - destruct (k =? k0); [by constructor|].
    destruct (k <? k0); constructor; try done. by constructor.
Qed.

Lemma iobj_set_sorted {V} (o : list (nat * V)) (k : nat) (v : V) :
  iobj_sorted o → iobj_sorted (iobj_set o k v).
Proof.
  induction o as [|[k0 v0] o IH]; simpl.
  - intros _. split; [constructor|done].
  - intros [Hall Hs]. destruct (k =? k0) eqn:E.
    + apply Nat.eqb_eq in E. subst. by split.
    + destruct (k <? k0) eqn:E2.
      * apply Nat.ltb_lt in E2. split; [|by split].
        constructor; [done|]. eapply Forall_impl; [done|]. simpl. intros; lia.
      * apply Nat.ltb_ge in E2. apply Nat.eqb_neq in E. split; [|auto].
        apply iobj_set_Forall; [done|]. simpl. lia.
Qed.

Lemma iobj_get_elem_of {V} (o : list (nat * V)) (k : nat) (v : V) :
  iobj_get o k = Some v → (k, v) ∈ o.
Proof.
  induction o as [|[k0 v0] o IH]; simpl; [done|].
  destruct (k =? k0) eqn:E.
  - apply Nat.eqb_eq in E. intros [= ->]. subst. left.
  - intros H. right. auto.
Qed.

Lemma iobj_sorted_get {V} (o : list (nat * V)) (k : nat) (v : V) :
  iobj_sorted o → (k, v) ∈ o → iobj_get o k = Some v.
Proof.
  induction o as [|[k0 v0] o IH]; simpl; [by intros _ ?%not_elem_of_nil|].
  intros [Hall Hs] [[= -> ->]|Hin]%elem_of_cons.
  - by rewrite Nat.eqb_refl.
  - rewrite Forall_forall in Hall. specialize (Hall _ Hin). simpl in Hall.
    destruct (k =? k0) eqn:E; [apply Nat.eqb_eq in E; lia|auto].
Qed.

Lemma iobj_get_keys {V} (o : list (nat * V)) (k : nat) :
  k ∈ iobj_keys o ↔ is_Some (iobj_get o k).
Proof.
  unfold iobj_keys. induction o as [|[k0 v0] o IH]; simpl.
  - split; [by intros ?%not_elem_of_nil|by intros [? ?]].
  - rewrite elem_of_cons, IH. destruct (k =? k0) eqn:E.
    + apply Nat.eqb_eq in E. split; [eauto|by left].
    + apply Nat.eqb_neq in E. split; [by intros [?|?]|by right].
Qed.

(** [Object.assign] from a source with ascending keys. *)
Lemma Object_assign_get (source : list (nat * nat)) : ∀ target k,
  iobj_sorted source →
  iobj_get (Object_assign target source) k
  = match iobj_get source k with Some v => Some v | None => iobj_get target k end.
Proof.
  unfold Object_assign.
  induction source as [|[k0 v0] source IH]; intros target k; simpl; [done|].
  intros [Hall Hs]. rewrite IH by done. rewrite iobj_get_set.
  destruct (k =? k0) eqn:E; [|done].
  apply Nat.eqb_eq in E. subst k0.
  destruct (iobj_get source k) as [v|] eqn:Ev; [|done].
  apply iobj_get_elem_of in Ev. rewrite Forall_forall in Hall.
  specialize (Hall _ Ev). simpl in Hall. lia.
Qed.

Lemma Object_assign_sorted (source : list (nat * nat)) : ∀ target,
  iobj_sorted target → iobj_sorted (Object_assign target source).
Proof.
  unfold Object_assign.
  induction source as [|[k0 v0] source IH]; intros target Ht; simpl; [done|].
  by apply IH, iobj_set_sorted.
Qed.

(** ** The run of [minimize] on a table with a row for id 2 *)

Lemma Set_has_app (l1 l2 : list nat) (x : nat) :
  Set_has (l1 ++ l2) x = Set_has l1 x || Set_has l2 x.
Proof. unfold Set_has. apply existsb_app. Qed.

Lemma Set_addAll_app (acc l1 l2 : list nat) :
  Set_addAll acc (l1 ++ l2) = Set_addAll (Set_addAll acc l1) l2.
Proof. unfold Set_addAll. apply foldl_app. Qed.

Lemma Set_addAll_elem_of (l : list nat) : ∀ acc x,
  x ∈ Set_addAll acc l ↔ x ∈ acc ∨ x ∈ l.
Proof.
  unfold Set_addAll. induction l as [|y l IH]; intros acc x; simpl.
  - split; [by left|]. by intros [?|?%not_elem_of_nil].
  - rewrite IH, Set_add_elem_of, elem_of_cons. tauto.
Qed.

Lemma has_entry_get {V} (o : list (nat * V)) (k : nat) :
  has_entry o k = true ↔ is_Some (iobj_get o k).
Proof.
  unfold has_entry. destruct (iobj_get o k); split; try done; by intros [? ?].
Qed.

Lemma has_entry_set {V} (o : list (nat * V)) (k k' : nat) (v : V) :
  has_entry (iobj_set o k v) k' = (k' =? k) || has_entry o k'.
Proof. unfold has_entry. rewrite iobj_get_set. by destruct (k' =? k). Qed.

Lemma areEquivalent_present (m : mstate) (s1 s2 : nat) :
  has_entry (currentTransitionMap m) s1 = true →
  has_entry (currentTransitionMap m) s2 = true →
  areEquivalent m s1 s2 = true.
Proof.
  rewrite areEquivalent_only_tests_presence. unfold has_entry.
  by destruct (iobj_get _ s1), (iobj_get _ s2).
Qed.

(** The [allStates.forEach] pass. *)
Lemma init_fold (sets0 : list (list nat)) (ks : list nat) : ∀ acc c,
  sets0 !! accepting_ref = Some [2; 3] →
  foldl (λ m state,
           if Set_has (set_of m accepting_ref) state
           then mkM (sets m) (iobj_set (currentTransitionMap m) state accepting_ref)
           else mkM (<[length sets0 := Set_add (set_of m (length sets0)) state]> (sets m))
                    (iobj_set (currentTransitionMap m) state (length sets0)))
        (mkM (sets0 ++ [acc]) c) ks
  = mkM (sets0 ++ [Set_addAll acc (List.filter (λ k, negb (Set_has [2; 3] k)) ks)])
        (foldl (λ c k, iobj_set c k (if Set_has [2; 3] k then accepting_ref else length sets0))
               c ks).
Proof.
  intros acc c H0. revert acc c.
  induction ks as [|k ks IH]; intros acc c; simpl; [done|].
  assert (set_of (mkM (sets0 ++ [acc]) c) accepting_ref = [2; 3]) as ->.
  { unfold set_of. simpl. rewrite lookup_app_l by (by eapply lookup_lt_Some). by rewrite H0. }
  destruct (Set_has [2; 3] k) eqn:E; simpl.
  - apply IH.
  - assert (set_of (mkM (sets0 ++ [acc]) c) (length sets0) = acc) as ->.
    { unfold set_of. simpl. by rewrite list_lookup_middle. }
    rewrite insert_app_r_alt by lia. rewrite Nat.sub_diag. simpl. apply IH.
Qed.

Lemma init_classes_spec (t : min_table) (m : mstate) :
  module_ok m →
  ∃ c, init_classes t m
       = (length (sets m), mkM (sets m ++ [nonAccepting_ids t]) c)
     ∧ (∀ x, has_entry c x = has_entry (currentTransitionMap m) x || Set_has (iobj_keys t) x).
Proof.
  intros Hok. unfold init_classes. eexists. split.
  - f_equal. by apply init_fold.
  - generalize (currentTransitionMap m) as c. unfold iobj_keys.
    induction (t.*1) as [|k ks IH]; intros c x; simpl.
    + by rewrite orb_false_r.
    + rewrite IH, has_entry_set. unfold Set_has. simpl.
      by destruct (x =? k), (has_entry c x).
Qed.

(** The [restSets] loop of one class whose members all have an entry:
    every member joins the class of the first handled id. *)
Lemma handle_rest_ok (sets0 : list (list nat)) (c : list (nat * nat)) (rest : list nat) :
  ∀ pre hs,
    pre ≠ [] → NoDup (pre ++ rest) →
    (∀ x, x ∈ pre ++ rest → has_entry c x = true) →
    iobj_sorted hs →
    (∀ x, iobj_get hs x = if Set_has pre x then Some (length sets0) else None) →
    ∃ hs',
      foldl handle_state (mkM (sets0 ++ [pre]) c, hs) rest
      = (mkM (sets0 ++ [pre ++ rest]) c, hs')
      ∧ iobj_sorted hs'
      ∧ ∀ x, iobj_get hs' x = if Set_has (pre ++ rest) x then Some (length sets0) else None.
Proof.
  induction rest as [|x rest IH]; intros pre hs Hpre Hnd Hdef Hs Hhs; simpl.
  - exists hs. by rewrite app_nil_r.
  - destruct hs as [|[k0 v0] hs_tail].
    { destruct pre as [|p0 pre]; [done|]. specialize (Hhs p0). simpl in Hhs.
      unfold Set_has in Hhs. simpl in Hhs. by rewrite Nat.eqb_refl in Hhs. }
    assert (Set_has pre k0 = true ∧ v0 = length sets0) as [Hk0 ->].
    { specialize (Hhs k0). simpl in Hhs. rewrite Nat.eqb_refl in Hhs.
      destruct (Set_has pre k0); by inversion Hhs. }
    assert (areEquivalent (mkM (sets0 ++ [pre]) c) x k0 = true) as Heq.
    { apply areEquivalent_present; simpl; apply Hdef.
      - apply elem_of_app. right. left.
      - apply elem_of_app. left. by apply Set_has_elem_of. }
    simpl. rewrite Heq. simpl. rewrite Nat.eqb_refl.
    assert (set_of (mkM (sets0 ++ [pre]) c) (length sets0) = pre) as ->.
    { unfold set_of. simpl. by rewrite list_lookup_middle. }
    rewrite insert_app_r_alt by lia. rewrite Nat.sub_diag. simpl.
    assert (x ∉ pre) as Hx.
    { apply NoDup_app in Hnd as (_ & Hdisj & _). intros Hin. eapply Hdisj; [done|left]. }
    rewrite Set_add_fresh by done.
    destruct (IH (pre ++ [x]) (iobj_set ((k0, length sets0) :: hs_tail) x (length sets0)))
      as (hs' & E & Hs' & Hhs').
    + by destruct pre.
    + by rewrite <- app_assoc.
    + intros y Hy. apply Hdef. by rewrite <- app_assoc in Hy.
    + by apply iobj_set_sorted.
    + intros y. rewrite iobj_get_set, Hhs, Set_has_app.
      unfold Set_has at 3. simpl. rewrite orb_false_r.
      destruct (y =? x); [by rewrite orb_true_r|by rewrite orb_false_r].
    + exists hs'. rewrite <- app_assoc in E, Hhs'. done.
Qed.

Lemma handle_set_ok (m : mstate) (newTransitionMap : list (nat * nat)) (set : nat)
    (c : list nat) :
  set_of m set = c → c ≠ [] → NoDup c →
  (∀ x, x ∈ c → has_entry (currentTransitionMap m) x = true) →
  iobj_sorted newTransitionMap →
  ∃ newTransitionMap',
    handle_set (Normal (m, newTransitionMap)) set
    = Normal (mkM (sets m ++ [c]) (currentTransitionMap m), newTransitionMap')
    ∧ iobj_sorted newTransitionMap'
    ∧ ∀ x, iobj_get newTransitionMap' x
           = if Set_has c x then Some (length (sets m)) else iobj_get newTransitionMap x.
Proof.
  intros Hset Hne Hnd Hdef Hs. unfold handle_set. rewrite Hset.
  destruct c as [|first rest]; [done|].
  destruct (handle_rest_ok (sets m) (currentTransitionMap m) rest [first]
              (iobj_set [] first (length (sets m)))) as (hs & E & Hs' & Hhs); try done.
  - intros x. simpl. unfold Set_has. simpl. by rewrite orb_false_r.
  - rewrite E. eexists. split; [reflexivity|]. split.
    + by apply Object_assign_sorted.
    + intros x. rewrite Object_assign_get by done. rewrite Hhs. simpl.
      by destruct (Set_has (first :: rest) x).
Qed.

Lemma Set_addAll_both (a b : nat) (l : list nat) :
  (∀ x, x ∈ l → x = a ∨ x = b) → Set_addAll [a; b] l = [a; b].
Proof.
  unfold Set_addAll. induction l as [|x l IH]; intros H; simpl; [done|].
  rewrite Set_add_present; [apply IH; intros; apply H; by right|].
  destruct (H x) as [->| ->]; [left|left|right; left].
Qed.

Lemma Set_addAll_second (a b : nat) (l : list nat) :
  a ≠ b → (∀ x, x ∈ l → x = a ∨ x = b) → b ∈ l → Set_addAll [a] l = [a; b].
Proof.
  unfold Set_addAll. intros Hab. induction l as [|x l IH]; intros H Hb; simpl.
  - by apply not_elem_of_nil in Hb.
  - destruct (H x) as [->| ->]; [left| |].
    + rewrite Set_add_present by left. apply IH; [intros; apply H; by right|].
      apply elem_of_cons in Hb as [?|?]; done.
    + rewrite Set_add_fresh by (by intros ->%list_elem_of_singleton).
      apply Set_addAll_both. intros; apply H; by right.
Qed.

Lemma Set_addAll_same (a : nat) (l : list nat) :
  (∀ x, x ∈ l → x = a) → Set_addAll [a] l = [a].
Proof.
  unfold Set_addAll. induction l as [|x l IH]; intros H; simpl; [done|].
  rewrite (H x) by left. rewrite Set_add_present by left. apply IH. intros; apply H; by right.
Qed.

(** One round on a single class. *)
Lemma refine_round_one (m : mstate) (r1 : nat) (c1 : list nat) :
  set_of m r1 = c1 → c1 ≠ [] → NoDup c1 →
  (∀ x, x ∈ c1 → has_entry (currentTransitionMap m) x = true) →
  ∃ newTransitionMap,
    refine_round m [r1]
    = Normal (mkM (sets m ++ [c1]) newTransitionMap, [length (sets m)])
    ∧ ∀ x, iobj_get newTransitionMap x
           = if Set_has c1 x then Some (length (sets m)) else None.
Proof.
  intros H1 Hne Hnd Hdef. unfold refine_round. simpl.
  destruct (handle_set_ok m [] r1 c1) as (tm & E & Hs & Htm); try done.
  rewrite E. simpl. exists tm. split; [|done]. do 2 f_equal.
  destruct tm as [|[k0 v0] tl].
  { destruct c1 as [|x c1]; [done|]. specialize (Htm x). simpl in Htm.
    unfold Set_has in Htm. simpl in Htm. by rewrite Nat.eqb_refl in Htm. }
  assert (∀ k v, (k, v) ∈ (k0, v0) :: tl → v = length (sets m)) as Hval.
  { intros k v Hin. apply iobj_sorted_get in Hin; [|done]. rewrite Htm in Hin.
    destruct (Set_has c1 k); by inversion Hin. }
  simpl. rewrite (Hval k0 v0) by left. unfold Set_from. simpl.
  change (foldl Set_add [length (sets m)] (tl.*2))
    with (Set_addAll [length (sets m)] (tl.*2)).
  apply Set_addAll_same. intros v Hv. apply list_elem_of_fmap in Hv as ([k v'] & -> & Hin).
  eapply Hval. by right.
Qed.

(** One round on two disjoint classes: the new classes have the same
    members, and the class that holds the smallest id comes first. *)
Lemma refine_round_two (m : mstate) (r1 r2 : nat) (c1 c2 : list nat) :
  r2 < length (sets m) →
  set_of m r1 = c1 → set_of m r2 = c2 →
  c1 ≠ [] → c2 ≠ [] → NoDup c1 → NoDup c2 →
  (∀ x, x ∈ c1 → x ∉ c2) →
  (∀ x, x ∈ c1 ++ c2 → has_entry (currentTransitionMap m) x = true) →
  ∃ newTransitionMap (b : bool),
    refine_round m [r1; r2]
    = Normal (mkM (sets m ++ [c1; c2]) newTransitionMap,
              if b then [length (sets m); S (length (sets m))]
              else [S (length (sets m)); length (sets m)])
    ∧ (∀ x, iobj_get newTransitionMap x
            = if Set_has c2 x then Some (S (length (sets m)))
              else if Set_has c1 x then Some (length (sets m)) else None)
    ∧ (if b then ∃ x, x ∈ c1 ∧ ∀ y, y ∈ c2 → x < y
       else ∃ y, y ∈ c2 ∧ ∀ x, x ∈ c1 → y < x).
Proof.
  intros Hr2 H1 H2 Hne1 Hne2 Hnd1 Hnd2 Hdisj Hdef. unfold refine_round. simpl.
  destruct (handle_set_ok m [] r1 c1) as (tm1 & E1 & Hs1 & Htm1); try done.
  { intros x Hx. apply Hdef, elem_of_app. by left. }
  rewrite E1.
  destruct (handle_set_ok (mkM (sets m ++ [c1]) (currentTransitionMap m)) tm1 r2 c2)
    as (tm & E2 & Hs & Htm); try done.
  { unfold set_of in *. simpl. by rewrite lookup_app_l. }
  { intros x Hx. apply Hdef, elem_of_app. by right. }
  rewrite E2. simpl. rewrite <- app_assoc. simpl.
  simpl in Htm. rewrite length_app in Htm. simpl in Htm. rewrite Nat.add_1_r in Htm.
  set (L := length (sets m)) in *.
  assert (∀ x, iobj_get tm x
             = if Set_has c2 x then Some (S L) else if Set_has c1 x then Some L else None)
    as Hget.
  { intros x. rewrite Htm, Htm1. simpl. done. }
  assert (∀ k v, (k, v) ∈ tm →
            (v = S L ∧ k ∈ c2) ∨ (v = L ∧ k ∈ c1)) as Hval.
  { intros k v Hin. apply iobj_sorted_get in Hin; [|done]. rewrite Hget in Hin.
    destruct (Set_has c2 k) eqn:Ek2.
    - left. split; [congruence|by apply Set_has_elem_of].
    - destruct (Set_has c1 k) eqn:Ek1; [|done].
      right. split; [congruence|by apply Set_has_elem_of]. }
  assert (∀ x, x ∈ c1 → (x, L) ∈ tm) as Hin1.
  { intros x Hx. apply iobj_get_elem_of. rewrite Hget.
    apply Hdisj in Hx as Hx2. apply Set_has_false in Hx2. rewrite Hx2.
    apply Set_has_elem_of in Hx. by rewrite Hx. }
  assert (∀ y, y ∈ c2 → (y, S L) ∈ tm) as Hin2.
  { intros y Hy. apply iobj_get_elem_of. rewrite Hget.
    apply Set_has_elem_of in Hy. by rewrite Hy. }
  destruct tm as [|[k0 v0] tl].
  { destruct c1 as [|x c1]; [done|].
    assert ((x, L) ∈ @nil (nat * nat)) as Hx by (apply Hin1; left).
    by apply not_elem_of_nil in Hx. }
  destruct Hs as [Hall _]. rewrite Forall_forall in Hall.
  destruct (Hval k0 v0) as [[-> Hk0]|[-> Hk0]]; [left| |].
  - exists ((k0, S L) :: tl), false. split_and!; [|done|].
    + do 2 f_equal. simpl. unfold Set_from. simpl.
      change (foldl Set_add [S L] (tl.*2)) with (Set_addAll [S L] (tl.*2)).
      apply Set_addAll_second; [lia| |].
      * intros v Hv. apply list_elem_of_fmap in Hv as ([k v'] & -> & Hin).
        destruct (Hval k v') as [[-> _]|[-> _]]; [by right|by left|by right].
      * destruct c1 as [|x c1]; [done|].
        assert ((x, L) ∈ (k0, S L) :: tl) as Hx by (apply Hin1; left).
        apply elem_of_cons in Hx as [[= _ Hx]|Hx]; [lia|].
        apply list_elem_of_fmap. by exists (x, L).
    + exists k0. split; [done|]. intros x Hx.
      specialize (Hin1 x Hx). apply elem_of_cons in Hin1 as [[= _ Hx']|Hx']; [lia|].
      by apply (Hall (x, L)).
  - exists ((k0, L) :: tl), true. split_and!; [|done|].
    + do 2 f_equal. simpl. unfold Set_from. simpl.
      change (foldl Set_add [L] (tl.*2)) with (Set_addAll [L] (tl.*2)).
      apply Set_addAll_second; [lia| |].
      * intros v Hv. apply list_elem_of_fmap in Hv as ([k v'] & -> & Hin).
        destruct (Hval k v') as [[-> _]|[-> _]]; [by right|by right|by left].
      * destruct c2 as [|y c2]; [done|].
        assert ((y, S L) ∈ (k0, L) :: tl) as Hy by (apply Hin2; left).
        apply elem_of_cons in Hy as [[= _ Hy]|Hy]; [lia|].
        apply list_elem_of_fmap. by exists (y, S L).
    + exists k0. split; [done|]. intros y Hy.
      specialize (Hin2 y Hy). apply elem_of_cons in Hin2 as [[= _ Hy']|Hy']; [lia|].
      by apply (Hall (y, S L)).
Qed.

Lemma nonAccepting_ids_NoDup (t : min_table) : NoDup (nonAccepting_ids t).
Proof. apply Set_from_NoDup. Qed.

Lemma nonAccepting_ids_elem_of (t : min_table) (x : nat) :
  x ∈ nonAccepting_ids t ↔ x ∈ iobj_keys t ∧ Set_has [2; 3] x = false.
Proof.
  unfold nonAccepting_ids, Set_from.
  change (foldl Set_add [] ?l) with (Set_addAll [] l).
  rewrite Set_addAll_elem_of, (list_elem_of_In (List.filter _ _)), filter_In,
    <- list_elem_of_In.
  rewrite negb_true_iff. split; [|by right]. by intros [?%not_elem_of_nil|?].
Qed.

Lemma nonAccepting_first_true (t : min_table) :
  nonAccepting_first t = true ↔ ∃ x, x ∈ nonAccepting_ids t ∧ x < 2.
Proof.
  unfold nonAccepting_first. rewrite existsb_exists. split.
  - intros (x & Hx & Hlt). exists x. split; [by apply list_elem_of_In|by apply Nat.ltb_lt].
  - intros (x & Hx & Hlt). exists x. split; [by apply list_elem_of_In|by apply Nat.ltb_lt].
Qed.

Lemma accepting_ids_elem_of (x : nat) : x ∈ [2; 3] ↔ x = 2 ∨ x = 3.
Proof.
  rewrite !elem_of_cons. split; [|tauto].
  by intros [?|[?|?%not_elem_of_nil]]; auto.
Qed.

Lemma Set_has_accepting (x : nat) : Set_has [2; 3] x = true ↔ x = 2 ∨ x = 3.
Proof. by rewrite Set_has_elem_of, accepting_ids_elem_of. Qed.

Lemma round_output_input (t : min_table) (m : mstate) (current : list ref) :
  round_output t m current → round_input t m current.
Proof.
  intros (Hok & rN & rA & Hne & HrN & HrA & HA & HN & Hcur & Hget).
  split; [done|]. split.
  - intros x Hx. unfold has_entry. rewrite Hget. apply elem_of_app in Hx as [Hx|Hx].
    + apply Set_has_elem_of in Hx. by rewrite Hx.
    + apply Set_has_elem_of in Hx. rewrite Hx. by destruct (Set_has [2; 3] x).
  - exists rN, rA. split_and!; try done.
    destruct (nonAccepting_ids t); [by left|].
    destruct (nonAccepting_first t); [by left|by right].
Qed.

(** A round started on the two classes rebuilds them and orders them. *)
Lemma refine_round_ok (t : min_table) (m : mstate) (current : list ref) :
  round_input t m current →
  ∃ m' current',
    refine_round m current = Normal (m', current') ∧ round_output t m' current' ∧
    ∀ r, r < length (sets m) → set_of m' r = set_of m r.
Proof.
  intros (Hok & Hdef & rN & rA & Hne & HrN & HrA & HA & HN & Hcur).
  pose proof (nonAccepting_ids_NoDup t) as HndN.
  assert (NoDup [2; 3]) as HndA.
  { apply NoDup_cons. split; [by intros [=]%list_elem_of_singleton|apply NoDup_singleton]. }
  assert (∀ x, x ∈ nonAccepting_ids t → x ∉ [2; 3]) as Hdisj.
  { intros x [_ Hx]%nonAccepting_ids_elem_of. by apply Set_has_false. }
  assert (∀ sets', set_of (mkM (sets m ++ sets') (currentTransitionMap m)) accepting_ref
                   = [2; 3]) as Hacc.
  { intros sets'. unfold set_of. simpl.
    rewrite lookup_app_l by (by eapply lookup_lt_Some). by rewrite Hok. }
  assert (∀ sets' c r, r < length (sets m) →
            set_of (mkM (sets m ++ sets') c) r = set_of m r) as Hold.
  { intros sets' c r Hr. unfold set_of. simpl. by rewrite lookup_app_l. }
  assert (0 < length (sets m)) as Hpos by (by eapply lookup_lt_Some).
  assert (∀ x, x ∈ [2; 3] → has_entry (currentTransitionMap m) x = true) as HdefA.
  { intros x Hx. apply Hdef. apply elem_of_app. by left. }
  assert ([2; 3] ≠ @nil nat) as HneA by done.
  destruct (nonAccepting_ids t) as [|n N] eqn:EN.
  - (* only the accepting class *)
    assert (current = [rA]) as -> by (by destruct Hcur).
    destruct (refine_round_one m rA [2; 3] HA HneA HndA HdefA) as (tm & E & Hget).
    eexists _, _. split; [exact E|]. split; [|by intros; apply Hold].
    split.
    { unfold module_ok. simpl. rewrite lookup_app_l by done. exact Hok. }
    exists accepting_ref, (length (sets m)). simpl. rewrite length_app, EN. simpl.
    split_and!; try done; try (unfold accepting_ref; lia);
    try (unfold set_of; simpl; by rewrite list_lookup_middle);
    try (intros _; unfold set_of; simpl; by rewrite list_lookup_middle);
    try (unfold set_of; simpl; rewrite (lookup_app_r (sets m)) by lia;
         by replace (S (length (sets m)) - length (sets m)) with 1 by lia);
    try (intros _; unfold set_of; simpl; rewrite (lookup_app_r (sets m)) by lia;
         by replace (S (length (sets m)) - length (sets m)) with 1 by lia).
  - assert (n :: N ≠ []) as HneN by done.
    specialize (HN HneN).
    assert (∀ x, x ∈ [2; 3] → x ∉ n :: N) as Hdisj'.
    { intros x Hx Hx'. by eapply Hdisj. }
    assert (∀ x, x ∈ (n :: N) ++ [2; 3] → has_entry (currentTransitionMap m) x = true)
      as Hdef'.
    { intros x Hx. apply Hdef. apply elem_of_app in Hx as [?|?]; apply elem_of_app; auto. }
    destruct Hcur as [->| ->].
    + (* listed as non-accepting, accepting *)
      destruct (refine_round_two m rN rA (n :: N) [2; 3]
                  HrA HN HA HneN HneA HndN HndA Hdisj Hdef') as (tm & b & E & Hget & Hb).
      eexists _, _. split; [exact E|]. split; [|by intros; apply Hold].
      split.
      { unfold module_ok. simpl. rewrite lookup_app_l by done. exact Hok. }
      exists (length (sets m)), (S (length (sets m))). simpl. rewrite length_app, EN. simpl.
      split_and!; try done; try (unfold accepting_ref; lia);
      try (unfold set_of; simpl; by rewrite list_lookup_middle);
      try (intros _; unfold set_of; simpl; by rewrite list_lookup_middle);
      try (unfold set_of; simpl; rewrite (lookup_app_r (sets m)) by lia;
           by replace (S (length (sets m)) - length (sets m)) with 1 by lia);
      try (intros _; unfold set_of; simpl; rewrite (lookup_app_r (sets m)) by lia;
           by replace (S (length (sets m)) - length (sets m)) with 1 by lia).
      * destruct b.
        -- destruct Hb as (x & Hx & Hlt).
           assert (nonAccepting_first t = true) as ->; [|done].
           apply nonAccepting_first_true. exists x. rewrite EN. split; [done|].
           apply Hlt. left.
        -- destruct Hb as (y & Hy & Hlt).
           assert (nonAccepting_first t = false) as ->; [|done].
           apply not_true_is_false. intros (x & Hx & Hx2)%nonAccepting_first_true.
           rewrite EN in Hx. specialize (Hlt x Hx).
           apply accepting_ids_elem_of in Hy. lia.
    + (* listed as accepting, non-accepting *)
      destruct (refine_round_two m rA rN [2; 3] (n :: N)
                  HrN HA HN HneA HneN HndA HndN Hdisj' Hdef) as (tm & b & E & Hget & Hb).
      eexists _, _. split; [exact E|]. split; [|by intros; apply Hold].
      split.
      { unfold module_ok. simpl. rewrite lookup_app_l by done. exact Hok. }
      exists (S (length (sets m))), (length (sets m)). simpl. rewrite length_app, EN. simpl.
      split_and!; try done; try (unfold accepting_ref; lia);
      try (unfold set_of; simpl; by rewrite list_lookup_middle);
      try (intros _; unfold set_of; simpl; by rewrite list_lookup_middle);
      try (unfold set_of; simpl; rewrite (lookup_app_r (sets m)) by lia;
           by replace (S (length (sets m)) - length (sets m)) with 1 by lia);
      try (intros _; unfold set_of; simpl; rewrite (lookup_app_r (sets m)) by lia;
           by replace (S (length (sets m)) - length (sets m)) with 1 by lia).
      * destruct b.
        -- destruct Hb as (x & Hx & Hlt).
           assert (nonAccepting_first t = false) as ->; [|done].
           apply not_true_is_false. intros (y & Hy & Hy2)%nonAccepting_first_true.
           rewrite EN in Hy. specialize (Hlt y Hy).
           apply accepting_ids_elem_of in Hx. lia.
        -- destruct Hb as (y & Hy & Hlt).
           assert (nonAccepting_first t = true) as ->; [|done].
           apply nonAccepting_first_true. exists y. rewrite EN. split; [done|].
           apply Hlt. left.
      * intros x. rewrite Hget. destruct (Set_has (n :: N) x) eqn:Ex.
        -- apply Set_has_elem_of, Hdisj, Set_has_false in Ex. by rewrite Ex.
        -- done.
Qed.

(** [sameRow] answers [true] on two lists of classes with the same
    members, position by position. *)
Lemma sameRow_same_contents (m : mstate) (r1 : list nat) : ∀ r2,
  set_of m <$> r1 = set_of m <$> r2 → sameRow m r1 (Some r2) = true.
Proof.
  unfold sameRow.
  induction r1 as [|a r1 IH]; intros [|b r2] E; simpl in *; try done.
  injection E as Eab E. specialize (IH r2 E).
  apply andb_true_iff in IH as [Hlen Hall].
  rewrite Hlen, Hall, Eab. simpl. by rewrite Nat.eqb_refl, String.eqb_refl.
Qed.

Lemma refine_stops (fuel : nat) (m : mstate) (current : list ref) previous :
  sameRow m current previous = true → refine fuel m current previous = Normal (m, current).
Proof. intros H. destruct fuel; simpl; by rewrite H. Qed.

(** With two units of fuel or more the loop ends on the two classes. *)
Lemma refine_ok (t : min_table) (m : mstate) (current : list ref) (fuel : nat) :
  round_input t m current → 2 ≤ fuel →
  ∃ m' current',
    refine fuel m current None = Normal (m', current') ∧ round_output t m' current'.
Proof.
  intros Hin Hfuel. destruct fuel as [|[|fuel]]; [lia|lia|].
  destruct (refine_round_ok t m current Hin) as (m2 & c2 & E2 & Hout2 & _).
  change (refine (S (S fuel)) m current None)
    with (match refine_round m current with
          | Normal (m', newSets) => refine (S fuel) m' newSets (Some current)
          | other => other
          end).
  rewrite E2.
  destruct (sameRow m2 c2 (Some current)) eqn:Esame.
  { exists m2, c2. split; [by apply refine_stops|done]. }
  change (refine (S fuel) m2 c2 (Some current))
    with (if sameRow m2 c2 (Some current) then Normal (m2, c2)
          else match refine_round m2 c2 with
               | Normal (m', newSets) => refine fuel m' newSets (Some c2)
               | other => other
               end).
  rewrite Esame.
  destruct (refine_round_ok t m2 c2 (round_output_input _ _ _ Hout2))
    as (m3 & c3 & E3 & Hout3 & Hold).
  rewrite E3. exists m3, c3. split; [|done].
  apply refine_stops, sameRow_same_contents.
  destruct Hout2 as (_ & rN2 & rA2 & _ & HrN2 & HrA2 & HA2 & HN2 & -> & _).
  destruct Hout3 as (_ & rN3 & rA3 & _ & _ & _ & HA3 & HN3 & -> & _).
  rewrite <- (Hold rN2 HrN2) in HN2. rewrite <- (Hold rA2 HrA2) in HA2.
  destruct (nonAccepting_ids t) as [|n N]; simpl; [by rewrite HA2, HA3|].
  specialize (HN2 ltac:(done)). specialize (HN3 ltac:(done)).
  destruct (nonAccepting_first t); simpl; by rewrite HA2, HA3, HN2, HN3.
Qed.

Lemma iobj_set_set {V} (o : list (nat * V)) (k : nat) (v v' : V) :
  iobj_set (iobj_set o k v) k v' = iobj_set o k v'.
Proof.
  induction o as [|[k0 v0] o IH]; simpl.
  - by rewrite Nat.eqb_refl.
  - destruct (k =? k0) eqn:E; simpl.
    + by rewrite Nat.eqb_refl.
    + destruct (k <? k0) eqn:E2; simpl.
      * by rewrite Nat.eqb_refl.
      * by rewrite E, E2, IH.
Qed.

(** The cells built for one class whose first member has a row. *)
Lemma build_cells_ok (t : min_table) (m : mstate) (remaped : list (ref * nat))
    (r idx first : nat) (minimized : min_table) (row : min_row) (symbols : list symbol) :
  head (set_of m r) = Some first → iobj_get t first = Some row →
  (∀ x, iobj_get (currentTransitionMap m) x ≫= RMap_get remaped = class_index t x) →
  ∀ acc,
    foldl (build_cell t m remaped (r, idx)) (Normal (iobj_set minimized idx acc)) symbols
    = Normal (iobj_set minimized idx
                (foldl (λ acc symbol,
                          match truthy (Object_get row symbol) with
                          | Some target => Object_set acc symbol (class_index t target)
                          | None => acc
                          end)
                       acc symbols)).
Proof.
  intros Hhead Hrow Htarget.
  induction symbols as [|symbol symbols IH]; intros acc; cbn [foldl]; [done|].
  unfold build_cell at 2. cbn [fst snd]. rewrite Hhead. cbn [mbind option_bind].
  rewrite Hrow.
  destruct (truthy (Object_get row symbol)) as [target|]; [|apply IH].
  rewrite iobj_get_set, Nat.eqb_refl. cbn [default from_option id].
  rewrite iobj_set_set, Htarget. apply IH.
Qed.

Lemma build_row_ok (t : min_table) (m : mstate) (remaped : list (ref * nat))
    (r idx first : nat) (minimized : min_table) :
  head (set_of m r) = Some first → has_entry t first = true →
  (∀ x, iobj_get (currentTransitionMap m) x ≫= RMap_get remaped = class_index t x) →
  build_row t m remaped (Normal minimized) (r, idx)
  = Normal (iobj_set minimized idx (spec_row t first)).
Proof.
  intros Hhead Hrow Htarget. apply has_entry_get in Hrow as [row Hrow].
  unfold build_row, spec_row. rewrite Hrow. cbn [mbind option_bind].
  by eapply build_cells_ok.
Qed.

Lemma nonAccepting_ids_has_row (t : min_table) (x : nat) :
  x ∈ nonAccepting_ids t → has_entry t x = true.
Proof. intros [Hx _]%nonAccepting_ids_elem_of. by apply has_entry_get, iobj_get_keys. Qed.

(** Step 2 on the two classes returns the table of [minimized_spec]. *)
Lemma build_minimized_ok (t : min_table) (m : mstate) (current : list ref) :
  round_output t m current → has_entry t 2 = true →
  build_minimized t m (remap current) = Normal (minimized_spec t).
Proof.
  intros (Hok & rN & rA & Hne & HrN & HrA & HA & HN & -> & Hget) Hrow2.
  unfold minimized_spec, build_minimized.
  assert (head (set_of m rA) = Some 2) as HheadA by (by rewrite HA).
  destruct (nonAccepting_ids t) as [|n N] eqn:EN.
  - unfold remap. simpl. rewrite (build_row_ok t m _ rA 1 2); try done.
    intros x. rewrite Hget. unfold class_index. rewrite EN.
    destruct (Set_has [2; 3] x); simpl; [by rewrite Nat.eqb_refl|done].
  - assert (head (set_of m rN) = Some n) as HheadN by (by rewrite HN).
    assert (has_entry t n = true) as Hrown.
    { apply nonAccepting_ids_has_row. rewrite EN. left. }
    assert ((rN =? rA) = false) as ENA by (by apply Nat.eqb_neq).
    assert ((rA =? rN) = false) as EAN by (by apply Nat.eqb_neq).
    destruct (nonAccepting_first t) eqn:Ef; unfold remap; simpl; rewrite ?ENA, ?EAN; simpl.
    + rewrite (build_row_ok t m _ rN 1 n); try done.
      * rewrite (build_row_ok t m _ rA 2 2); try done.
        intros x. rewrite Hget. unfold class_index. rewrite EN, Ef.
        destruct (Set_has [2; 3] x); simpl; [by rewrite EAN, Nat.eqb_refl|].
        destruct (Set_has (n :: N) x); simpl; [by rewrite Nat.eqb_refl|done].
      * intros x. rewrite Hget. unfold class_index. rewrite EN, Ef.
        destruct (Set_has [2; 3] x); simpl; [by rewrite EAN, Nat.eqb_refl|].
        destruct (Set_has (n :: N) x); simpl; [by rewrite Nat.eqb_refl|done].
    + rewrite (build_row_ok t m _ rA 1 2); try done.
      * rewrite (build_row_ok t m _ rN 2 n); try done.
        intros x. rewrite Hget. unfold class_index. rewrite EN, Ef.
        destruct (Set_has [2; 3] x); simpl; [by rewrite Nat.eqb_refl|].
        destruct (Set_has (n :: N) x); simpl; [by rewrite ENA, Nat.eqb_refl|done].
      * intros x. rewrite Hget. unfold class_index. rewrite EN, Ef.
        destruct (Set_has [2; 3] x); simpl; [by rewrite Nat.eqb_refl|].
        destruct (Set_has (n :: N) x); simpl; [by rewrite ENA, Nat.eqb_refl|done].
Qed.

(** The whole run: a table with a row for id 2, in a module state where
    id 3 has a row or a left-over class, is minimized to [minimized_spec]. *)
Lemma minimize_spec (t : min_table) (m : mstate) (fuel : nat) :
  module_ok m → has_entry t 2 = true →
  has_entry t 3 || has_entry (currentTransitionMap m) 3 = true →
  2 ≤ fuel →
  ∃ m', minimize fuel t m = (Normal (minimized_spec t), m') ∧
        module_ok m' ∧ has_entry (currentTransitionMap m') 3 = true.
Proof.
  intros Hok H2 H3 Hfuel. unfold minimize.
  destruct (init_classes_spec t m Hok) as (c & -> & Hc).
  assert (0 < length (sets m)) as Hpos by (by eapply lookup_lt_Some).
  set (m1 := mkM (sets m ++ [nonAccepting_ids t]) c).
  assert (set_of m1 (length (sets m)) = nonAccepting_ids t) as HsN.
  { unfold set_of, m1. simpl. by rewrite list_lookup_middle. }
  assert (set_of m1 accepting_ref = [2; 3]) as HsA.
  { unfold set_of, m1. simpl. rewrite lookup_app_l by done. by rewrite Hok. }
  assert (round_input t m1
            (List.filter (λ set, 0 <? length (set_of m1 set))
                         [length (sets m); accepting_ref])) as Hin.
  { split; [|split].
    - unfold module_ok, m1. simpl. by rewrite lookup_app_l.
    - intros x Hx. unfold m1. simpl. rewrite Hc.
      apply elem_of_app in Hx as [Hx|Hx].
      + apply accepting_ids_elem_of in Hx as [->| ->].
        * apply has_entry_get, iobj_get_keys, Set_has_elem_of in H2. rewrite H2.
          by rewrite orb_true_r.
        * apply orb_true_iff in H3 as [H3|H3]; [|by rewrite H3].
          apply has_entry_get, iobj_get_keys, Set_has_elem_of in H3. rewrite H3.
          by rewrite orb_true_r.
      + apply nonAccepting_ids_elem_of in Hx as [Hx _].
        apply Set_has_elem_of in Hx. rewrite Hx. by rewrite orb_true_r.
    - exists (length (sets m)), accepting_ref.
      assert (length (sets m1) = S (length (sets m))) as ->.
      { unfold m1. simpl. rewrite length_app. simpl. lia. }
      split_and!; try done; try (unfold accepting_ref; lia).
      left. simpl. rewrite HsN, HsA. simpl.
      by destruct (nonAccepting_ids t). }
  destruct (refine_ok t m1 _ fuel Hin Hfuel) as (m' & current' & -> & Hout).
  rewrite (build_minimized_ok t m' current' Hout H2).
  exists m'. split; [done|].
  destruct Hout as (Hok' & rN & rA & _ & _ & _ & _ & _ & _ & Hget).
  split; [done|]. unfold has_entry. by rewrite Hget.
Qed.

(** No run writes to [accepting]: whatever the table and the outcome, the
    module state left by [minimize] still has [{2, 3}] there.  Every state
    reached from the variables as declared therefore satisfies
    [module_ok]. *)
Lemma handle_state_keeps_accepting (acc : mstate * list (nat * nat)) (state : nat) :
  module_ok acc.1 → Forall (λ p : nat * nat, 1 ≤ p.2) acc.2 →
  module_ok (handle_state acc state).1 ∧
  Forall (λ p : nat * nat, 1 ≤ p.2) (handle_state acc state).2.
Proof.
  destruct acc as [m hs]. simpl. intros Hok Hhs.
  assert (1 ≤ length (sets m)) as Hpos by (by eapply lookup_lt_Some).
  destruct (find _ (iobj_keys hs)) as [k|]; simpl.
  - destruct (iobj_get hs k) as [r|] eqn:Er; simpl; [|done].
    assert (1 ≤ r) as Hr.
    { apply iobj_get_elem_of in Er. rewrite Forall_forall in Hhs. by apply (Hhs (k, r)). }
    split.
    + unfold module_ok, accepting_ref in *. simpl. rewrite list_lookup_insert_ne by lia. done.
    + by apply iobj_set_Forall.
  - split.
    + unfold module_ok, accepting_ref in *. simpl. by rewrite lookup_app_l by lia.
    + by apply iobj_set_Forall.
Qed.

Lemma handle_rest_keeps_accepting (rest : list nat) : ∀ acc : mstate * list (nat * nat),
  module_ok acc.1 → Forall (λ p : nat * nat, 1 ≤ p.2) acc.2 →
  module_ok (foldl handle_state acc rest).1.
Proof.
  induction rest as [|x rest IH]; intros acc H1 H2; simpl; [done|].
  destruct (handle_state_keeps_accepting acc x H1 H2). by apply IH.
Qed.

Lemma handle_set_keeps_accepting (m m' : mstate) (tm tm' : list (nat * nat)) (set : nat) :
  module_ok m → handle_set (Normal (m, tm)) set = Normal (m', tm') → module_ok m'.
Proof.
  intros Hok. unfold handle_set.
  assert (1 ≤ length (sets m)) as Hpos by (by eapply lookup_lt_Some).
  destruct (set_of m set) as [|first rest]; [done|].
  pose proof (handle_rest_keeps_accepting rest
                (mkM (sets m ++ [[first]]) (currentTransitionMap m),
                 iobj_set [] first (length (sets m)))) as H.
  destruct (foldl handle_state _ rest) as [m1 hs1]. intros [= <- <-].
  apply H; simpl.
  - unfold module_ok, accepting_ref in *. simpl. by rewrite lookup_app_l by lia.
  - constructor; [done|constructor].
Qed.

Lemma refine_round_keeps_accepting (m m' : mstate) (current current' : list nat) :
  module_ok m → refine_round m current = Normal (m', current') → module_ok m'.
Proof.
  intros Hok. unfold refine_round.
  destruct (foldl handle_set (Normal (m, [])) current) as [[m1 tm1]| |] eqn:E; try done.
  intros [= <- <-].
  assert (module_ok m1) as H1; [|done].
  revert E. generalize (@nil (nat * nat)) as tm0. revert m Hok.
  induction current as [|set current IH]; intros m Hok tm0; simpl.
  - by intros [= <- <-].
  - destruct (handle_set (Normal (m, tm0)) set) as [[m2 tm2]| |] eqn:E2.
    + apply IH. by eapply handle_set_keeps_accepting.
    + clear. induction current; simpl; [done|auto].
    + clear. induction current; simpl; [done|auto].
Qed.

Lemma refine_keeps_accepting (fuel : nat) : ∀ m current previous m' current',
  module_ok m → refine fuel m current previous = Normal (m', current') → module_ok m'.
Proof.
  induction fuel as [|fuel IH]; intros m current previous m' current' Hok; simpl.
  - destruct (sameRow m current previous); [by intros [= <- <-]|done].
  - destruct (sameRow m current previous); [by intros [= <- <-]|].
    destruct (refine_round m current) as [[m1 c1]| |] eqn:E; try done.
    apply IH. by eapply refine_round_keeps_accepting.
Qed.

Lemma minimize_keeps_accepting (fuel : nat) (t : min_table) (m : mstate) :
  module_ok m → module_ok (minimize fuel t m).2.
Proof.
  intros Hok. unfold minimize.
  destruct (init_classes_spec t m Hok) as (c & -> & _).
  assert (module_ok (mkM (sets m ++ [nonAccepting_ids t]) c)) as Hok1.
  { unfold module_ok in *. simpl. rewrite lookup_app_l by (by eapply lookup_lt_Some). done. }
  destruct (refine fuel _ _ None) as [[m' current']| |] eqn:E; simpl; try done.
  by eapply refine_keeps_accepting.
Qed.


(** ** The closure columns of a freshly built NFA table *)

Lemma foldl_option_None {A B} (f : option A → B → option A) (l : list B) :
  (∀ b, f None b = None) → foldl f None l = None.
Proof. intros Hf. induction l as [|b l IH]; simpl; [done|]. by rewrite Hf. Qed.

Lemma foldl_option_preserves {A B} (P : A → Prop) (f : option A → B → option A)
    (l : list B) :
  (∀ b, f None b = None) →
  (∀ a b a', P a → f (Some a) b = Some a' → P a') →
  ∀ a a', P a → foldl f (Some a) l = Some a' → P a'.
Proof.
  intros Hnone Hstep. induction l as [|b l IH]; intros a a' Ha; simpl.
  - by intros [= <-].
  - destruct (f (Some a) b) as [a1|] eqn:E.
    + apply IH. by eapply Hstep.
    + by rewrite foldl_option_None.
Qed.

Lemma iobj_keys_set {V} (o : list (nat * V)) (k n : nat) (v : V) :
  k ∈ iobj_keys (iobj_set o n v) ↔ k = n ∨ k ∈ iobj_keys o.
Proof.
  rewrite !iobj_get_keys, iobj_get_set. destruct (k =? n) eqn:E.
  - apply Nat.eqb_eq in E. split; [by left|by eexists].
  - apply Nat.eqb_neq in E. split; [by right|by intros [?|?]].
Qed.

Lemma number_of_insert (h : list State) (s x n : nat) (st : State) :
  h !! s = Some st →
  number_of (<[s := with_number n st]> h) x = if decide (x = s) then Some n else number_of h x.
Proof.
  intros Hst. unfold number_of. destruct (decide (x = s)) as [->|Hne].
  - rewrite list_lookup_insert_eq by (by eapply lookup_lt_Some). done.
  - by rewrite list_lookup_insert_ne.
Qed.

Lemma table_set_cell_keys (t t' : list (nat * list (string * list nat))) n symbol v k :
  table_set_cell t n symbol v = Some t' → k ∈ iobj_keys t' ↔ k ∈ iobj_keys t.
Proof.
  unfold table_set_cell. destruct (iobj_get t n) as [row|] eqn:E; simpl; [|done].
  intros [= <-]. rewrite iobj_keys_set. split; [|by right].
  intros [->|?]; [|done]. apply iobj_get_keys. by eexists.
Qed.

Lemma visitState_unfold (fuel : nat) (state : nat) (β : build) :
  visitState (S fuel) state β
  = (if Set_has (b_visited β) state then Some β else
     st ← b_heap β !! state;
     let visited := Set_add (b_visited β) state in
     let n := length visited in
     let β := mkBuild (<[state := with_number n st]> (b_heap β))
                      (iobj_set (b_table β) n [])
                      (if accepting st then Set_add (b_accepting β) state
                       else b_accepting β)
                      visited in
     foldl (λ acc (entry : symbol * list ref),
              β ← acc;
              r ← foldl (λ acc nextState,
                           match acc with
                           | Some (combinedState, β) =>
                               β ← visitState fuel nextState β;
                               k ← number_of (b_heap β) nextState;
                               Some (combinedState ++ [k], β)
                           | None => None
                           end)
                        (Some ([], β)) entry.2;
              t ← table_set_cell (b_table r.2) n entry.1 r.1;
              Some (mkBuild (b_heap r.2) t (b_accepting r.2) (b_visited r.2)))
           (Some β) (_transitions st)).
Proof. reflexivity. Qed.

(** The depth-first numbering keeps the numbers of the store in step
    with the [visited] set. *)
Lemma visitState_ok (fuel : nat) : ∀ state β β',
  build_ok β → visitState fuel state β = Some β' → build_ok β'.
Proof.
  induction fuel as [|fuel IH]; intros state β β' Hβ; [done|].
  rewrite visitState_unfold.
  destruct (Set_has (b_visited β) state) eqn:Hin; [by intros [= <-]|].
  apply Set_has_false in Hin.
  destruct (b_heap β !! state) as [st|] eqn:Hst; simpl; [|done].
  apply foldl_option_preserves; [done| |].
  - intros β1 entry β2 Hβ1. simpl.
    destruct (foldl _ (Some ([], β1)) entry.2) as [r|] eqn:Er; simpl; [|done].
    assert (build_ok r.2) as Hr.
    { revert Er.
      apply (foldl_option_preserves (λ r : list nat * build, build_ok r.2)); [done| |done].
      intros [cs β3] nextState [cs' β4] Hβ3. simpl in *.
      destruct (visitState fuel nextState β3) as [β5|] eqn:E5; simpl; [|done].
      destruct (number_of (b_heap β5) nextState); simpl; [|done].
      intros [= <- <-]. by eapply IH. }
    destruct (table_set_cell (b_table r.2) _ entry.1 r.1) as [t|] eqn:Et; simpl; [|done].
    intros [= <-]. destruct Hr as (Hnum & Hkeys & Hcl).
    split_and!; try done. simpl.
    intros k Hk. apply Hkeys. by apply (proj1 (table_set_cell_keys _ _ _ _ _ k Et)).
  - destruct Hβ as ((Hnd & Hnum1 & Hnum2) & Hkeys & Hcl).
    rewrite Set_add_fresh by done. rewrite length_app. simpl.
    unfold build_ok, numbering_ok. simpl. split_and!.
    + apply NoDup_app. split_and!; [done| |apply NoDup_singleton].
      by intros x Hx ->%list_elem_of_singleton.
    + intros x k. rewrite number_of_insert by done.
      destruct (decide (x = state)) as [->|Hne].
      * intros [= <-]. exists (length (b_visited β)).
        split; [by rewrite list_lookup_middle|lia].
      * intros (i & Hi & ->)%Hnum1. exists i. split; [|done].
        by apply lookup_app_l_Some.
    + intros i x Hi. rewrite number_of_insert by done.
      apply lookup_app_Some in Hi as [Hi|[Hlen Hi]].
      * destruct (decide (x = state)) as [->|Hne]; [|by apply Hnum2].
        exfalso. apply Hin. by eapply list_elem_of_lookup_2.
      * apply list_lookup_singleton_Some in Hi as [Hi <-].
        rewrite decide_True by done. f_equal. lia.
    + intros k [->|Hk]%iobj_keys_set.
      * exists (length (b_visited β)). split; [lia|]. rewrite length_app. simpl. lia.
      * destruct (Hkeys k Hk) as (i & -> & Hi). exists i. split; [done|].
        rewrite length_app. lia.
    + intros s st' c. destruct (decide (s = state)) as [->|Hne].
      * rewrite list_lookup_insert_eq by (by eapply lookup_lt_Some).
        intros [= <-]. simpl. by apply (Hcl state st).
      * rewrite list_lookup_insert_ne by done. apply Hcl.
Qed.

Lemma getTransitionsOnSymbol_keeps (s : nat) (c : string) (h h' : list State) (l : list nat) :
  getTransitionsOnSymbol s c h = Some (l, h') →
  (∀ x, number_of h' x = number_of h x) ∧ (closures_nodup h → closures_nodup h').
Proof.
  unfold getTransitionsOnSymbol. destruct (h !! s) as [st|] eqn:Hst; simpl; [|done].
  destruct (Map_get (_transitions st) c); intros [= <- <-]; [done|].
  split.
  - intros x. unfold number_of. destruct (decide (x = s)) as [->|Hne].
    + rewrite list_lookup_insert_eq by (by eapply lookup_lt_Some). by rewrite Hst.
    + by rewrite list_lookup_insert_ne.
  - intros Hcl x st' c'. destruct (decide (x = s)) as [->|Hne].
    + rewrite list_lookup_insert_eq by (by eapply lookup_lt_Some).
      intros [= <-]. simpl. by apply (Hcl s st).
    + rewrite list_lookup_insert_ne by done. apply Hcl.
Qed.

Lemma set_closure_keeps (s : nat) (c : list nat) (h : list State) :
  (∀ x, number_of (set_closure s c h) x = number_of h x) ∧
  (closures_nodup h → NoDup c → closures_nodup (set_closure s c h)).
Proof.
  unfold set_closure. destruct (h !! s) as [st|] eqn:Hst; [|done]. split.
  - intros x. unfold number_of. destruct (decide (x = s)) as [->|Hne].
    + rewrite list_lookup_insert_eq by (by eapply lookup_lt_Some). by rewrite Hst.
    + by rewrite list_lookup_insert_ne.
  - intros Hcl Hc x st' c'. destruct (decide (x = s)) as [->|Hne].
    + rewrite list_lookup_insert_eq by (by eapply lookup_lt_Some).
      by intros [= <-] [= <-].
    + rewrite list_lookup_insert_ne by done. apply Hcl.
Qed.

Lemma closure_of_NoDup (h : list State) (s : nat) : closures_nodup h → NoDup (closure_of h s).
Proof.
  intros Hcl. unfold closure_of. destruct (h !! s) as [st|] eqn:Hst; simpl; [|constructor].
  destruct (_epsilonClosure st) as [c|] eqn:Hc; simpl; [|constructor]. by eapply Hcl.
Qed.

Lemma getEpsilonClosure_unfold (fuel : nat) (this : nat) (h : list State) :
  getEpsilonClosure (S fuel) this h
  = (st ← h !! this;
     match _epsilonClosure st with
     | Some closure => Some (closure, h)
     | None =>
         '(epsilonTransitions, h) ← getTransitionsOnSymbol this EPSILON h;
         let h := set_closure this (Set_add [] this) h in
         h ← foldl (λ oh nextState,
                h ← oh;
                if Set_has (closure_of h this) nextState then Some h else
                let h := set_closure this (Set_add (closure_of h this) nextState) h in
                '(nextClosure, h) ← getEpsilonClosure fuel nextState h;
                Some (set_closure this (Set_addAll (closure_of h this) nextClosure) h))
              (Some h) epsilonTransitions;
         Some (closure_of h this, h)
     end).
Proof. reflexivity. Qed.

(** Computing a closure leaves the numbers alone and produces [Set]s. *)
Lemma getEpsilonClosure_ok (fuel : nat) : ∀ this h c h',
  closures_nodup h → getEpsilonClosure fuel this h = Some (c, h') →
  closures_nodup h' ∧ NoDup c ∧ ∀ x, number_of h' x = number_of h x.
Proof.
  induction fuel as [|fuel IH]; intros this h c h' Hcl; [done|].
  rewrite getEpsilonClosure_unfold.
  destruct (h !! this) as [st|] eqn:Hst; simpl; [|done].
  destruct (_epsilonClosure st) as [closure|] eqn:Hc.
  { intros [= <- <-]. split_and!; [done|by eapply Hcl|done]. }
  destruct (getTransitionsOnSymbol this EPSILON h) as [[eps h1]|] eqn:E1; simpl; [|done].
  apply getTransitionsOnSymbol_keeps in E1 as [Hnum1 Hcl1]. specialize (Hcl1 Hcl).
  destruct (set_closure_keeps this (Set_add [] this) h1) as [Hnum2 Hcl2].
  specialize (Hcl2 Hcl1 (Set_add_NoDup [] this (NoDup_nil_2))).
  set (h2 := set_closure this (Set_add [] this) h1) in *.
  destruct (foldl _ (Some h2) eps) as [h3|] eqn:E3; simpl; [|done].
  intros [= <- <-].
  assert (closures_nodup h3 ∧ ∀ x, number_of h3 x = number_of h x) as [Hcl3 Hnum3].
  { revert E3.
    apply (foldl_option_preserves
             (λ h3, closures_nodup h3 ∧ ∀ x, number_of h3 x = number_of h x)); [done| |].
    - intros ha nextState hb [Hcla Hnuma]. simpl.
      destruct (Set_has (closure_of ha this) nextState); [by intros [= <-]|].
      destruct (set_closure_keeps this (Set_add (closure_of ha this) nextState) ha)
        as [Hnumb Hclb].
      specialize (Hclb Hcla (Set_add_NoDup _ _ (closure_of_NoDup ha this Hcla))).
      destruct (getEpsilonClosure fuel nextState _) as [[nc hc]|] eqn:Ec; simpl; [|done].
      intros [= <-].
      destruct (IH _ _ _ _ Hclb Ec) as (Hclc & Hnc & Hnumc).
      destruct (set_closure_keeps this (Set_addAll (closure_of hc this) nc) hc)
        as [Hnumd Hcld].
      split.
      + apply Hcld; [done|]. apply Set_addAll_NoDup. by apply closure_of_NoDup.
      + intros x. by rewrite Hnumd, Hnumc, Hnumb, Hnuma.
    - split; [done|]. intros x. by rewrite Hnum2, Hnum1. }
  split_and!; [done|by apply closure_of_NoDup|done].
Qed.

Lemma Object_get_set {V} (o : list (string * V)) (k k' : string) (v : V) :
  Object_get (Object_set o k v) k' = if String.eqb k' k then Some v else Object_get o k'.
Proof.
  induction o as [|[k0 v0] o IH]; simpl.
  - reflexivity.
  - destruct (String.eqb k k0) eqn:E; simpl.
    + apply String.eqb_eq in E. subst k0. by destruct (String.eqb k' k).
    + destruct (key_before k k0); simpl.
      * by destruct (String.eqb k' k).
      * rewrite IH. destruct (String.eqb k' k0) eqn:E3; [|reflexivity].
        destruct (String.eqb k' k) eqn:E4; [|reflexivity].
        apply String.eqb_eq in E3, E4. subst. by rewrite String.eqb_refl in E.
Qed.

Lemma Forall2_NoDup_inj {A B} (R : A → B → Prop) (l : list A) (k : list B) :
  (∀ x y z, R x z → R y z → x = y) →
  Forall2 R l k → NoDup l → NoDup k.
Proof.
  intros Hinj HF. induction HF as [|x z l k Hxz HF IH]; intros Hnd; [constructor|].
  apply NoDup_cons in Hnd as [Hx Hnd]. apply NoDup_cons. split; [|auto].
  intros Hz. apply Hx. clear -Hinj Hxz HF Hz.
  induction HF as [|y z' l k Hyz HF IH]; [by apply not_elem_of_nil in Hz|].
  apply elem_of_cons in Hz as [->|Hz]; [|right; auto].
  rewrite (Hinj x y z' Hxz Hyz). left.
Qed.

(** The [visited.forEach] pass gives every row it touches a
    duplicate-free closure column. *)
Lemma append_closures_ok (fuel : nat) (h0 : list State) (l : list nat) :
  (∀ x y k, number_of h0 x = Some k → number_of h0 y = Some k → x = y) →
  ∀ h1 t1 h' t',
    closures_nodup h1 → (∀ x, number_of h1 x = number_of h0 x) →
    append_closures fuel l h1 t1 = Some (h', t') →
    (∀ k, k ∈ iobj_keys t' ↔ k ∈ iobj_keys t1) ∧
    (∀ k, closure_cell_ok t1 k ∨ (∃ s, s ∈ l ∧ number_of h0 s = Some k) →
          closure_cell_ok t' k).
Proof.
  intros Hinj. unfold append_closures.
  induction l as [|s l IH]; intros h1 t1 h' t' Hcl Hnum; simpl.
  - intros [= <- <-]. split; [done|]. intros k [?|(s & Hs%not_elem_of_nil & _)]; done.
  - destruct (number_of h1 s) as [n|] eqn:En; simpl;
      [|by rewrite foldl_option_None].
    destruct (iobj_get t1 n) as [row|] eqn:Erow; simpl;
      [|by rewrite foldl_option_None].
    destruct (getEpsilonClosure fuel s h1) as [[closure h2]|] eqn:Ec; simpl;
      [|by rewrite foldl_option_None].
    destruct (closure_numbers h2 closure) as [ns|] eqn:Ens; simpl;
      [|by rewrite foldl_option_None].
    unfold table_set_cell. rewrite iobj_get_set, Nat.eqb_refl. simpl.
    rewrite iobj_set_set.
    destruct (getEpsilonClosure_ok _ _ _ _ _ Hcl Ec) as (Hcl2 & Hndc & Hnum2).
    assert (NoDup ns) as Hns.
    { apply mapM_Some in Ens.
      eapply Forall2_NoDup_inj; [|exact Ens|exact Hndc].
      intros x y z Hx Hy. simpl in *. rewrite Hnum2, Hnum in Hx, Hy. by eapply Hinj. }
    intros Hfold.
    destruct (IH _ _ _ _ Hcl2 (λ x, eq_trans (Hnum2 x) (Hnum x)) Hfold) as [Hkeys Hcells].
    split.
    + intros k. rewrite Hkeys, iobj_keys_set. split; [|by right].
      intros [->|?]; [|done]. apply iobj_get_keys. by eexists.
    + intros k Hk. apply Hcells.
      destruct (decide (k = n)) as [->|Hne].
      * left. intros row' c. rewrite iobj_get_set, Nat.eqb_refl. intros [= <-].
        rewrite Object_get_set, String.eqb_refl. by intros [= <-].
      * destruct Hk as [Hk|(s' & [->|Hs']%elem_of_cons & Hs'')].
        -- left. intros row' c. rewrite iobj_get_set.
           apply Nat.eqb_neq in Hne. rewrite Hne. apply Hk.
        -- rewrite <- Hnum, En in Hs''. congruence.
        -- right. eauto.
Qed.

Lemma fresh_store_states (σ : store) :
  fresh_store σ = true →
  (∀ x k, number_of (states σ) x ≠ Some k) ∧ closures_nodup (states σ) ∧
  ∀ this n, nfas σ !! this = Some n → _transitionTable n = None.
Proof.
  unfold fresh_store. rewrite andb_true_iff, !forallb_forall.
  intros [Hst Hnfa]. split_and!.
  - intros x k. unfold number_of. destruct (states σ !! x) as [st|] eqn:E; simpl; [|done].
    apply list_elem_of_lookup_2, list_elem_of_In, Hst in E. by destruct (number st).
  - intros x st c E Hc.
    apply list_elem_of_lookup_2, list_elem_of_In, Hst in E.
    rewrite Hc in E. by destruct (number st).
  - intros this n E. apply list_elem_of_lookup_2, list_elem_of_In, Hnfa in E.
    by destruct (_transitionTable n).
Qed.

(** On a fresh store every closure column of the NFA table is
    duplicate-free. *)
Lemma NFA_table_closure_cells (fuel : nat) (this : nat) (σ σ' : store)
    (t : list (nat * list (string * list nat))) :
  fresh_store σ = true →
  NFA_getTransitionTable fuel this σ = Some (t, σ') →
  ∀ k, closure_cell_ok t k.
Proof.
  intros (Hnonum & Hcl & Hnotable)%fresh_store_states. unfold NFA_getTransitionTable.
  destruct (nfas σ !! this) as [n|] eqn:En; simpl; [|done].
  rewrite (Hnotable _ _ En).
  destruct (visitState fuel (in_ n) (mkBuild (states σ) [] [] [])) as [β|] eqn:Eβ;
    simpl; [|done].
  apply visitState_ok in Eβ as ((Hnd & Hnum1 & Hnum2) & Hkeys & Hclβ).
  2:{ split_and!; simpl; try done.
      - split_and!; [constructor|by intros x k ?%Hnonum|done].
      - by intros k ?%not_elem_of_nil. }
  destruct (append_closures fuel (b_visited β) (b_heap β) (b_table β)) as [[h t']|] eqn:Ea;
    simpl; [|done].
  intros [= <- <-] k.
  apply append_closures_ok with (h0 := b_heap β) in Ea as [Hkeys' Hcells]; try done.
  2:{ intros x y k' (i & Hi & ->)%Hnum1 (j & Hj & [= <-])%Hnum1. congruence. }
  destruct (decide (k ∈ iobj_keys t')) as [Hk|Hk].
  - apply Hcells. right. apply Hkeys', Hkeys in Hk as (i & -> & Hi).
    destruct (lookup_lt_is_Some_2 _ _ Hi) as [x Hx].
    exists x. split; [by eapply list_elem_of_lookup_2|by apply Hnum2].
  - intros row c Hrow. exfalso. apply Hk, iobj_get_keys. by eexists.
Qed.


(** Against C4 as stated.  For [rep(char('a'))] the labels of the DFA table
    are ["1,2,4"] and ["3,4,2"]; the second is not the sorted encoding
    ["2,3,4"] of its id set.  For [xs_then_bxs_star] the table has the two
    rows ["14,10,11,7,8,13,12,2,3,5,4,6"] and ["4,5,3,6,7,8,13,11,12,2,14,10"]:
    different labels that encode the same set of twelve ids. *)
Lemma labels_unsorted_and_not_canonical :
  ('(f, σ) ← a_star;
   '(t, _, _) ← DFA_getTransitionTable 10 (new_DFA f) σ;
   Some (Object_keys t))
  = Some [join [1; 2; 4]; join [3; 4; 2]]
  ∧ join [3; 4; 2] ≠ join [2; 3; 4]
  ∧ ('(f, σ) ← xs_then_bxs_star;
     '(t, _, _) ← DFA_getTransitionTable 30 (new_DFA f) σ;
     Some (Object_has t (join [14; 10; 11; 7; 8; 13; 12; 2; 3; 5; 4; 6]),
           Object_has t (join [4; 5; 3; 6; 7; 8; 13; 11; 12; 2; 14; 10])))
    = Some (true, true)
  ∧ join [14; 10; 11; 7; 8; 13; 12; 2; 3; 5; 4; 6]
    ≠ join [4; 5; 3; 6; 7; 8; 13; 11; 12; 2; 14; 10]
  ∧ (∀ x, x ∈ [14; 10; 11; 7; 8; 13; 12; 2; 3; 5; 4; 6]
          ↔ x ∈ [4; 5; 3; 6; 7; 8; 13; 11; 12; 2; 14; 10]).
Proof.
  split_and!.
  - vm_compute; reflexivity.
  - intros E%join_inj. discriminate.
  - vm_compute; reflexivity.
  - intros E%join_inj. discriminate.
  - intros x. rewrite <- !Set_has_elem_of. unfold Set_has. simpl.
    repeat (destruct (x =? _)); simpl; done.
Qed.

(** The store of [a_star] is [star_store]. *)
Lemma a_star_store : a_star = Some (1, star_store).
Proof. reflexivity. Qed.

(** * Further properties of the code *)

(** ** Effects of the state primitives on the graph *)

Lemma targets_lookup_eq (h h' : heap) (x : ref) :
  h' !! x = h !! x → ∀ c, targets h' x c = targets h x c.
Proof. intros E c. unfold targets. by rewrite E. Qed.

Lemma is_accepting_lookup_eq (h h' : heap) (x : ref) :
  h' !! x = h !! x → is_accepting h' x = is_accepting h x.
Proof. intros E. unfold is_accepting. by rewrite E. Qed.

Lemma wf_heap_insert (h : heap) (s : ref) (st : State) :
  wf_heap h = true →
  forallb (λ e : symbol * list ref, forallb (λ t, t <? length h) e.2) (_transitions st) = true →
  wf_heap (<[s := st]> h) = true.
Proof.
  unfold wf_heap. intros Hwf Hst. rewrite length_insert.
  apply forallb_forall. intros st' Hin.
  pose proof (proj1 (forallb_forall _ _) Hwf) as Hwf'.
  apply list_elem_of_In, list_elem_of_lookup in Hin as [i Hi].
  destruct (decide (i = s)) as [->|Hne].
  - destruct (decide (s < length h)) as [Hlt|Hge].
    + rewrite list_lookup_insert_eq in Hi by done. injection Hi as <-. exact Hst.
    + rewrite list_insert_ge in Hi by lia.
      apply Hwf', list_elem_of_In. by eapply list_elem_of_lookup_2.
  - rewrite list_lookup_insert_ne in Hi by done.
    apply Hwf', list_elem_of_In. by eapply list_elem_of_lookup_2.
Qed.

Lemma wf_heap_lookup (h : heap) (s : ref) (st : State) :
  wf_heap h = true → h !! s = Some st →
  forallb (λ e : symbol * list ref, forallb (λ t, t <? length h) e.2) (_transitions st) = true.
Proof.
  unfold wf_heap. rewrite forallb_forall. intros Hwf Hst.
  apply Hwf, list_elem_of_In. by eapply list_elem_of_lookup_2.
Qed.

Lemma Map_set_forallb {V} (P : symbol * V → bool) (m : list (symbol * V)) (k : symbol) (v : V) :
  forallb P m = true → P (k, v) = true → forallb P (Map_set m k v) = true.
Proof.
  intros Hm Hv. induction m as [|[k' v'] m IH]; simpl in *.
  - by rewrite Hv.
  - apply andb_true_iff in Hm as [H1 H2].
    destruct (String.eqb k k'); simpl.
    + by rewrite Hv, H2.
    + by rewrite H1, IH.
Qed.

Lemma set_accepting_spec (h : heap) (s : ref) (a : bool) :
  s < length h →
  ∃ h', set_accepting s a h = Some h' ∧ length h' = length h ∧
        (∀ x, x ≠ s → h' !! x = h !! x) ∧
        (∀ x c, targets h' x c = targets h x c) ∧
        (∀ x, is_accepting h' x = if decide (x = s) then a else is_accepting h x) ∧
        (wf_heap h = true → wf_heap h' = true).
Proof.
  intros Hs. destruct (lookup_lt_is_Some_2 h s Hs) as [st Hst].
  unfold set_accepting. rewrite Hst. simpl. eexists. split; [reflexivity|]. split_and!.
  - by rewrite length_insert.
  - intros x Hne. by rewrite list_lookup_insert_ne.
  - intros x c. unfold targets. destruct (decide (x = s)) as [->|Hne].
    + by rewrite list_lookup_insert_eq, Hst.
    + by rewrite list_lookup_insert_ne.
  - intros x. unfold is_accepting. destruct (decide (x = s)) as [->|Hne].
    + by rewrite list_lookup_insert_eq.
    + by rewrite list_lookup_insert_ne.
  - intros Hwf. apply wf_heap_insert; [done|]. simpl. by eapply wf_heap_lookup.
Qed.

Lemma addTransition_spec (h : heap) (s : ref) (c : symbol) (t : ref) :
  s < length h →
  ∃ h', addTransition s c t h = Some h' ∧ length h' = length h ∧
        (∀ x, x ≠ s → h' !! x = h !! x) ∧
        (∀ x c', targets h' x c'
                 = if decide (x = s ∧ c' = c) then Set_add (targets h s c) t
                   else targets h x c') ∧
        (∀ x, is_accepting h' x = is_accepting h x) ∧
        (wf_heap h = true → t < length h → wf_heap h' = true).
Proof.
  intros Hs. destruct (lookup_lt_is_Some_2 h s Hs) as [st Hst].
  unfold addTransition, getTransitionsOnSymbol. rewrite Hst. simpl.
  assert (∀ (h0 : heap) (st0 : State),
    h0 !! s = Some st0 → length h0 = length h →
    (∀ x, x ≠ s → h0 !! x = h !! x) →
    (∀ c', default [] (Map_get (_transitions st0) c') = targets h s c') →
    accepting st0 = accepting st →
    (wf_heap h = true → wf_heap h0 = true) →
    let h' := <[s := with_transitions
                        (Map_set (_transitions st0) c (Set_add (targets h s c) t)) st0]> h0 in
    length h' = length h ∧
    (∀ x, x ≠ s → h' !! x = h !! x) ∧
    (∀ x c', targets h' x c'
             = if decide (x = s ∧ c' = c) then Set_add (targets h s c) t
               else targets h x c') ∧
    (∀ x, is_accepting h' x = is_accepting h x) ∧
    (wf_heap h = true → t < length h → wf_heap h' = true)) as Hgen.
  { intros h0 st0 Hst0 Hlen Hframe Htg Hacc Hwf0 h'. subst h'. split_and!.
    - by rewrite length_insert.
    - intros x Hne. rewrite list_lookup_insert_ne by done. by apply Hframe.
    - intros x c'. unfold targets at 1.
      destruct (decide (x = s)) as [->|Hne].
      + rewrite list_lookup_insert_eq by lia. simpl. rewrite Map_get_set.
        destruct (String.eqb c' c) eqn:E.
        * apply String.eqb_eq in E. subst. by rewrite decide_True.
        * apply String.eqb_neq in E. rewrite decide_False by (by intros [_ ?]).
          apply Htg.
      + rewrite list_lookup_insert_ne by done. rewrite decide_False by (by intros [? _]).
        fold (targets h0 x c'). apply targets_lookup_eq. by apply Hframe.
    - intros x. unfold is_accepting at 1. destruct (decide (x = s)) as [->|Hne].
      + rewrite list_lookup_insert_eq by lia. simpl. rewrite Hacc.
        unfold is_accepting. by rewrite Hst.
      + rewrite list_lookup_insert_ne by done. fold (is_accepting h0 x).
        apply is_accepting_lookup_eq. by apply Hframe.
    - intros Hwf Ht. apply wf_heap_insert; [by apply Hwf0|]. simpl.
      rewrite Hlen. apply Map_set_forallb.
      + rewrite <- Hlen. eapply wf_heap_lookup; [by apply Hwf0|done].
      + simpl. rewrite forallb_forall. intros y Hy. apply Nat.ltb_lt.
        apply list_elem_of_In, Set_add_elem_of in Hy as [Hy| ->]; [|done].
        by eapply wf_heap_targets. }
  destruct (Map_get (_transitions st) c) as [l|] eqn:E; simpl.
  - rewrite Hst. simpl. eexists. split; [reflexivity|].
    assert (l = targets h s c) as -> by (unfold targets; by rewrite Hst, E).
    apply Hgen; try done. intros c'. unfold targets. by rewrite Hst.
  - rewrite list_lookup_insert_eq by done. simpl. eexists. split; [reflexivity|].
    assert ([] = targets h s c) as Hnil by (unfold targets; by rewrite Hst, E).
    replace (Set_add [] t) with (Set_add (targets h s c) t) by (by rewrite <- Hnil).
    apply (Hgen (<[s := with_transitions (Map_set (_transitions st) c []) st]> h)
                (with_transitions (Map_set (_transitions st) c []) st)); try done.
    + by rewrite list_lookup_insert_eq.
    + by rewrite length_insert.
    + intros x Hne. by rewrite list_lookup_insert_ne.
    + intros c'. simpl. rewrite Map_get_set. unfold targets. rewrite Hst.
      destruct (String.eqb c' c) eqn:E'; [|done].
      apply String.eqb_eq in E'. subst. by rewrite E.
    + intros Hwf. apply wf_heap_insert; [done|]. simpl.
      apply Map_set_forallb; [by eapply wf_heap_lookup|done].
Qed.

(** ** Runs *)

Lemma run_app (h : heap) (s t u : ref) (w1 w2 : list symbol) :
  run h s w1 t → run h t w2 u → run h s (w1 ++ w2) u.
Proof.
  intros H1 H2. induction H1 as [s|s t' u' w Ht _ IH|s t' u' c w Hc Ht _ IH]; simpl.
  - done.
  - eapply run_epsilon; eauto.
  - eapply run_symbol; eauto.
Qed.

Lemma run_region (h : heap) (R : ref → Prop) (s u : ref) (w : list symbol) :
  (∀ x c y, R x → y ∈ targets h x c → R y) →
  run h s w u → R s → R u.
Proof.
  intros Hcl Hrun. induction Hrun as [s|s t u w Ht _ IH|s t u c w Hc Ht _ IH]; intros Hs.
  - done.
  - apply IH. by eapply Hcl.
  - apply IH. by eapply Hcl.
Qed.

Lemma run_frame (h h' : heap) (R : ref → Prop) (s u : ref) (w : list symbol) :
  (∀ x c y, R x → y ∈ targets h x c → R y) →
  (∀ x c, R x → targets h' x c = targets h x c) →
  R s → run h s w u ↔ run h' s w u.
Proof.
  intros Hcl Heq Hs. split.
  - intros Hrun. induction Hrun as [s|s t u w Ht _ IH|s t u c w Hc Ht _ IH].
    + constructor.
    + eapply run_epsilon; [by rewrite Heq|]. apply IH. by eapply Hcl.
    + eapply run_symbol; [done|by rewrite Heq|]. apply IH. by eapply Hcl.
  - intros Hrun. induction Hrun as [s|s t u w Ht _ IH|s t u c w Hc Ht _ IH].
    + constructor.
    + rewrite Heq in Ht by done. eapply run_epsilon; [done|]. apply IH. by eapply Hcl.
    + rewrite Heq in Ht by done. eapply run_symbol; [done..|]. apply IH. by eapply Hcl.
Qed.

(** On a word without the character [EPSILON], acceptance is a run to an
    accepting state. *)
Lemma accepts_run (h : heap) (s : ref) (w : list symbol) :
  EPSILON ∉ w →
  accepts h s w ↔ ∃ u, run h s w u ∧ is_accepting h u = true.
Proof.
  intros Hw. split.
  - intros Hacc. induction Hacc as [s Ha|s t w Ht _ IH|s t c w Ht _ IH].
    + exists s. split; [constructor|done].
    + destruct (IH Hw) as (u & Hrun & Hu). exists u. split; [|done].
      by eapply run_epsilon.
    + apply not_elem_of_cons in Hw as [Hc Hw].
      destruct (IH Hw) as (u & Hrun & Hu). exists u. split; [|done].
      eapply run_symbol; [congruence|done..].
  - intros (u & Hrun & Hu).
    induction Hrun as [s|s t u w Ht _ IH|s t u c w Hc Ht _ IH].
    + by constructor.
    + eapply accepts_epsilon; eauto.
    + apply not_elem_of_cons in Hw as [_ Hw]. eapply accepts_symbol; eauto.
Qed.

Lemma frag_frame (h h' : heap) (R : ref → Prop) (i o : ref) (L : list symbol → Prop) :
  frag h R i o L → length h ≤ length h' →
  (∀ x, R x → h' !! x = h !! x) →
  frag h' R i o L.
Proof.
  intros (Hi & Ho & Hlt & Hcl & Hacc & HL) Hlen Heq.
  assert (∀ x c, R x → targets h' x c = targets h x c) as HT.
  { intros x c Hx. apply targets_lookup_eq. by apply Heq. }
  split_and!; try done.
  - intros x Hx. specialize (Hlt x Hx). lia.
  - intros x c y Hx. rewrite HT by done. by apply Hcl.
  - intros x Hx. rewrite (is_accepting_lookup_eq h h') by (by apply Heq). by apply Hacc.
  - intros w. rewrite <- HL. symmetry. by apply run_frame with (R := R).
Qed.

(** In a fragment, acceptance from the entry is a run to the exit. *)
Lemma frag_accepts (h : heap) (R : ref → Prop) (i o : ref) (L : list symbol → Prop)
    (w : list symbol) :
  frag h R i o L → EPSILON ∉ w → accepts h i w ↔ L w.
Proof.
  intros (Hi & Ho & Hlt & Hcl & Hacc & HL) Hw.
  rewrite accepts_run by done. rewrite <- HL. split.
  - intros (u & Hrun & Hu).
    assert (R u) as HRu by (by eapply run_region).
    apply Hacc in Hu; [|done]. by subst.
  - intros Hrun. exists o. split; [done|]. by apply Hacc.
Qed.

(** ** The graph of [altPair] *)

Lemma alt_graph (h h' : heap) (R1 R2 : ref → Prop) (i1 o1 i2 o2 : ref)
    (L1 L2 : list symbol → Prop) :
  frag h R1 i1 o1 L1 → frag h R2 i2 o2 L2 →
  (∀ x, R1 x → R2 x → False) →
  length h' = length h →
  (∀ x c y, y ∈ targets h' x c
            ↔ y ∈ targets h x c ∨ (x = o1 ∧ c = EPSILON ∧ y = i2)) →
  (∀ x, is_accepting h' x
        = if decide (x = o2) then true
          else if decide (x = o1) then false else is_accepting h x) →
  frag h' (λ x, R1 x ∨ R2 x) i1 o2 (cat L1 L2).
Proof.
  intros (Hi1 & Ho1 & Hlt1 & Hcl1 & Hacc1 & HL1) (Hi2 & Ho2 & Hlt2 & Hcl2 & Hacc2 & HL2)
    Hdisj Hlen HT HA.
  assert (∀ x w u, R2 x → run h' x w u → run h x w u) as Hback2.
  { intros x w u Hx Hrun.
    induction Hrun as [s|s t u w Ht _ IH|s t u c w Hc Ht _ IH].
    - constructor.
    - apply HT in Ht as [Ht|(-> & _ & ->)].
      + eapply run_epsilon; [done|]. apply IH. by eapply Hcl2.
      + exfalso. by eapply Hdisj.
    - apply HT in Ht as [Ht|(-> & -> & ->)]; [|done].
      eapply run_symbol; [done..|]. apply IH. by eapply Hcl2. }
  assert (∀ x w u, run h x w u → run h' x w u) as Hfwd.
  { intros x w u Hrun.
    induction Hrun as [s|s t u w Ht _ IH|s t u c w Hc Ht _ IH].
    - constructor.
    - eapply run_epsilon; [|done]. apply HT. by left.
    - eapply run_symbol; [done| |done]. apply HT. by left. }
  split_and!.
  - by left.
  - by right.
  - intros x [Hx|Hx]; rewrite Hlen; auto.
  - intros x c y Hx [Hy|(-> & -> & ->)]%HT.
    + destruct Hx as [Hx|Hx]; [left|right]; eauto.
    + by right.
  - intros x Hx. rewrite HA. destruct (decide (x = o2)) as [->|Hne2]; [done|].
    destruct (decide (x = o1)) as [->|Hne1]; [done|].
    destruct Hx as [Hx|Hx].
    + rewrite Hacc1 by done. split; [done|]. intros ->. exfalso. by eapply Hdisj.
    + by rewrite Hacc2.
  - intros w. split.
    + assert (∀ x w u, run h' x w u → R1 x → u = o2 →
                ∃ w1 w2, w = w1 ++ w2 ∧ run h x w1 o1 ∧ run h i2 w2 o2) as Hdec.
      { clear w. intros x w u Hrun.
        induction Hrun as [s|s t u w Ht Hrun IH|s t u c w Hc Ht Hrun IH]; intros Hx Eu.
        - subst. exfalso. by eapply Hdisj.
        - apply HT in Ht as [Ht|(-> & _ & ->)].
          + destruct IH as (w1 & w2 & -> & Hr1 & Hr2); [by eapply Hcl1|done|].
            exists w1, w2. split_and!; [done| |done]. by eapply run_epsilon.
          + subst. exists [], w. split_and!; [done|constructor|]. by apply Hback2.
        - apply HT in Ht as [Ht|(-> & -> & ->)]; [|done].
          destruct IH as (w1 & w2 & -> & Hr1 & Hr2); [by eapply Hcl1|done|].
          exists (c :: w1), w2. split_and!; [done| |done]. by eapply run_symbol. }
      intros Hrun. destruct (Hdec i1 w o2 Hrun Hi1 eq_refl) as (w1 & w2 & -> & Hr1 & Hr2).
      exists w1, w2. split_and!; [done|by apply HL1|by apply HL2].
    + intros (w1 & w2 & -> & Hw1%HL1 & Hw2%HL2).
      eapply run_app; [by apply Hfwd|].
      eapply run_epsilon; [|by apply Hfwd]. apply HT. by right.
Qed.

Lemma targets_ge (h : heap) (x : ref) (c : symbol) : length h ≤ x → targets h x c = [].
Proof. intros Hx. unfold targets. by rewrite lookup_ge_None_2. Qed.

Lemma is_accepting_ge (h : heap) (x : ref) : length h ≤ x → is_accepting h x = false.
Proof. intros Hx. unfold is_accepting. by rewrite lookup_ge_None_2. Qed.

(** ** The graph of [orPair] *)

Lemma or_graph (h h' : heap) (R1 R2 : ref → Prop) (i1 o1 i2 o2 : ref)
    (L1 L2 : list symbol → Prop) :
  let i' := length h in
  let o' := S (length h) in
  frag h R1 i1 o1 L1 → frag h R2 i2 o2 L2 →
  (∀ x, R1 x → R2 x → False) →
  length h' = S (S (length h)) →
  (∀ x c y, y ∈ targets h' x c
            ↔ y ∈ targets h x c ∨ (x = i' ∧ c = EPSILON ∧ (y = i1 ∨ y = i2))
              ∨ ((x = o1 ∨ x = o2) ∧ c = EPSILON ∧ y = o')) →
  (∀ x, is_accepting h' x
        = if decide (x = o') then true
          else if decide (x = o1 ∨ x = o2) then false else is_accepting h x) →
  frag h' (λ x, R1 x ∨ R2 x ∨ x = i' ∨ x = o') i' o' (alternative L1 L2).
Proof.
  intros i' o' (Hi1 & Ho1 & Hlt1 & Hcl1 & Hacc1 & HL1)
    (Hi2 & Ho2 & Hlt2 & Hcl2 & Hacc2 & HL2) Hdisj Hlen HT HA.
  assert (∀ x c y, length h ≤ x → y ∈ targets h x c → False) as Hnew.
  { intros x c y Hx. rewrite targets_ge by done. apply not_elem_of_nil. }
  assert (∀ x w u, run h x w u → run h' x w u) as Hfwd.
  { intros x w u Hrun.
    induction Hrun as [s|s t u w Ht _ IH|s t u c w Hc Ht _ IH].
    - constructor.
    - eapply run_epsilon; [|done]. apply HT. by left.
    - eapply run_symbol; [done| |done]. apply HT. by left. }
  assert (∀ w u, run h' o' w u → w = [] ∧ u = o') as Hexit.
  { intros w u Hrun. inversion Hrun as [s|s t u' w' Ht _|s t u' c w' Hc Ht _]; subst.
    - done.
    - exfalso. apply HT in Ht as [Ht|[(E & _)|([E|E] & _)]].
      + eapply Hnew; [|done]. unfold o'. lia.
      + unfold o', i' in E. lia.
      + specialize (Hlt1 _ Ho1). unfold o' in E. lia.
      + specialize (Hlt2 _ Ho2). unfold o' in E. lia.
    - exfalso. apply HT in Ht as [Ht|[(_ & E & _)|(_ & E & _)]]; try done.
      eapply Hnew; [|done]. unfold o'. lia. }
  assert (∀ (R : ref → Prop) o,
            (∀ x, R x → x < length h) →
            (∀ x c y, R x → y ∈ targets h x c → R y) →
            R o → (∀ x, R x → (x = o1 ∨ x = o2) → x = o) →
            ∀ x w u, run h' x w u → R x → u = o' → run h x w o) as Hdec.
  { intros R o Hlt Hcl Ho Hout x w u Hrun.
    induction Hrun as [s|s t u w Ht Hrun IH|s t u c w Hc Ht Hrun IH]; intros Hx Eu.
    - subst. specialize (Hlt _ Hx). unfold o' in Hlt. lia.
    - apply HT in Ht as [Ht|[(E & _)|(E & _ & ->)]].
      + eapply run_epsilon; [done|]. apply IH; [by eapply Hcl|done].
      + specialize (Hlt _ Hx). unfold i' in E. lia.
      + apply Hexit in Hrun as [-> _]. rewrite (Hout s Hx E). constructor.
    - apply HT in Ht as [Ht|[(_ & E & _)|(_ & E & _)]]; try done.
      eapply run_symbol; [done..|]. apply IH; [by eapply Hcl|done]. }
  split_and!.
  - auto.
  - auto.
  - intros x [Hx|[Hx|[->| ->]]]; rewrite Hlen; unfold i', o';
      try specialize (Hlt1 _ Hx); try specialize (Hlt2 _ Hx); lia.
  - intros x c y Hx [Hy|[(-> & -> & [->| ->])|(_ & -> & ->)]]%HT; auto.
    destruct Hx as [Hx|[Hx|[->| ->]]].
    + left. eauto.
    + right. left. eauto.
    + exfalso. eapply Hnew; [|done]. unfold i'. lia.
    + exfalso. eapply Hnew; [|done]. unfold o'. lia.
  - intros x Hx. rewrite HA. destruct (decide (x = o')) as [->|Hne]; [done|].
    destruct (decide (x = o1 ∨ x = o2)) as [E|Hne']; [done|].
    destruct Hx as [Hx|[Hx|[->| ->]]].
    + rewrite Hacc1 by done. split; [|done]. intros ->. exfalso. apply Hne'. by left.
    + rewrite Hacc2 by done. split; [|done]. intros ->. exfalso. apply Hne'. by right.
    + rewrite is_accepting_ge by (unfold i'; lia). done.
    + done.
  - intros w. split.
    + intros Hrun. inversion Hrun as [s E1 E2|s t u' w' Ht Hrun'|s t u' c w' Hc Ht _]; subst.
      * unfold i', o' in *. lia.
      * apply HT in Ht as [Ht|[(_ & _ & [->| ->])|([E|E] & _)]].
        -- exfalso. eapply Hnew; [|done]. unfold i'. lia.
        -- left. apply HL1. eapply (Hdec R1 o1); try done.
           intros x Hx [->| ->]; [done|]. exfalso. by eapply Hdisj.
        -- right. apply HL2. eapply (Hdec R2 o2); try done.
           intros x Hx [->| ->]; [|done]. exfalso. by eapply Hdisj.
        -- specialize (Hlt1 _ Ho1). unfold i' in E. lia.
        -- specialize (Hlt2 _ Ho2). unfold i' in E. lia.
      * exfalso. apply HT in Ht as [Ht|[(_ & E & _)|(_ & E & _)]]; try done.
        eapply Hnew; [|done]. unfold i'. lia.
    + intros [Hw%HL1|Hw%HL2].
      * apply (run_epsilon _ _ i1); [apply HT; right; left; split_and!; auto|].
        rewrite <- (app_nil_r w). eapply run_app; [by apply Hfwd|].
        apply (run_epsilon _ _ o'); [|constructor].
        apply HT. right. right. split_and!; auto.
      * apply (run_epsilon _ _ i2); [apply HT; right; left; split_and!; auto|].
        rewrite <- (app_nil_r w). eapply run_app; [by apply Hfwd|].
        apply (run_epsilon _ _ o'); [|constructor].
        apply HT. right. right. split_and!; auto.
Qed.

(** ** The graph of [rep] *)

Lemma rep_graph (h h' : heap) (R : ref → Prop) (i o : ref) (L : list symbol → Prop) :
  let i' := length h in
  let o' := S (length h) in
  frag h R i o L →
  length h' = S (S (length h)) →
  (∀ x c y, y ∈ targets h' x c
            ↔ y ∈ targets h x c ∨ (x = i' ∧ c = EPSILON ∧ (y = i ∨ y = o'))
              ∨ (x = o ∧ c = EPSILON ∧ y = o') ∨ (x = o' ∧ c = EPSILON ∧ y = i)) →
  (∀ x, is_accepting h' x
        = if decide (x = o') then true
          else if decide (x = o) then false else is_accepting h x) →
  frag h' (λ x, R x ∨ x = i' ∨ x = o') i' o' (star L).
Proof.
  intros i' o' (Hi & Ho & Hlt & Hcl & Hacc & HL) Hlen HT HA.
  assert (∀ x c y, length h ≤ x → y ∈ targets h x c → False) as Hnew.
  { intros x c y Hx. rewrite targets_ge by done. apply not_elem_of_nil. }
  assert (∀ x w u, run h x w u → run h' x w u) as Hfwd.
  { intros x w u Hrun.
    induction Hrun as [s|s t u w Ht _ IH|s t u c w Hc Ht _ IH].
    - constructor.
    - eapply run_epsilon; [|done]. apply HT. by left.
    - eapply run_symbol; [done| |done]. apply HT. by left. }
  pose proof (Hlt _ Hi) as Hi_lt. pose proof (Hlt _ Ho) as Ho_lt.
  assert (∀ x w u, run h' x w u → u = o' →
            (R x → ∃ w1 w2, w = w1 ++ w2 ∧ run h x w1 o ∧ star L w2) ∧
            (x = o' → star L w)) as Hdec.
  { intros x w u Hrun.
    induction Hrun as [s|s t u w Ht Hrun IH|s t u c w Hc Ht Hrun IH]; intros Eu.
    - subst. split; [|constructor]. intros Hx%Hlt. unfold o' in Hx. lia.
    - destruct (IH Eu) as [IH1 IH2]. split.
      + intros Hs. pose proof (Hlt _ Hs) as Hs_lt.
        apply HT in Ht as [Ht|[(E & _)|[(-> & _ & ->)|(E & _)]]].
        * destruct IH1 as (w1 & w2 & -> & Hr & Hst); [by eapply Hcl|].
          exists w1, w2. split_and!; [done| |done]. by eapply run_epsilon.
        * unfold i' in E. lia.
        * exists [], w. split_and!; [done|constructor|by apply IH2].
        * unfold o' in E. lia.
      + intros ->.
        apply HT in Ht as [Ht|[(E & _)|[(E & _)|(_ & _ & ->)]]].
        * exfalso. eapply Hnew; [|done]. unfold o'. lia.
        * unfold i', o' in E. lia.
        * unfold o' in E. lia.
        * destruct IH1 as (w1 & w2 & -> & Hr & Hst); [done|].
          constructor; [by apply HL|done].
    - destruct (IH Eu) as [IH1 IH2].
      apply HT in Ht as [Ht|[(_ & E & _)|[(_ & E & _)|(_ & E & _)]]]; try done.
      split.
      + intros Hs. destruct IH1 as (w1 & w2 & -> & Hr & Hst); [by eapply Hcl|].
        exists (c :: w1), w2. split_and!; [done| |done]. by eapply run_symbol.
      + intros ->. exfalso. eapply Hnew; [|done]. unfold o'. lia. }
  assert (∀ w, star L w → run h' o' w o') as Hloop.
  { intros w Hst. induction Hst as [|w1 w2 Hw1%HL _ IH]; [constructor|].
    apply (run_epsilon _ _ i); [apply HT; do 3 right; split_and!; auto|].
    eapply run_app; [by apply Hfwd|].
    apply (run_epsilon _ _ o'); [|done]. apply HT. right. right. left. split_and!; auto. }
  split_and!.
  - auto.
  - auto.
  - intros x [Hx|[->| ->]]; rewrite Hlen; unfold i', o'; try specialize (Hlt _ Hx); lia.
  - intros x c y Hx [Hy|[(-> & -> & [->| ->])|[(_ & -> & ->)|(-> & -> & ->)]]]%HT; auto.
    destruct Hx as [Hx|[->| ->]].
    + left. eauto.
    + exfalso. eapply Hnew; [|done]. unfold i'. lia.
    + exfalso. eapply Hnew; [|done]. unfold o'. lia.
  - intros x Hx. rewrite HA. destruct (decide (x = o')) as [->|Hne]; [done|].
    destruct (decide (x = o)) as [->|Hne']; [done|].
    destruct Hx as [Hx|[->| ->]].
    + by rewrite Hacc.
    + rewrite is_accepting_ge by (unfold i'; lia). done.
    + done.
  - intros w. split.
    + intros Hrun. inversion Hrun as [s E1 E2|s t u' w' Ht Hrun'|s t u' c w' Hc Ht _]; subst.
      * unfold i', o' in *. lia.
      * apply HT in Ht as [Ht|[(_ & _ & [->| ->])|[(E & _)|(E & _)]]].
        -- exfalso. eapply Hnew; [|done]. unfold i'. lia.
        -- destruct (Hdec _ _ _ Hrun' eq_refl) as [H1 _].
           destruct (H1 Hi) as (w1 & w2 & -> & Hr & Hst).
           constructor; [by apply HL|done].
        -- destruct (Hdec _ _ _ Hrun' eq_refl) as [_ H2]. by apply H2.
        -- unfold i' in E. lia.
        -- unfold i', o' in E. lia.
      * exfalso.
        apply HT in Ht as [Ht|[(_ & E & _)|[(_ & E & _)|(_ & E & _)]]]; try done.
        eapply Hnew; [|done]. unfold i'. lia.
    + intros Hst. apply (run_epsilon _ _ o'); [|by apply Hloop].
      apply HT. right. left. split_and!; auto.
Qed.

(** ** Effects of the store primitives *)

Lemma wf_heap_alloc (h : heap) (a : bool) :
  wf_heap h = true → wf_heap (h ++ [new_State a]) = true.
Proof.
  unfold wf_heap. intros Hwf. rewrite forallb_app. simpl. rewrite andb_true_r.
  rewrite forallb_forall in Hwf |- *. intros st Hst. specialize (Hwf st Hst).
  rewrite forallb_forall in Hwf |- *. intros e He. specialize (Hwf e He).
  rewrite forallb_forall in Hwf |- *. intros t Ht. specialize (Hwf t Ht).
  apply Nat.ltb_lt in Hwf. apply Nat.ltb_lt. rewrite length_app. simpl. lia.
Qed.

Lemma new_NFAState_spec (a : bool) (σ : store) :
  ∃ σ', new_NFAState a σ = (length (states σ), σ') ∧ nfas σ' = nfas σ ∧
        length (states σ') = S (length (states σ)) ∧
        (∀ x, x < length (states σ) → states σ' !! x = states σ !! x) ∧
        (∀ x c, targets (states σ') x c = targets (states σ) x c) ∧
        (∀ x, is_accepting (states σ') x
              = if decide (x = length (states σ)) then a else is_accepting (states σ) x) ∧
        (wf_heap (states σ) = true → wf_heap (states σ') = true).
Proof.
  unfold new_NFAState, alloc. eexists. split; [reflexivity|]. simpl. split_and!.
  - done.
  - rewrite length_app. simpl. lia.
  - intros x Hx. by rewrite lookup_app_l.
  - intros x c. unfold targets.
    destruct (decide (x < length (states σ))) as [Hx|Hx].
    + by rewrite lookup_app_l.
    + rewrite (lookup_ge_None_2 (states σ)) by lia.
      rewrite lookup_app_r by lia.
      by destruct (x - length (states σ)) as [|[|k]].
  - intros x. unfold is_accepting. destruct (decide (x = length (states σ))) as [->|Hne].
    + rewrite lookup_app_r by lia. by rewrite Nat.sub_diag.
    + destruct (decide (x < length (states σ))) as [Hx|Hx].
      * by rewrite lookup_app_l.
      * rewrite (lookup_ge_None_2 (states σ)) by lia.
        rewrite lookup_app_r by lia.
        destruct (x - length (states σ)) as [|k] eqn:E; [lia|]. by destruct k.
  - apply wf_heap_alloc.
Qed.

Lemma upd_addTransition_spec (σ : store) (s : ref) (c : symbol) (t : ref) :
  s < length (states σ) →
  ∃ σ', upd_states (addTransition s c t) σ = Some σ' ∧ nfas σ' = nfas σ ∧
        length (states σ') = length (states σ) ∧
        (∀ x, x ≠ s → states σ' !! x = states σ !! x) ∧
        (∀ x c' y, y ∈ targets (states σ') x c'
                   ↔ y ∈ targets (states σ) x c' ∨ (x = s ∧ c' = c ∧ y = t)) ∧
        (∀ x, is_accepting (states σ') x = is_accepting (states σ) x) ∧
        (wf_heap (states σ) = true → t < length (states σ) → wf_heap (states σ') = true).
Proof.
  intros Hs. destruct (addTransition_spec (states σ) s c t Hs)
    as (h' & E & Hlen & Hfr & HT & HA & Hwf).
  unfold upd_states. rewrite E. simpl. eexists. split; [reflexivity|]. simpl.
  split_and!; try done.
  intros x c' y. rewrite HT. destruct (decide (x = s ∧ c' = c)) as [[-> ->]|Hne].
  - rewrite Set_add_elem_of. split; [intros [?| ->]; auto|].
    intros [?|(_ & _ & ->)]; auto.
  - split; [auto|]. intros [?|(-> & -> & _)]; [done|]. exfalso. by apply Hne.
Qed.

Lemma upd_set_accepting_spec (σ : store) (s : ref) (a : bool) :
  s < length (states σ) →
  ∃ σ', upd_states (set_accepting s a) σ = Some σ' ∧ nfas σ' = nfas σ ∧
        length (states σ') = length (states σ) ∧
        (∀ x, x ≠ s → states σ' !! x = states σ !! x) ∧
        (∀ x c, targets (states σ') x c = targets (states σ) x c) ∧
        (∀ x, is_accepting (states σ') x
              = if decide (x = s) then a else is_accepting (states σ) x) ∧
        (wf_heap (states σ) = true → wf_heap (states σ') = true).
Proof.
  intros Hs. destruct (set_accepting_spec (states σ) s a Hs)
    as (h' & E & Hlen & Hfr & HT & HA & Hwf).
  unfold upd_states. rewrite E. simpl. eexists. split; [reflexivity|]. simpl.
  by split_and!.
Qed.

(** ** The fragment of [char(c)] *)

Lemma char_graph (h h' : heap) (c : symbol) :
  let i := length h in
  let o := S (length h) in
  length h' = S (S (length h)) →
  (∀ x c' y, y ∈ targets h' x c' ↔ y ∈ targets h x c' ∨ (x = i ∧ c' = c ∧ y = o)) →
  (∀ x, is_accepting h' x = if decide (x = o) then true else is_accepting h x) →
  frag h' (λ x, x = i ∨ x = o) i o (lang (Char c)).
Proof.
  intros i o Hlen HT HA.
  assert (∀ x c y, length h ≤ x → y ∈ targets h x c → False) as Hnew.
  { intros x c' y Hx. rewrite targets_ge by done. apply not_elem_of_nil. }
  assert (∀ w u, run h' o w u → w = [] ∧ u = o) as Hexit.
  { intros w u Hrun. inversion Hrun as [s|s t u' w' Ht _|s t u' c' w' Hc Ht _]; subst.
    - done.
    - exfalso. apply HT in Ht as [Ht|(E & _)].
      + eapply Hnew; [|done]. unfold o. lia.
      + unfold i, o in E. lia.
    - exfalso. apply HT in Ht as [Ht|(E & _)].
      + eapply Hnew; [|done]. unfold o. lia.
      + unfold i, o in E. lia. }
  split_and!.
  - by left.
  - by right.
  - intros x [->| ->]; rewrite Hlen; unfold i, o; lia.
  - intros x c' y Hx [Hy|(_ & _ & ->)]%HT; [|by right].
    exfalso. eapply Hnew; [|done]. destruct Hx as [->| ->]; unfold i, o; lia.
  - intros x Hx. rewrite HA. destruct (decide (x = o)) as [->|Hne]; [done|].
    destruct Hx as [->| ->]; [|done].
    rewrite is_accepting_ge by (unfold i; lia). done.
  - intros w. simpl. split.
    + intros Hrun. inversion Hrun as [s E1 E2|s t u' w' Ht Hrun'|s t u' c' w' Hc Ht Hrun']; subst.
      * unfold i, o in *. lia.
      * apply HT in Ht as [Ht|(_ & <- & ->)].
        -- exfalso. eapply Hnew; [|done]. unfold i. lia.
        -- apply Hexit in Hrun' as [-> _]. by rewrite decide_True.
      * apply HT in Ht as [Ht|(_ & -> & ->)].
        -- exfalso. eapply Hnew; [|done]. unfold i. lia.
        -- apply Hexit in Hrun' as [-> _]. by rewrite decide_False.
    + destruct (decide (c = EPSILON)) as [->|Hc]; intros ->.
      * apply (run_epsilon _ _ o); [|constructor]. apply HT. right. by split_and!.
      * apply (run_symbol _ _ o); [done| |constructor]. apply HT. right. by split_and!.
Qed.

Lemma char_ok (c : symbol) (σ : store) :
  wf_heap (states σ) = true →
  ∃ σ', char c σ = Some (length (nfas σ), σ') ∧
        nfas σ' = nfas σ ++ [mkNFA (length (states σ)) (S (length (states σ)))
                                   None None None None] ∧
        length (states σ') = S (S (length (states σ))) ∧
        (∀ x, x < length (states σ) → states σ' !! x = states σ !! x) ∧
        wf_heap (states σ') = true ∧
        frag (states σ') (λ x, x = length (states σ) ∨ x = S (length (states σ)))
             (length (states σ)) (S (length (states σ))) (lang (Char c)).
Proof.
  intros Hwf. unfold char.
  destruct (new_NFAState_spec false σ) as (σ1 & -> & Hn1 & Hl1 & Hf1 & HT1 & HA1 & Hwf1).
  destruct (new_NFAState_spec true σ1) as (σ2 & -> & Hn2 & Hl2 & Hf2 & HT2 & HA2 & Hwf2).
  rewrite Hl1.
  destruct (upd_addTransition_spec σ2 (length (states σ)) c (S (length (states σ))))
    as (σ3 & -> & Hn3 & Hl3 & Hf3 & HT3 & HA3 & Hwf3); [lia|].
  simpl. unfold new_NFA. rewrite Hn3, Hn2, Hn1. eexists. split; [reflexivity|]. simpl.
  split_and!.
  - done.
  - lia.
  - intros x Hx. rewrite Hf3 by lia. rewrite Hf2 by lia. by apply Hf1.
  - apply Hwf3; [auto|]. lia.
  - apply (char_graph (states σ)).
    + lia.
    + intros x c' y. rewrite HT3, HT2, HT1. done.
    + intros x. rewrite HA3, HA2, HA1, Hl1.
      destruct (decide (x = S (length (states σ)))) as [->|?]; [done|].
      destruct (decide (x = length (states σ))) as [->|?]; [|done].
      rewrite is_accepting_ge by lia. done.
Qed.

(** ** The combinators on fragments of a store *)

Lemma rep_ok (fragment : ref) (σ : store) (n : NFA) (R : ref → Prop)
    (L : list symbol → Prop) :
  wf_heap (states σ) = true →
  nfas σ !! fragment = Some n →
  frag (states σ) R (in_ n) (out n) L →
  ∃ σ', rep fragment σ = Some (length (nfas σ), σ') ∧
        nfas σ' = nfas σ ++ [mkNFA (length (states σ)) (S (length (states σ)))
                                   None None None None] ∧
        length (states σ') = S (S (length (states σ))) ∧
        (∀ x, x < length (states σ) → ¬ R x → states σ' !! x = states σ !! x) ∧
        wf_heap (states σ') = true ∧
        frag (states σ')
             (λ x, R x ∨ x = length (states σ) ∨ x = S (length (states σ)))
             (length (states σ)) (S (length (states σ))) (star L).
Proof.
  intros Hwf Hn Hfrag. pose proof Hfrag as (Hi & Ho & Hlt & _).
  pose proof (Hlt _ Hi) as Hi_lt. pose proof (Hlt _ Ho) as Ho_lt.
  unfold rep.
  destruct (new_NFAState_spec false σ) as (σ1 & -> & Hn1 & Hl1 & Hf1 & HT1 & HA1 & Hwf1).
  destruct (new_NFAState_spec true σ1) as (σ2 & -> & Hn2 & Hl2 & Hf2 & HT2 & HA2 & Hwf2).
  rewrite Hl1, Hn2, Hn1, Hn. simpl.
  destruct (upd_addTransition_spec σ2 (length (states σ)) EPSILON (in_ n))
    as (σ3 & -> & Hn3 & Hl3 & Hf3 & HT3 & HA3 & Hwf3); [lia|]. simpl.
  destruct (upd_addTransition_spec σ3 (length (states σ)) EPSILON (S (length (states σ))))
    as (σ4 & -> & Hn4 & Hl4 & Hf4 & HT4 & HA4 & Hwf4); [lia|]. simpl.
  destruct (upd_set_accepting_spec σ4 (out n) false)
    as (σ5 & -> & Hn5 & Hl5 & Hf5 & HT5 & HA5 & Hwf5); [lia|]. simpl.
  destruct (upd_addTransition_spec σ5 (out n) EPSILON (S (length (states σ))))
    as (σ6 & -> & Hn6 & Hl6 & Hf6 & HT6 & HA6 & Hwf6); [lia|]. simpl.
  destruct (upd_addTransition_spec σ6 (S (length (states σ))) EPSILON (in_ n))
    as (σ7 & -> & Hn7 & Hl7 & Hf7 & HT7 & HA7 & Hwf7); [lia|]. simpl.
  unfold new_NFA. rewrite Hn7, Hn6, Hn5, Hn4, Hn3, Hn2, Hn1.
  eexists. split; [reflexivity|]. simpl. split_and!.
  - done.
  - lia.
  - intros x Hx HR.
    rewrite Hf7 by lia. rewrite Hf6 by (intros ->; done).
    rewrite Hf5 by (intros ->; done). rewrite Hf4 by lia. rewrite Hf3 by lia.
    rewrite Hf2 by lia. by apply Hf1.
  - apply Hwf7; [|lia]. apply Hwf6; [|lia]. apply Hwf5. apply Hwf4; [|lia].
    apply Hwf3; [|lia]. auto.
  - eapply (rep_graph (states σ)); [exact Hfrag|lia| |].
    + intros x c y. rewrite HT7, HT6, HT5, HT4, HT3, HT2, HT1. tauto.
    + intros x. rewrite HA7, HA6, HA5, HA4, HA3, HA2, HA1, Hl1.
      destruct (decide (x = out n)) as [->|?].
      * by rewrite decide_False by lia.
      * destruct (decide (x = S (length (states σ)))) as [->|?]; [done|].
        destruct (decide (x = length (states σ))) as [->|?]; [|done].
        by rewrite is_accepting_ge by lia.
Qed.

Lemma orPair_ok (first second : ref) (σ : store) (n1 n2 : NFA) (R1 R2 : ref → Prop)
    (L1 L2 : list symbol → Prop) :
  wf_heap (states σ) = true →
  nfas σ !! first = Some n1 → nfas σ !! second = Some n2 →
  frag (states σ) R1 (in_ n1) (out n1) L1 →
  frag (states σ) R2 (in_ n2) (out n2) L2 →
  (∀ x, R1 x → R2 x → False) →
  ∃ σ', orPair first second σ = Some (length (nfas σ), σ') ∧
        nfas σ' = nfas σ ++ [mkNFA (length (states σ)) (S (length (states σ)))
                                   None None None None] ∧
        length (states σ') = S (S (length (states σ))) ∧
        (∀ x, x < length (states σ) → ¬ R1 x → ¬ R2 x → states σ' !! x = states σ !! x) ∧
        wf_heap (states σ') = true ∧
        frag (states σ')
             (λ x, R1 x ∨ R2 x ∨ x = length (states σ) ∨ x = S (length (states σ)))
             (length (states σ)) (S (length (states σ))) (alternative L1 L2).
Proof.
  intros Hwf Hn1' Hn2' Hfrag1 Hfrag2 Hdisj.
  pose proof Hfrag1 as (Hi1 & Ho1 & Hlt1 & _).
  pose proof Hfrag2 as (Hi2 & Ho2 & Hlt2 & _).
  pose proof (Hlt1 _ Hi1). pose proof (Hlt1 _ Ho1).
  pose proof (Hlt2 _ Hi2). pose proof (Hlt2 _ Ho2).
  unfold orPair.
  destruct (new_NFAState_spec false σ) as (σ1 & -> & Hn1 & Hl1 & Hf1 & HT1 & HA1 & Hwf1).
  destruct (new_NFAState_spec false σ1) as (σ2 & -> & Hn2 & Hl2 & Hf2 & HT2 & HA2 & Hwf2).
  rewrite Hl1, Hn2, Hn1, Hn1', Hn2'. simpl.
  destruct (upd_addTransition_spec σ2 (length (states σ)) EPSILON (in_ n1))
    as (σ3 & -> & Hn3 & Hl3 & Hf3 & HT3 & HA3 & Hwf3); [lia|]. simpl.
  destruct (upd_addTransition_spec σ3 (length (states σ)) EPSILON (in_ n2))
    as (σ4 & -> & Hn4 & Hl4 & Hf4 & HT4 & HA4 & Hwf4); [lia|]. simpl.
  destruct (upd_set_accepting_spec σ4 (S (length (states σ))) true)
    as (σ5 & -> & Hn5 & Hl5 & Hf5 & HT5 & HA5 & Hwf5); [lia|]. simpl.
  destruct (upd_set_accepting_spec σ5 (out n1) false)
    as (σ6 & -> & Hn6 & Hl6 & Hf6 & HT6 & HA6 & Hwf6); [lia|]. simpl.
  destruct (upd_set_accepting_spec σ6 (out n2) false)
    as (σ7 & -> & Hn7 & Hl7 & Hf7 & HT7 & HA7 & Hwf7); [lia|]. simpl.
  destruct (upd_addTransition_spec σ7 (out n1) EPSILON (S (length (states σ))))
    as (σ8 & -> & Hn8 & Hl8 & Hf8 & HT8 & HA8 & Hwf8); [lia|]. simpl.
  destruct (upd_addTransition_spec σ8 (out n2) EPSILON (S (length (states σ))))
    as (σ9 & -> & Hn9 & Hl9 & Hf9 & HT9 & HA9 & Hwf9); [lia|]. simpl.
  unfold new_NFA. rewrite Hn9, Hn8, Hn7, Hn6, Hn5, Hn4, Hn3, Hn2, Hn1.
  eexists. split; [reflexivity|]. simpl. split_and!.
  - done.
  - lia.
  - intros x Hx HR1 HR2.
    rewrite Hf9 by (intros ->; done). rewrite Hf8 by (intros ->; done).
    rewrite Hf7 by (intros ->; done). rewrite Hf6 by (intros ->; done).
    rewrite Hf5 by lia. rewrite Hf4 by lia. rewrite Hf3 by lia.
    rewrite Hf2 by lia. by apply Hf1.
  - apply Hwf9; [|lia]. apply Hwf8; [|lia]. apply Hwf7, Hwf6, Hwf5. apply Hwf4; [|lia].
    apply Hwf3; [|lia]. auto.
  - eapply (or_graph (states σ)); [exact Hfrag1|exact Hfrag2|done|lia| |].
    + intros x c y. rewrite HT9, HT8, HT7, HT6, HT5, HT4, HT3, HT2, HT1. tauto.
    + intros x. rewrite HA9, HA8, HA7, HA6, HA5, HA4, HA3, HA2, HA1, Hl1.
      destruct (decide (x = out n2)) as [->|?].
      * rewrite (decide_False (P := _ = S _)) by lia. by rewrite decide_True by auto.
      * destruct (decide (x = out n1)) as [->|?].
        -- rewrite (decide_False (P := _ = S _)) by lia. by rewrite decide_True by auto.
        -- destruct (decide (x = S (length (states σ)))) as [->|?]; [done|].
           rewrite (decide_False (P := x = out n1 ∨ x = out n2)) by (intros [?|?]; done).
           destruct (decide (x = length (states σ))) as [->|?]; [|done].
           by rewrite is_accepting_ge by lia.
Qed.

Lemma altPair_ok (first second : ref) (σ : store) (n1 n2 : NFA) (R1 R2 : ref → Prop)
    (L1 L2 : list symbol → Prop) :
  wf_heap (states σ) = true →
  nfas σ !! first = Some n1 → nfas σ !! second = Some n2 →
  frag (states σ) R1 (in_ n1) (out n1) L1 →
  frag (states σ) R2 (in_ n2) (out n2) L2 →
  (∀ x, R1 x → R2 x → False) →
  ∃ σ', altPair first second σ = Some (length (nfas σ), σ') ∧
        length (nfas σ') = S (length (nfas σ)) ∧
        nfas σ' !! length (nfas σ) = Some (mkNFA (in_ n1) (out n2) None None None None) ∧
        (∀ k, k ≠ first → k < length (nfas σ) → nfas σ' !! k = nfas σ !! k) ∧
        (∃ n1', nfas σ' !! first = Some n1' ∧ in_ n1' = in_ n1 ∧ out n1' = in_ n2) ∧
        length (states σ') = length (states σ) ∧
        (∀ x, ¬ R1 x → ¬ R2 x → states σ' !! x = states σ !! x) ∧
        wf_heap (states σ') = true ∧
        frag (states σ') (λ x, R1 x ∨ R2 x) (in_ n1) (out n2) (cat L1 L2).
Proof.
  intros Hwf Hn1' Hn2' Hfrag1 Hfrag2 Hdisj.
  pose proof Hfrag1 as (Hi1 & Ho1 & Hlt1 & _).
  pose proof Hfrag2 as (Hi2 & Ho2 & Hlt2 & _).
  pose proof (Hlt1 _ Hi1). pose proof (Hlt1 _ Ho1).
  pose proof (Hlt2 _ Hi2). pose proof (Hlt2 _ Ho2).
  assert (first ≠ second) as Hne.
  { intros ->. rewrite Hn1' in Hn2'. injection Hn2' as ->. by eapply Hdisj. }
  assert (first < length (nfas σ)) as Hfirst by (by eapply lookup_lt_Some).
  assert (second < length (nfas σ)) as Hsecond by (by eapply lookup_lt_Some).
  unfold altPair. rewrite Hn1'. simpl.
  destruct (upd_set_accepting_spec σ (out n1) false)
    as (σ1 & -> & Hn1 & Hl1 & Hf1 & HT1 & HA1 & Hwf1); [lia|]. simpl.
  rewrite Hn1, Hn2'. simpl.
  destruct (upd_set_accepting_spec σ1 (out n2) true)
    as (σ2 & -> & Hn2 & Hl2 & Hf2 & HT2 & HA2 & Hwf2); [lia|]. simpl.
  destruct (upd_addTransition_spec σ2 (out n1) EPSILON (in_ n2))
    as (σ3 & -> & Hn3 & Hl3 & Hf3 & HT3 & HA3 & Hwf3); [lia|]. simpl.
  unfold set_out. rewrite Hn3, Hn2, Hn1, Hn1'. simpl.
  rewrite list_lookup_insert_eq by done. simpl.
  rewrite list_lookup_insert_ne by done. rewrite Hn2'. simpl.
  unfold new_NFA. simpl. rewrite length_insert.
  eexists. split; [reflexivity|]. simpl. split_and!.
  - rewrite length_app, length_insert. simpl. lia.
  - rewrite lookup_app_r by (rewrite length_insert; lia).
    by rewrite length_insert, Nat.sub_diag.
  - intros k Hk Hlt. rewrite lookup_app_l by (rewrite length_insert; lia).
    by rewrite list_lookup_insert_ne.
  - eexists. split.
    + rewrite lookup_app_l by (rewrite length_insert; lia).
      by rewrite list_lookup_insert_eq.
    + done.
  - lia.
  - intros x HR1 HR2. rewrite Hf3 by (intros ->; done).
    rewrite Hf2 by (intros ->; done). apply Hf1. by intros ->.
  - apply Hwf3; [|lia]. auto.
  - eapply (alt_graph (states σ)); [exact Hfrag1|exact Hfrag2|done|lia| |].
    + intros x c y. rewrite HT3, HT2, HT1. tauto.
    + intros x. by rewrite HA3, HA2, HA1.
Qed.

(** ** Folds of pair combinators *)

Lemma altPair_pair_spec : pair_spec altPair cat.
Proof.
  intros first second σ n1 n2 R1 R2 L1 L2 Hwf Hn1 Hn2 Hf1 Hf2 Hdisj.
  destruct (altPair_ok first second σ n1 n2 R1 R2 L1 L2 Hwf Hn1 Hn2 Hf1 Hf2 Hdisj)
    as (σ' & E & Hlen & Hg & Hold & _ & Hsl & Hfr & Hwf' & Hfrag).
  exists σ', (mkNFA (in_ n1) (out n2) None None None None), (λ x, R1 x ∨ R2 x).
  split_and!; try done.
  - lia.
  - intros x _. apply Hfr.
  - intros x [?|?]; auto.
Qed.

Lemma orPair_pair_spec : pair_spec orPair alternative.
Proof.
  intros first second σ n1 n2 R1 R2 L1 L2 Hwf Hn1 Hn2 Hf1 Hf2 Hdisj.
  destruct (orPair_ok first second σ n1 n2 R1 R2 L1 L2 Hwf Hn1 Hn2 Hf1 Hf2 Hdisj)
    as (σ' & E & Hnf & Hsl & Hfr & Hwf' & Hfrag).
  exists σ', (mkNFA (length (states σ)) (S (length (states σ))) None None None None),
    (λ x, R1 x ∨ R2 x ∨ x = length (states σ) ∨ x = S (length (states σ))).
  split_and!; try done.
  - rewrite Hnf, length_app. simpl. lia.
  - rewrite Hnf, lookup_app_r by lia. by rewrite Nat.sub_diag.
  - intros k _ Hk. rewrite Hnf. by rewrite lookup_app_l.
  - lia.
  - intros x [?|[?|[->| ->]]]; auto; right; right; lia.
Qed.

Lemma fold_pairs_cons pair (first f : ref) (fs : list ref) (σ : store) :
  fold_pairs pair first (f :: fs) σ
  = match pair first f σ with
    | Some (g, σ') => fold_pairs pair g fs σ'
    | None => None
    end.
Proof.
  unfold fold_pairs. simpl. destruct (pair first f σ) as [[g σ']|]; [done|].
  induction fs; simpl; auto.
Qed.

Section fold.
Variable pair : ref → ref → store → option (ref * store).
Variable comb : (list symbol → Prop) → (list symbol → Prop) → list symbol → Prop.
Hypothesis Hpair : pair_spec pair comb.
Variable Rf : ref → ref → Prop.
Variable Lf : ref → list symbol → Prop.

Lemma fold_pairs_ok (fs : list ref) : ∀ (first : ref) (σ : store) (n0 : NFA)
    (R0 : ref → Prop) (L0 : list symbol → Prop),
  wf_heap (states σ) = true →
  nfas σ !! first = Some n0 →
  frag (states σ) R0 (in_ n0) (out n0) L0 →
  NoDup fs → first ∉ fs →
  (∀ f, f ∈ fs → ∃ n, nfas σ !! f = Some n ∧
                      frag (states σ) (Rf f) (in_ n) (out n) (Lf f)) →
  (∀ f x, f ∈ fs → R0 x → Rf f x → False) →
  (∀ f g x, f ∈ fs → g ∈ fs → f ≠ g → Rf f x → Rf g x → False) →
  ∃ g σ' n R',
    fold_pairs pair first fs σ = Some (g, σ') ∧ nfas σ' !! g = Some n ∧
    wf_heap (states σ') = true ∧
    frag (states σ') R' (in_ n) (out n) (foldl comb L0 (map Lf fs)) ∧
    (∀ x, R' x → R0 x ∨ (∃ f, f ∈ fs ∧ Rf f x) ∨ length (states σ) ≤ x) ∧
    length (states σ) ≤ length (states σ') ∧
    (∀ x, x < length (states σ) → ¬ R0 x → (∀ f, f ∈ fs → ¬ Rf f x) →
          states σ' !! x = states σ !! x) ∧
    length (nfas σ) ≤ length (nfas σ') ∧
    (g = first ∨ length (nfas σ) ≤ g) ∧
    (∀ k, k < length (nfas σ) → k ≠ first → k ∉ fs → nfas σ' !! k = nfas σ !! k).
Proof.
  induction fs as [|f fs IH]; intros first σ n0 R0 L0 Hwf Hn0 Hfrag0 Hnd Hnotin Hfs Hd0 Hd.
  - exists first, σ, n0, R0. unfold fold_pairs. simpl. split_and!; auto.
  - apply NoDup_cons in Hnd as [Hf_notin Hnd].
    apply not_elem_of_cons in Hnotin as [Hne Hnotin].
    destruct (Hfs f) as (nf & Hnf & Hfragf); [by left|].
    destruct (Hpair first f σ n0 nf R0 (Rf f) L0 (Lf f)) as
      (σ1 & n1 & R1 & E & Hlen1 & Hg1 & Hold1 & Hsl1 & Hfr1 & Hwf1 & Hfrag1 & HR1);
      try done.
    { intros x. apply Hd0. by left. }
    rewrite fold_pairs_cons, E.
    assert (∀ g, g ∈ fs → g < length (nfas σ)) as Hfs_lt.
    { intros g Hg. destruct (Hfs g) as (ng & Hng & _); [by right|].
      by eapply lookup_lt_Some. }
    assert (∀ g x, g ∈ fs → Rf g x → x < length (states σ)) as HRf_lt.
    { intros g x Hg Hx. destruct (Hfs g) as (ng & _ & Hfg); [by right|].
      destruct Hfg as (_ & _ & Hlt & _). by apply Hlt. }
    destruct (IH (length (nfas σ)) σ1 n1 R1 (comb L0 (Lf f))) as
      (g & σ2 & n2 & R2 & E2 & Hg2 & Hwf2 & Hfrag2 & HR2 & Hsl2 & Hfr2 & Hnl2 & Hgeq & Hold2);
      try done.
    + intros Hin%Hfs_lt. lia.
    + intros g Hg. destruct (Hfs g) as (ng & Hng & Hfg); [by right|].
      exists ng. split.
      * rewrite Hold1; [done| |by eapply lookup_lt_Some].
        intros ->. done.
      * eapply frag_frame; [done|done|].
        intros x Hx. apply Hfr1.
        -- by eapply HRf_lt.
        -- intros H0. eapply Hd0; [by right|done..].
        -- intros Hxf. eapply (Hd f g x); try done; [by left|by right|].
           intros ->. done.
    + intros g x Hg [Hx|[Hx|Hx]]%HR1 Hgx.
      * eapply Hd0; [by right|done..].
      * eapply (Hd f g x); try done; [by left|by right|]. intros ->. done.
      * pose proof (HRf_lt g x Hg Hgx). lia.
    + intros g1 g2 x Hin1 Hin2. apply Hd; by right.
    + exists g, σ2, n2, R2. simpl. split_and!; try done.
      * intros x [Hx|[(g' & Hg' & Hx)|Hx]]%HR2.
        -- apply HR1 in Hx as [?|[?|?]]; auto.
           right. left. exists f. split; [by left|done].
        -- right. left. exists g'. split; [by right|done].
        -- right. right. lia.
      * lia.
      * intros x Hx H0 Hnone. rewrite Hfr2.
        -- apply Hfr1; [done|done|]. apply Hnone. by left.
        -- lia.
        -- intros [?|[?|?]]%HR1; [done| |lia]. eapply Hnone; [|done]. by left.
        -- intros g' Hg'. apply Hnone. by right.
      * lia.
      * destruct Hgeq as [->|?]; right; lia.
      * intros k Hk Hkf Hkin. apply not_elem_of_cons in Hkin as [Hkf' Hkin].
        rewrite Hold2; [|lia|lia|done]. by apply Hold1.
Qed.
End fold.

(** ** Evaluation of call nests *)

Lemma expr_nested_ind (P : expr → Prop) :
  (∀ c, P (Char c)) → P Eps →
  (∀ r rs, P r → Forall P rs → P (Alt r rs)) →
  (∀ r rs, P r → Forall P rs → P (Or r rs)) →
  (∀ r, P r → P (Rep r)) →
  ∀ r, P r.
Proof.
  intros HChar HEps HAlt HOr HRep. fix IH 1. intros [c| |r rs|r rs|r].
  - apply HChar.
  - apply HEps.
  - apply HAlt; [apply IH|]. induction rs as [|r' rs IHrs]; constructor; [apply IH|apply IHrs].
  - apply HOr; [apply IH|]. induction rs as [|r' rs IHrs]; constructor; [apply IH|apply IHrs].
  - apply HRep, IH.
Qed.

Lemma frag_ext (h : heap) (R : ref → Prop) (i o : ref) (L L' : list symbol → Prop) :
  (∀ w, L w ↔ L' w) → frag h R i o L → frag h R i o L'.
Proof.
  intros HLL (Hi & Ho & Hlt & Hcl & Hacc & HL). split_and!; try done.
  intros w. by rewrite HL.
Qed.

Lemma eval_args_cons (r : expr) (rs : list expr) (σ : store) :
  eval_args eval (r :: rs) σ
  = ('(f, σ) ← eval r σ; '(fs, σ) ← eval_args eval rs σ; Some (f :: fs, σ)).
Proof. reflexivity. Qed.

Lemma args_ok (rs : list expr) : Forall eval_inv rs → args_inv rs.
Proof.
  induction 1 as [|r rs Hr _ IH]; intros σ Hwf.
  - exists [], σ, (λ _ _, False), (λ _ _, False). simpl.
    split_and!; [done|done|constructor| | |done..].
    + by intros f Hf%not_elem_of_nil.
    + by intros f g x Hf%not_elem_of_nil.
  - destruct (Hr σ Hwf) as
      (f & σ1 & n & R & E1 & Hn & Hf_ge & Hwf1 & Hfrag & HR & Hsl1 & Hfr1 & Hnl1 & Hold1).
    destruct (IH σ1 Hwf1) as
      (fs & σ2 & Rf & Lf & E2 & Hwf2 & Hnd & Hfs & Hd & Hmap & Hsl2 & Hfr2 & Hnl2 & Hold2).
    assert (f < length (nfas σ1)) as Hf_lt by (by eapply lookup_lt_Some).
    assert (f ∉ fs) as Hf_notin.
    { intros Hin. destruct (Hfs f Hin) as [? _]. lia. }
    assert (∀ x, R x → x < length (states σ1)) as HR_lt.
    { destruct Hfrag as (_ & _ & Hlt & _). done. }
    exists (f :: fs), σ2,
      (λ k, if decide (k = f) then R else Rf k),
      (λ k, if decide (k = f) then lang r else Lf k).
    rewrite eval_args_cons, E1. simpl. rewrite E2. simpl. split_and!; try done.
    + by constructor.
    + intros g [->|Hg]%elem_of_cons.
      * split; [done|]. exists n. rewrite decide_True by done. split_and!.
        -- by rewrite Hold2.
        -- rewrite decide_True by done. eapply frag_frame; [done|done|].
           intros x Hx%HR_lt. by apply Hfr2.
        -- done.
      * destruct (Hfs g Hg) as (Hg_ge & ng & Hng & Hfragg & HRg).
        assert (g ≠ f) as Hne by (intros ->; done).
        split; [lia|]. exists ng. rewrite !decide_False by done. split_and!; try done.
        intros x Hx%HRg. lia.
    + intros g1 g2 x [->|Hg1]%elem_of_cons [->|Hg2]%elem_of_cons Hne; try done.
      * rewrite decide_True by done.
        assert (g2 ≠ f) as Hne2 by (intros ->; done).
        rewrite decide_False by done. intros Hx%HR_lt Hx2.
        destruct (Hfs g2 Hg2) as (_ & ng & _ & _ & HRg). specialize (HRg x Hx2). lia.
      * assert (g1 ≠ f) as Hne1 by (intros ->; done).
        rewrite decide_False by done. rewrite decide_True by done. intros Hx1 Hx%HR_lt.
        destruct (Hfs g1 Hg1) as (_ & ng & _ & _ & HRg). specialize (HRg x Hx1). lia.
      * assert (g1 ≠ f) as Hne1 by (intros ->; done).
        assert (g2 ≠ f) as Hne2 by (intros ->; done).
        rewrite !decide_False by done. by apply Hd.
    + rewrite decide_True by done. f_equal. rewrite <- Hmap.
      apply map_ext_in. intros g Hg%list_elem_of_In.
      rewrite decide_False; [done|]. intros ->. done.
    + lia.
    + intros x Hx. rewrite Hfr2 by lia. by apply Hfr1.
    + lia.
    + intros k Hk. rewrite Hold2 by lia. by apply Hold1.
Qed.

Lemma fold_eval_ok pair comb (first : expr) (rs : list expr) :
  pair_spec pair comb → eval_inv first → args_inv rs →
  ∀ σ, wf_heap (states σ) = true →
    ∃ f σ' n R,
      ('(first, σ) ← eval first σ;
       '(fragments, σ) ← eval_args eval rs σ;
       fold_pairs pair first fragments σ) = Some (f, σ') ∧
      nfas σ' !! f = Some n ∧ length (nfas σ) ≤ f ∧
      wf_heap (states σ') = true ∧
      frag (states σ') R (in_ n) (out n) (foldl comb (lang first) (map lang rs)) ∧
      (∀ x, R x → length (states σ) ≤ x) ∧
      length (states σ) ≤ length (states σ') ∧
      (∀ x, x < length (states σ) → states σ' !! x = states σ !! x) ∧
      length (nfas σ) ≤ length (nfas σ') ∧
      (∀ k, k < length (nfas σ) → nfas σ' !! k = nfas σ !! k).
Proof.
  intros Hpair Hfirst Hargs σ Hwf.
  destruct (Hfirst σ Hwf) as
    (f0 & σ1 & n0 & R0 & E1 & Hn0 & Hf0_ge & Hwf1 & Hfrag0 & HR0 & Hsl1 & Hfr1 & Hnl1 & Hold1).
  destruct (Hargs σ1 Hwf1) as
    (fs & σ2 & Rf & Lf & E2 & Hwf2 & Hnd & Hfs & Hd & Hmap & Hsl2 & Hfr2 & Hnl2 & Hold2).
  assert (f0 < length (nfas σ1)) as Hf0_lt by (by eapply lookup_lt_Some).
  assert (∀ x, R0 x → x < length (states σ1)) as HR0_lt.
  { destruct Hfrag0 as (_ & _ & Hlt & _). done. }
  destruct (fold_pairs_ok pair comb Hpair Rf Lf fs f0 σ2 n0 R0 (lang first)) as
    (g & σ3 & n3 & R3 & E3 & Hn3 & Hwf3 & Hfrag3 & HR3 & Hsl3 & Hfr3 & Hnl3 & Hg & Hold3);
    try done.
  - by rewrite Hold2.
  - eapply frag_frame; [done|done|]. intros x Hx%HR0_lt. by apply Hfr2.
  - intros Hin. destruct (Hfs f0 Hin) as [? _]. lia.
  - intros f Hf. destruct (Hfs f Hf) as (_ & n & Hn & Hfragf & _). eauto.
  - intros f x Hf Hx%HR0_lt Hfx. destruct (Hfs f Hf) as (_ & n & _ & _ & HRf).
    specialize (HRf x Hfx). lia.
  - exists g, σ3, n3, R3. rewrite E1. simpl. rewrite E2. simpl. rewrite <- Hmap.
    split_and!; try done.
    + destruct Hg as [->|?]; lia.
    + intros x [Hx|[(f & Hf & Hx)|Hx]]%HR3.
      * by apply HR0.
      * destruct (Hfs f Hf) as (_ & n & _ & _ & HRf). specialize (HRf x Hx). lia.
      * lia.
    + lia.
    + intros x Hx. rewrite Hfr3.
      * rewrite Hfr2 by lia. by apply Hfr1.
      * lia.
      * intros Hx0%HR0. lia.
      * intros f Hf Hfx. destruct (Hfs f Hf) as (_ & n & _ & _ & HRf).
        specialize (HRf x Hfx). lia.
    + lia.
    + intros k Hk. rewrite Hold3.
      * rewrite Hold2 by lia. by apply Hold1.
      * lia.
      * lia.
      * intros Hin. destruct (Hfs k Hin) as [? _]. lia.
Qed.

Lemma char_eval_inv (c : symbol) (L : list symbol → Prop) :
  (∀ w, lang (Char c) w ↔ L w) →
  ∀ σ, wf_heap (states σ) = true →
    ∃ f σ' n R,
      char c σ = Some (f, σ') ∧ nfas σ' !! f = Some n ∧ length (nfas σ) ≤ f ∧
      wf_heap (states σ') = true ∧
      frag (states σ') R (in_ n) (out n) L ∧
      (∀ x, R x → length (states σ) ≤ x) ∧
      length (states σ) ≤ length (states σ') ∧
      (∀ x, x < length (states σ) → states σ' !! x = states σ !! x) ∧
      length (nfas σ) ≤ length (nfas σ') ∧
      (∀ k, k < length (nfas σ) → nfas σ' !! k = nfas σ !! k).
Proof.
  intros HL σ Hwf.
  destruct (char_ok c σ Hwf) as (σ' & E & Hnf & Hsl & Hfr & Hwf' & Hfrag).
  eexists _, σ', _, _. split; [exact E|]. split_and!.
  - rewrite Hnf, lookup_app_r by lia. by rewrite Nat.sub_diag.
  - lia.
  - done.
  - simpl. by eapply frag_ext.
  - intros x [->| ->]; lia.
  - lia.
  - done.
  - rewrite Hnf, length_app. simpl. lia.
  - intros k Hk. rewrite Hnf. by rewrite lookup_app_l.
Qed.

Lemma eval_ok (r : expr) : eval_inv r.
Proof.
  induction r as [c| |r rs IH IHrs|r rs IH IHrs|r IH] using expr_nested_ind.
  - intros σ Hwf. by apply char_eval_inv.
  - intros σ Hwf. apply (char_eval_inv EPSILON); [|done].
    intros w. unfold lang. by rewrite decide_True.
  - intros σ Hwf.
    apply (fold_eval_ok altPair cat r rs altPair_pair_spec IH (args_ok rs IHrs) σ Hwf).
  - intros σ Hwf.
    apply (fold_eval_ok orPair alternative r rs orPair_pair_spec IH (args_ok rs IHrs) σ Hwf).
  - intros σ Hwf.
    destruct (IH σ Hwf) as
      (f & σ1 & n & R & E1 & Hn & Hf_ge & Hwf1 & Hfrag & HR & Hsl1 & Hfr1 & Hnl1 & Hold1).
    destruct (rep_ok f σ1 n R (lang r) Hwf1 Hn Hfrag) as
      (σ2 & E2 & Hnf & Hsl2 & Hfr2 & Hwf2 & Hfrag2).
    eexists _, σ2, _, _. simpl. rewrite E1. simpl. split; [exact E2|]. split_and!.
    + rewrite Hnf, lookup_app_r by lia. by rewrite Nat.sub_diag.
    + lia.
    + done.
    + exact Hfrag2.
    + intros x [Hx|[->| ->]]; [by apply HR|lia|lia].
    + lia.
    + intros x Hx. rewrite Hfr2; [by apply Hfr1|lia|].
      intros Hx'%HR. lia.
    + rewrite Hnf, length_app. simpl. lia.
    + intros k Hk. rewrite Hnf, lookup_app_l by lia. by apply Hold1.
Qed.

(** ** Adding transitions *)

Lemma with_transitions_id (st : State) : with_transitions (_transitions st) st = st.
Proof. by destruct st. Qed.

Lemma Map_set_id {V} (m : list (symbol * V)) (k : symbol) (v : V) :
  Map_get m k = Some v → Map_set m k v = m.
Proof.
  induction m as [|[k' v'] m IH]; simpl; [done|].
  destruct (String.eqb k k') eqn:E.
  - apply String.eqb_eq in E. by intros [= ->]; subst.
  - intros H. by rewrite IH.
Qed.

(** X1: [addTransition] followed by a lookup.  On an existing state the
    call succeeds; afterwards [toState] is among the targets of [this] on
    [symbol], every target that was there before still is, no other target
    set and no accepting flag has changed, target sets stay duplicate-free,
    and the query [getTransitionsOnSymbol] returns the enlarged set without
    changing the store. *)
Theorem addTransition_then_lookup (h : heap) (this : ref) (symbol : symbol) (toState : ref) :
  this < length h →
  ∃ h', addTransition this symbol toState h = Some h' ∧
        length h' = length h ∧
        (∀ x c y, y ∈ targets h' x c
                  ↔ y ∈ targets h x c ∨ (x = this ∧ c = symbol ∧ y = toState)) ∧
        (∀ x, is_accepting h' x = is_accepting h x) ∧
        ((∀ x c, NoDup (targets h x c)) → ∀ x c, NoDup (targets h' x c)) ∧
        getTransitionsOnSymbol this symbol h' = Some (targets h' this symbol, h').
Proof.
  intros Hs. destruct (addTransition_spec h this symbol toState Hs)
    as (h' & E & Hlen & Hfr & HT & HA & Hwf).
  exists h'. split_and!; try done.
  - intros x c y. rewrite HT. destruct (decide (x = this ∧ c = symbol)) as [[-> ->]|Hne].
    + rewrite Set_add_elem_of. split; [intros [?| ->]; auto|].
      intros [?|(_ & _ & ->)]; auto.
    + split; [auto|]. intros [?|(-> & -> & _)]; [done|]. exfalso. by apply Hne.
  - intros Hnd x c. rewrite HT. destruct (decide (x = this ∧ c = symbol)); [|done].
    by apply Set_add_NoDup.
  - assert (this < length h') as Hs' by lia.
    destruct (lookup_lt_is_Some_2 h' this Hs') as [st Hst].
    unfold getTransitionsOnSymbol, targets. rewrite Hst. simpl.
    destruct (Map_get (_transitions st) symbol) as [l|] eqn:El; [done|].
    exfalso. assert (toState ∈ targets h' this symbol) as Hin.
    { rewrite HT, decide_True by done. apply Set_add_elem_of. by right. }
    unfold targets in Hin. rewrite Hst, El in Hin. by apply not_elem_of_nil in Hin.
Qed.

Lemma addTransition_then_lookup_witness :
  ∃ h', addTransition 3 EPSILON 0 star_heap = Some h' ∧
        length h' = length star_heap ∧
        (∀ x c y, y ∈ targets h' x c
                  ↔ y ∈ targets star_heap x c ∨ (x = 3 ∧ c = EPSILON ∧ y = 0)) ∧
        (∀ x, is_accepting h' x = is_accepting star_heap x) ∧
        ((∀ x c, NoDup (targets star_heap x c)) → ∀ x c, NoDup (targets h' x c)) ∧
        getTransitionsOnSymbol 3 EPSILON h' = Some (targets h' 3 EPSILON, h').
Proof. apply (addTransition_then_lookup star_heap 3 EPSILON 0). simpl. lia. Defined.

(** X2: [addTransition] is idempotent: repeating a call leaves the store
    exactly as the first call left it. *)
Theorem addTransition_idempotent (h h' : heap) (this : ref) (symbol : symbol)
    (toState : ref) :
  addTransition this symbol toState h = Some h' →
  addTransition this symbol toState h' = Some h'.
Proof.
  intros E.
  assert (this < length h) as Hs.
  { unfold addTransition, getTransitionsOnSymbol in E.
    destruct (h !! this) eqn:Hst; [by eapply lookup_lt_Some|done]. }
  destruct (addTransition_spec h this symbol toState Hs)
    as (h'' & E' & Hlen & Hfr & HT & HA & Hwf).
  rewrite E in E'. injection E' as <-.
  assert (this < length h') as Hs' by lia.
  destruct (lookup_lt_is_Some_2 h' this Hs') as [st Hst].
  pose proof (HT this symbol) as HTs. rewrite decide_True in HTs by done.
  unfold addTransition, getTransitionsOnSymbol. rewrite Hst. simpl.
  unfold targets at 1 in HTs. rewrite Hst in HTs.
  destruct (Map_get (_transitions st) symbol) as [l|] eqn:El; simpl in HTs.
  - simpl. rewrite Hst. simpl. f_equal.
    assert (Set_add l toState = l) as ->.
    { apply Set_add_present. rewrite HTs. apply Set_add_elem_of. by right. }
    rewrite Map_set_id by done. rewrite with_transitions_id. by apply list_insert_id.
  - exfalso. assert (toState ∈ Set_add (targets h this symbol) toState) as Hin
      by (apply Set_add_elem_of; by right).
    rewrite <- HTs in Hin. by apply not_elem_of_nil in Hin.
Qed.

Lemma addTransition_idempotent_witness :
  addTransition 0 "a" 1 star_heap = Some star_heap.
Proof. apply (addTransition_idempotent star_heap star_heap 0 "a" 1). reflexivity. Defined.

(** ** The graph walk leaves the language alone *)

Lemma accepts_same_graph (h h' : heap) (s : ref) (w : list symbol) :
  same_graph h h' → accepts h' s w ↔ accepts h s w.
Proof.
  intros (Hlen & Hacc & Htg). split.
  - induction 1 as [s Ha|s t w Ht _ IH|s t c w Ht _ IH].
    + constructor. by rewrite <- Hacc.
    + eapply accepts_epsilon; [|done]. by rewrite <- Htg.
    + eapply accepts_symbol; [|done]. by rewrite <- Htg.
  - induction 1 as [s Ha|s t w Ht _ IH|s t c w Ht _ IH].
    + constructor. by rewrite Hacc.
    + eapply accepts_epsilon; [|done]. by rewrite Htg.
    + eapply accepts_symbol; [|done]. by rewrite Htg.
Qed.

(** [matches] on a store with the graph of a well-formed store [h]. *)
Lemma matches_decides (h h0 : heap) (s : ref) (w : list symbol) (fuel : nat) :
  wf_heap h = true → same_graph h h0 → s < length h → matches_fuel h w ≤ fuel →
  ∃ b visited h',
    matches fuel s w [] h0 = Some (b, (visited, h')) ∧ same_graph h h' ∧
    (b = true ↔ accepts h s w).
Proof.
  intros Hwf Hg Hs Hfuel.
  destruct (matches_ok_all h Hwf fuel w s [] h0) as (b & V' & h' & Hm & Hg' & Hpost).
  - done.
  - done.
  - split; [apply NoDup_nil_2|by intros x Hx%not_elem_of_nil].
  - unfold matches_fuel in Hfuel. simpl. lia.
  - exists b, V', h'. split_and!; [done|done|]. destruct b.
    + destruct Hpost as (_ & _ & _ & Hacc). done.
    + split; [done|]. intros Hacc. by apply dfs_post_root_false in Hpost.
Qed.

(** X3: a [matches] call may store empty target sets, but it changes no
    edge and no accepting flag: every state accepts the same inputs after the
    call as before, and asking the same question again, on the store the
    first call left, gives the same answer. *)
Theorem matches_leaves_language (h : heap) (s : ref) (w : list symbol) (fuel : nat) :
  wf_heap h = true → s < length h → matches_fuel h w ≤ fuel →
  ∃ b visited h',
    matches fuel s w [] h = Some (b, (visited, h')) ∧
    length h' = length h ∧
    (∀ x c, targets h' x c = targets h x c) ∧
    (∀ x, is_accepting h' x = is_accepting h x) ∧
    (∀ s' w', accepts h' s' w' ↔ accepts h s' w') ∧
    ∃ visited' h'', matches fuel s w [] h' = Some (b, (visited', h'')).
Proof.
  intros Hwf Hs Hfuel.
  destruct (matches_decides h h s w fuel Hwf (same_graph_refl h) Hs Hfuel)
    as (b & V & h' & Hm & Hg & Hb).
  destruct (matches_decides h h' s w fuel Hwf Hg Hs Hfuel)
    as (b' & V' & h'' & Hm' & Hg' & Hb').
  exists b, V, h'. pose proof Hg as (Hlen & Hacc & Htg). split_and!; try done.
  - intros s' w'. by apply accepts_same_graph.
  - exists V', h''. rewrite Hm'. do 2 f_equal.
    destruct b, b'; try done.
    + assert (false = true) by (apply Hb'; by apply Hb). done.
    + assert (false = true) by (apply Hb; by apply Hb'). done.
Qed.

Lemma matches_leaves_language_witness :
  ∃ b visited h',
    matches 20 2 ["a"; "b"] [] star_heap = Some (b, (visited, h')) ∧
    length h' = length star_heap ∧
    (∀ x c, targets h' x c = targets star_heap x c) ∧
    (∀ x, is_accepting h' x = is_accepting star_heap x) ∧
    (∀ s' w', accepts h' s' w' ↔ accepts star_heap s' w') ∧
    ∃ visited' h'', matches 20 2 ["a"; "b"] [] h' = Some (b, (visited', h'')).
Proof.
  apply (matches_leaves_language star_heap 2 ["a"; "b"] 20);
    [reflexivity|simpl; lia|vm_compute; lia].
Defined.

(** ** Fragments built by the combinators *)

Lemma NFA_matches_decides (σ : store) (f : ref) (n : NFA) (w : list symbol) (fuel : nat) :
  wf_heap (states σ) = true → nfas σ !! f = Some n → in_ n < length (states σ) →
  matches_fuel (states σ) w ≤ fuel →
  ∃ b σ', NFA_matches fuel f w σ = Some (b, σ') ∧
          (b = true ↔ accepts (states σ) (in_ n) w).
Proof.
  intros Hwf Hn Hin Hfuel.
  destruct (matches_decides (states σ) (states σ) (in_ n) w fuel Hwf
              (same_graph_refl _) Hin Hfuel) as (b & V & h' & Hm & _ & Hb).
  unfold NFA_matches. rewrite Hn. simpl. rewrite Hm. eauto.
Qed.

(** X4: any nest of combinator calls evaluates without an error on a
    well-formed store.  It only allocates: the states and fragment
    objects that existed before are left exactly as they were.  The exit
    state of the fragment it returns is accepting, and it is the only
    accepting state that a run from the entry state can end in. *)
Theorem eval_builds_one_exit (r : expr) (σ : store) :
  wf_heap (states σ) = true →
  ∃ f σ' n,
    eval r σ = Some (f, σ') ∧ nfas σ' !! f = Some n ∧
    wf_heap (states σ') = true ∧
    (∀ x, x < length (states σ) → states σ' !! x = states σ !! x) ∧
    (∀ k, k < length (nfas σ) → nfas σ' !! k = nfas σ !! k) ∧
    length (states σ) ≤ in_ n < length (states σ') ∧
    length (states σ) ≤ out n < length (states σ') ∧
    is_accepting (states σ') (out n) = true ∧
    (∀ w u, run (states σ') (in_ n) w u → is_accepting (states σ') u = true → u = out n).
Proof.
  intros Hwf.
  destruct (eval_ok r σ Hwf) as
    (f & σ' & n & R & E & Hn & Hf_ge & Hwf' & Hfrag & HR & Hsl & Hfr & Hnl & Hold).
  pose proof Hfrag as (Hi & Ho & Hlt & Hcl & Hacc & HL).
  exists f, σ', n. split_and!; try done.
  - by apply HR.
  - by apply Hlt.
  - by apply HR.
  - by apply Hlt.
  - by apply Hacc.
  - intros w u Hrun Hu. apply Hacc; [|done]. by eapply run_region.
Qed.

Lemma eval_builds_one_exit_witness :
  ∃ f σ' n,
    eval (Rep (Alt (Char "a") [Or (Char "b") [Char "c"; Eps]])) empty_store = Some (f, σ') ∧
    nfas σ' !! f = Some n ∧
    wf_heap (states σ') = true ∧
    (∀ x, x < length (states empty_store) → states σ' !! x = states empty_store !! x) ∧
    (∀ k, k < length (nfas empty_store) → nfas σ' !! k = nfas empty_store !! k) ∧
    length (states empty_store) ≤ in_ n < length (states σ') ∧
    length (states empty_store) ≤ out n < length (states σ') ∧
    is_accepting (states σ') (out n) = true ∧
    (∀ w u, run (states σ') (in_ n) w u → is_accepting (states σ') u = true → u = out n).
Proof.
  apply (eval_builds_one_exit (Rep (Alt (Char "a") [Or (Char "b") [Char "c"; Eps]]))
           empty_store).
  reflexivity.
Defined.

(** X5: the fragment built by a nest of combinator calls recognises the
    language the nest denotes.  On an input without the character
    [EPSILON], [NFA.matches] returns (with [matches_fuel] units of fuel), and
    it returns [true] exactly for the words of [lang r]: [char(c)] the word
    [c], [e()] the empty word, [alt] the concatenation of its arguments, [or]
    their union, [rep] zero or more repetitions. *)
Theorem eval_matches_lang (r : expr) (σ : store) (w : list symbol) :
  wf_heap (states σ) = true → EPSILON ∉ w →
  ∃ f σ',
    eval r σ = Some (f, σ') ∧
    ∀ fuel, matches_fuel (states σ') w ≤ fuel →
      ∃ b σ'', NFA_matches fuel f w σ' = Some (b, σ'') ∧ (b = true ↔ lang r w).
Proof.
  intros Hwf Hw.
  destruct (eval_ok r σ Hwf) as
    (f & σ' & n & R & E & Hn & Hf_ge & Hwf' & Hfrag & HR & Hsl & Hfr & Hnl & Hold).
  exists f, σ'. split; [done|]. intros fuel Hfuel.
  pose proof Hfrag as (Hi & Ho & Hlt & _).
  destruct (NFA_matches_decides σ' f n w fuel Hwf' Hn (Hlt _ Hi) Hfuel)
    as (b & σ'' & Hm & Hb).
  exists b, σ''. split; [done|]. rewrite Hb. by eapply frag_accepts.
Qed.

Lemma eval_matches_lang_witness :
  ∃ f σ',
    eval (Rep (Alt (Char "a") [Or (Char "b") [Char "c"; Eps]])) empty_store = Some (f, σ') ∧
    ∀ fuel, matches_fuel (states σ') ["a"; "b"; "a"] ≤ fuel →
      ∃ b σ'', NFA_matches fuel f ["a"; "b"; "a"] σ' = Some (b, σ'') ∧
               (b = true ↔ lang (Rep (Alt (Char "a") [Or (Char "b") [Char "c"; Eps]]))
                                ["a"; "b"; "a"]).
Proof.
  apply (eval_matches_lang (Rep (Alt (Char "a") [Or (Char "b") [Char "c"; Eps]]))
           empty_store ["a"; "b"; "a"]).
  - reflexivity.
  - apply (bool_decide_unpack _). vm_compute. exact I.
Defined.

(** ** Epsilon closures on a store without memoised sets *)

Lemma memo_lookup_eq (h h' : heap) (x : ref) : h' !! x = h !! x → memo h' x = memo h x.
Proof. intros E. unfold memo. by rewrite E. Qed.

Lemma closure_of_memo (h : heap) (s : ref) (c : list ref) :
  memo h s = Some c → closure_of h s = c.
Proof. unfold closure_of, memo. by intros ->. Qed.

Lemma memo_set_closure (h : heap) (s : ref) (c : list ref) (x : ref) :
  s < length h →
  memo (set_closure s c h) x = if decide (x = s) then Some c else memo h x.
Proof.
  intros Hs. destruct (lookup_lt_is_Some_2 h s Hs) as [st Hst].
  unfold set_closure, memo. rewrite Hst. destruct (decide (x = s)) as [->|Hne].
  - by rewrite list_lookup_insert_eq.
  - by rewrite list_lookup_insert_ne.
Qed.

Lemma same_graph_set_closure (h : heap) (s : ref) (c : list ref) :
  same_graph h (set_closure s c h).
Proof.
  unfold set_closure. destruct (h !! s) as [st|] eqn:Hst; [|apply same_graph_refl].
  split_and!.
  - by rewrite length_insert.
  - intros x. unfold is_accepting. destruct (decide (x = s)) as [->|Hne].
    + rewrite list_lookup_insert_eq by (by eapply lookup_lt_Some). by rewrite Hst.
    + by rewrite list_lookup_insert_ne.
  - intros x c'. unfold targets. destruct (decide (x = s)) as [->|Hne].
    + rewrite list_lookup_insert_eq by (by eapply lookup_lt_Some). by rewrite Hst.
    + by rewrite list_lookup_insert_ne.
Qed.

Lemma pending_insert (h : heap) (s : ref) (st st' : State) :
  h !! s = Some st →
  pending (<[s := st']> h) + (match _epsilonClosure st with Some _ => 0 | None => 1 end)
  = pending h + (match _epsilonClosure st' with Some _ => 0 | None => 1 end).
Proof.
  unfold pending. revert s. induction h as [|a h IH]; intros s Hs; [done|].
  destruct s as [|s]; simpl in *.
  - injection Hs as ->. destruct (_epsilonClosure st), (_epsilonClosure st'); simpl; lia.
  - specialize (IH s Hs). destruct (_epsilonClosure a); simpl; lia.
Qed.

Lemma pending_set_closure (h : heap) (s : ref) (c : list ref) :
  s < length h →
  pending (set_closure s c h) + (match memo h s with Some _ => 0 | None => 1 end) = pending h.
Proof.
  intros Hs. destruct (lookup_lt_is_Some_2 h s Hs) as [st Hst].
  unfold set_closure, memo. rewrite Hst. simpl.
  pose proof (pending_insert h s st (with_epsilonClosure c st) Hst) as H. simpl in H. lia.
Qed.

Lemma pending_le_length (h : heap) : pending h ≤ length h.
Proof.
  unfold pending. induction h as [|a h IH]; simpl; [done|].
  destruct (_epsilonClosure a); simpl; lia.
Qed.

Lemma unmemoised_memo (h : heap) (s : ref) : unmemoised h = true → memo h s = None.
Proof.
  unfold unmemoised, memo. intros H. destruct (h !! s) as [st|] eqn:Hst; [|done]. simpl.
  rewrite forallb_forall in H.
  specialize (H st). destruct (_epsilonClosure st); [|done].
  assert (false = true); [|done]. apply H, list_elem_of_In. by eapply list_elem_of_lookup_2.
Qed.

Lemma getTransitionsOnSymbol_memo (h : heap) (s : ref) (c : symbol) :
  s < length h →
  ∃ h', getTransitionsOnSymbol s c h = Some (targets h s c, h') ∧ same_graph h h' ∧
        (∀ x, memo h' x = memo h x) ∧ pending h' = pending h.
Proof.
  intros Hs. destruct (getTransitionsOnSymbol_graph h s c Hs) as (h' & E & Hg).
  exists h'. split_and!; [done|done| |].
  - unfold getTransitionsOnSymbol in E. destruct (h !! s) as [st|] eqn:Hst; [|done].
    simpl in E. destruct (Map_get (_transitions st) c); injection E as _ <-; [done|].
    intros x. unfold memo. destruct (decide (x = s)) as [->|Hne].
    + rewrite list_lookup_insert_eq by done. by rewrite Hst.
    + by rewrite list_lookup_insert_ne.
  - unfold getTransitionsOnSymbol in E. destruct (h !! s) as [st|] eqn:Hst; [|done].
    simpl in E. destruct (Map_get (_transitions st) c); injection E as _ <-; [done|].
    pose proof (pending_insert h s st
                  (with_transitions (Map_set (_transitions st) c []) st) Hst) as H.
    simpl in H. destruct (_epsilonClosure st); lia.
Qed.

Lemma Set_add_head (c : list ref) (x a : ref) : head c = Some a → head (Set_add c x) = Some a.
Proof.
  intros H. unfold Set_add. destruct (Set_has c x); [done|]. by destruct c.
Qed.

Lemma Set_addAll_head (l : list ref) : ∀ (c : list ref) (a : ref),
  head c = Some a → head (Set_addAll c l) = Some a.
Proof.
  unfold Set_addAll. induction l as [|x l IH]; intros c a H; simpl; [done|].
  apply IH. by apply Set_add_head.
Qed.

Lemma eps_reach_trans (h : heap) (s t u : ref) :
  eps_reach h s t → eps_reach h t u → eps_reach h s u.
Proof.
  induction 1 as [|s t' t Ht _ IH]; [done|]. intros Hu. eapply eps_reach_step; eauto.
Qed.

Lemma memo_inv_started (g h : heap) (this : ref) :
  memo_inv g h (Some this) → memo h this ≠ None → memo_inv g h None.
Proof.
  intros [Hg Hinv] Hthis. split; [done|]. intros s c Hs.
  destruct (Hinv s c Hs) as (Hnd & Hhd & Hmem). split_and!; [done|done|].
  intros y Hy. destruct (Hmem y Hy) as [Hr [Hst|[= ->]]]; split; auto.
Qed.

Lemma foldl_option_None' {A B} (f : option A → B → option A) (l : list B) :
  (∀ x, f None x = None) → foldl f None l = None.
Proof. intros Hf. induction l as [|x l IH]; simpl; [done|]. by rewrite Hf. Qed.

Section closure.
Variable g : heap.
Hypothesis Hwf : wf_heap g = true.

Lemma closure_loop_ok (fuel : nat) (h : heap) (this : ref) :
  (∀ n hb, memo_inv g hb (Some n) → n < length g → pending hb < fuel →
     ∃ c h', getEpsilonClosure fuel n hb = Some (c, h') ∧ closure_post g hb n c h') →
  this < length g → pending h ≤ fuel →
  ∀ l seen hk,
    loop_inv g h this seen hk →
    (∀ y, y ∈ l → y ∈ targets g this EPSILON) →
    ∃ h',
      foldl (λ oh nextState,
               h ← oh;
               if Set_has (closure_of h this) nextState then Some h else
               '(nextClosure, h) ←
                 getEpsilonClosure fuel nextState
                   (set_closure this (Set_add (closure_of h this) nextState) h);
               Some (set_closure this (Set_addAll (closure_of h this) nextClosure) h))
            (Some hk) l = Some h' ∧
      loop_inv g h this (seen ++ l) h'.
Proof.
  intros IH Hthis Hfuel l.
  induction l as [|n l IHl]; intros seen hk HLI Hl.
  { exists hk. rewrite app_nil_r. done. }
  destruct HLI as ((Hg & Hinv) & (ck & Hck & Hseen) & Hold & Hpend & Hnew).
  pose proof Hg as (Hlen & _ & Htg).
  assert (n ∈ targets g this EPSILON) as Hn by (apply Hl; by left).
  assert (n < length g) as Hn_lt by (by eapply wf_heap_targets).
  destruct (Hinv this ck Hck) as (Hnd_ck & Hhd_ck & Hmem_ck).
  assert (this ∈ ck) as Hthis_ck.
  { destruct ck as [|a ck']; [done|]. injection Hhd_ck as ->. by left. }
  simpl. rewrite (closure_of_memo hk this ck Hck).
  destruct (Set_has ck n) eqn:Ehas.
  { apply Set_has_elem_of in Ehas.
    destruct (IHl (seen ++ [n]) hk) as (h' & E & HLI').
    - split_and!; try done. exists ck. split; [done|].
      intros y [Hy| ->%list_elem_of_singleton]%elem_of_app; auto.
    - intros y Hy. apply Hl. by right.
    - exists h'. split; [done|]. by rewrite <- app_assoc in HLI'. }
  apply Set_has_false in Ehas.
  assert (n ≠ this) as Hne by (intros ->; done).
  rewrite (Set_add_fresh ck n Ehas).
  set (hb := set_closure this (ck ++ [n]) hk).
  assert (this < length hk) as Hthis_k by lia.
  assert (∀ x, memo hb x = if decide (x = this) then Some (ck ++ [n]) else memo hk x)
    as Hmemo_b by (intros x; by apply memo_set_closure).
  assert (same_graph g hb) as Hg_b.
  { eapply same_graph_trans; [done|apply same_graph_set_closure]. }
  assert (pending hb = pending hk) as Hpend_b.
  { pose proof (pending_set_closure hk this (ck ++ [n]) Hthis_k) as H.
    rewrite Hck in H. fold hb in H. lia. }
  destruct (IH n hb) as (cn & hc & Ec & Hpost); [|done|lia|].
  { split; [done|]. intros s c. rewrite Hmemo_b.
    destruct (decide (s = this)) as [->|Hs].
    - intros [= <-]. split_and!.
      + apply NoDup_app. split_and!; [done| |apply NoDup_singleton].
        intros y Hy ->%list_elem_of_singleton. done.
      + destruct ck; [done|]. done.
      + intros y [Hy| ->%list_elem_of_singleton]%elem_of_app.
        * destruct (Hmem_ck y Hy) as [Hr [Hst|?]]; [|done]. split; [done|].
          left. rewrite Hmemo_b. by destruct (decide (y = this)).
        * split; [|by right]. eapply eps_reach_step; [done|constructor].
    - intros Hs_c. destruct (Hinv s c Hs_c) as (Hnd & Hhd & Hmem). split_and!; [done..|].
      intros y Hy. destruct (Hmem y Hy) as [Hr [Hst|?]]; [|done]. split; [done|].
      left. rewrite Hmemo_b. by destruct (decide (y = this)). }
  rewrite Ec. simpl.
  destruct Hpost as ((Hg_c & Hinv_c) & Hcn & Hold_c & Hpend_c & Hnew_c).
  assert (memo hc this = Some (ck ++ [n])) as Hck_c.
  { rewrite Hold_c; rewrite Hmemo_b, decide_True by done; done. }
  rewrite (closure_of_memo hc this _ Hck_c).
  set (ck' := Set_addAll (ck ++ [n]) cn).
  set (hd := set_closure this ck' hc).
  pose proof Hg_c as (Hlen_c & _ & _).
  assert (this < length hc) as Hthis_c by lia.
  assert (∀ x, memo hd x = if decide (x = this) then Some ck' else memo hc x)
    as Hmemo_d by (intros x; by apply memo_set_closure).
  assert (∀ y, y ∈ ck' ↔ y ∈ ck ∨ y = n ∨ y ∈ cn) as Hck'.
  { intros y. unfold ck'. rewrite Set_addAll_elem_of, elem_of_app, list_elem_of_singleton.
    tauto. }
  assert (closure_of hd this = ck') as Hcl_d.
  { apply closure_of_memo. by rewrite Hmemo_d, decide_True. }
  destruct (Hinv_c n cn Hcn) as (Hnd_cn & Hhd_cn & Hmem_cn).
  destruct (IHl (seen ++ [n]) hd) as (h' & E & HLI').
  - split_and!.
    + split; [eapply same_graph_trans; [exact Hg_c|apply same_graph_set_closure]|].
      intros s c. rewrite Hmemo_d. destruct (decide (s = this)) as [->|Hs].
      * intros [= <-]. split_and!.
        -- apply Set_addAll_NoDup. apply NoDup_app. split_and!; [done| |apply NoDup_singleton].
           intros y Hy ->%list_elem_of_singleton. done.
        -- apply Set_addAll_head. destruct ck; [done|]. done.
        -- intros y Hy. assert (memo hd y ≠ None) as Hstarted.
           { rewrite Hmemo_d. destruct (decide (y = this)); [done|].
             apply Hck' in Hy as [Hy|[->|Hy]].
             - destruct (Hmem_ck y Hy) as [_ [Hst|?]]; [|done].
               rewrite Hold_c; rewrite Hmemo_b, decide_False by done; done.
             - by rewrite Hcn.
             - destruct (Hmem_cn y Hy) as [_ [Hst|?]]; done. }
           split; [|by left].
           apply Hck' in Hy as [Hy|[->|Hy]].
           ++ by apply Hmem_ck.
           ++ eapply eps_reach_step; [done|constructor].
           ++ eapply eps_reach_step; [done|]. by apply Hmem_cn.
      * intros Hs_c. destruct (Hinv_c s c Hs_c) as (Hnd & Hhd & Hmem).
        split_and!; [done..|].
        intros y Hy. destruct (Hmem y Hy) as [Hr [Hst|?]]; [|done]. split; [done|].
        left. rewrite Hmemo_d. by destruct (decide (y = this)).
    + exists ck'. split; [by rewrite Hmemo_d, decide_True|].
      intros y [Hy| ->%list_elem_of_singleton]%elem_of_app; apply Hck'; auto.
    + intros s Hs Hs_h. rewrite Hmemo_d, decide_False by done.
      rewrite Hold_c; rewrite Hmemo_b, decide_False by done; [by apply Hold|].
      by rewrite Hold.
    + pose proof (pending_set_closure hc this ck' Hthis_c) as H.
      rewrite Hck_c in H. fold hd in H. lia.
    + intros d cd Hd Hd_h. rewrite Hmemo_d, decide_False by done. intros Hd_c.
      rewrite Hcl_d.
      destruct (memo hk d) as [cd0|] eqn:Hd_k.
      * assert (memo hc d = Some cd0) as Hd_c'.
        { rewrite Hold_c; rewrite Hmemo_b, decide_False by done; [done|by rewrite Hd_k]. }
        rewrite Hd_c in Hd_c'. injection Hd_c' as ->.
        destruct (Hnew d cd0 Hd Hd_h Hd_k) as [Hsub Hsucc].
        rewrite (closure_of_memo hk this ck Hck) in Hsub. split; [|done].
        intros y Hy. apply Hck'. left. by apply Hsub.
      * destruct (Hnew_c d cd) as [Hsub Hsucc]; [|done|].
        { by rewrite Hmemo_b, decide_False. }
        split; [|done]. intros y Hy. apply Hck'. right. right. by apply Hsub.
  - intros y Hy. apply Hl. by right.
  - exists h'. split; [done|]. by rewrite <- app_assoc in HLI'.
Qed.

Lemma getEpsilonClosure_post (fuel : nat) : ∀ this h,
  memo_inv g h (Some this) → this < length g → pending h < fuel →
  ∃ c h', getEpsilonClosure fuel this h = Some (c, h') ∧ closure_post g h this c h'.
Proof.
  induction fuel as [|fuel IH]; intros this h Hinv Hthis Hfuel; [lia|].
  rewrite getEpsilonClosure_unfold.
  pose proof Hinv as [Hg Hmemo]. pose proof Hg as (Hlen & _ & Htg).
  assert (this < length h) as Hthis_h by lia.
  destruct (lookup_lt_is_Some_2 h this Hthis_h) as [st Hst]. rewrite Hst. simpl.
  destruct (_epsilonClosure st) as [closure|] eqn:Hc.
  { exists closure, h. split; [done|].
    assert (memo h this = Some closure) as Hm by (unfold memo; by rewrite Hst).
    split_and!; try done.
    - apply (memo_inv_started g h this Hinv). by rewrite Hm.
    - intros d cd Hd Hd'. by rewrite Hd in Hd'. }
  assert (memo h this = None) as Hm by (unfold memo; by rewrite Hst).
  destruct (getTransitionsOnSymbol_memo h this EPSILON Hthis_h)
    as (h1 & -> & Hg1 & Hmemo1 & Hpend1). simpl.
  rewrite (Set_add_fresh [] this) by apply not_elem_of_nil. simpl.
  set (h2 := set_closure this [this] h1).
  pose proof Hg1 as (Hlen1 & _ & _).
  assert (this < length h1) as Hthis_1 by lia.
  assert (∀ x, memo h2 x = if decide (x = this) then Some [this] else memo h x) as Hmemo2.
  { intros x. unfold h2. rewrite memo_set_closure by done.
    destruct (decide (x = this)); [done|apply Hmemo1]. }
  assert (same_graph g h2) as Hg2.
  { eapply same_graph_trans; [done|].
    eapply same_graph_trans; [done|apply same_graph_set_closure]. }
  assert (S (pending h2) = pending h) as Hpend2.
  { pose proof (pending_set_closure h1 this [this] Hthis_1) as H.
    rewrite Hmemo1, Hm in H. fold h2 in H. lia. }
  destruct (closure_loop_ok fuel h this) with (l := targets h this EPSILON) (seen := @nil ref)
    (hk := h2) as (h3 & E3 & HLI); [exact IH|done|lia| | |].
  - split_and!.
    + split; [done|]. intros s c. rewrite Hmemo2. destruct (decide (s = this)) as [->|Hs].
      * intros [= <-]. split_and!; [apply NoDup_singleton|done|].
        intros y ->%list_elem_of_singleton. split; [constructor|].
        left. by rewrite Hmemo2, decide_True.
      * intros Hs_c. destruct (Hmemo s c Hs_c) as (Hnd & Hhd & Hmem).
        split_and!; [done..|]. intros y Hy. destruct (Hmem y Hy) as [Hr Hstarted].
        split; [done|]. left. rewrite Hmemo2.
        destruct (decide (y = this)); [done|]. by destruct Hstarted as [?|[= ->]].
    + exists [this]. split; [by rewrite Hmemo2, decide_True|].
      by intros y Hy%not_elem_of_nil.
    + intros s Hs _. by rewrite Hmemo2, decide_False.
    + lia.
    + intros d cd Hd Hd_h. rewrite Hmemo2, decide_False by done. by rewrite Hd_h.
  - intros y. by rewrite Htg.
  - rewrite E3. simpl.
    destruct HLI as (Hinv3 & (ck & Hck & Hseen) & Hold & Hpend & Hnew).
    rewrite (closure_of_memo h3 this ck Hck).
    exists ck, h3. split; [done|]. split_and!; try done.
    + intros s Hs. apply Hold; [|done]. intros ->. done.
    + lia.
    + intros d cd Hd_h Hd_3. destruct (decide (d = this)) as [->|Hd].
      * rewrite Hck in Hd_3. injection Hd_3 as <-. split; [done|].
        intros y Hy. apply Hseen. simpl. by rewrite Htg.
      * destruct (Hnew d cd Hd Hd_h Hd_3) as [Hsub Hsucc].
        rewrite (closure_of_memo h3 this ck Hck) in Hsub. done.
Qed.
End closure.

Lemma eps_reach_same_graph (g h : heap) (s u : ref) :
  same_graph g h → eps_reach h s u ↔ eps_reach g s u.
Proof.
  intros (_ & _ & Htg). split.
  - induction 1 as [|s t u Ht _ IH]; [constructor|].
    eapply eps_reach_step; [|done]. by rewrite <- Htg.
  - induction 1 as [|s t u Ht _ IH]; [constructor|].
    eapply eps_reach_step; [|done]. by rewrite Htg.
Qed.

(** X6: on a store in which no closure has been memoised yet,
    [getEpsilonClosure] returns (with more fuel than there are states), and
    the set it returns starts with the state itself and holds exactly the
    states reachable from it along [EPSILON] edges, each once, cycles
    included.  The call changes no edge and no accepting flag. *)
Theorem getEpsilonClosure_first_call_exact (h : heap) (this : ref) (fuel : nat) :
  wf_heap h = true → unmemoised h = true → this < length h → length h < fuel →
  ∃ c h',
    getEpsilonClosure fuel this h = Some (c, h') ∧
    NoDup c ∧ head c = Some this ∧
    (∀ y, y ∈ c ↔ eps_reach h this y) ∧
    (∀ x a, targets h' x a = targets h x a) ∧
    (∀ x, is_accepting h' x = is_accepting h x).
Proof.
  intros Hwf Hfresh Hthis Hfuel.
  destruct (getEpsilonClosure_post h Hwf fuel this h) as (c & h' & E & Hpost).
  - split; [apply same_graph_refl|]. intros s c Hs.
    by rewrite unmemoised_memo in Hs.
  - done.
  - pose proof (pending_le_length h). lia.
  - destruct Hpost as ((Hg & Hinv) & Hc & _ & _ & Hnew).
    destruct (Hinv this c Hc) as (Hnd & Hhd & Hmem).
    exists c, h'. pose proof Hg as (_ & Hacc & Htg). split_and!; try done.
    intros y. split; [intros Hy; by apply Hmem|].
    assert (this ∈ c) as Hthis_c.
    { destruct c as [|a c']; [done|]. injection Hhd as ->. by left. }
    assert (∀ s u, eps_reach h s u → s ∈ c → u ∈ c) as Hclosed.
    { intros s u Hr. induction Hr as [|s t u Ht _ IH]; [done|]. intros Hs.
      apply IH. destruct (Hmem s Hs) as [_ [Hst|?]]; [|done].
      destruct (memo h' s) as [cs|] eqn:Hcs; [|done].
      destruct (Hnew s cs) as [Hsub Hsucc]; [by apply unmemoised_memo|done|].
      by apply Hsub, Hsucc. }
    intros Hr. by eapply Hclosed.
Qed.

Lemma getEpsilonClosure_first_call_exact_witness :
  ∃ c h',
    getEpsilonClosure 5 2 star_heap = Some (c, h') ∧
    NoDup c ∧ head c = Some 2 ∧
    (∀ y, y ∈ c ↔ eps_reach star_heap 2 y) ∧
    (∀ x a, targets h' x a = targets star_heap x a) ∧
    (∀ x, is_accepting h' x = is_accepting star_heap x).
Proof.
  apply (getEpsilonClosure_first_call_exact star_heap 2 5);
    [reflexivity|reflexivity|simpl; lia|simpl; lia].
Defined.

(** ** Memoised closures are never recomputed *)

Lemma foldl_option_keeps {A B} (P : A → Prop) (f : option A → B → option A)
    (l : list B) (a a' : A) :
  (∀ x, f None x = None) →
  (∀ a x a', P a → f (Some a) x = Some a' → P a') →
  P a → foldl f (Some a) l = Some a' → P a'.
Proof.
  intros HN Hf. revert a. induction l as [|x l IH]; intros a Ha; simpl.
  - by intros [= <-].
  - destruct (f (Some a) x) as [a1|] eqn:E.
    + apply IH. by eapply Hf.
    + by rewrite foldl_option_None'.
Qed.

Lemma memo_set_closure_started (h : heap) (s : ref) (c : list ref) (x : ref) :
  memo h x ≠ None → memo (set_closure s c h) x ≠ None.
Proof.
  intros Hx. unfold set_closure. destruct (h !! s) as [st|] eqn:Hst; [|done].
  unfold memo in *. destruct (decide (x = s)) as [->|Hne].
  - by rewrite list_lookup_insert_eq by (by eapply lookup_lt_Some).
  - by rewrite list_lookup_insert_ne.
Qed.

Lemma getEpsilonClosure_keeps_memos (fuel : nat) : ∀ this h c h',
  getEpsilonClosure fuel this h = Some (c, h') →
  memo h' this = Some c ∧ ∀ x, memo h x ≠ None → memo h' x ≠ None.
Proof.
  induction fuel as [|fuel IH]; intros this h c h'; [done|].
  rewrite getEpsilonClosure_unfold.
  destruct (h !! this) as [st|] eqn:Hst; simpl; [|done].
  destruct (_epsilonClosure st) as [closure|] eqn:Hc.
  { intros [= <- <-]. split; [|done]. unfold memo. by rewrite Hst. }
  assert (this < length h) as Hthis by (by eapply lookup_lt_Some).
  destruct (getTransitionsOnSymbol_memo h this EPSILON Hthis)
    as (h1 & -> & Hg1 & Hmemo1 & _). simpl.
  pose proof Hg1 as (Hlen1 & _ & _).
  set (h2 := set_closure this (Set_add [] this) h1).
  destruct (foldl _ (Some h2) _) as [h3|] eqn:E3; simpl; [|done].
  intros [= <- <-].
  assert (memo h3 this ≠ None ∧ ∀ x, memo h x ≠ None → memo h3 x ≠ None) as [H3 Hkeep].
  { revert E3. apply (foldl_option_keeps
      (λ h3, memo h3 this ≠ None ∧ ∀ x, memo h x ≠ None → memo h3 x ≠ None)).
    - done.
    - intros ha n hb [Ha Hka]. simpl.
      destruct (Set_has (closure_of ha this) n); [by intros [= <-]|].
      destruct (getEpsilonClosure fuel n _) as [[cn hc]|] eqn:Ec; simpl; [|done].
      intros [= <-]. destruct (IH _ _ _ _ Ec) as [_ Hkc]. split.
      + apply memo_set_closure_started, Hkc, memo_set_closure_started, Ha.
      + intros x Hx. apply memo_set_closure_started, Hkc, memo_set_closure_started, Hka, Hx.
    - split.
      + unfold h2. rewrite memo_set_closure by lia. by rewrite decide_True.
      + intros x Hx. apply memo_set_closure_started. by rewrite Hmemo1. }
  split; [|done]. unfold closure_of. fold (memo h3 this).
  by destruct (memo h3 this).
Qed.

Lemma addTransition_memo (h h' : heap) (s : ref) (c : symbol) (t : ref) :
  addTransition s c t h = Some h' → ∀ x, memo h' x = memo h x.
Proof.
  unfold addTransition, getTransitionsOnSymbol.
  destruct (h !! s) as [st|] eqn:Hst; simpl; [|done].
  assert (s < length h) as Hs by (by eapply lookup_lt_Some).
  destruct (Map_get (_transitions st) c); simpl.
  - rewrite Hst. simpl. intros [= <-] x. unfold memo.
    destruct (decide (x = s)) as [->|Hne].
    + rewrite list_lookup_insert_eq by done. by rewrite Hst.
    + by rewrite list_lookup_insert_ne.
  - rewrite list_lookup_insert_eq by done. simpl. intros [= <-] x. unfold memo.
    destruct (decide (x = s)) as [->|Hne].
    + rewrite list_lookup_insert_eq by (by rewrite length_insert). by rewrite Hst.
    + by rewrite !list_lookup_insert_ne.
Qed.

(** X7: a closure is computed once.  After a call on [this] has
    returned a set, every later call returns that same set and leaves the
    store alone, even when transitions have been added in between: the
    memoised set is never invalidated. *)
Theorem getEpsilonClosure_memo_is_kept (h h' h'' : heap) (this : ref) (c : list ref)
    (fuel fuel' : nat) (from : ref) (symbol : symbol) (toState : ref) :
  getEpsilonClosure fuel this h = Some (c, h') →
  addTransition from symbol toState h' = Some h'' →
  getEpsilonClosure (S fuel') this h' = Some (c, h') ∧
  getEpsilonClosure (S fuel') this h'' = Some (c, h'').
Proof.
  intros E Eadd. destruct (getEpsilonClosure_keeps_memos _ _ _ _ _ E) as [Hc _].
  assert (∀ h0, memo h0 this = Some c → getEpsilonClosure (S fuel') this h0 = Some (c, h0))
    as Hret.
  { intros h0 Hm. rewrite getEpsilonClosure_unfold. unfold memo in Hm.
    destruct (h0 !! this) as [st|]; simpl in *; [|done]. by rewrite Hm. }
  split; apply Hret; [done|]. by rewrite (addTransition_memo _ _ _ _ _ Eadd).
Qed.

Lemma getEpsilonClosure_memo_is_kept_witness :
  getEpsilonClosure 1 2 star_heap_closed = Some ([2; 0; 3], star_heap_closed) ∧
  getEpsilonClosure 1 2 star_heap_extended = Some ([2; 0; 3], star_heap_extended).
Proof.
  apply (getEpsilonClosure_memo_is_kept star_heap star_heap_closed star_heap_extended
           2 [2; 0; 3] 5 0 0 "b" 3); reflexivity.
Defined.

(** ** [char] and [e] on arbitrary inputs *)

Lemma char_edges (c : symbol) (σ : store) :
  wf_heap (states σ) = true →
  ∃ σ', char c σ = Some (length (nfas σ), σ') ∧
        nfas σ' !! length (nfas σ)
        = Some (mkNFA (length (states σ)) (S (length (states σ))) None None None None) ∧
        length (states σ') = S (S (length (states σ))) ∧
        wf_heap (states σ') = true ∧
        (∀ x c' y, y ∈ targets (states σ') x c'
                   ↔ y ∈ targets (states σ) x c'
                     ∨ (x = length (states σ) ∧ c' = c ∧ y = S (length (states σ)))) ∧
        (∀ x, is_accepting (states σ') x
              = if decide (x = S (length (states σ))) then true
                else is_accepting (states σ) x).
Proof.
  intros Hwf. unfold char.
  destruct (new_NFAState_spec false σ) as (σ1 & -> & Hn1 & Hl1 & Hf1 & HT1 & HA1 & Hwf1).
  destruct (new_NFAState_spec true σ1) as (σ2 & -> & Hn2 & Hl2 & Hf2 & HT2 & HA2 & Hwf2).
  rewrite Hl1.
  destruct (upd_addTransition_spec σ2 (length (states σ)) c (S (length (states σ))))
    as (σ3 & -> & Hn3 & Hl3 & Hf3 & HT3 & HA3 & Hwf3); [lia|].
  simpl. unfold new_NFA. rewrite Hn3, Hn2, Hn1. eexists. split; [reflexivity|]. simpl.
  split_and!.
  - rewrite lookup_app_r by lia. by rewrite Nat.sub_diag.
  - lia.
  - apply Hwf3; [auto|]. lia.
  - intros x c' y. rewrite HT3, HT2, HT1. done.
  - intros x. rewrite HA3, HA2, HA1, Hl1.
    destruct (decide (x = S (length (states σ)))) as [->|?]; [done|].
    destruct (decide (x = length (states σ))) as [->|?]; [|done].
    rewrite is_accepting_ge by lia. done.
Qed.

(** X8: [char(c)] accepts the one-symbol input [c] and nothing else,
    whatever else the store holds.  For [c = EPSILON], the fragment [e()],
    it accepts the empty input and also the one-character input made of
    the character [EPSILON] itself: an epsilon edge is followed both without
    reading and on reading that character. *)
Theorem char_accepts (c : symbol) (σ : store) (w : list symbol) (fuel : nat) :
  wf_heap (states σ) = true →
  length w * (length (states σ) + 3) + length (states σ) + 3 ≤ fuel →
  ∃ f σ' b σ'',
    char c σ = Some (f, σ') ∧ NFA_matches fuel f w σ' = Some (b, σ'') ∧
    (b = true ↔ w = [c] ∨ (c = EPSILON ∧ w = [])).
Proof.
  intros Hwf Hfuel.
  destruct (char_edges c σ Hwf) as (σ' & E & Hn & Hlen & Hwf' & HT & HA).
  set (i := length (states σ)) in *. set (o := S i) in *.
  destruct (NFA_matches_decides σ' (length (nfas σ)) _ w fuel Hwf' Hn) as (b & σ'' & Hm & Hb).
  { simpl. lia. }
  { unfold matches_fuel. rewrite Hlen. fold i. lia. }
  exists (length (nfas σ)), σ', b, σ''. split_and!; [done|done|].
  rewrite Hb. simpl.
  assert (∀ x a y, i ≤ x → y ∈ targets (states σ) x a → False) as Hnew.
  { intros x a y Hx. rewrite targets_ge by done. apply not_elem_of_nil. }
  assert (∀ w', accepts (states σ') o w' → w' = []) as Hexit.
  { intros w' Hacc. inversion Hacc as [s Ha|s t w0 Ht _|s t a w0 Ht _]; subst; [done| |].
    - exfalso. apply HT in Ht as [Ht|(E' & _)]; [|unfold o in E'; lia].
      eapply Hnew; [|done]. unfold o. lia.
    - exfalso. apply HT in Ht as [Ht|(E' & _)]; [|unfold o in E'; lia].
      eapply Hnew; [|done]. unfold o. lia. }
  split.
  - intros Hacc. inversion Hacc as [s Ha|s t w0 Ht Hacc'|s t a w0 Ht Hacc']; subst.
    + rewrite HA in Ha. rewrite decide_False in Ha by (unfold o; lia).
      rewrite is_accepting_ge in Ha by done. done.
    + apply HT in Ht as [Ht|(_ & <- & ->)]; [exfalso; by eapply Hnew|].
      apply Hexit in Hacc' as ->. by right.
    + apply HT in Ht as [Ht|(_ & -> & ->)]; [exfalso; by eapply Hnew|].
      apply Hexit in Hacc' as ->. by left.
  - assert (accepts (states σ') o []) as Ho.
    { constructor. rewrite HA. by rewrite decide_True. }
    intros [->|[-> ->]].
    + apply (accepts_symbol _ _ o); [|done]. apply HT. right. by split_and!.
    + apply (accepts_epsilon _ _ o); [|done]. apply HT. right. by split_and!.
Qed.

Lemma char_accepts_witness :
  ∃ f σ' b σ'',
    char EPSILON empty_store = Some (f, σ') ∧
    NFA_matches 6 f [EPSILON] σ' = Some (b, σ'') ∧
    (b = true ↔ [EPSILON] = [EPSILON] ∨ (EPSILON = EPSILON ∧ [EPSILON] = [])).
Proof. apply (char_accepts EPSILON empty_store [EPSILON] 6); [reflexivity|simpl; lia]. Defined.

(** ** The getters of a fragment whose table is memoised *)

Lemma set_nfa_lookup (σ : store) (nfa : ref) (n n' : NFA) :
  nfas σ !! nfa = Some n → nfas (set_nfa nfa n' σ) !! nfa = Some n'.
Proof.
  intros Hn. unfold set_nfa. simpl. apply list_lookup_insert_eq. by eapply lookup_lt_Some.
Qed.

Lemma NFA_getAlphabet_memoised (fuel : nat) (nfa : ref) (σ σ' : store) (al : list symbol) :
  table_memo σ nfa ≠ None →
  NFA_getAlphabet fuel nfa σ = Some (al, σ') →
  table_memo σ' nfa ≠ None ∧ alpha_memo σ' nfa = Some al ∧
  acc_memo σ' nfa = acc_memo σ nfa ∧
  (∀ al0, alpha_memo σ nfa = Some al0 → al = al0 ∧ σ' = σ).
Proof.
  unfold table_memo, alpha_memo, acc_memo, NFA_getAlphabet, NFA_getTransitionTable.
  destruct (nfas σ !! nfa) as [n|] eqn:Hn; simpl; [|done].
  intros Ht. destruct (_alphabet n) as [a|] eqn:Ha.
  { intros [= <- <-]. rewrite Hn. simpl. split_and!; try done. by intros al0 [= <-]. }
  destruct (_transitionTable n) as [t|] eqn:Et; [|done]. simpl. rewrite Hn. simpl.
  intros [= <- <-]. rewrite (set_nfa_lookup _ _ _ _ Hn). simpl. split_and!; try done.
  by rewrite Et.
Qed.

Lemma NFA_getAcceptingStateNumbers_memoised (fuel : nat) (nfa : ref) (σ σ' : store)
    (a : list nat) :
  table_memo σ nfa ≠ None →
  NFA_getAcceptingStateNumbers fuel nfa σ = Some (a, σ') →
  table_memo σ' nfa ≠ None ∧ acc_memo σ' nfa = Some a ∧
  alpha_memo σ' nfa = alpha_memo σ nfa ∧
  (∀ a0, acc_memo σ nfa = Some a0 → a = a0 ∧ σ' = σ).
Proof.
  unfold table_memo, alpha_memo, acc_memo, NFA_getAcceptingStateNumbers,
    NFA_getAcceptingStates, NFA_getTransitionTable.
  destruct (nfas σ !! nfa) as [n|] eqn:Hn; simpl; [|done].
  intros Ht. destruct (_acceptingStateNumbers n) as [a0|] eqn:Ha.
  { intros [= <- <-]. rewrite Hn. simpl. split_and!; try done. by intros a1 [= <-]. }
  destruct (_transitionTable n) as [t|] eqn:Et; [|done].
  destruct (_acceptingStates n) as [accs|] eqn:Eaccs; simpl.
  - destruct (mapM _ accs) as [ns|]; simpl; [|done]. rewrite Hn. simpl.
    intros [= <- <-]. rewrite (set_nfa_lookup _ _ _ _ Hn). simpl. split_and!; try done.
    by rewrite Et.
  - rewrite Hn. simpl. by rewrite Eaccs.
Qed.

(** ** The worklist loop *)

#[global] Arguments join : simpl never.

Lemma Object_has_set {V} (o : list (string * V)) (k k' : string) (v : V) :
  Object_has o k' = true → Object_has (Object_set o k v) k' = true.
Proof.
  unfold Object_has. rewrite Object_get_set. by destruct (String.eqb k' k).
Qed.

Lemma Object_has_set_eq {V} (o : list (string * V)) (k : string) (v : V) :
  Object_has (Object_set o k v) k = true.
Proof. unfold Object_has. by rewrite Object_get_set, String.eqb_refl. Qed.

Lemma SSet_has_elem_of (s : list string) (x : string) : SSet_has s x = true ↔ x ∈ s.
Proof.
  unfold SSet_has. rewrite existsb_exists. split.
  - intros (y & Hy & E). apply String.eqb_eq in E. subst. by apply list_elem_of_In.
  - intros H. exists x. split; [by apply list_elem_of_In|apply String.eqb_refl].
Qed.

Lemma SSet_add_elem_of (s : list string) (x y : string) : y ∈ SSet_add s x ↔ y ∈ s ∨ y = x.
Proof.
  unfold SSet_add. destruct (SSet_has s x) eqn:E.
  - apply SSet_has_elem_of in E. split; [auto|]. by intros [?| ->].
  - rewrite elem_of_app, list_elem_of_singleton. done.
Qed.

Lemma subset_symbol_inv (fuel : nat) (nfa : ref) (start : string) nfaTable
    (cur : list nat) (c : symbol) (s s' : subset_state) (σ σ' : store)
    (al : list symbol) :
  subset_inv nfa start s σ →
  alpha_memo σ nfa = Some al → c ∈ al →
  subset_symbol fuel nfa nfaTable cur (join cur) c s σ = Some (s', σ') →
  subset_inv nfa start s' σ' ∧ alpha_memo σ' nfa = Some al.
Proof.
  intros (Hbuilt & Hstart & Hclosed & Hacc & Hsym) Hal Hin. unfold subset_symbol.
  destruct (onSymbol_of nfaTable cur c) as [onSymbol|]; simpl; [|done].
  destruct (Set_from onSymbol) as [|x ids] eqn:Eids.
  { intros [= <- <-]. by split. }
  destruct (NFA_getAcceptingStateNumbers fuel nfa σ) as [[a σ1]|] eqn:Ea; simpl; [|done].
  destruct (NFA_getAcceptingStateNumbers_memoised _ _ _ _ _ Hbuilt Ea)
    as (Hbuilt1 & Hacc1 & Halpha1 & Hsame).
  destruct (Object_get (dfaTable s) (join cur)) as [row|] eqn:Erow; simpl; [|done].
  intros [= <- <-].
  set (target := join (x :: ids)).
  set (t' := Object_set (dfaTable s) (join cur) (Object_set row c target)).
  assert (∀ k, Object_has (dfaTable s) k = true → Object_has t' k = true) as Hmono.
  { intros k. apply Object_has_set. }
  assert (∀ label' row' sym tg, (label', row') ∈ t' → (sym, tg) ∈ row' →
            (sym, tg) = (c, target) ∨
            ∃ label0 row0, (label0, row0) ∈ dfaTable s ∧ (sym, tg) ∈ row0) as Hcells.
  { intros label' row' sym tg [[= -> ->]|Hin']%Object_set_elem_of Hcell.
    - apply Object_set_elem_of in Hcell as [?|?]; [by left|].
      right. exists (join cur), row. split; [by apply Object_get_elem_of|done].
    - right. eauto. }
  rewrite Halpha1. split; [|done]. unfold subset_inv.
  cbn [worklist dfaTable acceptingLabels]. fold t'. split_and!.
  - done.
  - destruct Hstart as [?|(ids' & Hids' & E)]; [left; by apply Hmono|].
    right. exists ids'. split; [|done]. destruct (Object_has t' target); [done|by right].
  - intros label' row' sym tg Hrow Hcell.
    destruct (Hcells _ _ _ _ Hrow Hcell) as [[= -> ->]|(label0 & row0 & Hrow0 & Hcell0)].
    + destruct (Object_has t' target) eqn:Ehas; [by left|].
      right. exists (x :: ids). split; [by left|done].
    + destruct (Hclosed _ _ _ _ Hrow0 Hcell0) as [?|(ids' & Hids' & E)];
        [left; by apply Hmono|].
      right. exists ids'. split; [|done]. destruct (Object_has t' target); [done|by right].
  - rewrite Hacc1.
    assert (∀ l, l ∈ acceptingLabels s → ∃ ids0, l = join ids0 ∧ hits a ids0 = true) as HaccI.
    { intros l Hl. destruct (acc_memo σ nfa) as [a0|] eqn:Ememo.
      - destruct (Hsame a0 eq_refl) as [<- _]. by apply Hacc.
      - destruct Hacc as [Hnil _]. rewrite Hnil in Hl. by apply not_elem_of_nil in Hl. }
    fold (hits a (x :: ids)). split.
    + intros l. destruct (hits a (x :: ids)) eqn:Ehits; [|by apply HaccI].
      intros [Hl| ->]%SSet_add_elem_of; [by apply HaccI|]. by exists (x :: ids).
    + intros label' row' sym tg Hrow Hcell.
      destruct (Hcells _ _ _ _ Hrow Hcell) as [[= -> ->]|(label0 & row0 & Hrow0 & Hcell0)].
      * exists (x :: ids). split_and!; [done|done|]. intros ->.
        apply SSet_add_elem_of. by right.
      * destruct (acc_memo σ nfa) as [a0|] eqn:Ememo.
        -- destruct (Hsame a0 eq_refl) as [<- _]. destruct Hacc as [_ HcellI].
           destruct (HcellI _ _ _ _ Hrow0 Hcell0) as (ids0 & -> & Hne & Himp).
           exists ids0. split_and!; [done|done|]. intros Hh.
           destruct (hits a (x :: ids)); [|by apply Himp].
           apply SSet_add_elem_of. left. by apply Himp.
        -- destruct Hacc as [_ Hempty]. rewrite (Hempty _ _ Hrow0) in Hcell0.
           by apply not_elem_of_nil in Hcell0.
  - rewrite Halpha1, Hal. rewrite Hal in Hsym.
    intros label' row' sym tg Hrow Hcell.
    destruct (Hcells _ _ _ _ Hrow Hcell) as [[= -> ->]|(label0 & row0 & Hrow0 & Hcell0)];
      [done|by eapply Hsym].
Qed.

Lemma subset_step_inv (fuel : nat) (nfa : ref) (start : string) nfaTable
    (cur : list nat) (rest : list (list nat)) (t : list (string * list (string * string)))
    (acc : list string) (s' : subset_state) (σ σ' : store) :
  subset_inv nfa start (mkSubset (cur :: rest) t acc) σ →
  subset_step fuel nfa nfaTable cur (mkSubset rest t acc) σ = Some (s', σ') →
  subset_inv nfa start s' σ' ∧ alpha_memo σ' nfa ≠ None.
Proof.
  intros (Hbuilt & Hstart & Hclosed & Hacc & Hsym). unfold subset_step.
  destruct (NFA_getAlphabet fuel nfa σ) as [[al σ0]|] eqn:Eal; simpl; [|done].
  destruct (NFA_getAlphabet_memoised _ _ _ _ _ Hbuilt Eal)
    as (Hbuilt0 & Hal0 & Hacc0 & Hsame).
  set (t0 := Object_set t (join cur) []).
  assert (∀ k, Object_has t k = true → Object_has t0 k = true) as Hmono.
  { intros k. apply Object_has_set. }
  assert (∀ label row, (label, row) ∈ t0 → row = [] ∨ (label, row) ∈ t) as Hrows.
  { intros label row [[= -> ->]|?]%Object_set_elem_of; auto. }
  assert (subset_inv nfa start (mkSubset rest t0 acc) σ0) as H0.
  { unfold subset_inv. simpl in *. split_and!.
    - done.
    - destruct Hstart as [?|(ids & [->|Hids]%elem_of_cons & E)].
      + left. by apply Hmono.
      + left. rewrite <- E. apply Object_has_set_eq.
      + right. eauto.
    - intros label row sym tg [->|Hrow]%Hrows Hcell; [by apply not_elem_of_nil in Hcell|].
      destruct (Hclosed _ _ _ _ Hrow Hcell) as [?|(ids & [->|Hids]%elem_of_cons & E)].
      + left. by apply Hmono.
      + left. rewrite <- E. apply Object_has_set_eq.
      + right. eauto.
    - rewrite Hacc0. destruct (acc_memo σ nfa) as [a|].
      + destruct Hacc as [HaccI HcellI]. split; [done|].
        intros label row sym tg [->|Hrow]%Hrows Hcell; [by apply not_elem_of_nil in Hcell|].
        by eapply HcellI.
      + destruct Hacc as [Hnil Hempty]. split; [done|].
        intros label row [->|Hrow]%Hrows; [done|by eapply Hempty].
    - rewrite Hal0. intros label row sym tg [->|Hrow]%Hrows Hcell;
        [by apply not_elem_of_nil in Hcell|].
      destruct (alpha_memo σ nfa) as [al0|] eqn:Ememo.
      + destruct (Hsame al0 eq_refl) as [-> _]. by eapply Hsym.
      + rewrite (Hsym _ _ Hrow) in Hcell. by apply not_elem_of_nil in Hcell. }
  fold t0. clearbody t0.
  assert (∀ l (s0 : subset_state) σ1,
            (∀ x, x ∈ l → x ∈ al) →
            subset_inv nfa start s0 σ1 → alpha_memo σ1 nfa = Some al →
            foldl (λ acc0 symbol,
                     '(s, σ) ← acc0;
                     subset_symbol fuel nfa nfaTable cur (join cur) symbol s σ)
                  (Some (s0, σ1)) l = Some (s', σ') →
            subset_inv nfa start s' σ' ∧ alpha_memo σ' nfa ≠ None) as Hfold.
  { induction l as [|symbol l IH]; intros s0 σ1 Hl Hinv Hal1; simpl.
    - intros [= <- <-]. split; [done|]. by rewrite Hal1.
    - destruct (subset_symbol fuel nfa nfaTable cur (join cur) symbol s0 σ1)
        as [[s1 σ2]|] eqn:E1; simpl.
      + assert (symbol ∈ al) as Hsymbol by (apply Hl; by left).
        destruct (subset_symbol_inv _ _ _ _ _ _ _ _ _ _ al Hinv Hal1 Hsymbol E1)
          as [Hinv1 Hal2].
        apply IH; [|done|done]. intros y Hy. apply Hl. by right.
      + rewrite foldl_option_None'; [done|]. done. }
  apply Hfold; [done|done|done].
Qed.

Lemma subset_while_inv (nfa : ref) (start : string) nfaTable (rounds fuel : nat) :
  ∀ (s s' : subset_state) (σ σ' : store),
    subset_inv nfa start s σ →
    (worklist s = [] → alpha_memo σ nfa ≠ None) →
    subset_while rounds fuel nfa nfaTable s σ = Some (s', σ') →
    subset_inv nfa start s' σ' ∧ worklist s' = [] ∧ alpha_memo σ' nfa ≠ None.
Proof.
  induction rounds as [|rounds IH]; intros s s' σ σ' Hinv Hal; simpl.
  - destruct (worklist s) eqn:Ewl; [|done]. intros [= <- <-]. split_and!; auto.
  - destruct (worklist s) as [|cur rest] eqn:Ewl.
    { intros [= <- <-]. split_and!; auto. }
    destruct (subset_step fuel nfa nfaTable cur
                (mkSubset rest (dfaTable s) (acceptingLabels s)) σ) as [[s1 σ1]|] eqn:E1;
      simpl; [|done].
    destruct (subset_step_inv fuel nfa start nfaTable cur rest (dfaTable s)
                (acceptingLabels s) s1 σ σ1) as [Hinv1 Hal1]; [|done|].
    { destruct s as [wl t acc]. simpl in *. by subst. }
    apply IH; [done|done].
Qed.

(** ** The finished DFA table *)

Lemma NFA_getTransitionTable_memo (fuel : nat) (nfa : ref) (σ σ' : store)
    (t : list (nat * list (string * list nat))) :
  NFA_getTransitionTable fuel nfa σ = Some (t, σ') → table_memo σ' nfa = Some t.
Proof.
  unfold NFA_getTransitionTable, table_memo.
  destruct (nfas σ !! nfa) as [n|] eqn:Hn; simpl; [|done].
  destruct (_transitionTable n) as [t0|] eqn:Et.
  - intros [= <- <-]. by rewrite Hn.
  - destruct (visitState _ _ _) as [β|]; simpl; [|done].
    destruct (append_closures _ _ _ _) as [[h t1]|]; simpl; [|done].
    intros [= <- <-]. unfold set_nfa. simpl.
    rewrite list_lookup_insert_eq by (by eapply lookup_lt_Some). done.
Qed.

Lemma join_nonempty (ids : list nat) : ids ≠ [] → join ids ≠ "".
Proof.
  destruct ids as [|x ids]; [done|]. intros _. rewrite join_cons.
  pose proof (Number_toString_nonempty x) as Hx.
  destruct (Number_toString x) as [|a s]; [done|].
  destruct ids; [done|]. by rewrite append_cons.
Qed.

Lemma hits_spec (a ids : list nat) : hits a ids = true ↔ ∃ k, k ∈ ids ∧ k ∈ a.
Proof.
  unfold hits. rewrite existsb_exists. split.
  - intros (k & Hk & Hin). exists k. split; [by apply Set_has_elem_of|by apply list_elem_of_In].
  - intros (k & Hk & Hin). exists k. split; [by apply list_elem_of_In|by apply Set_has_elem_of].
Qed.

(** What [DFA.getTransitionTable] establishes on a new [DFA] object. *)
Lemma DFA_getTransitionTable_inv (fuel : nat) (nfa : ref) (σ σ' : store)
    (t : list (string * list (string * string))) (d : DFA) :
  DFA_getTransitionTable fuel (new_DFA nfa) σ = Some (t, d, σ') →
  ∃ start acc,
    d = mkDFA nfa (Some t) (Some start) (Some acc) ∧
    subset_inv nfa start (mkSubset [] t acc) σ' ∧ alpha_memo σ' nfa ≠ None.
Proof.
  unfold DFA_getTransitionTable. simpl.
  destruct (NFA_getTransitionTable fuel nfa σ) as [[nfaTable σ1]|] eqn:En; simpl; [|done].
  apply NFA_getTransitionTable_memo in En.
  destruct (head (iobj_keys nfaTable)) as [first|]; simpl; [|done].
  destruct (iobj_get nfaTable first) as [row|]; simpl; [|done].
  destruct (Object_get row EPSILON_CLOSURE) as [startState|]; simpl; [|done].
  destruct (subset_while fuel fuel nfa nfaTable (mkSubset [startState] [] []) σ1)
    as [[s σ2]|] eqn:Es; simpl; [|done].
  intros [= <- <- <-].
  destruct (subset_while_inv nfa (join startState) nfaTable fuel fuel
              (mkSubset [startState] [] []) s σ1 σ2) as (Hinv & Hwl & Hal); [| |exact Es|].
  - unfold subset_inv. simpl. split_and!.
    + by rewrite En.
    + right. exists startState. split; [by left|done].
    + by intros label row' sym tg Hrow%not_elem_of_nil.
    + destruct (acc_memo σ1 nfa).
      * split; [by intros lbl Hlbl%not_elem_of_nil|].
        by intros label row' sym tg Hrow%not_elem_of_nil.
      * split; [done|]. by intros label row' Hrow%not_elem_of_nil.
    + destruct (alpha_memo σ1 nfa).
      * by intros label row' sym tg Hrow%not_elem_of_nil.
      * by intros label row' Hrow%not_elem_of_nil.
  - done.
  - exists (join startState), (acceptingLabels s). split_and!; [done| |done].
    destruct s as [wl t acc]. simpl in *. by subst.
Qed.

Lemma subset_inv_cells (nfa : ref) (start : string)
    (t : list (string * list (string * string))) (acc : list string) (σ : store) :
  subset_inv nfa start (mkSubset [] t acc) σ →
  Object_has t start = true ∧
  ∀ label row sym target, Object_get t label = Some row → Object_get row sym = Some target →
    Object_has t target = true ∧
    ∃ ids a, target = join ids ∧ ids ≠ [] ∧ acc_memo σ nfa = Some a ∧
             (hits a ids = true → target ∈ acc).
Proof.
  intros (Hbuilt & Hstart & Hclosed & Hacc & Hsym). simpl in *. split.
  - destruct Hstart as [?|(ids & Hids%not_elem_of_nil & _)]; done.
  - intros label row sym target Hrow%Object_get_elem_of Hcell%Object_get_elem_of. split.
    + destruct (Hclosed _ _ _ _ Hrow Hcell) as [?|(ids & Hids%not_elem_of_nil & _)]; done.
    + destruct (acc_memo σ nfa) as [a|].
      * destruct Hacc as [_ HcellI].
        destruct (HcellI _ _ _ _ Hrow Hcell) as (ids & -> & Hne & Himp). eauto 10.
      * destruct Hacc as [_ Hempty]. rewrite (Hempty _ _ Hrow) in Hcell.
        by apply not_elem_of_nil in Hcell.
Qed.

(** X9: the finished DFA table is closed.  The start label has a row,
    and every transition target stored in a row is a non-empty label that
    has a row of its own. *)
Theorem DFA_table_is_closed (fuel : nat) (nfa : ref) (σ σ' : store)
    (t : list (string * list (string * string))) (d : DFA) :
  DFA_getTransitionTable fuel (new_DFA nfa) σ = Some (t, d, σ') →
  dfa_transitionTable d = Some t ∧
  (∃ start, dfa_startingStateNumber d = Some start ∧ Object_has t start = true) ∧
  ∀ label row sym target,
    Object_get t label = Some row → Object_get row sym = Some target →
    Object_has t target = true ∧ target ≠ "".
Proof.
  intros (start & acc & -> & Hinv & _)%DFA_getTransitionTable_inv.
  destruct (subset_inv_cells _ _ _ _ _ Hinv) as [Hstart Hcells]. simpl. split_and!.
  - done.
  - by exists start.
  - intros label row sym target Hrow Hcell.
    destruct (Hcells _ _ _ _ Hrow Hcell) as (Hhas & ids & a & -> & Hne & _). split; [done|].
    by apply join_nonempty.
Qed.

Lemma DFA_table_is_closed_witness :
  dfa_transitionTable star_dfa = Some star_dfa_table ∧
  (∃ start, dfa_startingStateNumber star_dfa = Some start ∧
            Object_has star_dfa_table start = true) ∧
  ∀ label row sym target,
    Object_get star_dfa_table label = Some row → Object_get row sym = Some target →
    Object_has star_dfa_table target = true ∧ target ≠ "".
Proof.
  apply (DFA_table_is_closed 10 1 star_store star_store_built star_dfa_table star_dfa).
  vm_compute. reflexivity.
Defined.

Lemma NFA_getAcceptingStateNumbers_hit (fuel : nat) (nfa : ref) (σ : store) (a : list nat) :
  acc_memo σ nfa = Some a → NFA_getAcceptingStateNumbers fuel nfa σ = Some (a, σ).
Proof.
  unfold acc_memo, NFA_getAcceptingStateNumbers.
  destruct (nfas σ !! nfa) as [n|]; simpl; [|done]. by intros ->.
Qed.

(** X10: the accepting set of the DFA is exact on transition targets.  A
    label is put into the accepting set only if its id list holds an
    accepting NFA id, and a label that occurs as a transition target is in
    the accepting set if and only if its id list holds one. *)
Theorem DFA_accepting_exact_on_targets (fuel fuel' : nat) (nfa : ref) (σ σ' : store)
    (t : list (string * list (string * string))) (d : DFA) :
  DFA_getTransitionTable fuel (new_DFA nfa) σ = Some (t, d, σ') →
  ∃ acc,
    dfa_acceptingStateNumbers d = Some acc ∧
    (∀ l, l ∈ acc →
       ∃ ids a, l = join ids ∧
                NFA_getAcceptingStateNumbers fuel' nfa σ' = Some (a, σ') ∧
                ∃ k, k ∈ ids ∧ k ∈ a) ∧
    (∀ label row sym ids,
       Object_get t label = Some row → Object_get row sym = Some (join ids) →
       ∃ a, NFA_getAcceptingStateNumbers fuel' nfa σ' = Some (a, σ') ∧
            (join ids ∈ acc ↔ ∃ k, k ∈ ids ∧ k ∈ a)).
Proof.
  intros (start & acc & -> & Hinv & _)%DFA_getTransitionTable_inv.
  exists acc. simpl. split; [done|].
  destruct (subset_inv_cells _ _ _ _ _ Hinv) as [_ Hcells].
  destruct Hinv as (_ & _ & _ & Hacc & _). simpl in *.
  assert (∀ l a, acc_memo σ' nfa = Some a → l ∈ acc →
            ∃ ids, l = join ids ∧ hits a ids = true) as HaccI.
  { intros l a Ha. rewrite Ha in Hacc. by apply Hacc. }
  split.
  - intros l Hl. destruct (acc_memo σ' nfa) as [a|] eqn:Ha.
    + destruct (HaccI l a eq_refl Hl) as (ids & -> & Hh).
      exists ids, a. split_and!; [done|by apply NFA_getAcceptingStateNumbers_hit|].
      by apply hits_spec.
    + destruct Hacc as [Hnil _]. rewrite Hnil in Hl. by apply not_elem_of_nil in Hl.
  - intros label row sym ids Hrow Hcell.
    destruct (Hcells _ _ _ _ Hrow Hcell) as (_ & ids' & a & E & _ & Ha & Himp).
    apply join_inj in E. subst ids'.
    exists a. split; [by apply NFA_getAcceptingStateNumbers_hit|]. rewrite <- hits_spec. split.
    + intros Hl. destruct (HaccI _ a Ha Hl) as (ids' & E & Hh).
      apply join_inj in E. by subst.
    + done.
Qed.

Lemma DFA_accepting_exact_on_targets_witness :
  ∃ acc,
    dfa_acceptingStateNumbers star_dfa = Some acc ∧
    (∀ l, l ∈ acc →
       ∃ ids a, l = join ids ∧
                NFA_getAcceptingStateNumbers 1 1 star_store_built = Some (a, star_store_built) ∧
                ∃ k, k ∈ ids ∧ k ∈ a) ∧
    (∀ label row sym ids,
       Object_get star_dfa_table label = Some row → Object_get row sym = Some (join ids) →
       ∃ a, NFA_getAcceptingStateNumbers 1 1 star_store_built = Some (a, star_store_built) ∧
            (join ids ∈ acc ↔ ∃ k, k ∈ ids ∧ k ∈ a)).
Proof.
  apply (DFA_accepting_exact_on_targets 10 1 1 star_store star_store_built star_dfa_table
           star_dfa).
  vm_compute. reflexivity.
Defined.

(** ** [DFA.matches] on a finished table *)

Lemma dfa_walk_closed (t : list (string * list (string * string))) :
  (∀ label row sym target, Object_get t label = Some row → Object_get row sym = Some target →
     Object_has t target = true) →
  ∀ w state, Object_has t state = true →
    ∃ r, dfa_walk t state w = Some r ∧
         ∀ l, r = Some l → Object_has t l = true.
Proof.
  intros Hclosed w. induction w as [|c w IH]; intros state Hstate; simpl.
  - exists (Some state). split; [done|]. by intros l [= <-].
  - unfold Object_has in Hstate. destruct (Object_get t state) as [row|] eqn:Hrow; [|done].
    simpl. destruct (Object_get row c) as [[|a l]|] eqn:Hcell.
    + exists None. by split.
    + apply IH. by eapply Hclosed.
    + exists None. by split.
Qed.

Lemma DFA_matches_unfold (fuel : nat) (nfa : ref) (σ : store)
    (t : list (string * list (string * string))) (start : string) (acc : list string)
    (w : list symbol) :
  DFA_matches fuel (mkDFA nfa (Some t) (Some start) (Some acc)) w σ
  = (r ← dfa_walk t start w;
     match r with
     | None => Some (false, mkDFA nfa (Some t) (Some start) (Some acc), σ)
     | Some state =>
         Some (SSet_has acc state, mkDFA nfa (Some t) (Some start) (Some acc), σ)
     end).
Proof.
  unfold DFA_matches, DFA_getStartingStateNumber, DFA_getTransitionTable,
    DFA_getAcceptingStateNumbers. simpl.
  destruct start as [|a l]; simpl; destruct (dfa_walk t _ w) as [[state|]|]; done.
Qed.

(** X11: once the table has been built, [DFA.matches] answers for every
    input: it never fails on a label without a row, and it changes neither
    the DFA object nor the store. *)
Theorem DFA_matches_always_answers (fuel fuel' : nat) (nfa : ref) (σ σ' : store)
    (t : list (string * list (string * string))) (d : DFA) (w : list symbol) :
  DFA_getTransitionTable fuel (new_DFA nfa) σ = Some (t, d, σ') →
  ∃ b, DFA_matches fuel' d w σ' = Some (b, d, σ').
Proof.
  intros (start & acc & -> & Hinv & _)%DFA_getTransitionTable_inv.
  destruct (subset_inv_cells _ _ _ _ _ Hinv) as [Hstart Hcells].
  destruct (dfa_walk_closed t) with (w := w) (state := start) as (r & Hr & _); [|done|].
  { intros label row sym target Hrow Hcell. by destruct (Hcells _ _ _ _ Hrow Hcell). }
  rewrite DFA_matches_unfold, Hr. simpl. destruct r; eauto.
Qed.

Lemma DFA_matches_always_answers_witness :
  ∃ b, DFA_matches 0 star_dfa ["a"; "b"; "a"] star_store_built
       = Some (b, star_dfa, star_store_built).
Proof.
  apply (DFA_matches_always_answers 10 0 1 star_store star_store_built star_dfa_table).
  vm_compute. reflexivity.
Defined.

Lemma NFA_getAlphabet_hit (fuel : nat) (nfa : ref) (σ : store) (al : list symbol) :
  alpha_memo σ nfa = Some al → NFA_getAlphabet fuel nfa σ = Some (al, σ).
Proof.
  unfold alpha_memo, NFA_getAlphabet.
  destruct (nfas σ !! nfa) as [n|]; simpl; [|done]. by intros ->.
Qed.

(** X12: an input that holds a symbol outside the alphabet of the NFA is
    rejected by [DFA.matches]; the columns of the DFA table are symbols of
    that alphabet. *)
Theorem DFA_rejects_foreign_symbol (fuel fuel' : nat) (nfa : ref) (σ σ' : store)
    (t : list (string * list (string * string))) (d : DFA) (w : list symbol) (c : symbol) :
  DFA_getTransitionTable fuel (new_DFA nfa) σ = Some (t, d, σ') →
  c ∈ w →
  ∃ al, NFA_getAlphabet fuel' nfa σ' = Some (al, σ') ∧
        (∀ label row sym target,
           Object_get t label = Some row → Object_get row sym = Some target → sym ∈ al) ∧
        (c ∉ al → DFA_matches fuel' d w σ' = Some (false, d, σ')).
Proof.
  intros (start & acc & -> & Hinv & Hal)%DFA_getTransitionTable_inv Hc.
  destruct (subset_inv_cells _ _ _ _ _ Hinv) as [Hstart Hcells].
  destruct Hinv as (_ & _ & _ & _ & Hsym). simpl in *.
  destruct (alpha_memo σ' nfa) as [al|] eqn:Eal; [|done].
  exists al. split; [by apply NFA_getAlphabet_hit|].
  assert (∀ label row sym target,
            Object_get t label = Some row → Object_get row sym = Some target → sym ∈ al)
    as Hcols.
  { intros label row sym target Hrow%Object_get_elem_of Hcell%Object_get_elem_of.
    by eapply Hsym. }
  split; [done|]. intros Hnot.
  assert (∀ w state, c ∈ w → Object_has t state = true → dfa_walk t state w = Some None)
    as Hwalk.
  { clear w Hc. intros w. induction w as [|x w IH]; intros state Hin Hstate.
    { by apply not_elem_of_nil in Hin. }
    simpl. unfold Object_has in Hstate.
    destruct (Object_get t state) as [row|] eqn:Hrow; [|done]. simpl.
    destruct (Object_get row x) as [[|a l]|] eqn:Hcell; [done| |done].
    apply elem_of_cons in Hin as [->|Hin].
    - exfalso. apply Hnot. by eapply Hcols.
    - apply IH; [done|]. by destruct (Hcells _ _ _ _ Hrow Hcell). }
  rewrite DFA_matches_unfold, (Hwalk w start Hc Hstart). done.
Qed.

Lemma DFA_rejects_foreign_symbol_witness :
  ∃ al, NFA_getAlphabet 0 1 star_store_built = Some (al, star_store_built) ∧
        (∀ label row sym target,
           Object_get star_dfa_table label = Some row → Object_get row sym = Some target →
           sym ∈ al) ∧
        ("b" ∉ al → DFA_matches 0 star_dfa ["a"; "b"; "a"] star_store_built
                    = Some (false, star_dfa, star_store_built)).
Proof.
  apply (DFA_rejects_foreign_symbol 10 0 1 star_store star_store_built star_dfa_table
           star_dfa ["a"; "b"; "a"] "b").
  - vm_compute. reflexivity.
  - apply (bool_decide_unpack _). vm_compute. exact I.
Defined.

(** ** The shape of the NFA table *)

#[global] Arguments String.eqb : simpl never.

Lemma key_before_EPSILON (k : string) : key_before EPSILON k = false.
Proof. reflexivity. Qed.

Lemma eps_columns_set (row : list (string * list nat)) (sym : string) (v : list nat) :
  eps_columns row ≤ 1 → eps_columns (Object_set row sym v) ≤ 1.
Proof.
  unfold eps_columns. destruct (String.eqb sym EPSILON) eqn:E.
  - apply String.eqb_eq in E. subst sym.
    induction row as [|[k0 v0] row IH]; simpl; [done|].
    destruct (String.eqb EPSILON k0) eqn:E0; simpl.
    + apply String.eqb_eq in E0. subst k0. by rewrite String.eqb_refl.
    + rewrite (String.eqb_sym k0 EPSILON), E0. exact IH.
  - assert (length (List.filter (λ p : string * list nat, String.eqb p.1 EPSILON)
                      (Object_set row sym v))
            = length (List.filter (λ p : string * list nat, String.eqb p.1 EPSILON) row))
      as ->; [|done].
    induction row as [|[k0 v0] row IH]; simpl; [by rewrite E|].
    destruct (String.eqb sym k0) eqn:E0; simpl.
    + apply String.eqb_eq in E0. subst k0. by rewrite E.
    + destruct (key_before sym k0); simpl; [by rewrite E|].
      destruct (String.eqb k0 EPSILON); simpl; by rewrite IH.
Qed.

Lemma Object_get_None_eps (row : list (string * list nat)) :
  eps_columns row = 0 → Object_get row EPSILON = None.
Proof.
  unfold eps_columns. induction row as [|[k0 v0] row IH]; simpl; [done|].
  rewrite (String.eqb_sym EPSILON k0). destruct (String.eqb k0 EPSILON); simpl; [done|auto].
Qed.

Lemma Object_delete_eps (row : list (string * list nat)) :
  eps_columns row ≤ 1 → eps_columns (Object_delete row EPSILON) = 0.
Proof.
  unfold eps_columns. induction row as [|[k0 v0] row IH]; simpl; [done|].
  rewrite (String.eqb_sym EPSILON k0). destruct (String.eqb k0 EPSILON) eqn:E; simpl.
  - lia.
  - rewrite E. auto.
Qed.

Lemma Object_get_delete {V} (o : list (string * V)) (k k' : string) :
  k' ≠ k → Object_get (Object_delete o k) k' = Object_get o k'.
Proof.
  intros Hne. induction o as [|[k0 v0] o IH]; simpl; [done|].
  destruct (String.eqb k k0) eqn:E.
  - apply String.eqb_eq in E. subst k0.
    by rewrite (proj2 (String.eqb_neq k' k) Hne).
  - simpl. by rewrite IH.
Qed.

Lemma row_ok_mono (N N' : nat) (row : list (string * list nat)) :
  N ≤ N' → row_ok N row → row_ok N' row.
Proof.
  intros HN [Hc Hids]. split; [done|]. intros sym ids id Hcell Hid.
  specialize (Hids sym ids id Hcell Hid). lia.
Qed.

Lemma row_ok_set (N : nat) (row : list (string * list nat)) (sym : string) (v : list nat) :
  row_ok N row → (∀ id, id ∈ v → 1 ≤ id ≤ N) → row_ok N (Object_set row sym v).
Proof.
  intros [Hc Hids] Hv. split; [by apply eps_columns_set|].
  intros sym' ids id. rewrite Object_get_set. destruct (String.eqb sym' sym).
  - intros [= <-]. apply Hv.
  - apply Hids.
Qed.

Lemma table_ok_set_cell (β : build) (n : nat) (sym : string) (v : list nat)
    (t : list (nat * list (string * list nat))) :
  table_ok β → (∀ id, id ∈ v → 1 ≤ id ≤ length (b_visited β)) →
  table_set_cell (b_table β) n sym v = Some t →
  table_ok (mkBuild (b_heap β) t (b_accepting β) (b_visited β)).
Proof.
  intros (Hsorted & Hrows & Hok) Hv. unfold table_set_cell.
  destruct (iobj_get (b_table β) n) as [row|] eqn:Hrow; simpl; [|done].
  intros [= <-]. unfold table_ok. simpl. split_and!.
  - by apply iobj_set_sorted.
  - intros i Hi. rewrite iobj_get_set. destruct (S i =? n); [done|by apply Hrows].
  - intros k row'. rewrite iobj_get_set. destruct (k =? n) eqn:E.
    + intros [= <-]. apply row_ok_set; [by eapply Hok|done].
    + apply Hok.
Qed.

(** Numbering a new state keeps the invariants of the builder. *)
Lemma build_ok_number (β : build) (state : ref) (st : State) :
  build_ok β → table_ok β → state ∉ b_visited β → b_heap β !! state = Some st →
  let visited := Set_add (b_visited β) state in
  let β' := mkBuild (<[state := with_number (length visited) st]> (b_heap β))
                    (iobj_set (b_table β) (length visited) [])
                    (if accepting st then Set_add (b_accepting β) state else b_accepting β)
                    visited in
  build_ok β' ∧ table_ok β' ∧ length (b_visited β) ≤ length (b_visited β').
Proof.
  intros ((Hnd & Hnum1 & Hnum2) & Hkeys & Hcl) (Hsorted & Hrows & Hok) Hin Hst visited β'.
  subst visited β'. rewrite Set_add_fresh by done. rewrite length_app. simpl.
  split_and!.
  - unfold build_ok, numbering_ok. simpl. split_and!.
    + apply NoDup_app. split_and!; [done| |apply NoDup_singleton].
      by intros x Hx ->%list_elem_of_singleton.
    + intros x k. rewrite number_of_insert by done.
      destruct (decide (x = state)) as [->|Hne].
      * intros [= <-]. exists (length (b_visited β)).
        split; [by rewrite list_lookup_middle|lia].
      * intros (i & Hi & ->)%Hnum1. exists i. split; [|done].
        by apply lookup_app_l_Some.
    + intros i x Hi. rewrite number_of_insert by done.
      apply lookup_app_Some in Hi as [Hi|[Hlen Hi]].
      * destruct (decide (x = state)) as [->|Hne]; [|by apply Hnum2].
        exfalso. apply Hin. by eapply list_elem_of_lookup_2.
      * apply list_lookup_singleton_Some in Hi as [Hi <-].
        rewrite decide_True by done. f_equal. lia.
    + intros k [->|Hk]%iobj_keys_set.
      * exists (length (b_visited β)). split; [lia|]. rewrite length_app. simpl. lia.
      * destruct (Hkeys k Hk) as (i & -> & Hi). exists i. split; [done|].
        rewrite length_app. lia.
    + intros s st' c. destruct (decide (s = state)) as [->|Hne].
      * rewrite list_lookup_insert_eq by (by eapply lookup_lt_Some).
        intros [= <-]. simpl. by apply (Hcl state st).
      * rewrite list_lookup_insert_ne by done. apply Hcl.
  - unfold table_ok. simpl. rewrite length_app. simpl. split_and!.
    + by apply iobj_set_sorted.
    + intros i Hi. rewrite iobj_get_set.
      destruct (S i =? length (b_visited β) + 1) eqn:E; [done|].
      apply Nat.eqb_neq in E. apply Hrows. lia.
    + intros k row. rewrite iobj_get_set.
      destruct (k =? length (b_visited β) + 1).
      * intros [= <-]. split; [unfold eps_columns; simpl; lia|]. by intros sym ids id.
      * intros Hrow. eapply row_ok_mono; [|by eapply Hok]. lia.
  - simpl. rewrite ?length_app. simpl. lia.
Qed.

Lemma visitState_table (fuel : nat) : ∀ state β β',
  build_ok β → table_ok β → visitState fuel state β = Some β' →
  table_ok β' ∧ length (b_visited β) ≤ length (b_visited β').
Proof.
  induction fuel as [|fuel IH]; intros state β β' Hβ Htβ; [done|].
  rewrite visitState_unfold.
  destruct (Set_has (b_visited β) state) eqn:Hin; [by intros [= <-]|].
  apply Set_has_false in Hin.
  destruct (b_heap β !! state) as [st|] eqn:Hst; simpl; [|done].
  destruct (build_ok_number β state st Hβ Htβ Hin Hst) as (Hb0 & Ht0 & Hlen0).
  simpl in Hb0, Ht0, Hlen0.
  set (β0 := mkBuild _ _ _ _) in *.
  intros Efold.
  assert (build_ok β' ∧ table_ok β' ∧ length (b_visited β) ≤ length (b_visited β'))
    as (_ & ? & ?); [|done].
  revert Efold.
  apply (foldl_option_preserves
           (λ β1, build_ok β1 ∧ table_ok β1 ∧ length (b_visited β) ≤ length (b_visited β1)));
    [done| |done].
  intros β1 entry β2 (Hb1 & Ht1 & Hlen1). simpl.
  destruct (foldl _ (Some ([], β1)) entry.2) as [r|] eqn:Er; simpl; [|done].
  assert (build_ok r.2 ∧ table_ok r.2 ∧ length (b_visited β) ≤ length (b_visited r.2) ∧
          ∀ id, id ∈ r.1 → 1 ≤ id ≤ length (b_visited r.2)) as (Hbr & Htr & Hlenr & Hidr).
  { revert Er.
    apply (foldl_option_preserves
             (λ r : list nat * build,
                build_ok r.2 ∧ table_ok r.2 ∧
                length (b_visited β) ≤ length (b_visited r.2) ∧
                ∀ id, id ∈ r.1 → 1 ≤ id ≤ length (b_visited r.2))); [done| |].
    - intros [cs β3] nextState [cs' β4] (Hb3 & Ht3 & Hlen3 & Hid3). simpl in *.
      destruct (visitState fuel nextState β3) as [β5|] eqn:E5; simpl; [|done].
      destruct (number_of (b_heap β5) nextState) as [k|] eqn:Ek; simpl; [|done].
      intros [= <- <-].
      pose proof (visitState_ok _ _ _ _ Hb3 E5) as Hb5.
      destruct (IH _ _ _ Hb3 Ht3 E5) as [Ht5 Hlen5].
      split_and!; [done|done|lia|].
      intros id [Hid| ->%list_elem_of_singleton]%elem_of_app.
      + specialize (Hid3 id Hid). lia.
      + destruct Hb5 as ((_ & Hnum1 & _) & _ & _).
        destruct (Hnum1 _ _ Ek) as (i & Hi & ->). apply lookup_lt_Some in Hi. lia.
    - split_and!; [done|done|done|]. by intros id Hid%not_elem_of_nil. }
  destruct (table_set_cell (b_table r.2) _ entry.1 r.1) as [t|] eqn:Et; simpl; [|done].
  intros [= <-]. split_and!.
  - destruct Hbr as (Hnum & Hkeys & Hcl). split_and!; try done. simpl.
    intros k Hk. apply Hkeys. by apply (proj1 (table_set_cell_keys _ _ _ _ _ k Et)).
  - by eapply table_ok_set_cell.
  - done.
Qed.

Lemma EPSILON_neq_closure : String.eqb EPSILON EPSILON_CLOSURE = false.
Proof. reflexivity. Qed.

Lemma append_closures_rows (fuel N : nat) (h0 : heap) (l : list ref) :
  (∀ x k, number_of h0 x = Some k → 1 ≤ k ≤ N) →
  ∀ h1 t1 h' t',
    closures_nodup h1 → (∀ x, number_of h1 x = number_of h0 x) →
    iobj_sorted t1 → (∀ k row, iobj_get t1 k = Some row → row_ok N row) →
    append_closures fuel l h1 t1 = Some (h', t') →
    iobj_sorted t' ∧
    (∀ k row, iobj_get t' k = Some row → row_ok N row) ∧
    (∀ k, row_closed t1 k ∨ (∃ s, s ∈ l ∧ number_of h0 s = Some k) → row_closed t' k).
Proof.
  intros HN. unfold append_closures.
  induction l as [|s l IH]; intros h1 t1 h' t' Hcl Hnum Hsorted Hrows; simpl.
  - intros [= <- <-]. split_and!; [done|done|].
    intros k [?|(s & Hs%not_elem_of_nil & _)]; done.
  - destruct (number_of h1 s) as [n|] eqn:En; simpl;
      [|by rewrite foldl_option_None].
    destruct (iobj_get t1 n) as [row|] eqn:Erow; simpl;
      [|by rewrite foldl_option_None].
    destruct (getEpsilonClosure fuel s h1) as [[closure h2]|] eqn:Ec; simpl;
      [|by rewrite foldl_option_None].
    destruct (closure_numbers h2 closure) as [ns|] eqn:Ens; simpl;
      [|by rewrite foldl_option_None].
    unfold table_set_cell. rewrite iobj_get_set, Nat.eqb_refl. simpl.
    rewrite iobj_set_set.
    destruct (getEpsilonClosure_ok _ _ _ _ _ Hcl Ec) as (Hcl2 & Hndc & Hnum2).
    assert (∀ id, id ∈ ns → 1 ≤ id ≤ N) as Hns.
    { intros id Hid. apply mapM_Some in Ens.
      apply list_elem_of_lookup in Hid as [i Hi].
      destruct (Forall2_lookup_r _ _ _ _ _ Ens Hi) as (x & _ & Hx).
      apply (HN x). by rewrite <- Hnum, <- Hnum2. }
    pose proof (Hrows _ _ Erow) as [Hcnt Hids].
    pose proof (Object_delete_eps row Hcnt) as Hdel.
    set (row' := Object_set (Object_delete row EPSILON) EPSILON_CLOSURE ns).
    assert (row_ok N row') as Hrow'.
    { split.
      - apply eps_columns_set. lia.
      - intros sym ids id. unfold row'. rewrite Object_get_set.
        destruct (String.eqb sym EPSILON_CLOSURE); [intros [= <-]; apply Hns|].
        destruct (String.eqb sym EPSILON) eqn:Esym.
        + apply String.eqb_eq in Esym. subst sym.
          by rewrite (Object_get_None_eps _ Hdel).
        + apply String.eqb_neq in Esym. rewrite Object_get_delete by done. apply Hids. }
    assert (Object_get row' EPSILON = None ∧ is_Some (Object_get row' EPSILON_CLOSURE))
      as Hclosed.
    { unfold row'. rewrite !Object_get_set, EPSILON_neq_closure, String.eqb_refl.
      split; [by apply Object_get_None_eps|by eexists]. }
    intros Hfold.
    destruct (IH h2 (iobj_set t1 n row') h' t' Hcl2 (λ x, eq_trans (Hnum2 x) (Hnum x)))
      as (Hsorted' & Hrows' & Hcells); [by apply iobj_set_sorted| |done|].
    { intros k r. rewrite iobj_get_set. destruct (k =? n); [by intros [= <-]|apply Hrows]. }
    split_and!; [done|done|].
    intros k Hk. apply Hcells.
    destruct (decide (k = n)) as [->|Hne].
    + left. intros r. rewrite iobj_get_set, Nat.eqb_refl. by intros [= <-].
    + destruct Hk as [Hk|(s' & [->|Hs']%elem_of_cons & Hs'')].
      * left. intros r. rewrite iobj_get_set.
        apply Nat.eqb_neq in Hne. rewrite Hne. apply Hk.
      * rewrite <- Hnum, En in Hs''. congruence.
      * right. eauto.
Qed.

(** The rows of a table built on a store on which no table was built
    before. *)
Lemma NFA_table_rows (fuel : nat) (nfa : ref) (σ σ' : store)
    (t : list (nat * list (string * list nat))) :
  fresh_store σ = true →
  NFA_getTransitionTable fuel nfa σ = Some (t, σ') →
  iobj_sorted t ∧
  ∃ N, (∀ k, is_Some (iobj_get t k) ↔ 1 ≤ k ≤ N) ∧
       ∀ k row, iobj_get t k = Some row →
         Object_get row EPSILON = None ∧
         (∃ c, Object_get row EPSILON_CLOSURE = Some c ∧ NoDup c) ∧
         ∀ sym ids id, Object_get row sym = Some ids → id ∈ ids → 1 ≤ id ≤ N.
Proof.
  intros Hfresh E.
  pose proof (NFA_table_closure_cells _ _ _ _ _ Hfresh E) as Hcells.
  revert E. apply fresh_store_states in Hfresh as (Hnonum & Hcl & Hnotable).
  unfold NFA_getTransitionTable.
  destruct (nfas σ !! nfa) as [n|] eqn:En; simpl; [|done].
  rewrite (Hnotable _ _ En).
  destruct (visitState fuel (in_ n) (mkBuild (states σ) [] [] [])) as [β|] eqn:Eβ;
    simpl; [|done].
  assert (build_ok (mkBuild (states σ) [] [] [])) as Hb0.
  { split_and!; simpl; try done.
    - split_and!; [constructor|by intros x k ?%Hnonum|done].
    - by intros k ?%not_elem_of_nil. }
  assert (table_ok (mkBuild (states σ) [] [] [])) as Ht0.
  { split_and!; simpl; [done|intros i Hi; lia|done]. }
  pose proof (visitState_ok _ _ _ _ Hb0 Eβ) as ((Hnd & Hnum1 & Hnum2) & Hkeys & Hclβ).
  destruct (visitState_table _ _ _ _ Hb0 Ht0 Eβ) as [(Hsorted & Hrows & Hok) _].
  destruct (append_closures fuel (b_visited β) (b_heap β) (b_table β)) as [[h t']|] eqn:Ea;
    simpl; [|done].
  intros [= <- <-].
  pose proof Ea as Ea'.
  apply append_closures_ok with (h0 := b_heap β) in Ea' as [Hkeys' _]; try done.
  2:{ intros x y k' (i & Hi & ->)%Hnum1 (j & Hj & [= <-])%Hnum1. congruence. }
  apply append_closures_rows with (N := length (b_visited β)) (h0 := b_heap β) in Ea
    as (Hsorted' & Hrows' & Hclosed); try done.
  2:{ intros x k (i & Hi & ->)%Hnum1. apply lookup_lt_Some in Hi. lia. }
  split; [done|]. exists (length (b_visited β)). split.
  - intros k. rewrite <- iobj_get_keys, Hkeys'. split.
    + intros (i & -> & Hi)%Hkeys. lia.
    + intros Hk. apply iobj_get_keys. destruct k as [|i]; [lia|]. apply Hrows. lia.
  - intros k row Hrow.
    assert (row_closed t' k) as Hck.
    { apply Hclosed. right.
      assert (k ∈ iobj_keys (b_table β)) as Hk.
      { apply Hkeys', iobj_get_keys. by eexists. }
      apply Hkeys in Hk as (i & -> & Hi).
      destruct (lookup_lt_is_Some_2 _ _ Hi) as [x Hx].
      exists x. split; [by eapply list_elem_of_lookup_2|by apply Hnum2]. }
    destruct (Hck row Hrow) as [Heps [c Hc]]. split_and!.
    + done.
    + exists c. split; [done|]. by eapply Hcells.
    + by apply (Hrows' k row Hrow).
Qed.

(** X13: the table built by [NFA.getTransitionTable] on a store on which
    no table was built before.  Its rows are numbered [1..N] without gaps;
    no row keeps an [EPSILON] column; every row has the closure column,
    without duplicates; and every id in any column is the number of a row. *)
Theorem NFA_table_shape (fuel : nat) (nfa : ref) (σ σ' : store)
    (t : list (nat * list (string * list nat))) :
  fresh_store σ = true →
  NFA_getTransitionTable fuel nfa σ = Some (t, σ') →
  iobj_sorted t ∧
  ∃ N, (∀ k, is_Some (iobj_get t k) ↔ 1 ≤ k ≤ N) ∧
       ∀ k row, iobj_get t k = Some row →
         Object_get row EPSILON = None ∧
         (∃ c, Object_get row EPSILON_CLOSURE = Some c ∧ NoDup c) ∧
         ∀ sym ids id, Object_get row sym = Some ids → id ∈ ids → 1 ≤ id ≤ N.
Proof. apply NFA_table_rows. Qed.

Lemma NFA_table_shape_witness :
  iobj_sorted star_nfa_table ∧
  ∃ N, (∀ k, is_Some (iobj_get star_nfa_table k) ↔ 1 ≤ k ≤ N) ∧
       ∀ k row, iobj_get star_nfa_table k = Some row →
         Object_get row EPSILON = None ∧
         (∃ c, Object_get row EPSILON_CLOSURE = Some c ∧ NoDup c) ∧
         ∀ sym ids id, Object_get row sym = Some ids → id ∈ ids → 1 ≤ id ≤ N.
Proof.
  eapply (NFA_table_shape 10 1 star_store _ star_nfa_table);
    [reflexivity|vm_compute; reflexivity].
Defined.

(** ** The alphabet *)

Lemma Object_keys_get {V} (o : list (string * V)) (k : string) :
  k ∈ Object_keys o ↔ is_Some (Object_get o k).
Proof.
  unfold Object_keys. induction o as [|[k0 v0] o IH]; simpl.
  - split; [by intros ?%not_elem_of_nil|by intros [? ?]].
  - rewrite elem_of_cons, IH. destruct (String.eqb k k0) eqn:E.
    + apply String.eqb_eq in E. split; [by eexists|by left].
    + apply String.eqb_neq in E. split; [by intros [?|?]|by right].
Qed.

Lemma SSet_add_NoDup (s : list string) (x : string) : NoDup s → NoDup (SSet_add s x).
Proof.
  intros Hs. unfold SSet_add. destruct (SSet_has s x) eqn:E; [done|].
  apply NoDup_app. split_and!; [done| |apply NoDup_singleton].
  intros y Hy ->%list_elem_of_singleton.
  apply SSet_has_elem_of in Hy. congruence.
Qed.

Lemma alphabet_row (keys : list string) : ∀ a : list string,
  NoDup a →
  let a' := foldl (λ a symbol, if String.eqb symbol EPSILON_CLOSURE then a
                               else SSet_add a symbol) a keys in
  NoDup a' ∧ ∀ c, c ∈ a' ↔ c ∈ a ∨ (c ≠ EPSILON_CLOSURE ∧ c ∈ keys).
Proof.
  induction keys as [|k keys IH]; intros a Ha; simpl.
  - split; [done|]. intros c. split; [auto|]. by intros [?|[_ ?%not_elem_of_nil]].
  - destruct (String.eqb k EPSILON_CLOSURE) eqn:E.
    + apply String.eqb_eq in E. subst k. destruct (IH a Ha) as [Hnd Hin]. split; [done|].
      intros c. rewrite Hin, elem_of_cons. split; [intros [?|[? ?]]; auto|].
      intros [?|[Hne [->|?]]]; auto. done.
    + apply String.eqb_neq in E.
      destruct (IH (SSet_add a k) (SSet_add_NoDup _ _ Ha)) as [Hnd Hin]. split; [done|].
      intros c. rewrite Hin, SSet_add_elem_of, elem_of_cons. split.
      * intros [[?| ->]|[? ?]]; auto.
      * intros [?|[Hne [->|?]]]; auto.
Qed.

Lemma alphabet_table (t : list (nat * list (string * list nat))) : ∀ a : list string,
  NoDup a →
  let a' := foldl (λ a (row : nat * list (string * list nat)),
                     foldl (λ a symbol, if String.eqb symbol EPSILON_CLOSURE then a
                                        else SSet_add a symbol)
                           a (Object_keys row.2)) a t in
  NoDup a' ∧
  ∀ c, c ∈ a' ↔ c ∈ a ∨ (c ≠ EPSILON_CLOSURE ∧ ∃ p, p ∈ t ∧ c ∈ Object_keys p.2).
Proof.
  induction t as [|p t IH]; intros a Ha; simpl.
  - split; [done|]. intros c. split; [auto|].
    by intros [?|[_ (p & ?%not_elem_of_nil & _)]].
  - destruct (alphabet_row (Object_keys p.2) a Ha) as [Hnd1 Hin1].
    destruct (IH _ Hnd1) as [Hnd Hin]. split; [done|].
    intros c. rewrite Hin, Hin1. split.
    + intros [[?|[Hne Hc]]|[Hne (q & Hq & Hc)]]; auto.
      * right. split; [done|]. exists p. split; [by left|done].
      * right. split; [done|]. exists q. split; [by right|done].
    + intros [?|[Hne (q & [->|Hq]%elem_of_cons & Hc)]]; auto.
      right. split; [done|]. eauto.
Qed.


Lemma NFA_getTransitionTable_hit (fuel : nat) (nfa : ref) (σ : store)
    (t : list (nat * list (string * list nat))) :
  table_memo σ nfa = Some t → NFA_getTransitionTable fuel nfa σ = Some (t, σ).
Proof.
  unfold table_memo, NFA_getTransitionTable.
  destruct (nfas σ !! nfa) as [n|]; simpl; [|done]. by intros ->.
Qed.

(** X15: the table is built once.  After [getTransitionTable] has
    returned a table, every later call returns that table and leaves the
    store alone, even when a transition has been added to a state in
    between: the memoised table is never rebuilt. *)
Theorem NFA_table_is_built_once (fuel fuel' : nat) (nfa : ref) (σ σ' σ'' : store)
    (t : list (nat * list (string * list nat))) (from : ref) (c : symbol) (toState : ref) :
  NFA_getTransitionTable fuel nfa σ = Some (t, σ') →
  upd_states (addTransition from c toState) σ' = Some σ'' →
  NFA_getTransitionTable fuel' nfa σ' = Some (t, σ') ∧
  NFA_getTransitionTable fuel' nfa σ'' = Some (t, σ'').
Proof.
  intros E%NFA_getTransitionTable_memo Hadd.
  split; apply NFA_getTransitionTable_hit; [done|].
  unfold upd_states in Hadd.
  destruct (addTransition from c toState (states σ')) as [h|]; simpl in Hadd; [|done].
  injection Hadd as <-. done.
Qed.

Lemma NFA_table_is_built_once_witness :
  NFA_getTransitionTable 0 1 star_store_built = Some (star_nfa_table, star_store_built) ∧
  NFA_getTransitionTable 0 1 star_store_extended = Some (star_nfa_table, star_store_extended).
Proof.
  apply (NFA_table_is_built_once 0 0 1 star_store_built star_store_built star_store_extended
           star_nfa_table 0 "b" 3); reflexivity.
Defined.

(** ** The shape of a minimized table *)

Lemma refine_current_NoDup (fuel : nat) : ∀ m current previous m' current',
  refine fuel m current previous = Normal (m', current') →
  previous = None ∨ NoDup current → NoDup current'.
Proof.
  induction fuel as [|fuel IH]; intros m current previous m' current'; simpl.
  - destruct (sameRow m current previous) eqn:Es; [|done].
    intros [= <- <-] [->|?]; [done|done].
  - destruct (sameRow m current previous) eqn:Es.
    + intros [= <- <-] [->|?]; [done|done].
    + unfold refine_round.
      destruct (foldl handle_set (Normal (m, [])) current) as [[m1 tm1]| |]; try done.
      intros E _. eapply IH; [exact E|]. right. apply Set_from_NoDup.
Qed.

Lemma RMap_set_fresh (r : list (ref * nat)) (k : ref) (v : nat) :
  k ∉ r.*1 → RMap_set r k v = r ++ [(k, v)].
Proof.
  induction r as [|[k' v'] r IH]; simpl; [done|].
  intros [Hne Hk]%not_elem_of_cons. apply Nat.eqb_neq in Hne. rewrite Hne.
  by rewrite IH.
Qed.

Lemma remap_fold (l : list ref) : ∀ (acc : list (ref * nat)) (k : nat),
  NoDup (acc.*1 ++ l) →
  (foldl (λ (acc : list (ref * nat) * nat) set, (RMap_set acc.1 set acc.2, S acc.2))
         (acc, k) l).1
  = acc ++ imap (λ i s, (s, k + i)) l.
Proof.
  induction l as [|x l IH]; intros acc k Hnd; simpl.
  - by rewrite app_nil_r.
  - rewrite RMap_set_fresh.
    2:{ apply NoDup_app in Hnd as (_ & Hd & _). intros Hx. apply (Hd x Hx). by left. }
    rewrite IH.
    2:{ rewrite fmap_app. simpl. by rewrite <- app_assoc. }
    rewrite <- app_assoc. simpl. rewrite Nat.add_0_r. do 2 f_equal.
    apply imap_ext. intros i s _. simpl. f_equal. lia.
Qed.

Lemma remap_NoDup (current : list ref) :
  NoDup current → remap current = imap (λ i s, (s, S i)) current.
Proof.
  intros Hnd. unfold remap. rewrite remap_fold by done. simpl. done.
Qed.

Lemma remap_indices (current : list ref) (j : nat) :
  NoDup current →
  j ∈ (remap current).*2 ↔ 1 ≤ j ≤ length current.
Proof.
  intros Hnd. rewrite remap_NoDup by done. rewrite list_elem_of_fmap. split.
  - intros ([s j'] & -> & Hin). apply list_elem_of_lookup in Hin as [i Hi].
    rewrite list_lookup_imap in Hi.
    destruct (current !! i) as [s'|] eqn:Hs; simpl in Hi; [|done].
    injection Hi as <- <-. apply lookup_lt_Some in Hs. simpl. lia.
  - intros [H1 H2]. destruct j as [|i]; [lia|].
    destruct (lookup_lt_is_Some_2 current i) as [s Hs]; [lia|].
    exists (s, S i). split; [done|]. apply list_elem_of_lookup. exists i.
    rewrite list_lookup_imap, Hs. done.
Qed.

Lemma RMap_get_elem_of (r : list (ref * nat)) (k : ref) (v : nat) :
  RMap_get r k = Some v → v ∈ r.*2.
Proof.
  induction r as [|[k' v'] r IH]; simpl; [done|].
  destruct (k =? k'); [intros [= ->]; by left|]. intros H. right. auto.
Qed.

Lemma foldl_build_row_stuck (t : min_table) (m : mstate) (remaped : list (ref * nat))
    (entries : list (ref * nat)) (o : completion min_table) :
  (∀ M, o ≠ Normal M) → foldl (build_row t m remaped) o entries = o.
Proof.
  intros Ho. induction entries as [|e entries IH]; simpl; [done|].
  assert (build_row t m remaped o e = o) as ->; [|done].
  unfold build_row, alphabet. simpl. destruct o; [by destruct (Ho a)|done|done].
Qed.

Lemma build_cell_row (t : min_table) (m : mstate) (remaped : list (ref * nat))
    (entry : ref * nat) (M M' : list (nat * list (string * option nat)))
    (c : symbol) (row : list (string * option nat)) :
  build_cell t m remaped entry (Normal M) c = Normal M' →
  c = "a" ∨ c = "b" →
  iobj_sorted M →
  iobj_get M entry.2 = Some row → min_row_ok t remaped row →
  iobj_sorted M' ∧
  ∃ row', min_row_ok t remaped row' ∧
    ∀ k, iobj_get M' k = if k =? entry.2 then Some row' else iobj_get M k.
Proof.
  unfold build_cell. intros E Hc Hs Hrow Hok.
  destruct (head (set_of m entry.1)) as [first|] eqn:Eh; simpl in E; [|done].
  destruct (iobj_get t first) as [rowT|] eqn:Et; [|done].
  destruct (truthy (Object_get rowT c)) as [tr|] eqn:Etr.
  - injection E as <-. split; [by apply iobj_set_sorted|].
    rewrite Hrow. simpl. eexists. split; [|intros k; apply iobj_get_set].
    intros c' v. rewrite Object_get_set.
    destruct (String.eqb c' c) eqn:Ec.
    + apply String.eqb_eq in Ec. subst c'. intros [= <-]. split; [done|]. split.
      * intros j Hj. destruct (iobj_get (currentTransitionMap m) tr) as [r|]; [|done].
        simpl in Hj. by eapply RMap_get_elem_of.
      * exists first, rowT. unfold truthy in Etr.
        destruct (Object_get rowT c) as [[[|n]|]|]; try done. by exists n.
    + apply Hok.
  - injection E as <-. split; [done|]. exists row. split; [done|].
    intros k. destruct (k =? entry.2) eqn:Ek; [|done].
    apply Nat.eqb_eq in Ek. by subst k.
Qed.

Lemma build_cell_stuck (t : min_table) (m : mstate) (remaped : list (ref * nat))
    (entry : ref * nat) (o : completion (list (nat * list (string * option nat))))
    (c : symbol) :
  (∀ M, o ≠ Normal M) → build_cell t m remaped entry o c = o.
Proof. intros Ho. destruct o; [by destruct (Ho a)|done|done]. Qed.

Lemma build_row_step (t : min_table) (m : mstate) (remaped : list (ref * nat))
    (entry : ref * nat) (M M' : list (nat * list (string * option nat))) :
  build_row t m remaped (Normal M) entry = Normal M' →
  iobj_sorted M →
  iobj_sorted M' ∧
  ∃ row', min_row_ok t remaped row' ∧
    ∀ k, iobj_get M' k = if k =? entry.2 then Some row' else iobj_get M k.
Proof.
  unfold build_row, alphabet. cbn [foldl]. intros E Hs.
  destruct (build_cell t m remaped entry (Normal (iobj_set M entry.2 [])) "a")
    as [M1| |] eqn:E1; [|by rewrite build_cell_stuck in E..].
  destruct (build_cell_row _ _ _ _ _ _ _ [] E1) as (Hs1 & row1 & Hok1 & Hget1).
  { by left. } { by apply iobj_set_sorted. }
  { by rewrite iobj_get_set, Nat.eqb_refl. } { intros c v. done. }
  destruct (build_cell_row _ _ _ _ _ _ _ row1 E) as (Hs2 & row2 & Hok2 & Hget2).
  { by right. } { done. } { by rewrite Hget1, Nat.eqb_refl. } { done. }
  split; [done|]. exists row2. split; [done|]. intros k. rewrite Hget2, Hget1.
  destruct (k =? entry.2) eqn:Ek; [done|]. by rewrite iobj_get_set, Ek.
Qed.

Lemma build_rows (t : min_table) (m : mstate) (remaped : list (ref * nat))
    (entries : list (ref * nat)) :
  ∀ M0 M : list (nat * list (string * option nat)),
  foldl (build_row t m remaped) (Normal M0) entries = Normal M →
  iobj_sorted M0 →
  iobj_sorted M ∧
  (∀ k, is_Some (iobj_get M k) ↔ is_Some (iobj_get M0 k) ∨ k ∈ entries.*2) ∧
  (∀ k row, iobj_get M k = Some row →
     iobj_get M0 k = Some row ∨ min_row_ok t remaped row).
Proof.
  induction entries as [|e entries IH]; intros M0 M; simpl.
  - intros [= <-] Hs. split; [done|]. split; [|by left].
    intros k. split; [by left|]. intros [?|Hk]; [done|]. by apply elem_of_nil in Hk.
  - intros E Hs.
    destruct (build_row t m remaped (Normal M0) e) as [M1| |] eqn:E1;
      [|by rewrite foldl_build_row_stuck in E..].
    destruct (build_row_step _ _ _ _ _ _ E1 Hs) as (Hs1 & row1 & Hok1 & Hget1).
    destruct (IH _ _ E Hs1) as (HsM & Hkeys & Hrows).
    split; [done|]. split.
    + intros k. rewrite Hkeys, Hget1, elem_of_cons.
      destruct (k =? e.2) eqn:Ek.
      * apply Nat.eqb_eq in Ek. split; [|by eauto]. intros _. right. by left.
      * apply Nat.eqb_neq in Ek. tauto.
    + intros k row Hk. destruct (Hrows k row Hk) as [H1|H1]; [|by right].
      rewrite Hget1 in H1. destruct (k =? e.2); [|by left].
      injection H1 as <-. by right.
Qed.

(** X16: a table returned by [minimize], for any input table and any state
    of the module, has rows numbered 1..n with no gap; a row has no column
    but [a] and [b]; a column holds the number of one of the rows or
    [undefined], and is there only where a row of the input table has a
    transition on that symbol to a non-zero id (the test
    [if (originalTransition)] drops a transition to state 0). *)
Theorem minimize_result_shape (fuel : nat) (t : min_table) (m m' : mstate)
    (M : list (nat * list (string * option nat))) :
  minimize fuel t m = (Normal M, m') →
  iobj_sorted M ∧
  ∃ n, (∀ k, is_Some (iobj_get M k) ↔ 1 ≤ k ≤ n) ∧
    ∀ k row c v, iobj_get M k = Some row → Object_get row c = Some v →
      (c = "a" ∨ c = "b") ∧
      (∀ j, v = Some j → 1 ≤ j ≤ n) ∧
      ∃ first rowT tr,
        iobj_get t first = Some rowT ∧ Object_get rowT c = Some (Some (S tr)).
Proof.
  unfold minimize. destruct (init_classes t m) as [nonAccepting m0].
  destruct (refine fuel m0 _ None) as [[m1 current]| |] eqn:Er; [|done..].
  intros [= E <-]. unfold build_minimized in E.
  assert (NoDup current) as Hnd by (eapply refine_current_NoDup; [exact Er|by left]).
  destruct (build_rows _ _ _ _ _ _ E I) as (Hs & Hkeys & Hrows).
  split; [done|]. exists (length current). split.
  - intros k. rewrite Hkeys, remap_indices by done. simpl.
    split; [intros [[? ?]|?]; done|by right].
  - intros k row c v Hk Hv. destruct (Hrows k row Hk) as [?|Hok]; [done|].
    destruct (Hok c v Hv) as (Hc & Hj & Hex). split; [done|]. split; [|done].
    intros j ->. apply remap_indices; [done|]. by apply Hj.
Qed.

Lemma minimize_result_shape_witness :
  iobj_sorted (minimized_spec table) ∧
  ∃ n, (∀ k, is_Some (iobj_get (minimized_spec table) k) ↔ 1 ≤ k ≤ n) ∧
    ∀ k row c v, iobj_get (minimized_spec table) k = Some row →
      Object_get row c = Some v →
      (c = "a" ∨ c = "b") ∧
      (∀ j, v = Some j → 1 ≤ j ≤ n) ∧
      ∃ first rowT tr,
        iobj_get table first = Some rowT ∧ Object_get rowT c = Some (Some (S tr)).
Proof.
  apply (minimize_result_shape 2 table module_init
           (minimize 2 table module_init).2).
  vm_compute. reflexivity.
Defined.

(** ** A run only allocates *)

Lemma prefix_insert_beyond {A} (l0 l : list A) (r : nat) (v : A) :
  l0 `prefix_of` l → length l0 ≤ r → l0 `prefix_of` <[r := v]> l.
Proof.
  intros [k ->] Hr. exists (<[r - length l0 := v]> k).
  by rewrite insert_app_r_alt.
Qed.

Lemma init_classes_allocates (t : min_table) (m : mstate) :
  sets m `prefix_of` sets (init_classes t m).2.
Proof.
  unfold init_classes. simpl.
  assert (sets m `prefix_of` sets (mkM (sets m ++ [[]]) (currentTransitionMap m))) as H0.
  { simpl. by apply prefix_app_r. }
  revert H0. generalize (mkM (sets m ++ [[]]) (currentTransitionMap m)).
  induction (iobj_keys t) as [|state keys IH]; intros m1 H1; simpl; [done|].
  apply IH. destruct (Set_has (set_of m1 accepting_ref) state); simpl; [done|].
  by apply prefix_insert_beyond.
Qed.

Lemma handle_state_allocates (l0 : list (list nat)) (acc : mstate * list (nat * nat))
    (state : nat) :
  l0 `prefix_of` sets acc.1 → Forall (λ p : nat * nat, length l0 ≤ p.2) acc.2 →
  l0 `prefix_of` sets (handle_state acc state).1 ∧
  Forall (λ p : nat * nat, length l0 ≤ p.2) (handle_state acc state).2.
Proof.
  destruct acc as [m hs]. simpl. intros Hpre Hhs.
  destruct (find _ (iobj_keys hs)) as [k|]; simpl.
  - destruct (iobj_get hs k) as [r|] eqn:Er; simpl; [|done].
    assert (length l0 ≤ r) as Hr.
    { apply iobj_get_elem_of in Er. rewrite Forall_forall in Hhs. by apply (Hhs (k, r)). }
    split; [by apply prefix_insert_beyond|by apply iobj_set_Forall].
  - split; [by apply prefix_app_r|]. apply iobj_set_Forall; [done|]. simpl.
    by apply prefix_length.
Qed.

Lemma handle_rest_allocates (l0 : list (list nat)) (rest : list nat) :
  ∀ acc : mstate * list (nat * nat),
  l0 `prefix_of` sets acc.1 → Forall (λ p : nat * nat, length l0 ≤ p.2) acc.2 →
  l0 `prefix_of` sets (foldl handle_state acc rest).1.
Proof.
  induction rest as [|x rest IH]; intros acc H1 H2; simpl; [done|].
  destruct (handle_state_allocates l0 acc x H1 H2). by apply IH.
Qed.

Lemma handle_set_allocates (l0 : list (list nat)) (m m' : mstate)
    (tm tm' : list (nat * nat)) (set : nat) :
  l0 `prefix_of` sets m → handle_set (Normal (m, tm)) set = Normal (m', tm') →
  l0 `prefix_of` sets m'.
Proof.
  intros Hpre. unfold handle_set.
  destruct (set_of m set) as [|first rest]; [done|].
  pose proof (handle_rest_allocates l0 rest
                (mkM (sets m ++ [[first]]) (currentTransitionMap m),
                 iobj_set [] first (length (sets m)))) as H.
  destruct (foldl handle_state _ rest) as [m1 hs1]. intros [= <- <-].
  apply H; simpl.
  - by apply prefix_app_r.
  - constructor; [|constructor]. simpl. by apply prefix_length.
Qed.

Lemma foldl_handle_set_stuck (current : list ref) (o : completion (mstate * list (nat * nat))) :
  (∀ a, o ≠ Normal a) → foldl handle_set o current = o.
Proof.
  intros Ho. induction current as [|set current IH]; simpl; [done|].
  assert (handle_set o set = o) as ->; [|done].
  destruct o; [by destruct (Ho a)|done|done].
Qed.

Lemma refine_round_allocates (l0 : list (list nat)) (m m' : mstate)
    (current current' : list nat) :
  l0 `prefix_of` sets m → refine_round m current = Normal (m', current') →
  l0 `prefix_of` sets m'.
Proof.
  intros Hpre. unfold refine_round.
  destruct (foldl handle_set (Normal (m, [])) current) as [[m1 tm1]| |] eqn:E; try done.
  intros [= <- <-]. simpl.
  revert E. generalize (@nil (nat * nat)) as tm0. revert m Hpre.
  induction current as [|set current IH]; intros m Hpre tm0; simpl.
  - by intros [= <- <-].
  - destruct (handle_set (Normal (m, tm0)) set) as [[m2 tm2]| |] eqn:E2;
      [|by rewrite foldl_handle_set_stuck..].
    apply IH. by eapply handle_set_allocates.
Qed.

Lemma refine_allocates (l0 : list (list nat)) (fuel : nat) :
  ∀ m current previous m' current',
  l0 `prefix_of` sets m → refine fuel m current previous = Normal (m', current') →
  l0 `prefix_of` sets m'.
Proof.
  induction fuel as [|fuel IH]; intros m current previous m' current' Hpre; simpl.
  - destruct (sameRow m current previous); [by intros [= <- <-]|done].
  - destruct (sameRow m current previous); [by intros [= <- <-]|].
    destruct (refine_round m current) as [[m1 c1]| |] eqn:E; try done.
    apply IH. by eapply refine_round_allocates.
Qed.

(** X17: whatever the table, the module state and the outcome, a call of
    [minimize] leaves every [Set] object that existed before the call as
    it was ([accepting] among them): it only adds members to the sets it
    allocates itself. *)
Theorem minimize_only_fills_its_own_sets (fuel : nat) (t : min_table) (m : mstate) :
  sets m `prefix_of` sets (minimize fuel t m).2.
Proof.
  unfold minimize. pose proof (init_classes_allocates t m) as H0.
  destruct (init_classes t m) as [nonAccepting m0]. simpl in H0.
  destruct (refine fuel m0 _ None) as [[m' current']| |] eqn:E; simpl; try done.
  by eapply refine_allocates.
Qed.

(** ** [sameRow] compares classes as sets *)

Lemma String_compare_trans_le (s1 : string) : ∀ s2 s3,
  String.compare s1 s2 ≠ Gt → String.compare s2 s3 ≠ Gt → String.compare s1 s3 ≠ Gt.
Proof.
  induction s1 as [|c1 s1 IH]; intros [|c2 s2] [|c3 s3]; simpl; try done.
  unfold Ascii.compare.
  destruct (N.compare_spec (N_of_ascii c1) (N_of_ascii c2)) as [E12|E12|E12];
    destruct (N.compare_spec (N_of_ascii c2) (N_of_ascii c3)) as [E23|E23|E23];
    try done; intros H1 H2.
  - rewrite E12, E23, N.compare_refl. by eapply IH.
  - rewrite E12. by rewrite (proj2 (N.compare_lt_iff _ _) E23).
  - rewrite <- E23. by rewrite (proj2 (N.compare_lt_iff _ _) E12).
  - rewrite (proj2 (N.compare_lt_iff _ _)); [done|]. by etrans.
Qed.

Lemma String_leb_trans (s1 s2 s3 : string) :
  String.leb s1 s2 = true → String.leb s2 s3 = true → String.leb s1 s3 = true.
Proof.
  unfold String.leb. intros H1 H2.
  pose proof (String_compare_trans_le s1 s2 s3) as H.
  destruct (String.compare s1 s2); try done;
    destruct (String.compare s2 s3); try done;
    destruct (String.compare s1 s3); try done; by destruct H.
Qed.

Lemma sort_order_trans : Transitive sort_order.
Proof. intros x y z. apply String_leb_trans. Qed.

Lemma sort_order_antisym : AntiSymm eq sort_order.
Proof. intros x y H1 H2. apply Number_toString_inj. by apply String.leb_antisym. Qed.

Lemma sort_insert_Permutation (x : nat) (l : list nat) : sort_insert x l ≡ₚ x :: l.
Proof.
  induction l as [|y l IH]; simpl; [done|].
  destruct (String.leb _ _); [|done]. rewrite IH. apply Permutation_swap.
Qed.

Lemma sort_insert_Sorted (x : nat) (l : list nat) :
  Sorted sort_order l → Sorted sort_order (sort_insert x l).
Proof.
  induction l as [|y l IH]; simpl; intros Hs.
  - by repeat constructor.
  - destruct (String.leb (Number_toString y) (Number_toString x)) eqn:E.
    + apply Sorted_inv in Hs as [Hs Hhd]. constructor; [by apply IH|].
      destruct l as [|z l]; simpl.
      * by constructor.
      * destruct (String.leb (Number_toString z) (Number_toString x)).
        -- constructor. by apply HdRel_inv in Hhd.
        -- by constructor.
    + constructor; [done|]. constructor. unfold sort_order.
      destruct (String.leb_total (Number_toString x) (Number_toString y)) as [?|H];
        [done|]. by rewrite H in E.
Qed.

Lemma Array_sort_fold (l : list nat) : ∀ acc,
  Sorted sort_order acc →
  Sorted sort_order (foldl (λ acc x, sort_insert x acc) acc l) ∧
  foldl (λ acc x, sort_insert x acc) acc l ≡ₚ acc ++ l.
Proof.
  induction l as [|x l IH]; intros acc Hs; simpl.
  - by rewrite app_nil_r.
  - destruct (IH (sort_insert x acc)) as [H1 H2]; [by apply sort_insert_Sorted|].
    split; [done|]. rewrite H2, sort_insert_Permutation.
    simpl. apply Permutation_middle.
Qed.

Lemma Array_sort_Sorted (l : list nat) : Sorted sort_order (Array_sort l).
Proof. apply Array_sort_fold. constructor. Qed.

Lemma Array_sort_Permutation (l : list nat) : Array_sort l ≡ₚ l.
Proof. apply (Array_sort_fold l []). constructor. Qed.

Lemma Array_sort_eq_iff (l1 l2 : list nat) : Array_sort l1 = Array_sort l2 ↔ l1 ≡ₚ l2.
Proof.
  split.
  - intros E. by rewrite <- (Array_sort_Permutation l1), E, Array_sort_Permutation.
  - intros Hp.
    apply (@Sorted_unique _ sort_order sort_order_trans sort_order_antisym);
      [apply Array_sort_Sorted..|].
    by rewrite !Array_sort_Permutation.
Qed.

(** X18: [sameRow(r1, r2)] is true exactly when [r2] is there, the two rows
    have as many classes, and the classes at the same position have the
    same members, in whatever order they were inserted; the identity of the
    [Set] objects plays no part. *)
Theorem sameRow_iff_same_members (m : mstate) (r1 : list ref) (r2 : option (list ref)) :
  sameRow m r1 r2 = true ↔
  ∃ r2', r2 = Some r2' ∧ Forall2 (λ s1 s2, set_of m s1 ≡ₚ set_of m s2) r1 r2'.
Proof.
  destruct r2 as [r2|]; simpl.
  2:{ split; [done|]. by intros (? & ? & _). }
  rewrite andb_true_iff, Nat.eqb_eq. split.
  - intros [Hlen Hall]. exists r2. split; [done|].
    revert r2 Hlen Hall. induction r1 as [|s1 r1 IH]; intros [|s2 r2]; simpl; try done.
    intros [= Hlen] [[_ Hj]%andb_true_iff Hall]%andb_true_iff. constructor; [|by apply IH].
    apply String.eqb_eq, join_inj in Hj. by apply Array_sort_eq_iff.
  - intros (? & [= <-] & Hall). split; [by eapply Forall2_length|].
    induction Hall as [|s1 s2 r1 r2 Hp Hall IH]; simpl; [done|].
    rewrite IH, andb_true_r. apply andb_true_iff. split.
    + apply Nat.eqb_eq. by rewrite Hp.
    + apply String.eqb_eq. f_equal. by apply Array_sort_eq_iff.
Qed.

(** ** [goto] *)

(** X19: [goto] numbers the targets of a state in the order in which
    [addTransition] added them, a repeated target counting once: after
    [addTransition(symbol, toState)], [goto(symbol, index)] returns what it
    returned before for the indices that were in range, [toState] at the
    next index if it is new, and [undefined] beyond; it leaves the store as
    it is. *)
Theorem goto_follows_insertion_order (h : heap) (this : ref) (symbol : symbol)
    (toState : ref) :
  this < length h →
  ∃ h', addTransition this symbol toState h = Some h' ∧
    ∀ index,
      goto this symbol index h'
      = Some ((if decide (toState ∈ targets h this symbol)
               then targets h this symbol
               else targets h this symbol ++ [toState]) !! index, h').
Proof.
  intros Hs. destruct (addTransition_spec h this symbol toState Hs)
    as (h' & E & Hlen & Hfr & HT & HA & Hwf).
  exists h'. split; [done|]. intros index.
  assert (this < length h') as Hs' by lia.
  destruct (lookup_lt_is_Some_2 h' this Hs') as [st Hst].
  pose proof (HT this symbol) as HTs. rewrite decide_True in HTs by done.
  unfold goto, getTransitionsOnSymbol. rewrite Hst. simpl.
  unfold targets at 1 in HTs. rewrite Hst in HTs.
  assert (Set_add (targets h this symbol) toState
          = if decide (toState ∈ targets h this symbol)
            then targets h this symbol else targets h this symbol ++ [toState]) as Eadd.
  { destruct (decide _) as [Hin|Hin].
    - by apply Set_add_present.
    - by apply Set_add_fresh. }
  destruct (Map_get (_transitions st) symbol) as [l|] eqn:El; simpl in HTs.
  - simpl. unfold Set_get. by rewrite HTs, Eadd.
  - exfalso. assert (toState ∈ Set_add (targets h this symbol) toState) as Hin
      by (apply Set_add_elem_of; by right).
    rewrite <- HTs in Hin. by apply not_elem_of_nil in Hin.
Qed.

Lemma goto_follows_insertion_order_witness :
  ∃ h', addTransition 0 EPSILON 1 star_heap = Some h' ∧
    ∀ index,
      goto 0 EPSILON index h'
      = Some ((if decide (1 ∈ targets star_heap 0 EPSILON)
               then targets star_heap 0 EPSILON
               else targets star_heap 0 EPSILON ++ [1]) !! index, h').
Proof. apply (goto_follows_insertion_order star_heap 0 EPSILON 1). simpl. lia. Defined.

(** ** Fragments with several accepting states *)

Lemma only_accepting_length (keep : ref → bool) (h : heap) :
  length (only_accepting keep h) = length h.
Proof. apply length_imap. Qed.

Lemma only_accepting_targets (keep : ref → bool) (h : heap) (x : ref) (c : symbol) :
  targets (only_accepting keep h) x c = targets h x c.
Proof.
  unfold targets, only_accepting. rewrite list_lookup_imap.
  by destruct (h !! x).
Qed.

Lemma only_accepting_flag (keep : ref → bool) (h : heap) (x : ref) :
  x < length h → is_accepting (only_accepting keep h) x = keep x.
Proof.
  intros Hx. destruct (lookup_lt_is_Some_2 h x Hx) as [st Hst].
  unfold is_accepting, only_accepting. by rewrite list_lookup_imap, Hst.
Qed.

Lemma run_same_targets (h h' : heap) (s u : ref) (w : list symbol) :
  (∀ x c, targets h' x c = targets h x c) → run h s w u ↔ run h' s w u.
Proof.
  intros Heq. apply (run_frame h h' (λ _, True)); auto.
Qed.

Lemma run_mono (h h' : heap) (s u : ref) (w : list symbol) :
  (∀ x c y, y ∈ targets h x c → y ∈ targets h' x c) → run h s w u → run h' s w u.
Proof.
  intros Hsub Hrun. induction Hrun as [s|s t u w Ht _ IH|s t u c w Hc Ht _ IH].
  - constructor.
  - eapply run_epsilon; [|done]. by apply Hsub.
  - eapply run_symbol; [done| |done]. by apply Hsub.
Qed.

(** A region with its flags replaced so that the exit alone accepts. *)
Lemma frag_only_accepting (keep : ref → bool) (h : heap) (R : ref → Prop) (i o : ref)
    (L : list symbol → Prop) :
  R i → R o → (∀ x, R x → x < length h) →
  (∀ x c y, R x → y ∈ targets h x c → R y) →
  (∀ w, run h i w o ↔ L w) →
  (∀ x, R x → (keep x = true ↔ x = o)) →
  frag (only_accepting keep h) R i o L.
Proof.
  intros Hi Ho Hlt Hcl HL Hkeep. split_and!; try done.
  - intros x Hx. rewrite only_accepting_length. by apply Hlt.
  - intros x c y Hx. rewrite only_accepting_targets. by apply Hcl.
  - intros x Hx. rewrite only_accepting_flag by (by apply Hlt). by apply Hkeep.
  - intros w. rewrite <- HL. symmetry. apply run_same_targets.
    intros x c. apply only_accepting_targets.
Qed.

Lemma frag_multi (h : heap) (R : ref → Prop) (i o : ref) (L : list symbol → Prop) :
  frag h R i o L → multi_frag h R i o L (λ _, False).
Proof.
  intros (Hi & Ho & Hlt & Hcl & Hacc & HL). split_and!; try done.
  - by apply Hacc.
  - intros w. split; [|done]. intros (u & Hne & Hu & Hrun).
    apply Hne, Hacc; [|done]. by eapply run_region.
Qed.

Lemma multi_frag_frame (h h' : heap) (R : ref → Prop) (i o : ref)
    (L X : list symbol → Prop) :
  multi_frag h R i o L X → length h ≤ length h' →
  (∀ x, R x → h' !! x = h !! x) →
  multi_frag h' R i o L X.
Proof.
  intros (Hi & Ho & Hlt & Hcl & Hacc & HL & HX) Hlen Heq.
  assert (∀ x c, R x → targets h' x c = targets h x c) as HT.
  { intros x c Hx. apply targets_lookup_eq. by apply Heq. }
  assert (∀ w u, run h i w u ↔ run h' i w u) as Hrun.
  { intros w u. by apply (run_frame h h' R). }
  split_and!; try done.
  - intros x Hx. specialize (Hlt x Hx). lia.
  - intros x c y Hx. rewrite HT by done. by apply Hcl.
  - rewrite (is_accepting_lookup_eq h h') by (by apply Heq). done.
  - intros w. by rewrite <- HL, Hrun.
  - intros w. rewrite <- HX. split; intros (u & Hne & Hu & Hr); exists u.
    + apply Hrun in Hr. split_and!; [done| |done].
      rewrite <- (is_accepting_lookup_eq h h'); [done|]. apply Heq.
      by eapply run_region.
    + split_and!; [done| |by apply Hrun].
      rewrite (is_accepting_lookup_eq h h'); [done|]. apply Heq.
      by eapply run_region.
Qed.

Lemma multi_frag_ext (h : heap) (R : ref → Prop) (i o : ref)
    (L L' X X' : list symbol → Prop) :
  (∀ w, L w ↔ L' w) → (∀ w, X w ↔ X' w) →
  multi_frag h R i o L X → multi_frag h R i o L' X'.
Proof.
  intros HLL HXX (Hi & Ho & Hlt & Hcl & Hacc & HL & HX). split_and!; try done.
  - intros w. by rewrite HL.
  - intros w. by rewrite HX.
Qed.

(** Acceptance from the entry: a run to the exit or to another accepting
    state. *)
Lemma multi_frag_accepts (h : heap) (R : ref → Prop) (i o : ref)
    (L X : list symbol → Prop) (w : list symbol) :
  multi_frag h R i o L X → EPSILON ∉ w → accepts h i w ↔ L w ∨ X w.
Proof.
  intros (Hi & Ho & Hlt & Hcl & Hacc & HL & HX) Hw.
  rewrite accepts_run by done. rewrite <- HL, <- HX. split.
  - intros (u & Hrun & Hu). destruct (decide (u = o)) as [->|Hne]; [by left|].
    right. by exists u.
  - intros [Hrun|(u & _ & Hu & Hrun)]; eauto.
Qed.

(** ** The graph of [orPair] in [NFA.js] *)

Lemma orN_graph (h h' : heap) (R1 R2 : ref → Prop) (i1 o1 i2 o2 : ref)
    (L1 X1 L2 : list symbol → Prop) :
  multi_frag h R1 i1 o1 L1 X1 → frag h R2 i2 o2 L2 →
  (∀ x, R1 x → R2 x → False) →
  length h' = S (S (length h)) →
  (∀ x c y, y ∈ targets h' x c
            ↔ y ∈ targets h x c ∨ (x = length h ∧ c = EPSILON ∧ (y = i1 ∨ y = i2))
              ∨ ((x = o1 ∨ x = o2) ∧ c = EPSILON ∧ y = S (length h))) →
  (∀ x, is_accepting h' x
        = if decide (x = S (length h)) then true else is_accepting h x) →
  multi_frag h' (λ x, R1 x ∨ R2 x ∨ x = length h ∨ x = S (length h))
    (length h) (S (length h)) (alternative L1 L2) (or_extra L1 X1 L2).
Proof.
  intros (Hi1 & Ho1 & Hlt1 & Hcl1 & Hacc1 & HL1 & HX1) Hfrag2 Hdisj Hlen HT HA.
  pose proof Hfrag2 as (Hi2 & Ho2 & Hlt2 & Hcl2 & Hacc2 & HL2).
  set (keep0 := λ x : ref, bool_decide (x = o1 ∨ x = o2)).
  set (keep1 := λ x : ref, bool_decide (x = S (length h))).
  assert (frag (only_accepting keep0 h) R1 i1 o1 L1) as Hc1.
  { apply frag_only_accepting; try done. intros x Hx. unfold keep0.
    rewrite bool_decide_eq_true. split; [|by left].
    intros [->| ->]; [done|]. exfalso. by eapply Hdisj. }
  assert (frag (only_accepting keep0 h) R2 i2 o2 L2) as Hc2.
  { apply frag_only_accepting; try done. intros x Hx. unfold keep0.
    rewrite bool_decide_eq_true. split; [|by right].
    intros [->| ->]; [|done]. exfalso. by eapply Hdisj. }
  pose proof (or_graph (only_accepting keep0 h) (only_accepting keep1 h')
                R1 R2 i1 o1 i2 o2 L1 L2 Hc1 Hc2 Hdisj) as Hor.
  simpl in Hor. rewrite !only_accepting_length in Hor.
  destruct (Hor Hlen) as (Hi & Ho & Hlt & Hcl & _ & HL).
  { intros x c y. rewrite !only_accepting_targets. apply HT. }
  { intros x. destruct (decide (x < length h')) as [Hx|Hx].
    - rewrite only_accepting_flag by done. unfold keep1.
      destruct (decide (x = S (length h))) as [->|Hne].
      + by rewrite bool_decide_eq_true_2.
      + rewrite bool_decide_eq_false_2 by done.
        destruct (decide (x = o1 ∨ x = o2)) as [E|Hne']; [done|].
        destruct (decide (x < length h)) as [Hx'|Hx'].
        * rewrite only_accepting_flag by done. unfold keep0.
          by rewrite bool_decide_eq_false_2.
        * rewrite is_accepting_ge; [done|]. rewrite only_accepting_length. lia.
    - rewrite is_accepting_ge by (rewrite only_accepting_length; lia).
      rewrite decide_False by lia.
      destruct (decide (x = o1 ∨ x = o2)); [done|].
      rewrite is_accepting_ge; [done|]. rewrite only_accepting_length. lia. }
  assert (∀ x c, targets (only_accepting keep1 h') x c = targets h' x c) as Hsame
    by (intros x c; apply only_accepting_targets).
  assert (∀ x c y, length h ≤ x → y ∈ targets h x c → False) as Hnew.
  { intros x c y Hx. rewrite targets_ge by done. apply not_elem_of_nil. }
  assert (∀ x w u, run h x w u → run h' x w u) as Hfwd.
  { intros x w u. apply run_mono. intros x' c y Hy. apply HT. by left. }
  assert (∀ w u, run h' (S (length h)) w u → u = S (length h)) as Hexit.
  { intros w u Hrun. inversion Hrun as [s|s t u' w' Ht _|s t u' c w' Hc Ht _]; subst.
    - done.
    - exfalso. apply HT in Ht as [Ht|[(E & _)|([E|E] & _)]].
      + eapply Hnew; [|done]. lia.
      + lia.
      + specialize (Hlt1 _ Ho1). lia.
      + specialize (Hlt2 _ Ho2). lia.
    - exfalso. apply HT in Ht as [Ht|[(_ & E & _)|(_ & E & _)]]; try done.
      eapply Hnew; [|done]. lia. }
  assert (∀ (R : ref → Prop),
            (∀ x, R x → x < length h) →
            (∀ x c y, R x → y ∈ targets h x c → R y) →
            ∀ x w u, run h' x w u → R x → u ≠ S (length h) → run h x w u ∧ R u) as Hstay.
  { intros R Hlt' Hcl' x w u Hrun.
    induction Hrun as [s|s t u w Ht Hrun IH|s t u c w Hc Ht Hrun IH]; intros Hx Hu.
    - split; [constructor|done].
    - apply HT in Ht as [Ht|[(E & _)|(E & _ & ->)]].
      + destruct IH as [Hr HRu]; [by eapply Hcl'|done|]. split; [|done].
        by eapply run_epsilon.
      + specialize (Hlt' _ Hx). lia.
      + by apply Hexit in Hrun.
    - apply HT in Ht as [Ht|[(_ & E & _)|(_ & E & _)]]; try done.
      destruct IH as [Hr HRu]; [by eapply Hcl'|done|]. split; [|done].
      by eapply run_symbol. }
  split_and!.
  - auto.
  - auto.
  - intros x Hx. specialize (Hlt x Hx). by rewrite only_accepting_length in Hlt.
  - intros x c y Hx. rewrite <- Hsame. by apply Hcl.
  - rewrite HA. by rewrite decide_True.
  - intros w. rewrite <- HL. apply run_same_targets. intros x c. by rewrite Hsame.
  - intros w. unfold or_extra. split.
    + intros (u & Hne & Hu & Hrun). rewrite HA, decide_False in Hu by done.
      assert (u < length h) as Hu_lt.
      { destruct (decide (u < length h)); [done|].
        rewrite is_accepting_ge in Hu by lia. done. }
      inversion Hrun as [s E1 E2|s t u' w' Ht Hrun'|s t u' c w' Hc Ht _]; subst.
      * lia.
      * apply HT in Ht as [Ht|[(_ & _ & [->| ->])|([E|E] & _)]].
        -- exfalso. eapply Hnew; [|done]. lia.
        -- destruct (Hstay R1 Hlt1 Hcl1 _ _ _ Hrun' Hi1 Hne) as [Hr HRu].
           destruct (decide (u = o1)) as [->|Hne1].
           ++ right. left. by apply HL1.
           ++ left. apply HX1. by exists u.
        -- destruct (Hstay R2 Hlt2 Hcl2 _ _ _ Hrun' Hi2 Hne) as [Hr HRu].
           apply Hacc2 in Hu; [|done]. subst u. right. right. by apply HL2.
        -- specialize (Hlt1 _ Ho1). lia.
        -- specialize (Hlt2 _ Ho2). lia.
      * exfalso. apply HT in Ht as [Ht|[(_ & E & _)|(_ & E & _)]]; try done.
        eapply Hnew; [|done]. lia.
    + assert (∀ u w, u < length h → is_accepting h u = true →
                (run h i1 w u ∨ run h i2 w u) →
                ∃ u, u ≠ S (length h) ∧ is_accepting h' u = true
                     ∧ run h' (length h) w u) as Hgo.
      { intros u w' Hu_lt Hu Hr. exists u. split; [lia|]. split.
        - rewrite HA, decide_False by lia. done.
        - destruct Hr as [Hr|Hr].
          + apply (run_epsilon _ _ i1); [|by apply Hfwd].
            apply HT. right. left. auto.
          + apply (run_epsilon _ _ i2); [|by apply Hfwd].
            apply HT. right. left. auto. }
      intros [(u & Hne & Hu & Hr)%HX1|[Hr%HL1|Hr%HL2]].
      * apply (Hgo u); [|done|by left]. apply Hlt1. by eapply run_region.
      * apply (Hgo o1); [by apply Hlt1|done|by left].
      * apply (Hgo o2); [by apply Hlt2|by apply Hacc2|by right].
Qed.

(** ** The graph of [altPair] on a first operand with several accepting
    states *)

Lemma altN_graph (h h' : heap) (R1 R2 : ref → Prop) (i1 o1 i2 o2 : ref)
    (L1 X1 L2 : list symbol → Prop) :
  multi_frag h R1 i1 o1 L1 X1 → frag h R2 i2 o2 L2 →
  (∀ x, R1 x → R2 x → False) →
  length h' = length h →
  (∀ x c y, y ∈ targets h' x c
            ↔ y ∈ targets h x c ∨ (x = o1 ∧ c = EPSILON ∧ y = i2)) →
  (∀ x, is_accepting h' x
        = if decide (x = o2) then true
          else if decide (x = o1) then false else is_accepting h x) →
  multi_frag h' (λ x, R1 x ∨ R2 x) i1 o2 (cat L1 L2) (alt_extra L1 X1 L2).
Proof.
  intros (Hi1 & Ho1 & Hlt1 & Hcl1 & Hacc1 & HL1 & HX1) Hfrag2 Hdisj Hlen HT HA.
  pose proof Hfrag2 as (Hi2 & Ho2 & Hlt2 & Hcl2 & Hacc2 & HL2).
  assert (o1 ≠ o2) as Hne12 by (intros E; rewrite E in Ho1; by eapply Hdisj).
  set (keep0 := λ x : ref, bool_decide (x = o1 ∨ x = o2)).
  set (keep1 := λ x : ref, bool_decide (x = o2)).
  assert (frag (only_accepting keep0 h) R1 i1 o1 L1) as Hc1.
  { apply frag_only_accepting; try done. intros x Hx. unfold keep0.
    rewrite bool_decide_eq_true. split; [|by left].
    intros [->| ->]; [done|]. exfalso. by eapply Hdisj. }
  assert (frag (only_accepting keep0 h) R2 i2 o2 L2) as Hc2.
  { apply frag_only_accepting; try done. intros x Hx. unfold keep0.
    rewrite bool_decide_eq_true. split; [|by right].
    intros [->| ->]; [|done]. exfalso. by eapply Hdisj. }
  destruct (alt_graph (only_accepting keep0 h) (only_accepting keep1 h')
              R1 R2 i1 o1 i2 o2 L1 L2 Hc1 Hc2 Hdisj) as (Hi & Ho & Hlt & Hcl & _ & HL).
  { rewrite !only_accepting_length. done. }
  { intros x c y. rewrite !only_accepting_targets. apply HT. }
  { intros x. destruct (decide (x < length h)) as [Hx|Hx].
    - rewrite !only_accepting_flag by lia. unfold keep1, keep0.
      destruct (decide (x = o2)) as [->|Hne].
      + by rewrite bool_decide_eq_true_2.
      + rewrite bool_decide_eq_false_2 by done.
        destruct (decide (x = o1)) as [E|Hne']; [done|].
        rewrite bool_decide_eq_false_2; [done|]. by intros [?|?].
    - rewrite !is_accepting_ge by (rewrite only_accepting_length; lia).
      specialize (Hlt1 _ Ho1). specialize (Hlt2 _ Ho2).
      rewrite !decide_False by lia. done. }
  assert (∀ x c, targets (only_accepting keep1 h') x c = targets h' x c) as Hsame
    by (intros x c; apply only_accepting_targets).
  assert (∀ x c y, R2 x → y ∈ targets h' x c → R2 y) as Hcl2'.
  { intros x c y Hx [Hy|(-> & _)]%HT; [by eapply Hcl2|]. exfalso. by eapply Hdisj. }
  assert (∀ x w u, run h' x w u → R1 x → R1 u → run h x w u) as Hstay.
  { intros x w u Hrun.
    induction Hrun as [s|s t u w Ht Hrun IH|s t u c w Hc Ht Hrun IH]; intros Hx Hu.
    - constructor.
    - apply HT in Ht as [Ht|(-> & _ & ->)].
      + eapply run_epsilon; [done|]. apply IH; [by apply (Hcl1 s EPSILON)|done].
      + exfalso. apply (Hdisj u Hu). by eapply (run_region h' R2).
    - apply HT in Ht as [Ht|(_ & E & _)]; [|done].
      eapply run_symbol; [done..|]. apply IH; [by apply (Hcl1 s c)|done]. }
  assert (∀ x c y, R1 x ∨ R2 x → y ∈ targets h' x c → R1 y ∨ R2 y) as Hcl'.
  { intros x c y Hx. rewrite <- Hsame. by apply Hcl. }
  split_and!.
  - auto.
  - auto.
  - intros x Hx. specialize (Hlt x Hx). by rewrite only_accepting_length in Hlt.
  - done.
  - rewrite HA. by rewrite decide_True.
  - intros w. rewrite <- HL. apply run_same_targets. intros x c. by rewrite Hsame.
  - intros w. unfold alt_extra. rewrite <- HX1. split.
    + intros (u & Hne & Hu & Hrun). rewrite HA, decide_False in Hu by done.
      destruct (decide (u = o1)) as [->|Hne1]; [done|].
      assert (R1 u ∨ R2 u) as [HRu|HRu].
      { eapply (run_region h' (λ x, R1 x ∨ R2 x)); [done|done|by left]. }
      * exists u. split_and!; [done..|]. by apply Hstay.
      * exfalso. apply Hne. by apply Hacc2.
    + intros (u & Hne & Hu & Hrun).
      assert (R1 u) as HRu by (by eapply run_region).
      assert (u ≠ o2) as Hne2 by (intros ->; by eapply Hdisj).
      exists u. split_and!; [done| |].
      * by rewrite HA, !decide_False.
      * eapply run_mono; [|done]. intros x c y Hy. apply HT. by left.
Qed.

(** ** The two pair combinators on the store *)

Lemma orN_pair_spec : multi_pair_spec NFA_js.orPair alternative or_extra keeps_flags.
Proof.
  intros first second σ n1 n2 R1 R2 L1 X1 L2 Hwf Hn1' Hn2' Hfrag1 Hfrag2 Hdisj.
  pose proof Hfrag1 as (Hi1 & Ho1 & Hlt1 & _).
  pose proof Hfrag2 as (Hi2 & Ho2 & Hlt2 & _).
  pose proof (Hlt1 _ Hi1). pose proof (Hlt1 _ Ho1).
  pose proof (Hlt2 _ Hi2). pose proof (Hlt2 _ Ho2).
  unfold NFA_js.orPair.
  destruct (new_NFAState_spec false σ) as (σ1 & -> & Hn1 & Hl1 & Hf1 & HT1 & HA1 & Hwf1).
  destruct (new_NFAState_spec false σ1) as (σ2 & -> & Hn2 & Hl2 & Hf2 & HT2 & HA2 & Hwf2).
  rewrite Hl1, Hn2, Hn1, Hn1', Hn2'. simpl.
  destruct (upd_addTransition_spec σ2 (length (states σ)) EPSILON (in_ n1))
    as (σ3 & -> & Hn3 & Hl3 & Hf3 & HT3 & HA3 & Hwf3); [lia|]. simpl.
  destruct (upd_addTransition_spec σ3 (length (states σ)) EPSILON (in_ n2))
    as (σ4 & -> & Hn4 & Hl4 & Hf4 & HT4 & HA4 & Hwf4); [lia|]. simpl.
  destruct (upd_set_accepting_spec σ4 (S (length (states σ))) true)
    as (σ5 & -> & Hn5 & Hl5 & Hf5 & HT5 & HA5 & Hwf5); [lia|]. simpl.
  destruct (upd_addTransition_spec σ5 (out n1) EPSILON (S (length (states σ))))
    as (σ6 & -> & Hn6 & Hl6 & Hf6 & HT6 & HA6 & Hwf6); [lia|]. simpl.
  destruct (upd_addTransition_spec σ6 (out n2) EPSILON (S (length (states σ))))
    as (σ7 & -> & Hn7 & Hl7 & Hf7 & HT7 & HA7 & Hwf7); [lia|]. simpl.
  unfold new_NFA. rewrite Hn7, Hn6, Hn5, Hn4, Hn3, Hn2, Hn1.
  assert (∀ x, is_accepting (states σ7) x
               = if decide (x = S (length (states σ))) then true
                 else is_accepting (states σ) x) as HA.
  { intros x. rewrite HA7, HA6, HA5, HA4, HA3, HA2, HA1, Hl1.
    destruct (decide (x = S (length (states σ)))) as [->|?]; [done|].
    destruct (decide (x = length (states σ))) as [->|?]; [|done].
    by rewrite is_accepting_ge by lia. }
  eexists _, (mkNFA (length (states σ)) (S (length (states σ))) None None None None),
    (λ x, R1 x ∨ R2 x ∨ x = length (states σ) ∨ x = S (length (states σ))).
  split; [reflexivity|]. simpl. split_and!.
  - rewrite length_app. simpl. lia.
  - rewrite lookup_app_r by lia. by rewrite Nat.sub_diag.
  - intros k _ Hk. by rewrite lookup_app_l.
  - lia.
  - intros x Hx HR1 HR2.
    rewrite Hf7 by (intros ->; done). rewrite Hf6 by (intros ->; done).
    rewrite Hf5 by lia. rewrite Hf4 by lia. rewrite Hf3 by lia.
    rewrite Hf2 by lia. by apply Hf1.
  - apply Hwf7; [|lia]. apply Hwf6; [|lia]. apply Hwf5. apply Hwf4; [|lia].
    apply Hwf3; [|lia]. auto.
  - eapply (orN_graph (states σ)); [exact Hfrag1|exact Hfrag2|done|lia| |done].
    intros x c y. rewrite HT7, HT6, HT5, HT4, HT3, HT2, HT1. tauto.
  - intros x [?|[?|[->| ->]]]; auto; right; right; lia.
  - split; simpl; [lia|]. intros x Hx. rewrite HA. by rewrite decide_False by lia.
Qed.

Lemma altN_pair_spec : multi_pair_spec altPair cat alt_extra (λ _ _, True).
Proof.
  intros first second σ n1 n2 R1 R2 L1 X1 L2 Hwf Hn1' Hn2' Hfrag1 Hfrag2 Hdisj.
  pose proof Hfrag1 as (Hi1 & Ho1 & Hlt1 & _).
  pose proof Hfrag2 as (Hi2 & Ho2 & Hlt2 & _).
  pose proof (Hlt1 _ Hi1). pose proof (Hlt1 _ Ho1).
  pose proof (Hlt2 _ Hi2). pose proof (Hlt2 _ Ho2).
  assert (first ≠ second) as Hne.
  { intros ->. rewrite Hn1' in Hn2'. injection Hn2' as ->. by eapply Hdisj. }
  assert (first < length (nfas σ)) as Hfirst by (by eapply lookup_lt_Some).
  assert (second < length (nfas σ)) as Hsecond by (by eapply lookup_lt_Some).
  unfold altPair. rewrite Hn1'. simpl.
  destruct (upd_set_accepting_spec σ (out n1) false)
    as (σ1 & -> & Hn1 & Hl1 & Hf1 & HT1 & HA1 & Hwf1); [lia|]. simpl.
  rewrite Hn1, Hn2'. simpl.
  destruct (upd_set_accepting_spec σ1 (out n2) true)
    as (σ2 & -> & Hn2 & Hl2 & Hf2 & HT2 & HA2 & Hwf2); [lia|]. simpl.
  destruct (upd_addTransition_spec σ2 (out n1) EPSILON (in_ n2))
    as (σ3 & -> & Hn3 & Hl3 & Hf3 & HT3 & HA3 & Hwf3); [lia|]. simpl.
  unfold set_out. rewrite Hn3, Hn2, Hn1, Hn1'. simpl.
  rewrite list_lookup_insert_eq by done. simpl.
  rewrite list_lookup_insert_ne by done. rewrite Hn2'. simpl.
  unfold new_NFA. simpl. rewrite length_insert.
  eexists _, (mkNFA (in_ n1) (out n2) None None None None), (λ x, R1 x ∨ R2 x).
  split; [reflexivity|]. simpl. split_and!.
  - rewrite length_app, length_insert. simpl. lia.
  - rewrite lookup_app_r by (rewrite length_insert; lia).
    by rewrite length_insert, Nat.sub_diag.
  - intros k Hk Hlt. rewrite lookup_app_l by (rewrite length_insert; lia).
    by rewrite list_lookup_insert_ne.
  - lia.
  - intros x _ HR1 HR2. rewrite Hf3 by (intros ->; done).
    rewrite Hf2 by (intros ->; done). apply Hf1. by intros ->.
  - apply Hwf3; [|lia]. auto.
  - eapply (altN_graph (states σ)); [exact Hfrag1|exact Hfrag2|done|lia| |].
    + intros x c y. rewrite HT3, HT2, HT1. tauto.
    + intros x. by rewrite HA3, HA2, HA1.
  - intros x [?|?]; auto.
  - done.
Qed.

(** ** Folds on a first operand with several accepting states *)

Section fold_multi.
Variable pair : ref → ref → store → option (ref * store).
Variable comb : (list symbol → Prop) → (list symbol → Prop) → list symbol → Prop.
Variable combx : (list symbol → Prop) → (list symbol → Prop) → (list symbol → Prop)
                 → list symbol → Prop.
Variable Q : store → store → Prop.
Hypothesis Hpair : multi_pair_spec pair comb combx Q.
Hypothesis Q_refl : ∀ σ, Q σ σ.
Hypothesis Q_trans : ∀ σ1 σ2 σ3, Q σ1 σ2 → Q σ2 σ3 → Q σ1 σ3.
Variable Rf : ref → ref → Prop.
Variable Lf : ref → list symbol → Prop.

Lemma fold_multi_ok (fs : list ref) : ∀ (first : ref) (σ : store) (n0 : NFA)
    (R0 : ref → Prop) (L0 X0 : list symbol → Prop),
  wf_heap (states σ) = true →
  nfas σ !! first = Some n0 →
  multi_frag (states σ) R0 (in_ n0) (out n0) L0 X0 →
  NoDup fs → first ∉ fs →
  (∀ f, f ∈ fs → ∃ n, nfas σ !! f = Some n ∧
                      frag (states σ) (Rf f) (in_ n) (out n) (Lf f)) →
  (∀ f x, f ∈ fs → R0 x → Rf f x → False) →
  (∀ f g x, f ∈ fs → g ∈ fs → f ≠ g → Rf f x → Rf g x → False) →
  ∃ g σ' n R',
    fold_pairs pair first fs σ = Some (g, σ') ∧ nfas σ' !! g = Some n ∧
    wf_heap (states σ') = true ∧
    multi_frag (states σ') R' (in_ n) (out n)
      (foldl (multi_step comb combx) (L0, X0) (map Lf fs)).1
      (foldl (multi_step comb combx) (L0, X0) (map Lf fs)).2 ∧
    (∀ x, R' x → R0 x ∨ (∃ f, f ∈ fs ∧ Rf f x) ∨ length (states σ) ≤ x) ∧
    length (states σ) ≤ length (states σ') ∧
    (∀ x, x < length (states σ) → ¬ R0 x → (∀ f, f ∈ fs → ¬ Rf f x) →
          states σ' !! x = states σ !! x) ∧
    length (nfas σ) ≤ length (nfas σ') ∧
    (g = first ∨ length (nfas σ) ≤ g) ∧
    (∀ k, k < length (nfas σ) → k ≠ first → k ∉ fs → nfas σ' !! k = nfas σ !! k) ∧
    Q σ σ'.
Proof.
  induction fs as [|f fs IH]; intros first σ n0 R0 L0 X0 Hwf Hn0 Hfrag0 Hnd Hnotin Hfs Hd0 Hd.
  - exists first, σ, n0, R0. unfold fold_pairs. simpl. split_and!; auto.
  - apply NoDup_cons in Hnd as [Hf_notin Hnd].
    apply not_elem_of_cons in Hnotin as [Hne Hnotin].
    destruct (Hfs f) as (nf & Hnf & Hfragf); [by left|].
    destruct (Hpair first f σ n0 nf R0 (Rf f) L0 X0 (Lf f)) as
      (σ1 & n1 & R1 & E & Hlen1 & Hg1 & Hold1 & Hsl1 & Hfr1 & Hwf1 & Hfrag1 & HR1 & HQ1);
      try done.
    { intros x. apply Hd0. by left. }
    rewrite fold_pairs_cons, E.
    assert (∀ g, g ∈ fs → g < length (nfas σ)) as Hfs_lt.
    { intros g Hg. destruct (Hfs g) as (ng & Hng & _); [by right|].
      by eapply lookup_lt_Some. }
    assert (∀ g x, g ∈ fs → Rf g x → x < length (states σ)) as HRf_lt.
    { intros g x Hg Hx. destruct (Hfs g) as (ng & _ & Hfg); [by right|].
      destruct Hfg as (_ & _ & Hlt & _). by apply Hlt. }
    destruct (IH (length (nfas σ)) σ1 n1 R1 (comb L0 (Lf f)) (combx L0 X0 (Lf f))) as
      (g & σ2 & n2 & R2 & E2 & Hg2 & Hwf2 & Hfrag2 & HR2 & Hsl2 & Hfr2 & Hnl2 & Hgeq
         & Hold2 & HQ2);
      try done.
    + intros Hin%Hfs_lt. lia.
    + intros g Hg. destruct (Hfs g) as (ng & Hng & Hfg); [by right|].
      exists ng. split.
      * rewrite Hold1; [done| |by eapply lookup_lt_Some].
        intros ->. done.
      * eapply frag_frame; [done|done|].
        intros x Hx. apply Hfr1.
        -- by eapply HRf_lt.
        -- intros H0. eapply Hd0; [by right|done..].
        -- intros Hxf. eapply (Hd f g x); try done; [by left|by right|].
           intros ->. done.
    + intros g x Hg [Hx|[Hx|Hx]]%HR1 Hgx.
      * eapply Hd0; [by right|done..].
      * eapply (Hd f g x); try done; [by left|by right|]. intros ->. done.
      * pose proof (HRf_lt g x Hg Hgx). lia.
    + intros g1 g2 x Hin1 Hin2. apply Hd; by right.
    + exists g, σ2, n2, R2. simpl. split_and!; try done.
      * intros x [Hx|[(g' & Hg' & Hx)|Hx]]%HR2.
        -- apply HR1 in Hx as [?|[?|?]]; auto.
           right. left. exists f. split; [by left|done].
        -- right. left. exists g'. split; [by right|done].
        -- right. right. lia.
      * lia.
      * intros x Hx H0 Hnone. rewrite Hfr2.
        -- apply Hfr1; [done|done|]. apply Hnone. by left.
        -- lia.
        -- intros [?|[?|?]]%HR1; [done| |lia]. eapply Hnone; [|done]. by left.
        -- intros g' Hg'. apply Hnone. by right.
      * lia.
      * destruct Hgeq as [->|?]; right; lia.
      * intros k Hk Hkf Hkin. apply not_elem_of_cons in Hkin as [Hkf' Hkin].
        rewrite Hold2; [|lia|lia|done]. by apply Hold1.
      * by eapply Q_trans.
Qed.

End fold_multi.

(** The operands after the first are call nests, evaluated from left to
    right before the fold runs. *)
Lemma fold_args_multi pair comb combx (Q : store → store → Prop)
    (first : ref) (rs : list expr) (σ : store) (n0 : NFA)
    (R0 : ref → Prop) (L0 X0 : list symbol → Prop) :
  multi_pair_spec pair comb combx Q →
  (∀ σ, Q σ σ) → (∀ σ1 σ2 σ3, Q σ1 σ2 → Q σ2 σ3 → Q σ1 σ3) →
  args_inv rs →
  wf_heap (states σ) = true →
  nfas σ !! first = Some n0 →
  multi_frag (states σ) R0 (in_ n0) (out n0) L0 X0 →
  ∃ fs σ2 g σ3 n R,
    eval_args eval rs σ = Some (fs, σ2) ∧
    fold_pairs pair first fs σ2 = Some (g, σ3) ∧
    nfas σ3 !! g = Some n ∧
    wf_heap (states σ3) = true ∧
    multi_frag (states σ3) R (in_ n) (out n)
      (foldl (multi_step comb combx) (L0, X0) (map lang rs)).1
      (foldl (multi_step comb combx) (L0, X0) (map lang rs)).2 ∧
    nfas σ2 !! first = Some n0 ∧
    is_accepting (states σ2) (out n0) = true ∧ out n0 < length (states σ2) ∧
    (∀ k, k ∈ fs → ∃ nk, nfas σ2 !! k = Some nk ∧ out nk < length (states σ2) ∧
                         is_accepting (states σ2) (out nk) = true) ∧
    Q σ2 σ3.
Proof.
  intros Hpair Q_refl Q_trans Hargs Hwf Hn0 Hfrag0.
  destruct (Hargs σ Hwf) as
    (fs & σ2 & Rf & Lf & E2 & Hwf2 & Hnd & Hfs & Hd & Hmap & Hsl2 & Hfr2 & Hnl2 & Hold2).
  assert (first < length (nfas σ)) as Hf0_lt by (by eapply lookup_lt_Some).
  assert (∀ x, R0 x → x < length (states σ)) as HR0_lt.
  { destruct Hfrag0 as (_ & _ & Hlt & _). done. }
  assert (multi_frag (states σ2) R0 (in_ n0) (out n0) L0 X0) as Hfrag0'.
  { eapply multi_frag_frame; [done|done|]. intros x Hx%HR0_lt. by apply Hfr2. }
  destruct (fold_multi_ok pair comb combx Q Hpair Q_refl Q_trans Rf Lf fs first σ2 n0 R0
              L0 X0) as
    (g & σ3 & n3 & R3 & E3 & Hn3 & Hwf3 & Hfrag3 & HR3 & Hsl3 & Hfr3 & Hnl3 & Hg & Hold3
       & HQ);
    try done.
  - by rewrite Hold2.
  - intros Hin. destruct (Hfs first Hin) as [? _]. lia.
  - intros f Hf. destruct (Hfs f Hf) as (_ & n & Hn & Hfragf & _). eauto.
  - intros f x Hf Hx%HR0_lt Hfx. destruct (Hfs f Hf) as (_ & n & _ & _ & HRf).
    specialize (HRf x Hfx). lia.
  - exists fs, σ2, g, σ3, n3, R3. rewrite <- Hmap. split_and!; try done.
    + by rewrite Hold2.
    + by destruct Hfrag0' as (_ & _ & _ & _ & Hacc & _).
    + destruct Hfrag0' as (_ & Ho & Hlt & _). by apply Hlt.
    + intros k Hk. destruct (Hfs k Hk) as (_ & nk & Hnk & Hfragk & _).
      exists nk. destruct Hfragk as (_ & Ho & Hlt & _ & Hacc & _).
      split_and!; [done|by apply Hlt|by apply Hacc].
Qed.

(** ** Call nests of [NFA.js] *)

Lemma eval_args_ext (ev1 ev2 : expr → store → option (ref * store)) (rs : list expr) :
  Forall (λ r, ∀ σ, ev1 r σ = ev2 r σ) rs →
  ∀ σ, eval_args ev1 rs σ = eval_args ev2 rs σ.
Proof.
  induction 1 as [|r rs Hr _ IH]; intros σ; simpl; [done|].
  rewrite Hr. destruct (ev2 r σ) as [[f σ1]|]; simpl; [|done]. by rewrite IH.
Qed.

Lemma eval_js_or_free (r : expr) : or_free r = true → ∀ σ, eval_js r σ = eval r σ.
Proof.
  induction r as [c| |r rs IH IHrs|r rs IH IHrs|r IH] using expr_nested_ind;
    simpl; intros Hfree σ; try done.
  - apply andb_true_iff in Hfree as [H1 H2]. rewrite IH by done.
    destruct (eval r σ) as [[f σ1]|]; simpl; [|done].
    rewrite (eval_args_ext eval_js eval rs); [done|].
    rewrite forallb_forall in H2. rewrite Forall_forall in IHrs |- *.
    intros r' Hr'. apply IHrs; [done|]. apply H2. by apply list_elem_of_In.
  - rewrite IH by done. done.
Qed.

Lemma eval_args_js_or_free (rs : list expr) :
  forallb or_free rs = true → ∀ σ, eval_args eval_js rs σ = eval_args eval rs σ.
Proof.
  intros H. apply eval_args_ext. rewrite forallb_forall in H. apply Forall_forall.
  intros r Hr. apply eval_js_or_free, H. by apply list_elem_of_In.
Qed.

Lemma foldl_alternative_incl (Ls : list (list symbol → Prop)) :
  ∀ (L0 : list symbol → Prop) w, L0 w → foldl alternative L0 Ls w.
Proof.
  induction Ls as [|L Ls IH]; intros L0 w Hw; simpl; [done|].
  apply IH. by left.
Qed.

Lemma fold_or_langs (Ls : list (list symbol → Prop)) : ∀ (L0 X0 : list symbol → Prop),
  (foldl (multi_step alternative or_extra) (L0, X0) Ls).1 = foldl alternative L0 Ls ∧
  ∀ w, (foldl (multi_step alternative or_extra) (L0, X0) Ls).2 w
       ↔ X0 w ∨ (Ls ≠ [] ∧ foldl alternative L0 Ls w).
Proof.
  induction Ls as [|L Ls IH]; intros L0 X0; simpl.
  - split; [done|]. intros w. split; [by left|]. by intros [?|[? _]].
  - unfold multi_step at 2 4. simpl.
    destruct (IH (alternative L0 L) (or_extra L0 X0 L)) as [-> HX].
    split; [done|]. intros w. rewrite HX. unfold or_extra. split.
    + intros [[?|H]|[_ H]]; [by left| |by right].
      right. split; [done|]. by apply foldl_alternative_incl.
    + intros [?|[_ H]]; [by left; left|].
      destruct Ls as [|L' Ls]; [|by right]. simpl in H. left. by right.
Qed.

Lemma fold_alt_langs (Ls : list (list symbol → Prop)) : ∀ (L0 X0 : list symbol → Prop),
  foldl (multi_step cat alt_extra) (L0, X0) Ls = (foldl cat L0 Ls, X0).
Proof.
  induction Ls as [|L Ls IH]; intros L0 X0; simpl; [done|].
  unfold multi_step at 2. simpl. unfold alt_extra at 2. by rewrite IH.
Qed.

Lemma keeps_flags_refl (σ : store) : keeps_flags σ σ.
Proof. by split. Qed.

Lemma keeps_flags_trans (σ1 σ2 σ3 : store) :
  keeps_flags σ1 σ2 → keeps_flags σ2 σ3 → keeps_flags σ1 σ3.
Proof.
  intros [H1 H2] [H3 H4]. split; [lia|]. intros x Hx. rewrite H4 by lia. by apply H2.
Qed.

(** The fragment of [or(first, ...fragments)] in [NFA.js], for operands
    in which [or] does not occur. *)
Lemma or_js_ok (first : expr) (fragments : list expr) (σ : store) :
  or_free first = true → forallb or_free fragments = true →
  wf_heap (states σ) = true →
  ∃ g σ' n R,
    eval_js (Or first fragments) σ = Some (g, σ') ∧ nfas σ' !! g = Some n ∧
    wf_heap (states σ') = true ∧
    multi_frag (states σ') R (in_ n) (out n) (lang (Or first fragments))
      (λ w, fragments ≠ [] ∧ lang (Or first fragments) w).
Proof.
  intros Hf1 Hf2 Hwf.
  destruct (eval_ok first σ Hwf) as
    (f & σ1 & n0 & R0 & E1 & Hn0 & _ & Hwf1 & Hfrag0 & _).
  assert (args_inv fragments) as Hargs.
  { apply args_ok, Forall_forall. intros r _. apply eval_ok. }
  destruct (fold_args_multi NFA_js.orPair alternative or_extra keeps_flags f fragments σ1
              n0 R0 (lang first) (λ _, False) orN_pair_spec keeps_flags_refl
              keeps_flags_trans Hargs Hwf1 Hn0 (frag_multi _ _ _ _ _ Hfrag0))
    as (fs & σ2 & g & σ3 & n & R & E2 & E3 & Hn & Hwf3 & Hfrag & _).
  exists g, σ3, n, R. split_and!; try done.
  - simpl. rewrite eval_js_or_free by done. rewrite E1. simpl.
    rewrite eval_args_js_or_free by done. rewrite E2. simpl. exact E3.
  - destruct (fold_or_langs (map lang fragments) (lang first) (λ _, False)) as [EL EX].
    eapply multi_frag_ext; [| |exact Hfrag].
    + intros w. by rewrite EL.
    + intros w. rewrite EX. simpl. split.
      * intros [[]|[Hne H]]. split; [|done]. intros ->. done.
      * intros [Hne H]. right. split; [|done]. by destruct fragments.
Qed.

(** X20: [or(first, ...fragments)] of [NFA.js], on operands built by
    [char], [e], [alt] and [rep].  The call succeeds, and on an input without
    the character [EPSILON] the fragment matches exactly the words of the
    operands.  But [orPair] leaves the operands' exits accepting: with two
    operands or more, every matched word also ends a run in an accepting
    state that is not the exit of the fragment. *)
Theorem or_js_matches_union (first : expr) (fragments : list expr) (σ : store)
    (w : list symbol) :
  or_free first = true → forallb or_free fragments = true →
  wf_heap (states σ) = true → EPSILON ∉ w →
  ∃ g σ' n,
    eval_js (Or first fragments) σ = Some (g, σ') ∧ nfas σ' !! g = Some n ∧
    (∀ fuel, matches_fuel (states σ') w ≤ fuel →
       ∃ b σ'', NFA_matches fuel g w σ' = Some (b, σ'') ∧
                (b = true ↔ lang (Or first fragments) w)) ∧
    is_accepting (states σ') (out n) = true ∧
    (fragments ≠ [] → lang (Or first fragments) w →
     ∃ u, u ≠ out n ∧ is_accepting (states σ') u = true ∧ run (states σ') (in_ n) w u).
Proof.
  intros Hf1 Hf2 Hwf Hw.
  destruct (or_js_ok first fragments σ Hf1 Hf2 Hwf) as (g & σ' & n & R & E & Hn & Hwf' & Hfrag).
  exists g, σ', n. split_and!; try done.
  - intros fuel Hfuel. pose proof Hfrag as (Hi & _ & Hlt & _).
    destruct (NFA_matches_decides σ' g n w fuel Hwf' Hn (Hlt _ Hi) Hfuel)
      as (b & σ'' & Hm & Hb).
    exists b, σ''. split; [done|]. rewrite Hb.
    rewrite (multi_frag_accepts _ _ _ _ _ _ w Hfrag Hw). tauto.
  - by destruct Hfrag as (_ & _ & _ & _ & Hacc & _).
  - intros Hne HL. destruct Hfrag as (_ & _ & _ & _ & _ & _ & HX). by apply HX.
Qed.

Lemma or_js_matches_union_witness :
  ∃ g σ' n,
    eval_js (Or (Char "a") [Char "b"; Char "c"]) empty_store = Some (g, σ') ∧
    nfas σ' !! g = Some n ∧
    (∀ fuel, matches_fuel (states σ') ["c"] ≤ fuel →
       ∃ b σ'', NFA_matches fuel g ["c"] σ' = Some (b, σ'') ∧
                (b = true ↔ lang (Or (Char "a") [Char "b"; Char "c"]) ["c"])) ∧
    is_accepting (states σ') (out n) = true ∧
    ([Char "b"; Char "c"] ≠ [] → lang (Or (Char "a") [Char "b"; Char "c"]) ["c"] →
     ∃ u, u ≠ out n ∧ is_accepting (states σ') u = true ∧ run (states σ') (in_ n) ["c"] u).
Proof.
  apply (or_js_matches_union (Char "a") [Char "b"; Char "c"] empty_store ["c"]);
    [reflexivity|reflexivity|reflexivity|].
  apply (bool_decide_unpack _). vm_compute. exact I.
Defined.

(** X21: in [NFA.js] a fragment built by [or] cannot be continued by
    [alt].  [alt(or(first, second, ...fragments), ...rest)], on operands
    built by [char], [e], [alt] and [rep], matches the words of the
    alternatives followed by the words of [rest], and also the words of the
    alternatives on their own: [altPair] clears the flag of the exit of the
    [or] fragment, and the exits of its operands are still accepting. *)
Theorem alt_after_or_js_matches_more (first second : expr) (fragments rest : list expr)
    (σ : store) (w : list symbol) :
  or_free first = true → or_free second = true →
  forallb or_free fragments = true → forallb or_free rest = true →
  wf_heap (states σ) = true → EPSILON ∉ w →
  ∃ g σ',
    eval_js (Alt (Or first (second :: fragments)) rest) σ = Some (g, σ') ∧
    ∀ fuel, matches_fuel (states σ') w ≤ fuel →
      ∃ b σ'', NFA_matches fuel g w σ' = Some (b, σ'') ∧
               (b = true ↔ lang (Alt (Or first (second :: fragments)) rest) w
                           ∨ lang (Or first (second :: fragments)) w).
Proof.
  intros Hf1 Hf2 Hf3 Hf4 Hwf Hw.
  destruct (or_js_ok first (second :: fragments) σ Hf1) as
    (f & σ1 & n0 & R0 & E1 & Hn0 & Hwf1 & Hfrag0); [|done|].
  { simpl. by rewrite Hf2, Hf3. }
  assert (args_inv rest) as Hargs.
  { apply args_ok, Forall_forall. intros r _. apply eval_ok. }
  destruct (fold_args_multi altPair cat alt_extra (λ _ _, True) f rest σ1 n0 R0 _ _
              altN_pair_spec (λ _, I) (λ _ _ _ _ _, I) Hargs Hwf1 Hn0 Hfrag0)
    as (fs & σ2 & g & σ3 & n & R & E2 & E3 & Hn & Hwf3 & Hfrag & _).
  rewrite fold_alt_langs in Hfrag. simpl fst in Hfrag. simpl snd in Hfrag.
  exists g, σ3. split.
  - change (eval_js (Alt (Or first (second :: fragments)) rest) σ)
      with ('(first, σ) ← eval_js (Or first (second :: fragments)) σ;
            '(fragments, σ) ← eval_args eval_js rest σ;
            alt first fragments σ).
    rewrite E1. simpl. rewrite eval_args_js_or_free by done. rewrite E2. simpl. exact E3.
  - intros fuel Hfuel. pose proof Hfrag as (Hi & _ & Hlt & _).
    destruct (NFA_matches_decides σ3 g n w fuel Hwf3 Hn (Hlt _ Hi) Hfuel)
      as (b & σ'' & Hm & Hb).
    exists b, σ''. split; [done|]. rewrite Hb.
    rewrite (multi_frag_accepts _ _ _ _ _ _ w Hfrag Hw).
    change (lang (Alt (Or first (second :: fragments)) rest))
      with (foldl cat (lang (Or first (second :: fragments))) (map lang rest)).
    split; [intros [?|[_ ?]]; auto|]. intros [?|?]; [by left|]. right. done.
Qed.

Lemma alt_after_or_js_matches_more_witness :
  ∃ g σ',
    eval_js (Alt (Or (Char "a") [Char "b"]) [Char "c"]) empty_store = Some (g, σ') ∧
    ∀ fuel, matches_fuel (states σ') ["a"] ≤ fuel →
      ∃ b σ'', NFA_matches fuel g ["a"] σ' = Some (b, σ'') ∧
               (b = true ↔ lang (Alt (Or (Char "a") [Char "b"]) [Char "c"]) ["a"]
                           ∨ lang (Or (Char "a") [Char "b"]) ["a"]).
Proof.
  apply (alt_after_or_js_matches_more (Char "a") (Char "b") [] [Char "c"] empty_store ["a"]);
    [reflexivity|reflexivity|reflexivity|reflexivity|reflexivity|].
  apply (bool_decide_unpack _). vm_compute. exact I.
Defined.

(** ** The outcome of [minimize] on any table *)

Lemma Set_from_elem_of (l : list nat) (x : nat) : x ∈ Set_from l ↔ x ∈ l.
Proof.
  unfold Set_from. change (foldl Set_add [] l) with (Set_addAll [] l).
  rewrite Set_addAll_elem_of. split; [|by right]. by intros [?%not_elem_of_nil|?].
Qed.

Lemma Set_has_Forall2 (R : nat → nat → Prop) (l l' : list nat) (a a' : nat) :
  (∀ a a' b b', R a a' → R b b' → (a = b ↔ a' = b')) →
  Forall2 R l l' → R a a' → Set_has l a = Set_has l' a'.
Proof.
  intros HR Hl Ha. unfold Set_has.
  induction Hl as [|b b' l l' Hb _ IH]; simpl; [done|].
  rewrite IH. f_equal. destruct (HR a a' b b' Ha Hb) as [H1 H2].
  destruct (a =? b) eqn:E.
  - apply Nat.eqb_eq in E. symmetry. apply Nat.eqb_eq. auto.
  - apply Nat.eqb_neq in E. symmetry. apply Nat.eqb_neq. auto.
Qed.

Lemma Set_from_Forall2 (R : nat → nat → Prop) (l l' : list nat) :
  (∀ a a' b b', R a a' → R b b' → (a = b ↔ a' = b')) →
  Forall2 R l l' → Forall2 R (Set_from l) (Set_from l').
Proof.
  intros HR Hl. unfold Set_from.
  assert (Forall2 R [] []) as Hacc by constructor.
  revert Hacc. generalize (@nil nat) at 1 3. generalize (@nil nat) at 1 2.
  induction Hl as [|a a' l l' Ha _ IH]; intros acc' acc Hacc; simpl; [done|].
  apply IH. unfold Set_add. rewrite (Set_has_Forall2 R acc acc' a a') by done.
  destruct (Set_has acc' a'); [done|]. apply Forall2_app; [done|]. by constructor.
Qed.

Lemma iobj_sorted_keys {V} (o : list (nat * V)) :
  iobj_sorted o → StronglySorted lt (o.*1).
Proof.
  induction o as [|[k v] o IH]; simpl; [constructor|].
  intros [Hall Hs]. constructor; [by apply IH|].
  apply Forall_fmap. eapply Forall_impl; [exact Hall|]. by intros [k' v'].
Qed.

Lemma iobj_sorted_same_keys {V W} (o1 : list (nat * V)) (o2 : list (nat * W)) :
  iobj_sorted o1 → iobj_sorted o2 →
  (∀ k, is_Some (iobj_get o1 k) ↔ is_Some (iobj_get o2 k)) →
  o1.*1 = o2.*1.
Proof.
  intros H1 H2 Hdom.
  apply iobj_sorted_keys in H1 as S1. apply iobj_sorted_keys in H2 as S2.
  apply (StronglySorted_unique_strong lt); [intros; lia|done|done|].
  apply NoDup_Permutation.
  - clear -S1. induction S1 as [|k l _ IH Hall]; constructor; [|done].
    intros Hin. rewrite Forall_forall in Hall. specialize (Hall _ Hin). lia.
  - clear -S2. induction S2 as [|k l _ IH Hall]; constructor; [|done].
    intros Hin. rewrite Forall_forall in Hall. specialize (Hall _ Hin). lia.
  - intros k. pose proof (iobj_get_keys o1 k) as E1. pose proof (iobj_get_keys o2 k) as E2.
    unfold iobj_keys in E1, E2. rewrite E1, E2. apply Hdom.
Qed.

Lemma iobj_sorted_values_Forall2 (R : nat → nat → Prop) (o1 o2 : list (nat * nat)) :
  iobj_sorted o1 → iobj_sorted o2 → o1.*1 = o2.*1 →
  (∀ k v1 v2, iobj_get o1 k = Some v1 → iobj_get o2 k = Some v2 → R v1 v2) →
  Forall2 R (o1.*2) (o2.*2).
Proof.
  revert o2. induction o1 as [|[k v] o1 IH]; intros [|[k' v'] o2]; simpl; try done.
  intros [Hall1 Hs1] [Hall2 Hs2] [= <- Hk] HR. constructor.
  - apply (HR k); by rewrite Nat.eqb_refl.
  - apply IH; try done. intros x v1 v2 H1 H2.
    assert ((x =? k) = false) as E.
    { apply iobj_get_elem_of in H1. rewrite Forall_forall in Hall1.
      specialize (Hall1 _ H1). simpl in Hall1. apply Nat.eqb_neq. lia. }
    apply (HR x); by rewrite E.
Qed.

Lemma set_of_defined (m : mstate) (r : ref) : set_of m r ≠ [] → r < length (sets m).
Proof.
  unfold set_of. intros H. destruct (sets m !! r) eqn:E; [by eapply lookup_lt_Some|done].
Qed.

Lemma set_of_app_l (S0 New : list (list nat)) (c : list (nat * nat)) (r : ref) :
  r < length S0 → set_of (mkM (S0 ++ New) c) r = default [] (S0 !! r).
Proof. intros Hr. unfold set_of. simpl. by rewrite lookup_app_l. Qed.

Lemma set_of_app_r (S0 New : list (list nat)) (c : list (nat * nat)) (i : nat) :
  set_of (mkM (S0 ++ New) c) (length S0 + i) = default [] (New !! i).
Proof.
  unfold set_of. simpl. rewrite lookup_app_r by lia.
  by replace (length S0 + i - length S0) with i by lia.
Qed.

(** One round on classes whose members all have an entry: every class is
    copied to a new [Set] object, and the new map sends the members of the
    class number [i] to the new object number [i]. *)
Lemma round_present (m : mstate) (current : list ref) :
  (∀ r, r ∈ current →
        set_of m r ≠ [] ∧ NoDup (set_of m r) ∧
        ∀ x, x ∈ set_of m r → has_entry (currentTransitionMap m) x = true) →
  (∀ i j ri rj x, current !! i = Some ri → current !! j = Some rj → i ≠ j →
                  x ∈ set_of m ri → x ∈ set_of m rj → False) →
  ∃ ntm,
    foldl handle_set (Normal (m, [])) current
    = Normal (mkM (sets m ++ (set_of m <$> current)) (currentTransitionMap m), ntm) ∧
    iobj_sorted ntm ∧
    (∀ i r x, current !! i = Some r → x ∈ set_of m r →
              iobj_get ntm x = Some (length (sets m) + i)) ∧
    (∀ x v, iobj_get ntm x = Some v →
            ∃ i r, current !! i = Some r ∧ x ∈ set_of m r ∧ v = length (sets m) + i).
Proof.
  induction current as [|r l IH] using rev_ind; intros Hcl Hdisj.
  - exists []. simpl. rewrite app_nil_r. split_and!; try done. by destruct m.
  - destruct IH as (ntm & E & Hs & Hin & Hout).
    { intros r' Hr'. apply Hcl, elem_of_app. by left. }
    { intros i j ri rj x Hi Hj. apply Hdisj; by apply lookup_app_l_Some. }
    destruct (Hcl r) as (Hne & Hnd & Hdef); [apply elem_of_app; right; by left|].
    pose proof (set_of_defined m r Hne) as Hr.
    rewrite foldl_app, E. simpl.
    destruct (handle_set_ok (mkM (sets m ++ (set_of m <$> l)) (currentTransitionMap m))
                ntm r (set_of m r)) as (ntm' & E' & Hs' & Hget); try done.
    { rewrite set_of_app_l by done. done. }
    exists ntm'. simpl in E'. rewrite E'. split_and!.
    + by rewrite fmap_app, app_assoc.
    + done.
    + intros i r' x Hi Hx. rewrite Hget. simpl. rewrite length_app, length_fmap.
      destruct (decide (i = length l)) as [->|Hne'].
      * rewrite list_lookup_middle in Hi by done. injection Hi as <-.
        apply Set_has_elem_of in Hx. by rewrite Hx.
      * assert (i < length l) as Hlt.
        { apply lookup_lt_Some in Hi. rewrite length_app in Hi. simpl in Hi. lia. }
        rewrite lookup_app_l in Hi by done.
        assert (Set_has (set_of m r) x = false) as ->.
        { apply Set_has_false. intros Hx'.
          apply (Hdisj i (length l) r' r x); try done.
          - by apply lookup_app_l_Some.
          - by apply list_lookup_middle. }
        by apply (Hin i r').
    + intros x v. rewrite Hget. simpl. rewrite length_app, length_fmap.
      destruct (Set_has (set_of m r) x) eqn:Ex.
      * intros [= <-]. exists (length l), r. split_and!; [|by apply Set_has_elem_of|done].
        by apply list_lookup_middle.
      * intros (i & r' & Hi & Hx & ->)%Hout. exists i, r'. split_and!; try done.
        by apply lookup_app_l_Some.
Qed.

(** The state a round leaves, from the map it has built. *)
Lemma class_map_intro (S0 New : list (list nat)) (ntm : list (nat * nat)) :
  iobj_sorted ntm → Forall (λ c, NoDup c) New →
  (∀ i c x, New !! i = Some c → x ∈ c → iobj_get ntm x = Some (length S0 + i)) →
  (∀ x v, iobj_get ntm x = Some v →
          ∃ i c, New !! i = Some c ∧ x ∈ c ∧ v = length S0 + i) →
  class_map_ok (mkM (S0 ++ New) ntm) (Set_from (ntm.*2)).
Proof.
  intros Hs Hnd Hin Hout. split_and!; try done.
  - intros x r (i & c & Hi & Hx & ->)%Hout. rewrite set_of_app_r, Hi. simpl.
    split; [done|]. rewrite Forall_forall in Hnd. apply Hnd.
    by eapply list_elem_of_lookup_2.
  - intros x y r (i & c & Hi & Hx & ->)%Hout. rewrite set_of_app_r, Hi. simpl.
    intros Hy. by apply (Hin i c).
Qed.

Lemma fmap_Forall2_eq {A B} (f : A → B) (l1 l2 : list A) :
  Forall2 (λ a b, f a = f b) l1 l2 → f <$> l1 = f <$> l2.
Proof. induction 1; simpl; [done|]. by f_equal. Qed.

(** A round on the classes a round has left reproduces them, in the
    same order. *)
Lemma round_again (m : mstate) (current : list ref) :
  class_map_ok m current →
  ∃ m' current',
    refine_round m current = Normal (m', current') ∧ class_map_ok m' current' ∧
    set_of m' <$> current' = set_of m' <$> current ∧
    (∀ r, r < length (sets m) → set_of m' r = set_of m r).
Proof.
  intros (Hs & Hcur & Hmem & Hall).
  assert (NoDup current) as Hnd by (rewrite Hcur; apply Set_from_NoDup).
  assert (∀ r, r ∈ current → ∃ x, iobj_get (currentTransitionMap m) x = Some r) as Hval.
  { intros r Hr. rewrite Hcur, Set_from_elem_of in Hr.
    apply list_elem_of_fmap in Hr as ([x r'] & -> & Hin). exists x.
    by apply iobj_sorted_get. }
  destruct (round_present m current) as (ntm & E & Hs' & Hin & Hout).
  { intros r (x & Hx)%Hval. destruct (Hmem x r Hx) as [Hxr Hndr]. split_and!.
    - intros E. rewrite E in Hxr. by apply not_elem_of_nil in Hxr.
    - done.
    - intros y Hy. apply has_entry_get. rewrite (Hall x y r Hx Hy). eauto. }
  { intros i j ri rj x Hi Hj Hne Hxi Hxj.
    destruct (Hval ri) as (xi & Hgi); [by eapply list_elem_of_lookup_2|].
    destruct (Hval rj) as (xj & Hgj); [by eapply list_elem_of_lookup_2|].
    pose proof (Hall xi x ri Hgi Hxi) as H1. pose proof (Hall xj x rj Hgj Hxj) as H2.
    rewrite H1 in H2. injection H2 as ->. apply Hne.
    by eapply NoDup_lookup. }
  set (L := length (sets m)) in *.
  assert (class_map_ok (mkM (sets m ++ (set_of m <$> current)) ntm) (Set_from (ntm.*2)))
    as Hok'.
  { apply class_map_intro; try done.
    - apply Forall_fmap, Forall_forall. intros r (x & Hx)%Hval. by apply (Hmem x r).
    - intros i c x Hi Hx. rewrite list_lookup_fmap in Hi.
      destruct (current !! i) as [r|] eqn:Er; [|done]. injection Hi as <-.
      by apply (Hin i r).
    - intros x v (i & r & Hi & Hx & ->)%Hout. exists i, (set_of m r).
      rewrite list_lookup_fmap, Hi. done. }
  exists (mkM (sets m ++ (set_of m <$> current)) ntm), (Set_from (ntm.*2)).
  unfold refine_round. rewrite E. simpl. split_and!; try done.
  - set (R := λ v v' : nat, ∃ i, current !! i = Some v ∧ v' = L + i).
    assert (Forall2 R current (Set_from (ntm.*2))) as HF.
    { rewrite Hcur at 1. apply Set_from_Forall2.
      - intros a a' b b' (i & Hi & ->) (j & Hj & ->). split.
        + intros <-. f_equal. by eapply NoDup_lookup.
        + intros Hij. assert (i = j) as -> by lia. congruence.
      - apply iobj_sorted_values_Forall2; try done.
        + apply iobj_sorted_same_keys; try done. intros x. split.
          * intros [r Hx]. assert (r ∈ current) as Hr.
            { rewrite Hcur, Set_from_elem_of. apply list_elem_of_fmap.
              exists (x, r). split; [done|]. by apply iobj_get_elem_of. }
            apply list_elem_of_lookup in Hr as [i Hi].
            rewrite (Hin i r x Hi); [eauto|]. by apply (Hmem x r).
          * intros [v (i & r & Hi & Hx & ->)%Hout].
            destruct (Hval r) as (x0 & Hg0); [by eapply list_elem_of_lookup_2|].
            rewrite (Hall x0 x r Hg0 Hx). eauto.
        + intros x v1 v2 H1 H2. assert (v1 ∈ current) as Hr.
          { rewrite Hcur, Set_from_elem_of. apply list_elem_of_fmap.
            exists (x, v1). split; [done|]. by apply iobj_get_elem_of. }
          apply list_elem_of_lookup in Hr as [i Hi]. exists i. split; [done|].
          rewrite (Hin i v1 x Hi) in H2; [congruence|]. by apply (Hmem x v1). }
    symmetry. apply fmap_Forall2_eq.
    apply Forall2_same_length_lookup_2; [by eapply Forall2_length|].
    intros j v v' Hv Hv'.
    destruct (Forall2_lookup_l _ _ _ _ _ HF Hv) as (v'' & Hv'' & i & Hi & ->).
    rewrite Hv' in Hv''. injection Hv'' as ->.
    assert (i = j) as -> by (by eapply NoDup_lookup).
    unfold L. rewrite set_of_app_r, list_lookup_fmap, Hv. simpl.
    rewrite set_of_app_l; [done|]. apply set_of_defined.
    destruct (Hval v) as (x & Hx); [by eapply list_elem_of_lookup_2|].
    destruct (Hmem x v Hx) as [Hxv _]. intros E'. rewrite E' in Hxv.
    by apply not_elem_of_nil in Hxv.
  - intros r Hr. by rewrite set_of_app_l.
Qed.

(** From such classes the loop ends after one more round at most. *)
Lemma refine_from_classes (fuel : nat) (m : mstate) (current : list ref)
    (previous : option (list ref)) :
  class_map_ok m current → 1 ≤ fuel →
  ∃ m' current',
    refine fuel m current previous = Normal (m', current') ∧ NoDup current' ∧
    ∀ a, heads_class m current a → heads_class m' current' a.
Proof.
  intros Hok Hfuel. destruct fuel as [|fuel]; [lia|].
  assert (NoDup current) as Hnd.
  { destruct Hok as (_ & -> & _). apply Set_from_NoDup. }
  destruct (sameRow m current previous) eqn:Esame.
  { exists m, current. split_and!; [by apply refine_stops|done|done]. }
  destruct (round_again m current Hok) as (m' & current' & E & Hok' & Hsame & Hold).
  exists m', current'. simpl. rewrite Esame, E. split_and!.
  - by apply refine_stops, sameRow_same_contents.
  - destruct Hok' as (_ & -> & _). apply Set_from_NoDup.
  - intros a (r & Hr & Hhead). apply list_elem_of_lookup in Hr as [i Hi].
    assert (is_Some (current' !! i)) as [r' Hi'].
    { apply lookup_lt_is_Some. apply lookup_lt_Some in Hi.
      apply (f_equal length) in Hsame. rewrite !length_fmap in Hsame. lia. }
    exists r'. split; [by eapply list_elem_of_lookup_2|].
    assert (set_of m' r' = set_of m' r) as ->.
    { apply (f_equal (λ l, l !! i)) in Hsame. rewrite !list_lookup_fmap, Hi, Hi' in Hsame.
      by injection Hsame. }
    rewrite Hold; [done|]. apply set_of_defined. intros E'. by rewrite E' in Hhead.
Qed.

(** Step 2 throws when the first member of a class has no row. *)
Lemma build_row_throws (t : min_table) (m : mstate) (remaped : list (ref * nat))
    (o : completion (list (nat * list (string * option nat)))) (entry : ref * nat) (a : nat) :
  o ≠ OutOfFuel →
  head (set_of m entry.1) = Some a → iobj_get t a = None →
  build_row t m remaped o entry = Throw.
Proof.
  intros Ho Hhead Hrow. unfold build_row, alphabet. cbn [foldl].
  destruct o as [M| |]; [|done|done].
  unfold build_cell at 2. rewrite Hhead. simpl. by rewrite Hrow.
Qed.

Lemma build_row_not_out_of_fuel (t : min_table) (m : mstate) (remaped : list (ref * nat))
    (o : completion (list (nat * list (string * option nat)))) (entry : ref * nat) :
  o ≠ OutOfFuel → build_row t m remaped o entry ≠ OutOfFuel.
Proof.
  intros Ho. unfold build_row, alphabet. cbn [foldl].
  destruct o as [M| |]; [|done|done].
  unfold build_cell.
  destruct (head (set_of m entry.1) ≫= iobj_get t) as [row|]; [|done].
  destruct (truthy (Object_get row "a")); by destruct (truthy (Object_get row "b")).
Qed.

Lemma build_row_stuck_Throw (t : min_table) (m : mstate) (remaped : list (ref * nat))
    (entry : ref * nat) :
  build_row t m remaped Throw entry = Throw.
Proof. reflexivity. Qed.

Lemma build_rows_throw (t : min_table) (m : mstate) (remaped : list (ref * nat)) (a : nat)
    (entries : list (ref * nat)) :
  iobj_get t a = None →
  ∀ o, o ≠ OutOfFuel →
    o = Throw ∨ (∃ e, e ∈ entries ∧ head (set_of m e.1) = Some a) →
    foldl (build_row t m remaped) o entries = Throw.
Proof.
  intros Hrow. induction entries as [|e entries IH]; intros o Ho Hbad; simpl.
  - destruct Hbad as [?|(e & He & _)]; [done|]. by apply not_elem_of_nil in He.
  - apply IH; [by apply build_row_not_out_of_fuel|].
    destruct Hbad as [->|(e' & [->|He']%elem_of_cons & Hhead)].
    + left. by rewrite build_row_stuck_Throw.
    + left. by eapply build_row_throws.
    + right. eauto.
Qed.

Lemma build_minimized_throws (t : min_table) (m : mstate) (current : list ref) (a : nat) :
  NoDup current → heads_class m current a → iobj_get t a = None →
  build_minimized t m (remap current) = Throw.
Proof.
  intros Hnd (r & Hr & Hhead) Hrow. unfold build_minimized.
  apply (build_rows_throw t m _ a); [done|done|]. right.
  rewrite remap_NoDup by done. apply list_elem_of_lookup in Hr as [i Hi].
  exists (r, S i). split; [|done]. apply list_elem_of_lookup. exists i.
  by rewrite list_lookup_imap, Hi.
Qed.

(** ** The first round when an accepting id has no entry *)

Lemma areEquivalent_absent (m : mstate) (s1 s2 : nat) :
  has_entry (currentTransitionMap m) s1 && has_entry (currentTransitionMap m) s2 = false →
  areEquivalent m s1 s2 = false.
Proof.
  rewrite areEquivalent_only_tests_presence. unfold has_entry.
  by destruct (iobj_get _ s1), (iobj_get _ s2).
Qed.

Lemma iobj_get_in_values (o : list (nat * nat)) (x r : nat) :
  iobj_get o x = Some r → r ∈ Set_from (o.*2).
Proof.
  intros H. apply Set_from_elem_of, list_elem_of_fmap. exists (x, r).
  split; [done|]. by apply iobj_get_elem_of.
Qed.

(** The class [{2, 3}] when the two ids do not both have an entry: each
    gets a class of its own. *)
Lemma handle_set_split (m : mstate) (newTransitionMap : list (nat * nat)) (set : ref) :
  set_of m set = [2; 3] →
  has_entry (currentTransitionMap m) 2 && has_entry (currentTransitionMap m) 3 = false →
  iobj_sorted newTransitionMap →
  ∃ newTransitionMap',
    handle_set (Normal (m, newTransitionMap)) set
    = Normal (mkM (sets m ++ [[2]; [3]]) (currentTransitionMap m), newTransitionMap') ∧
    iobj_sorted newTransitionMap' ∧
    ∀ x, iobj_get newTransitionMap' x
         = if x =? 2 then Some (length (sets m))
           else if x =? 3 then Some (S (length (sets m)))
           else iobj_get newTransitionMap x.
Proof.
  intros Hset Habs Hs. unfold handle_set. rewrite Hset. cbn [foldl].
  unfold handle_state. cbn [iobj_set iobj_keys fmap list_fmap fst find list_find].
  rewrite areEquivalent_absent.
  2:{ simpl. by rewrite andb_comm. }
  cbn [sets currentTransitionMap]. rewrite <- app_assoc. cbn [app].
  eexists. split; [reflexivity|]. split.
  - apply Object_assign_sorted. done.
  - intros x. rewrite Object_assign_get.
    2:{ simpl. repeat constructor. }
    simpl. rewrite length_app. simpl. rewrite Nat.add_1_r.
    destruct (x =? 2); [done|]. by destruct (x =? 3).
Qed.

Lemma first_round_split (N : list nat) (S0 : list (list nat)) (c : list (nat * nat)) :
  S0 !! accepting_ref = Some [2; 3] → NoDup N →
  (∀ x, x ∈ N → (x =? 2) = false ∧ (x =? 3) = false) →
  (∀ x, x ∈ N → has_entry c x = true) →
  has_entry c 2 && has_entry c 3 = false →
  ∃ m' current',
    refine_round (mkM (S0 ++ [N]) c)
      (List.filter (λ set, 0 <? length (set_of (mkM (S0 ++ [N]) c) set))
                   [length S0; accepting_ref])
    = Normal (m', current') ∧
    class_map_ok m' current' ∧ heads_class m' current' 2 ∧ heads_class m' current' 3.
Proof.
  intros Hacc HndN Hne23 HN Habs.
  assert (0 < length S0) as Hpos by (by eapply lookup_lt_Some).
  assert (set_of (mkM (S0 ++ [N]) c) (length S0) = N) as HsN.
  { unfold set_of. simpl. by rewrite list_lookup_middle. }
  assert (∀ New, set_of (mkM ((S0 ++ [N]) ++ New) c) accepting_ref = [2; 3]) as HsA.
  { intros New. unfold set_of. simpl. rewrite <- app_assoc.
    rewrite lookup_app_l by done. by rewrite Hacc. }
  assert (set_of (mkM (S0 ++ [N]) c) accepting_ref = [2; 3]) as HsA0.
  { specialize (HsA []). by rewrite app_nil_r in HsA. }
  simpl. rewrite HsN, HsA0. simpl. unfold refine_round.
  assert (length (S0 ++ [N]) = S (length S0)) as Hlen.
  { rewrite length_app. simpl. lia. }
  destruct N as [|n N]; simpl.
  - destruct (handle_set_split (mkM (S0 ++ [[]]) c) [] accepting_ref HsA0 Habs I)
      as (ntm & E & Hs & Hget).
    rewrite E. eexists _, _. split; [reflexivity|]. cbn [sets currentTransitionMap] in *.
    rewrite Hlen in Hget. split_and!.
    + apply class_map_intro; try done.
      * repeat constructor; by intros ?%not_elem_of_nil.
      * intros [|[|i]] cl x; simpl; try done.
        -- intros [= <-] ->%list_elem_of_singleton. rewrite Hget, Hlen. simpl.
           f_equal; lia.
        -- intros [= <-] ->%list_elem_of_singleton. rewrite Hget, Hlen. simpl.
           f_equal; lia.
      * intros x v. rewrite Hget, Hlen. destruct (x =? 2) eqn:E2.
        { apply Nat.eqb_eq in E2. subst. intros [= <-]. exists 0, [2].
          split_and!; [done|by left|lia]. }
        destruct (x =? 3) eqn:E3; [|done].
        apply Nat.eqb_eq in E3. subst. intros [= <-]. exists 1, [3].
        split_and!; [done|by left|lia].
    + exists (length (S0 ++ [[]]) + 0). split.
      * apply (iobj_get_in_values _ 2). rewrite Hget, Hlen. simpl. f_equal; lia.
      * by rewrite set_of_app_r.
    + exists (length (S0 ++ [[]]) + 1). split.
      * apply (iobj_get_in_values _ 3). rewrite Hget, Hlen. simpl. f_equal; lia.
      * by rewrite set_of_app_r.
  - destruct (handle_set_ok (mkM (S0 ++ [n :: N]) c) [] (length S0) (n :: N))
      as (ntmN & EN' & HsN' & HgetN); try done.
    rewrite EN'. cbn [sets currentTransitionMap] in *.
    destruct (handle_set_split (mkM ((S0 ++ [n :: N]) ++ [n :: N]) c) ntmN accepting_ref)
      as (ntm & E & Hs & Hget); try done.
    rewrite E. cbn [sets currentTransitionMap] in *. rewrite <- app_assoc. simpl.
    rewrite length_app, Hlen in Hget. simpl in Hget. rewrite Hlen in HgetN.
    eexists _, _. split; [reflexivity|]. split_and!.
    + apply class_map_intro; try done.
      * repeat constructor; try (by intros ?%not_elem_of_nil);
          by apply NoDup_cons in HndN as [? ?].
      * intros [|[|[|i]]] cl x; simpl; try done.
        -- intros [= <-] Hx. destruct (Hne23 x Hx) as [E2 E3].
           rewrite Hget, E2, E3, HgetN. apply Set_has_elem_of in Hx. rewrite Hx.
           rewrite Hlen. f_equal; lia.
        -- intros [= <-] ->%list_elem_of_singleton. rewrite Hget, Hlen. simpl.
           f_equal; lia.
        -- intros [= <-] ->%list_elem_of_singleton. rewrite Hget, Hlen. simpl.
           f_equal; lia.
      * intros x v. rewrite Hget, Hlen. destruct (x =? 2) eqn:E2.
        { apply Nat.eqb_eq in E2. subst. intros [= <-]. exists 1, [2].
          split_and!; [done|by left|lia]. }
        destruct (x =? 3) eqn:E3.
        { apply Nat.eqb_eq in E3. subst. intros [= <-]. exists 2, [3].
          split_and!; [done|by left|lia]. }
        rewrite HgetN. destruct (Set_has (n :: N) x) eqn:Ex; [|done].
        intros [= <-]. exists 0, (n :: N).
        split_and!; [done|by apply Set_has_elem_of|lia].
    + exists (length (S0 ++ [n :: N]) + 1). split.
      * apply (iobj_get_in_values _ 2). rewrite Hget, Hlen. simpl. f_equal; lia.
      * by rewrite set_of_app_r.
    + exists (length (S0 ++ [n :: N]) + 2). split.
      * apply (iobj_get_in_values _ 3). rewrite Hget, Hlen. simpl. f_equal; lia.
      * by rewrite set_of_app_r.
Qed.

Lemma has_entry_keys {V} (o : list (nat * V)) (x : nat) :
  has_entry o x = Set_has (iobj_keys o) x.
Proof.
  apply Bool.eq_iff_eq_true. by rewrite has_entry_get, <- iobj_get_keys, Set_has_elem_of.
Qed.

Lemma has_entry_None {V} (o : list (nat * V)) (x : nat) :
  has_entry o x = false → iobj_get o x = None.
Proof. unfold has_entry. by destruct (iobj_get o x). Qed.

(** The outcome of a call, by cases on the rows of the table and the
    entry of id 3. *)
Lemma minimize_returns_or_throws (t : min_table) (m : mstate) (fuel : nat) :
  module_ok m → 2 ≤ fuel →
  (minimize fuel t m).1
  = if has_entry t 2 && (has_entry t 3 || has_entry (currentTransitionMap m) 3)
    then Normal (minimized_spec t) else Throw.
Proof.
  intros Hok Hfuel.
  destruct (has_entry t 2 && (has_entry t 3 || has_entry (currentTransitionMap m) 3))
    eqn:Econd.
  { apply andb_true_iff in Econd as [H2 H3].
    by destruct (minimize_spec t m fuel Hok H2 H3 Hfuel) as (m' & -> & _). }
  unfold minimize.
  destruct (init_classes_spec t m Hok) as (c & -> & Hc).
  assert (0 < length (sets m)) as Hpos by (by eapply lookup_lt_Some).
  assert (∀ x, x ∈ nonAccepting_ids t → has_entry c x = true) as HN.
  { intros x [Hx _]%nonAccepting_ids_elem_of. rewrite Hc.
    apply Set_has_elem_of in Hx. rewrite Hx. by rewrite orb_true_r. }
  set (m1 := mkM (sets m ++ [nonAccepting_ids t]) c).
  set (current0 := List.filter (λ set, 0 <? length (set_of m1 set))
                               [length (sets m); accepting_ref]).
  assert (∃ m' current' a,
            refine fuel m1 current0 None = Normal (m', current') ∧
            NoDup current' ∧ heads_class m' current' a ∧ iobj_get t a = None)
    as (m' & current' & a & -> & Hnd & Hhead & Hrow).
  { destruct (has_entry c 2 && has_entry c 3) eqn:Epres.
    - apply andb_true_iff in Epres as [P2 P3].
      assert (has_entry t 2 = false) as T2.
      { rewrite Hc, <- has_entry_keys, orb_comm in P3. rewrite P3 in Econd.
        by rewrite andb_true_r in Econd. }
      assert (round_input t m1 current0) as Hin.
      { split; [|split].
        - unfold module_ok, m1. simpl. by rewrite lookup_app_l.
        - intros x [Hx|Hx]%elem_of_app; [|by apply HN].
          by apply accepting_ids_elem_of in Hx as [->| ->].
        - exists (length (sets m)), accepting_ref.
          assert (length (sets m1) = S (length (sets m))) as ->.
          { unfold m1. simpl. rewrite length_app. simpl. lia. }
          assert (set_of m1 (length (sets m)) = nonAccepting_ids t) as HsN.
          { unfold set_of, m1. simpl. by rewrite list_lookup_middle. }
          assert (set_of m1 accepting_ref = [2; 3]) as HsA.
          { unfold set_of, m1. simpl. rewrite lookup_app_l by done. by rewrite Hok. }
          split_and!; try done; try (unfold accepting_ref; lia).
          left. unfold current0. simpl. rewrite HsN, HsA. simpl.
          by destruct (nonAccepting_ids t). }
      destruct (refine_ok t m1 _ fuel Hin Hfuel) as (m' & current' & E & Hout).
      exists m', current', 2. split; [done|].
      destruct Hout as (_ & rN & rA & Hne & _ & _ & HA & _ & -> & _).
      assert (head (set_of m' rA) = Some 2) as Hhead by (by rewrite HA).
      split_and!; [| |by apply has_entry_None].
      + destruct (nonAccepting_ids t); [apply NoDup_singleton|].
        destruct (nonAccepting_first t); apply NoDup_cons; split;
          try apply NoDup_singleton; by intros ->%list_elem_of_singleton.
      + exists rA. split; [|done].
        destruct (nonAccepting_ids t); [by left|].
        destruct (nonAccepting_first t); [right|]; by left.
    - destruct (first_round_split (nonAccepting_ids t) (sets m) c Hok
                  (nonAccepting_ids_NoDup t)) as (m2 & c2 & E & Hok2 & H2 & H3); try done.
      { intros x [_ Hx]%nonAccepting_ids_elem_of. apply Set_has_false in Hx.
        split; apply Nat.eqb_neq; intros ->; apply Hx; [left|right; left]. }
      destruct fuel as [|fuel]; [lia|].
      destruct (refine_from_classes fuel m2 c2 (Some current0) Hok2)
        as (m' & current' & E' & Hnd & Hheads); [lia|].
      assert (refine (S fuel) m1 current0 None = Normal (m', current')) as ->.
      { simpl. fold m1 current0 in E. by rewrite E. }
      apply andb_false_iff in Epres as [P|P]; rewrite Hc in P;
        apply orb_false_iff in P as [_ P]; rewrite <- has_entry_keys in P.
      + exists m', current', 2. split_and!; [done|done|by apply Hheads|by apply has_entry_None].
      + exists m', current', 3. split_and!; [done|done|by apply Hheads|by apply has_entry_None]. }
  simpl. by eapply build_minimized_throws.
Qed.



(** ** The accepting states of an NFA table *)

Lemma is_accepting_with_number (h : list State) (s x n : nat) (st : State) :
  h !! s = Some st →
  is_accepting (<[s := with_number n st]> h) x = is_accepting h x.
Proof.
  intros Hst. unfold is_accepting. destruct (decide (x = s)) as [->|Hne].
  - rewrite list_lookup_insert_eq by (by eapply lookup_lt_Some). by rewrite Hst.
  - by rewrite list_lookup_insert_ne.
Qed.

Lemma visitState_accepting (g : list State) (fuel : nat) : ∀ state β β',
  accepting_ok g β → visitState fuel state β = Some β' → accepting_ok g β'.
Proof.
  induction fuel as [|fuel IH]; intros state β β' Hβ; [done|].
  rewrite visitState_unfold.
  destruct (Set_has (b_visited β) state) eqn:Hin; [by intros [= <-]|].
  destruct (b_heap β !! state) as [st|] eqn:Hst; simpl; [|done].
  apply foldl_option_preserves; [done| |].
  - intros β1 entry β2 Hβ1. simpl.
    destruct (foldl _ (Some ([], β1)) entry.2) as [r|] eqn:Er; simpl; [|done].
    assert (accepting_ok g r.2) as Hr.
    { revert Er.
      apply (foldl_option_preserves (λ r : list nat * build, accepting_ok g r.2));
        [done| |done].
      intros [cs β3] nextState [cs' β4] Hβ3. simpl in *.
      destruct (visitState fuel nextState β3) as [β5|] eqn:E5; simpl; [|done].
      destruct (number_of (b_heap β5) nextState); simpl; [|done].
      intros [= <- <-]. by eapply IH. }
    destruct (table_set_cell (b_table r.2) _ entry.1 r.1) as [t|] eqn:Et; simpl; [|done].
    by intros [= <-].
  - destruct Hβ as (Hflag & Hacc). split; simpl.
    + intros s. rewrite is_accepting_with_number by done. apply Hflag.
    + assert (accepting st = is_accepting g state) as Est.
      { rewrite <- Hflag. unfold is_accepting. by rewrite Hst. }
      intros s. rewrite (Set_add_elem_of (b_visited β)).
      destruct (accepting st) eqn:Ea.
      * rewrite Set_add_elem_of, Hacc. split; [intros [[? ?]| ->]; auto|].
        intros [[?| ->] ?]; auto.
      * rewrite Hacc. split; [intros [? ?]; auto|].
        intros [[?| ->] Hs]; [done|]. congruence.
Qed.

Lemma append_closures_numbers (fuel : nat) (l : list nat) : ∀ h t h' t',
  closures_nodup h →
  append_closures fuel l h t = Some (h', t') →
  ∀ x, number_of h' x = number_of h x.
Proof.
  unfold append_closures.
  induction l as [|s l IH]; intros h t h' t' Hcl; simpl.
  - by intros [= <- <-].
  - destruct (number_of h s) as [n|] eqn:En; simpl; [|by rewrite foldl_option_None].
    destruct (iobj_get t n) as [row|] eqn:Erow; simpl; [|by rewrite foldl_option_None].
    destruct (getEpsilonClosure fuel s h) as [[closure h2]|] eqn:Ec; simpl;
      [|by rewrite foldl_option_None].
    destruct (closure_numbers h2 closure) as [ns|] eqn:Ens; simpl;
      [|by rewrite foldl_option_None].
    destruct (table_set_cell _ n EPSILON_CLOSURE ns) as [t2|] eqn:Et; simpl;
      [|by rewrite foldl_option_None].
    destruct (getEpsilonClosure_ok _ _ _ _ _ Hcl Ec) as (Hcl2 & _ & Hnum2).
    intros E x. rewrite (IH _ _ _ _ Hcl2 E). apply Hnum2.
Qed.

(** Whenever [NFA.getAcceptingStateNumbers] returns on a store on which
    no table was built before, it returns, each once, the numbers of the
    numbered states whose accepting flag is set. *)
Lemma NFA_accepting_numbers_of_numbered (fuel : nat) (nfa : ref) (σ σ' : store)
    (ns : list nat) :
  fresh_store σ = true → no_accepting_memo σ nfa = true →
  NFA_getAcceptingStateNumbers fuel nfa σ = Some (ns, σ') →
  NoDup ns ∧
  ∀ k, k ∈ ns ↔ ∃ s, number_of (states σ') s = Some k ∧ is_accepting (states σ) s = true.
Proof.
  intros Hfresh Hmemo. apply fresh_store_states in Hfresh as (Hnonum & Hcl & Hnotable).
  unfold no_accepting_memo in Hmemo.
  unfold NFA_getAcceptingStateNumbers, NFA_getAcceptingStates, NFA_getTransitionTable.
  destruct (nfas σ !! nfa) as [n|] eqn:En; simpl; [|done].
  destruct (_acceptingStates n) eqn:E1; [done|].
  destruct (_acceptingStateNumbers n) eqn:E2; [done|].
  rewrite (Hnotable _ _ En).
  destruct (visitState fuel (in_ n) (mkBuild (states σ) [] [] [])) as [β|] eqn:Eβ;
    simpl; [|done].
  assert (build_ok (mkBuild (states σ) [] [] [])) as Hb0.
  { split_and!; simpl; try done.
    - split_and!; [constructor|by intros x k ?%Hnonum|done].
    - by intros k ?%not_elem_of_nil. }
  assert (accepting_ok (states σ) (mkBuild (states σ) [] [] [])) as Ha0.
  { split; simpl; [done|]. intros s. split; [by intros ?%not_elem_of_nil|].
    by intros [?%not_elem_of_nil _]. }
  pose proof (visitState_ok _ _ _ _ Hb0 Eβ) as ((Hnd & Hnum1 & Hnum2) & Hkeys & Hclβ).
  pose proof (visitState_accepting _ _ _ _ _ Ha0 Eβ) as (Hflag & Hacc).
  destruct (append_closures fuel (b_visited β) (b_heap β) (b_table β)) as [[h t']|] eqn:Ea;
    simpl; [|done].
  pose proof (append_closures_numbers _ _ _ _ _ _ Hclβ Ea) as Hnum.
  assert (nfa < length (nfas σ)) as Hlt by (by eapply lookup_lt_Some).
  rewrite list_lookup_insert_eq by done. simpl.
  rewrite list_lookup_insert_eq by done. simpl.
  destruct (mapM (number_of h) (b_accepting β)) as [ks|] eqn:Eks; simpl; [|done].
  rewrite ?list_lookup_insert_eq by done. simpl.
  intros [= <- <-]. simpl. split; [apply Set_from_NoDup|].
  apply mapM_Some in Eks. intros k. rewrite Set_from_elem_of. split.
  - intros [j Hj]%list_elem_of_lookup.
    destruct (Forall2_lookup_r _ _ _ _ _ Eks Hj) as (s & Hs & Hsk).
    exists s. split; [done|]. apply Hacc. by eapply list_elem_of_lookup_2.
  - intros (s & Hs & Hfl). rewrite Hnum in Hs.
    destruct (Hnum1 _ _ Hs) as (i & Hi & ->).
    assert (s ∈ b_accepting β) as Hin.
    { apply Hacc. split; [by eapply list_elem_of_lookup_2|done]. }
    apply list_elem_of_lookup in Hin as [j Hj].
    destruct (Forall2_lookup_l _ _ _ _ _ Eks Hj) as (k' & Hk' & Hsk').
    rewrite Hnum, Hs in Hsk'. injection Hsk' as <-. by eapply list_elem_of_lookup_2.
Qed.

(** ** The NFA table is sound for the graph *)

Lemma foldl_option_preserves_in {A B} (P : A → Prop) (f : option A → B → option A)
    (l : list B) :
  (∀ b, f None b = None) →
  (∀ a b a', b ∈ l → P a → f (Some a) b = Some a' → P a') →
  ∀ a a', P a → foldl f (Some a) l = Some a' → P a'.
Proof.
  intros Hnone. induction l as [|b l IH]; intros Hstep a a' Ha; simpl.
  - by intros [= <-].
  - destruct (f (Some a) b) as [a1|] eqn:E.
    + apply IH; [|by eapply Hstep; [left|..]].
      intros a2 b2 a3 Hb2. apply Hstep. by right.
    + by rewrite foldl_option_None.
Qed.

Lemma Map_get_unique {V} (m : list (symbol * V)) (k : symbol) (v : V) :
  NoDup (m.*1) → (k, v) ∈ m → Map_get m k = Some v.
Proof.
  induction m as [|[k0 v0] m IH]; simpl; [by intros _ ?%not_elem_of_nil|].
  intros [Hk0 Hnd]%NoDup_cons [[= -> ->]|Hin]%elem_of_cons.
  - by rewrite String.eqb_refl.
  - destruct (String.eqb k k0) eqn:E; [|auto].
    apply String.eqb_eq in E. subst k0. exfalso. apply Hk0.
    apply list_elem_of_fmap. by exists (k, v).
Qed.

Lemma unique_keys_lookup (h : list State) (s : ref) (st : State) :
  unique_keys h = true → h !! s = Some st → NoDup ((_transitions st).*1).
Proof.
  unfold unique_keys. rewrite forallb_forall. intros H Hst.
  eapply bool_decide_eq_true_1, H, list_elem_of_In. by eapply list_elem_of_lookup_2.
Qed.

Lemma numbered_copy_refl (g : list State) : numbered_copy g g.
Proof. split; [done|]. intros s st Hst. by exists st. Qed.

Lemma numbered_copy_number (g h : list State) (s n : nat) (st : State) :
  numbered_copy g h → h !! s = Some st →
  numbered_copy g (<[s := with_number n st]> h).
Proof.
  intros [Hlen Hc] Hst. split; [by rewrite length_insert|].
  intros x st'. destruct (decide (x = s)) as [->|Hne].
  - rewrite list_lookup_insert_eq by (by eapply lookup_lt_Some). intros [= <-].
    simpl. by apply Hc.
  - rewrite list_lookup_insert_ne by done. apply Hc.
Qed.

Lemma numbered_copy_graph (g h : list State) : numbered_copy g h → same_graph g h.
Proof.
  intros [Hlen Hc]. split; [done|]. split.
  - intros s. unfold is_accepting. destruct (h !! s) as [st|] eqn:Hst.
    + destruct (Hc s st Hst) as (st0 & -> & _ & -> & _). done.
    + apply lookup_ge_None in Hst. by rewrite lookup_ge_None_2 by lia.
  - intros s c. unfold targets. destruct (h !! s) as [st|] eqn:Hst.
    + destruct (Hc s st Hst) as (st0 & -> & -> & _). done.
    + apply lookup_ge_None in Hst. by rewrite lookup_ge_None_2 by lia.
Qed.

Lemma numbered_copy_memo (g h : list State) (s : ref) :
  numbered_copy g h → memo h s = memo g s.
Proof.
  intros [Hlen Hc]. unfold memo. destruct (h !! s) as [st|] eqn:Hst; simpl.
  - destruct (Hc s st Hst) as (st0 & -> & _ & _ & ->). done.
  - apply lookup_ge_None in Hst. by rewrite lookup_ge_None_2 by lia.
Qed.

(** The walk: numbers once given stay, the state walked from has one
    afterwards, and the cells filled list targets. *)
Lemma visitState_sound (g : list State) (fuel : nat) : ∀ state β β',
  unique_keys g = true →
  build_ok β → table_ok β → numbered_copy g (b_heap β) → cols_sound g β →
  visitState fuel state β = Some β' →
  build_ok β' ∧ table_ok β' ∧ numbered_copy g (b_heap β') ∧ cols_sound g β' ∧
  (∀ x k, number_of (b_heap β) x = Some k → number_of (b_heap β') x = Some k) ∧
  (state ∉ b_visited β → number_of (b_heap β') state = Some (S (length (b_visited β)))).
Proof.
  induction fuel as [|fuel IH]; intros state β β' Hu Hb Ht Hc Hs; [done|].
  rewrite visitState_unfold.
  destruct (Set_has (b_visited β) state) eqn:Hin.
  { intros [= <-]. split_and!; try done.
    apply Set_has_elem_of in Hin. by intros []. }
  apply Set_has_false in Hin.
  destruct (b_heap β !! state) as [st|] eqn:Hst; simpl; [|done].
  destruct (build_ok_number β state st Hb Ht Hin Hst) as (Hb0 & Ht0 & _).
  simpl in Hb0, Ht0.
  pose proof Hb as ((_ & Hnum1 & _) & _).
  assert (number_of (b_heap β) state = None) as Hnone.
  { destruct (number_of (b_heap β) state) as [k|] eqn:E; [|done].
    destruct (Hnum1 _ _ E) as (i & Hi & _). exfalso. apply Hin.
    by eapply list_elem_of_lookup_2. }
  set (n := length (Set_add (b_visited β) state)) in *.
  set (β0 := mkBuild _ _ _ _) in *.
  assert (∀ x k, number_of (b_heap β) x = Some k → number_of (b_heap β0) x = Some k)
    as Hstable0.
  { intros x k Hk. unfold β0. simpl. rewrite number_of_insert by done.
    destruct (decide (x = state)) as [->|?]; [congruence|done]. }
  assert (number_of (b_heap β0) state = Some n) as Hn0.
  { unfold β0. simpl. rewrite number_of_insert by done. by rewrite decide_True. }
  assert (n = S (length (b_visited β))) as Hlenn.
  { unfold n. rewrite Set_add_fresh by done. rewrite length_app. simpl. lia. }
  assert (numbered_copy g (b_heap β0)) as Hc0 by (by apply numbered_copy_number).
  assert (cols_sound g β0) as Hs0.
  { intros k row sym ids id. unfold β0. simpl. rewrite iobj_get_set.
    destruct (k =? n); [by intros [= <-] ?%not_elem_of_nil|].
    intros Hrow Hcell Hid. destruct (Hs k row sym ids id Hrow Hcell Hid)
      as (s & u & H1 & H2 & H3).
    exists s, u. split_and!; [by apply Hstable0|by apply Hstable0|done]. }
  destruct Hc as [Hlen Hcopy]. destruct (Hcopy state st Hst) as (st0 & Hst0 & Etr & _).
  pose proof (unique_keys_lookup g state st0 Hu Hst0) as Hnd. rewrite <- Etr in Hnd.
  assert (∀ entry, entry ∈ _transitions st → targets g state entry.1 = entry.2) as Htg.
  { intros [sym l] Hentry. unfold targets. rewrite Hst0, <- Etr. simpl.
    by rewrite (Map_get_unique _ sym l Hnd Hentry). }
  clearbody β0. clear Hst Hnone Hcopy Hlen.
  intros Efold.
  assert (build_ok β' ∧ table_ok β' ∧ numbered_copy g (b_heap β') ∧ cols_sound g β' ∧
          (∀ x k, number_of (b_heap β0) x = Some k → number_of (b_heap β') x = Some k))
    as (? & ? & ? & ? & Hst');
    [|split_and!; try done; [by auto|intros _; rewrite (Hst' _ _ Hn0); by rewrite Hlenn]].
  revert Efold.
  apply (foldl_option_preserves_in
           (λ β1, build_ok β1 ∧ table_ok β1 ∧ numbered_copy g (b_heap β1) ∧ cols_sound g β1 ∧
                  ∀ x k, number_of (b_heap β0) x = Some k → number_of (b_heap β1) x = Some k));
    [done| |by split_and!].
  intros β1 entry β2 Hentry (Hb1 & Ht1 & Hc1 & Hs1 & Hst1). simpl.
  destruct (foldl _ (Some ([], β1)) entry.2) as [r|] eqn:Er; simpl; [|done].
  assert (build_ok r.2 ∧ table_ok r.2 ∧ numbered_copy g (b_heap r.2) ∧ cols_sound g r.2 ∧
          (∀ x k, number_of (b_heap β0) x = Some k → number_of (b_heap r.2) x = Some k) ∧
          (∀ id, id ∈ r.1 → 1 ≤ id ≤ length (b_visited r.2)) ∧
          ∀ id, id ∈ r.1 → ∃ u, u ∈ entry.2 ∧ number_of (b_heap r.2) u = Some id)
    as (Hbr & Htr & Hcr & Hsr & Hstr & Hidr & Hur).
  { revert Er.
    apply (foldl_option_preserves_in
             (λ r : list nat * build,
                build_ok r.2 ∧ table_ok r.2 ∧ numbered_copy g (b_heap r.2) ∧
                cols_sound g r.2 ∧
                (∀ x k, number_of (b_heap β0) x = Some k →
                        number_of (b_heap r.2) x = Some k) ∧
                (∀ id, id ∈ r.1 → 1 ≤ id ≤ length (b_visited r.2)) ∧
                ∀ id, id ∈ r.1 → ∃ u, u ∈ entry.2 ∧ number_of (b_heap r.2) u = Some id));
      [done| |].
    - intros [cs β3] nextState [cs' β4] Hnext (Hb3 & Ht3 & Hc3 & Hs3 & Hst3 & Hid3 & Hu3).
      simpl in *.
      destruct (visitState fuel nextState β3) as [β5|] eqn:E5; simpl; [|done].
      destruct (number_of (b_heap β5) nextState) as [k|] eqn:Ek; simpl; [|done].
      intros [= <- <-].
      destruct (IH _ _ _ Hu Hb3 Ht3 Hc3 Hs3 E5) as (Hb5 & Ht5 & Hc5 & Hs5 & Hst5 & _).
      destruct (visitState_table _ _ _ _ Hb3 Ht3 E5) as [_ Hlen5].
      split_and!; try done.
      + auto.
      + intros id [Hid| ->%list_elem_of_singleton]%elem_of_app.
        * specialize (Hid3 id Hid). lia.
        * destruct Hb5 as ((_ & Hnum15 & _) & _ & _).
          destruct (Hnum15 _ _ Ek) as (i & Hi & ->). apply lookup_lt_Some in Hi. lia.
      + intros id [Hid| ->%list_elem_of_singleton]%elem_of_app.
        * destruct (Hu3 id Hid) as (u & Hu' & Hnu). exists u. split; [done|]. auto.
        * exists nextState. done.
    - split_and!; try done; by intros id Hid%not_elem_of_nil. }
  destruct (table_set_cell (b_table r.2) _ entry.1 r.1) as [t|] eqn:Et; simpl; [|done].
  intros [= <-]. simpl. split_and!.
  - destruct Hbr as (Hnum & Hkeys & Hcl). split_and!; try done. simpl.
    intros k Hk. apply Hkeys. by apply (proj1 (table_set_cell_keys _ _ _ _ _ k Et)).
  - by eapply table_ok_set_cell.
  - done.
  - intros k row sym ids id. simpl. unfold table_set_cell in Et.
    destruct (iobj_get (b_table r.2) n) as [row0|] eqn:Hrow0; simpl in Et; [|done].
    injection Et as <-. rewrite iobj_get_set. destruct (k =? n) eqn:Ekn.
    + apply Nat.eqb_eq in Ekn. subst k.
      intros [= <-] [[= -> ->]|Hcell]%Object_set_elem_of Hid.
      * destruct (Hur id Hid) as (u & Hu' & Hnu). exists state, u.
        split_and!; [by auto|done|]. by rewrite Htg.
      * by apply (Hsr n row0 sym ids id).
    + apply Hsr.
  - done.
Qed.

Lemma memo_inv_closures_nodup (g h : list State) (callee : option nat) :
  memo_inv g h callee → closures_nodup h.
Proof.
  intros [_ Hm] s st c Hst Hc. destruct (Hm s c) as [Hnd _]; [|done].
  unfold memo. by rewrite Hst.
Qed.

Lemma memo_inv_callee (g h : list State) (s : nat) :
  memo_inv g h None → memo_inv g h (Some s).
Proof.
  intros [Hg Hm]. split; [done|]. intros x c Hx.
  destruct (Hm x c Hx) as (Hnd & Hhd & Hmem). split_and!; [done..|].
  intros y Hy. destruct (Hmem y Hy) as [Hr [Hy'|?]]; [|done]. split; [done|by left].
Qed.

Lemma Object_delete_elem_of {V} (o : list (string * V)) (k : string) (p : string * V) :
  p ∈ Object_delete o k → p ∈ o.
Proof.
  induction o as [|[k0 v0] o IH]; simpl; [done|].
  destruct (String.eqb k k0); [by right|].
  intros [->|?]%elem_of_cons; [by left|right; auto].
Qed.

Lemma number_of_lt (h : list State) (s k : nat) : number_of h s = Some k → s < length h.
Proof.
  unfold number_of. destruct (h !! s) as [st|] eqn:E; [|done]. intros _.
  by eapply lookup_lt_Some.
Qed.

(** The closure pass keeps the other columns and fills the closure
    column of every visited state with numbers of states reached along
    [EPSILON] edges. *)
Lemma append_closures_sound (g : list State) (fuel : nat) (h0 : list State) (l : list nat) :
  wf_heap g = true → length g < fuel →
  ∀ h1 t1 h' t',
    memo_inv g h1 None → (∀ x, number_of h1 x = number_of h0 x) →
    append_closures fuel l h1 t1 = Some (h', t') →
    (∀ x, number_of h' x = number_of h0 x) ∧
    (plain_sound g h0 t1 → plain_sound g h0 t') ∧
    (∀ k, closure_sound g h0 t1 k ∨ (∃ s, s ∈ l ∧ number_of h0 s = Some k) →
          closure_sound g h0 t' k).
Proof.
  intros Hwf Hfuel. unfold append_closures.
  induction l as [|s l IH]; intros h1 t1 h' t' Hinv Hnum; simpl.
  - intros [= <- <-]. split_and!; [done|done|].
    intros k [?|(s & Hs%not_elem_of_nil & _)]; done.
  - destruct (number_of h1 s) as [n|] eqn:En; simpl;
      [|by rewrite foldl_option_None].
    destruct (iobj_get t1 n) as [row|] eqn:Erow; simpl;
      [|by rewrite foldl_option_None].
    destruct (getEpsilonClosure fuel s h1) as [[closure h2]|] eqn:Ec; simpl;
      [|by rewrite foldl_option_None].
    destruct (closure_numbers h2 closure) as [ns|] eqn:Ens; simpl;
      [|by rewrite foldl_option_None].
    unfold table_set_cell. rewrite iobj_get_set, Nat.eqb_refl. simpl.
    rewrite iobj_set_set.
    pose proof (memo_inv_closures_nodup _ _ _ Hinv) as Hcl.
    destruct (getEpsilonClosure_ok _ _ _ _ _ Hcl Ec) as (_ & _ & Hnum2).
    pose proof Hinv as [(Hlen & _) _].
    destruct (getEpsilonClosure_post g Hwf fuel s h1) as (c & h2' & Ec' & Hpost).
    { by apply memo_inv_callee. }
    { apply number_of_lt in En. lia. }
    { pose proof (pending_le_length h1). lia. }
    rewrite Ec in Ec'. injection Ec' as <- <-.
    destruct Hpost as (Hinv2 & Hmemo & _).
    destruct Hinv2 as [Hg2 Hm2]. destruct (Hm2 s closure Hmemo) as (_ & _ & Hreach).
    intros Hfold.
    destruct (IH _ _ _ _ (conj Hg2 Hm2) (λ x, eq_trans (Hnum2 x) (Hnum x)) Hfold)
      as (Hnum' & Hplain & Hcells).
    split_and!; [done| |].
    + intros Hp. apply Hplain. intros k row' sym ids id Hsym. rewrite iobj_get_set.
      destruct (k =? n) eqn:Ekn; [|by apply Hp].
      apply Nat.eqb_eq in Ekn. subst k.
      intros [= <-] [[= -> _]|Hcell%Object_delete_elem_of]%Object_set_elem_of; [done|].
      by apply (Hp n row sym ids id).
    + intros k Hk. apply Hcells.
      destruct (decide (k = n)) as [->|Hne].
      * left. intros row' c id. rewrite iobj_get_set, Nat.eqb_refl. intros [= <-].
        rewrite Object_get_set, String.eqb_refl. intros [= <-] Hid.
        apply mapM_Some in Ens. apply list_elem_of_lookup in Hid as [j Hj].
        destruct (Forall2_lookup_r _ _ _ _ _ Ens Hj) as (u & Hu & Hnu).
        exists s, u. rewrite <- Hnum, En. rewrite <- Hnum, <- Hnum2. split_and!; [done..|].
        apply Hreach. by eapply list_elem_of_lookup_2.
      * destruct Hk as [Hk|(s' & [->|Hs']%elem_of_cons & Hs'')].
        -- left. intros row' c id. rewrite iobj_get_set.
           apply Nat.eqb_neq in Hne. rewrite Hne. apply Hk.
        -- rewrite <- Hnum, En in Hs''. congruence.
        -- right. eauto.
Qed.

Lemma plain_sound_numbers (g h h' : list State) (t : list (nat * list (string * list nat))) :
  (∀ x, number_of h' x = number_of h x) → plain_sound g h t → plain_sound g h' t.
Proof.
  intros Hnum Hp k row sym ids id Hsym Hrow Hcell Hid.
  destruct (Hp k row sym ids id Hsym Hrow Hcell Hid) as (s & u & ? & ? & ?).
  exists s, u. by rewrite !Hnum.
Qed.

Lemma closure_sound_numbers (g h h' : list State) (t : list (nat * list (string * list nat)))
    (k : nat) :
  (∀ x, number_of h' x = number_of h x) → closure_sound g h t k → closure_sound g h' t k.
Proof.
  intros Hnum Hp row c id Hrow Hcell Hid.
  destruct (Hp row c id Hrow Hcell Hid) as (s & u & ? & ? & ?).
  exists s, u. by rewrite !Hnum.
Qed.

Lemma iobj_sorted_head {V} (o : list (nat * V)) (first k : nat) :
  iobj_sorted o → head (iobj_keys o) = Some first → k ∈ iobj_keys o → first ≤ k.
Proof.
  unfold iobj_keys. destruct o as [|[k0 v0] o]; simpl; [done|].
  intros [Hall _] [= <-] [->|Hk]%elem_of_cons; [done|].
  apply list_elem_of_fmap in Hk as ([k1 v1] & -> & Hin).
  rewrite Forall_forall in Hall. specialize (Hall _ Hin). simpl in *. lia.
Qed.

(** What the table builder leaves on a store on which no table was built
    before. *)
Lemma NFA_getTransitionTable_sound (fuel : nat) (nfa : nat) (σ σ' : store) (n : NFA)
    (t : list (nat * list (string * list nat))) :
  fresh_store σ = true → wf_heap (states σ) = true → unique_keys (states σ) = true →
  length (states σ) < fuel →
  nfas σ !! nfa = Some n → no_memo n = true →
  NFA_getTransitionTable fuel nfa σ = Some (t, σ') →
  table_built (states σ) (states σ') nfa t σ' ∧
  nfa_table_sound (states σ) (states σ') t ∧
  (∀ x y k, number_of (states σ') x = Some k → number_of (states σ') y = Some k → x = y) ∧
  number_of (states σ') (in_ n) = Some 1 ∧
  alpha_memo σ' nfa = None ∧ acc_memo σ' nfa = None.
Proof.
  intros Hfresh Hwf Hu Hfuel Hn Hno E.
  pose proof (NFA_table_rows _ _ _ _ _ Hfresh E) as (Hsorted & N & HN & _).
  revert E. pose proof Hfresh as (Hnonum & Hcl & Hnotable)%fresh_store_states.
  unfold NFA_getTransitionTable. rewrite Hn. simpl. rewrite (Hnotable _ _ Hn).
  destruct (visitState fuel (in_ n) (mkBuild (states σ) [] [] [])) as [β|] eqn:Eβ;
    simpl; [|done].
  assert (build_ok (mkBuild (states σ) [] [] [])) as Hb0.
  { split_and!; simpl; try done.
    - split_and!; [constructor|by intros x k ?%Hnonum|done].
    - by intros k ?%not_elem_of_nil. }
  assert (table_ok (mkBuild (states σ) [] [] [])) as Ht0.
  { split_and!; simpl; [done|intros i; lia|done]. }
  assert (accepting_ok (states σ) (mkBuild (states σ) [] [] [])) as Ha0.
  { split; simpl; [done|]. intros s. split; [by intros ?%not_elem_of_nil|].
    by intros [?%not_elem_of_nil _]. }
  assert (cols_sound (states σ) (mkBuild (states σ) [] [] [])) as Hs0.
  { by intros k row sym ids id. }
  destruct (visitState_sound (states σ) fuel _ _ _ Hu Hb0 Ht0
              (numbered_copy_refl _) Hs0 Eβ)
    as (Hbβ & Htβ & Hcβ & Hsβ & _ & H1).
  specialize (H1 (not_elem_of_nil _)). simpl in H1.
  pose proof (visitState_accepting _ _ _ _ _ Ha0 Eβ) as (Hflag & Hacc).
  destruct Hbβ as ((Hnd & Hnum1 & Hnum2) & Hkeys & Hclβ).
  destruct (append_closures fuel (b_visited β) (b_heap β) (b_table β)) as [[h t']|] eqn:Ea;
    simpl; [|done].
  intros [= <- <-]. simpl.
  assert (memo_inv (states σ) (b_heap β) None) as Hinv.
  { split; [by apply numbered_copy_graph|]. intros s c Hs.
    rewrite (numbered_copy_memo _ _ s Hcβ) in Hs. exfalso. revert Hs. unfold memo.
    destruct (states σ !! s) as [st|] eqn:Est; simpl; [|done].
    unfold fresh_store in Hfresh. apply andb_true_iff in Hfresh as [Hst _].
    rewrite forallb_forall in Hst.
    apply list_elem_of_lookup_2, list_elem_of_In, Hst in Est.
    destruct (number st); [done|]. by destruct (_epsilonClosure st). }
  destruct (append_closures_sound (states σ) fuel (b_heap β) (b_visited β) Hwf Hfuel
              _ _ _ _ Hinv (λ x, eq_refl) Ea) as (Hnum & Hplain & Hclosure).
  assert (nfa < length (nfas σ)) as Hlt by (by eapply lookup_lt_Some).
  unfold no_memo in Hno. rewrite (Hnotable _ _ Hn) in Hno.
  destruct (_acceptingStates n) eqn:E1; [done|].
  destruct (_alphabet n) eqn:E2; [done|].
  destruct (_acceptingStateNumbers n) eqn:E3; [done|].
  split_and!.
  - split; [done|]. eexists. split; [by apply list_lookup_insert_eq|]. simpl.
    split_and!; [done| |done|done].
    exists (b_accepting β). split; [done|]. intros s Hs. by apply Hacc in Hs as [_ ?].
  - split.
    + apply (plain_sound_numbers _ _ _ _ Hnum), Hplain.
      intros k row sym ids id _ Hrow Hcell Hid.
      by apply (Hsβ k row sym ids id).
    + intros k. apply (closure_sound_numbers _ _ _ _ _ Hnum).
      destruct (decide (k ∈ iobj_keys t')) as [Hk|Hk].
      * apply Hclosure. right.
        assert (k ∈ iobj_keys (b_table β)) as Hk'.
        { apply (append_closures_ok fuel (b_heap β)) in Ea as [Hkeys' _]; try done.
          - by apply Hkeys'.
          - intros x y k' (i & Hi & ->)%Hnum1 (j & Hj & [= <-])%Hnum1. congruence. }
        apply Hkeys in Hk' as (i & -> & Hi).
        destruct (lookup_lt_is_Some_2 _ _ Hi) as [x Hx].
        exists x. split; [by eapply list_elem_of_lookup_2|by apply Hnum2].
      * intros row c id Hrow. exfalso. apply Hk, iobj_get_keys. by eexists.
  - intros x y k. rewrite !Hnum.
    intros (i & Hi & ->)%Hnum1 (j & Hj & [= <-])%Hnum1. congruence.
  - by rewrite Hnum.
  - unfold alpha_memo. simpl. rewrite list_lookup_insert_eq by done. done.
  - unfold acc_memo. simpl. rewrite list_lookup_insert_eq by done. done.
Qed.

(** ** The subset construction is sound for the graph *)

Lemma eps_reach_accepts (g : list State) (x u : nat) (w : list symbol) :
  eps_reach g x u → accepts g u w → accepts g x w.
Proof.
  induction 1 as [|s t u Ht _ IH]; [done|]. intros Hu.
  eapply accepts_epsilon; [done|]. by apply IH.
Qed.

Lemma alphabet_row_no_closure (keys : list string) : ∀ a : list string,
  EPSILON_CLOSURE ∉ a →
  EPSILON_CLOSURE ∉ foldl (λ a symbol, if String.eqb symbol EPSILON_CLOSURE then a
                                        else SSet_add a symbol) a keys.
Proof.
  induction keys as [|k keys IH]; intros a Ha; simpl; [done|].
  apply IH. destruct (String.eqb k EPSILON_CLOSURE) eqn:E; [done|].
  apply String.eqb_neq in E. rewrite SSet_add_elem_of. intros [?| ?]; [done|congruence].
Qed.

Lemma alphabet_no_closure (t : list (nat * list (string * list nat))) : ∀ a : list string,
  EPSILON_CLOSURE ∉ a →
  EPSILON_CLOSURE ∉
    foldl (λ a (row : nat * list (string * list nat)),
             foldl (λ a symbol, if String.eqb symbol EPSILON_CLOSURE then a
                                else SSet_add a symbol) a (Object_keys row.2)) a t.
Proof.
  induction t as [|row t IH]; intros a Ha; simpl; [done|].
  by apply IH, alphabet_row_no_closure.
Qed.

Section subset_sound.
Variables (g h : list State) (nfa : nat) (nfaTable : list (nat * list (string * list nat))).
Hypothesis Hinj : ∀ x y k, number_of h x = Some k → number_of h y = Some k → x = y.
Hypothesis Hsound : nfa_table_sound g h nfaTable.

Lemma onSymbol_of_sound (ids : list nat) (sym : symbol) (os : list nat) :
  sym ≠ EPSILON_CLOSURE →
  onSymbol_of nfaTable ids sym = Some os → step_sound g h ids sym os.
Proof.
  intros Hsym. unfold onSymbol_of.
  apply (foldl_option_preserves_in (step_sound g h ids sym)); [done| |].
  2:{ by intros id' ?%not_elem_of_nil. }
  intros acc state acc' Hstate Hacc. simpl.
  destruct (iobj_get nfaTable state) as [row|] eqn:Hrow; simpl; [|done].
  destruct (Object_get row sym) as [cell|] eqn:Hcell; [|by intros [= <-]].
  apply (foldl_option_preserves_in (step_sound g h ids sym)); [done| |done].
  intros acc1 x acc2 Hx Hacc1. simpl.
  destruct (iobj_get nfaTable x) as [row'|] eqn:Hrow'; [|by intros [= <-]].
  destruct (Object_get row' EPSILON_CLOSURE) as [c|] eqn:Hc; simpl; [|done].
  intros [= <-] id' [?|Hid']%elem_of_app; [by apply Hacc1|].
  destruct Hsound as [Hplain Hclosure].
  destruct (Hplain state row sym cell x Hsym Hrow (Object_get_elem_of _ _ _ Hcell) Hx)
    as (s & u & Hs & Hu & Hedge).
  destruct (Hclosure x row' c id' Hrow' Hc Hid') as (u0 & u' & Hu0 & Hu' & Hreach).
  rewrite (Hinj _ _ _ Hu0 Hu) in Hreach.
  exists state, s, u, u'. done.
Qed.

Lemma NFA_getAlphabet_built (fuel : nat) (σ σ' : store) (al : list symbol) :
  table_built g h nfa nfaTable σ →
  NFA_getAlphabet fuel nfa σ = Some (al, σ') →
  table_built g h nfa nfaTable σ' ∧ EPSILON_CLOSURE ∉ al.
Proof.
  intros (Hst & n & Hn & Ht & Hacc & Haccn & Hal).
  unfold NFA_getAlphabet, NFA_getTransitionTable. rewrite Hn. simpl.
  destruct (_alphabet n) as [a|] eqn:Ea.
  { intros [= <- <-]. split; [|by apply Hal]. split; [done|]. exists n. split_and!; try done.
    by rewrite Ea. }
  rewrite Ht. simpl. rewrite Hn. simpl. intros [= <- <-].
  assert (EPSILON_CLOSURE ∉ foldl (λ a (row : nat * list (string * list nat)),
             foldl (λ a symbol, if String.eqb symbol EPSILON_CLOSURE then a
                                else SSet_add a symbol) a (Object_keys row.2)) [] nfaTable)
    as Hno by (apply alphabet_no_closure, not_elem_of_nil).
  split; [|done]. split; [done|]. eexists. split; [by eapply set_nfa_lookup|]. simpl.
  split_and!; [done..|]. by intros al [= <-].
Qed.

Lemma NFA_getAcceptingStateNumbers_built (fuel : nat) (σ σ' : store) (a : list nat) :
  table_built g h nfa nfaTable σ →
  NFA_getAcceptingStateNumbers fuel nfa σ = Some (a, σ') →
  table_built g h nfa nfaTable σ'.
Proof.
  intros (Hst & n & Hn & Ht & (accs & Haccs & Hacc) & Haccn & Hal).
  unfold NFA_getAcceptingStateNumbers, NFA_getAcceptingStates, NFA_getTransitionTable.
  rewrite Hn. simpl.
  destruct (_acceptingStateNumbers n) as [a0|] eqn:Ea.
  { intros [= <- <-]. split; [done|]. exists n. split_and!; eauto. by rewrite Ea. }
  rewrite Haccs. simpl.
  destruct (mapM (number_of (states σ)) accs) as [ns|] eqn:Ens; simpl; [|done].
  rewrite Hn. simpl. intros [= <- <-].
  split; [done|]. eexists. split; [by eapply set_nfa_lookup|]. simpl.
  split_and!; [done|by eauto| |done].
  intros a' k [= <-] Hk. rewrite Set_from_elem_of in Hk.
  apply mapM_Some in Ens. apply list_elem_of_lookup in Hk as [j Hj].
  destruct (Forall2_lookup_r _ _ _ _ _ Ens Hj) as (s & Hs & Hsk).
  exists s. rewrite <- Hst. split; [done|]. apply Hacc. by eapply list_elem_of_lookup_2.
Qed.

Lemma subset_symbol_sound (fuel : nat) (cur : list nat) (c : symbol)
    (s s' : subset_state) (σ σ' : store) :
  table_built g h nfa nfaTable σ → cells_sound g h (dfaTable s) →
  c ≠ EPSILON_CLOSURE →
  subset_symbol fuel nfa nfaTable cur (join cur) c s σ = Some (s', σ') →
  table_built g h nfa nfaTable σ' ∧ cells_sound g h (dfaTable s').
Proof.
  intros Hb Hcells Hc. unfold subset_symbol.
  destruct (onSymbol_of nfaTable cur c) as [onSymbol|] eqn:Eon; simpl; [|done].
  apply (onSymbol_of_sound _ _ _ Hc) in Eon.
  destruct (Set_from onSymbol) as [|x ids] eqn:Eids.
  { intros [= <- <-]. by split. }
  destruct (NFA_getAcceptingStateNumbers fuel nfa σ) as [[a σ1]|] eqn:Ea; simpl; [|done].
  apply (NFA_getAcceptingStateNumbers_built _ _ _ _ Hb) in Ea.
  destruct (Object_get (dfaTable s) (join cur)) as [row|] eqn:Erow; simpl; [|done].
  intros [= <- <-]. split; [done|]. simpl.
  intros label' row' sym tg [[= -> ->]|Hin']%Object_set_elem_of Hcell.
  - apply Object_set_elem_of in Hcell as [[= -> ->]|Hcell].
    + exists cur, (x :: ids). split_and!; [done..|].
      intros id' Hid'. apply Eon. apply Set_from_elem_of. by rewrite Eids.
    + apply (Hcells (join cur) row); [by apply Object_get_elem_of|done].
  - by apply (Hcells label' row').
Qed.

Lemma subset_step_sound (fuel : nat) (cur : list nat) (s s' : subset_state) (σ σ' : store) :
  table_built g h nfa nfaTable σ → cells_sound g h (dfaTable s) →
  subset_step fuel nfa nfaTable cur s σ = Some (s', σ') →
  table_built g h nfa nfaTable σ' ∧ cells_sound g h (dfaTable s').
Proof.
  intros Hb Hcells. unfold subset_step.
  destruct (NFA_getAlphabet fuel nfa σ) as [[al σ0]|] eqn:Eal; simpl; [|done].
  destruct (NFA_getAlphabet_built _ _ _ _ Hb Eal) as [Hb0 Hno].
  apply (foldl_option_preserves_in
           (λ r : subset_state * store,
              table_built g h nfa nfaTable r.2 ∧ cells_sound g h (dfaTable r.1)));
    [done| |].
  - intros [s0 σ1] c [s1 σ2] Hc [Hb1 Hc1]. simpl in *.
    apply subset_symbol_sound; [done|done|]. by intros ->.
  - simpl. split; [done|].
    intros label row sym tg [[= -> ->]|Hin]%Object_set_elem_of Hcell.
    + by apply not_elem_of_nil in Hcell.
    + by apply (Hcells label row).
Qed.

Lemma subset_while_sound (rounds fuel : nat) : ∀ (s s' : subset_state) (σ σ' : store),
  table_built g h nfa nfaTable σ → cells_sound g h (dfaTable s) →
  subset_while rounds fuel nfa nfaTable s σ = Some (s', σ') →
  table_built g h nfa nfaTable σ' ∧ cells_sound g h (dfaTable s').
Proof.
  induction rounds as [|rounds IH]; intros s s' σ σ' Hb Hcells; simpl.
  - destruct (worklist s); [|done]. intros [= <- <-]. by split.
  - destruct (worklist s) as [|cur rest]; [intros [= <- <-]; by split|].
    destruct (subset_step fuel nfa nfaTable cur
                (mkSubset rest (dfaTable s) (acceptingLabels s)) σ) as [[s1 σ1]|] eqn:E1;
      simpl; [|done].
    destruct (subset_step_sound _ _ (mkSubset rest (dfaTable s) (acceptingLabels s)) _ _ _
                Hb Hcells E1) as [Hb1 Hc1].
    by apply IH.
Qed.

(** A walk of the DFA that ends in an accepting label is matched by a
    path of the graph from a state numbered in the label it starts at. *)
Lemma dfa_walk_sound (t : list (string * list (string * string))) (acc : list string) :
  cells_sound g h t →
  (∀ l, l ∈ acc → ∃ ids k s, l = join ids ∧ k ∈ ids ∧ number_of h s = Some k ∧
                             is_accepting g s = true) →
  ∀ w ids state, dfa_walk t (join ids) w = Some (Some state) → state ∈ acc →
    ∃ id s, id ∈ ids ∧ number_of h s = Some id ∧ accepts g s w.
Proof.
  intros Hcells Hacc w. induction w as [|c w IH]; intros ids state; simpl.
  - intros [= <-] Hin. destruct (Hacc _ Hin) as (ids0 & k & s & E & Hk & Hs & Hfl).
    apply join_inj in E. subst ids0. exists k, s. split_and!; [done..|]. by constructor.
  - destruct (Object_get t (join ids)) as [row|] eqn:Hrow; simpl; [|done].
    destruct (Object_get row c) as [[|a l]|] eqn:Hcell; [done| |done].
    destruct (Hcells _ _ _ _ (Object_get_elem_of _ _ _ Hrow) (Object_get_elem_of _ _ _ Hcell))
      as (ids1 & ids' & E & -> & Hstep).
    apply join_inj in E. subst ids1.
    intros Hwalk Hin. destruct (IH _ _ Hwalk Hin) as (id' & u' & Hid' & Hu' & Haccepts).
    destruct (Hstep id' Hid') as (id & s & x & u & Hid & Hs & Hedge & Hreach & Hu).
    rewrite (Hinj _ _ _ Hu Hu') in Hreach.
    exists id, s. split_and!; [done..|].
    eapply accepts_symbol; [done|]. by eapply eps_reach_accepts.
Qed.

End subset_sound.

(** X24: the DFA is sound for the NFA it is built from.  On a store on
    which no table was built before, a word for which [DFA.matches]
    returns [true] is accepted by the NFA: some path from the entry state
    of the fragment reads the word and ends in an accepting state. *)
Theorem DFA_matches_sound (fuel fuel' : nat) (nfa : nat) (n : NFA) (σ σ' : store)
    (t : list (string * list (string * string))) (d : DFA) (w : list symbol) :
  fresh_store σ = true → wf_heap (states σ) = true → unique_keys (states σ) = true →
  nfas σ !! nfa = Some n → no_memo n = true →
  length (states σ) < fuel →
  DFA_getTransitionTable fuel (new_DFA nfa) σ = Some (t, d, σ') →
  DFA_matches fuel' d w σ' = Some (true, d, σ') →
  accepts (states σ) (in_ n) w.
Proof.
  intros Hfresh Hwf Hu Hn Hno Hfuel E.
  pose proof (DFA_getTransitionTable_inv _ _ _ _ _ _ E) as (start & acc & -> & Hinv & _).
  revert E. unfold DFA_getTransitionTable. simpl.
  destruct (NFA_getTransitionTable fuel nfa σ) as [[nfaTable σ1]|] eqn:En; simpl; [|done].
  pose proof (NFA_table_rows _ _ _ _ _ Hfresh En) as (Hsorted & N & HN & _).
  destruct (NFA_getTransitionTable_sound _ _ _ _ _ _ Hfresh Hwf Hu Hfuel Hn Hno En)
    as (Hb & Hsound & Hinj & Hin & _).
  destruct (head (iobj_keys nfaTable)) as [first|] eqn:Efirst; simpl; [|done].
  destruct (iobj_get nfaTable first) as [row|] eqn:Erow; simpl; [|done].
  destruct (Object_get row EPSILON_CLOSURE) as [startState|] eqn:Estart; simpl; [|done].
  destruct (subset_while fuel fuel nfa nfaTable (mkSubset [startState] [] []) σ1)
    as [[s σ2]|] eqn:Es; simpl; [|done].
  intros [= <- _ <- <- <-].
  destruct (subset_while_sound _ _ _ _ Hinj Hsound _ _ _ _ _ _ Hb
              (λ label row sym target (H : (label, row) ∈ []), 
                 False_ind _ (not_elem_of_nil _ H)) Es) as [Hb2 Hcells].
  assert (first = 1) as Hfirst.
  { assert (is_Some (iobj_get nfaTable first)) as [H1 HN']%HN by (by eexists).
    assert (1 ∈ iobj_keys nfaTable) as H1in by (apply iobj_get_keys, HN; lia).
    pose proof (iobj_sorted_head _ _ _ Hsorted Efirst H1in). lia. }
  subst first. rewrite DFA_matches_unfold.
  destruct (dfa_walk (dfaTable s) (join startState) w) as [[state|]|] eqn:Ewalk;
    simpl; [|done..].
  intros [= Hacc]. apply SSet_has_elem_of in Hacc.
  destruct (dfa_walk_sound _ _ Hinj (dfaTable s) (acceptingLabels s) Hcells)
    with (w := w) (ids := startState) (state := state) as (id & u & Hid & Hnu & Haccepts);
    [|done|done|].
  - intros l Hl. destruct Hinv as (_ & _ & _ & Haccs & _). simpl in Haccs.
    destruct Hb2 as (_ & n2 & Hn2 & _ & _ & Hnums & _).
    unfold acc_memo in Haccs. rewrite Hn2 in Haccs. simpl in Haccs.
    destruct (_acceptingStateNumbers n2) as [a|] eqn:Ea.
    + destruct Haccs as [Haccs _]. destruct (Haccs l Hl) as (ids & -> & Hh).
      apply hits_spec in Hh as (k & Hk & Hka).
      destruct (Hnums a k eq_refl Hka) as (x & Hx & Hfl). by exists ids, k, x.
    + destruct Haccs as [Hnil _]. rewrite Hnil in Hl. by apply not_elem_of_nil in Hl.
  - destruct Hsound as [_ Hclosure].
    destruct (Hclosure 1 row startState id Erow Estart Hid) as (s0 & u0 & Hs0 & Hu0 & Hreach).
    rewrite (Hinj _ _ _ Hs0 Hin), (Hinj _ _ _ Hu0 Hnu) in Hreach.
    by eapply eps_reach_accepts.
Qed.

Lemma DFA_matches_sound_witness : accepts (states star_store) 2 ["a"; "a"].
Proof.
  apply (DFA_matches_sound 10 0 1 (mkNFA 2 3 None None None None) star_store
           star_store_built star_dfa_table star_dfa ["a"; "a"]);
    [reflexivity|reflexivity|vm_compute; reflexivity|reflexivity|reflexivity|
     simpl; lia|vm_compute; reflexivity|vm_compute; reflexivity].
Defined.

(** ** The graph walk on inputs without the character ['ε'] *)

(** C6, amended: for every state [s] of a store [h] and every input [w]
    that does not contain the character ['ε'], the graph walk [matches]
    started with an empty [visited] set returns (with [matches_fuel h w]
    units of fuel or more), and it returns [true] exactly when some path
    from [s] reads all of [w] and ends in an accepting state, where a path
    takes an [EPSILON] edge without reading and an edge labelled with
    another symbol by reading that symbol.  In particular the [visited]
    guard never rejects a string that has such a path.  The same holds for
    [State.matches] of [NFA.js], whose text is identical. *)
Theorem matches_iff_path_without_epsilon_char (h : heap) (s : ref) (w : list symbol)
    (fuel : nat) :
  wf_heap h = true → s < length h → EPSILON ∉ w → matches_fuel h w ≤ fuel →
  ∃ b visited h',
    matches fuel s w [] h = Some (b, (visited, h')) ∧
    (b = true ↔ ∃ u, run h s w u ∧ is_accepting h u = true).
Proof.
  intros Hwf Hs Hw Hfuel.
  destruct (matches_decides_walk h s w fuel Hwf Hs Hfuel) as (b & V & h' & Hm & Hb).
  exists b, V, h'. split; [done|]. by rewrite Hb, accepts_run.
Qed.

Lemma matches_iff_path_without_epsilon_char_witness :
  ∃ b visited h',
    matches 20 2 ["a"; "a"] [] star_heap = Some (b, (visited, h')) ∧
    (b = true ↔ ∃ u, run star_heap 2 ["a"; "a"] u ∧ is_accepting star_heap u = true).
Proof.
  apply (matches_iff_path_without_epsilon_char star_heap 2 ["a"; "a"] 20);
    [reflexivity|simpl; lia|apply (bool_decide_unpack _); vm_compute; exact I|
     vm_compute; lia].
Defined.

(** Against C6 as stated.  The fragment [e()] has the states of [e_heap].
    On the one-character input ['ε'], [matches] from its entry state returns
    [true]: the walk follows the [EPSILON] edge as an edge labelled with the
    input character.  No path reads that input: the only edge is an
    [EPSILON] edge, which a path takes without reading. *)
Lemma matches_reads_epsilon_character :
  e empty_store = Some (0, mkStore e_heap [mkNFA 0 1 None None None None])
  ∧ fst <$> matches 10 0 [EPSILON] [] e_heap = Some true
  ∧ ¬ ∃ u, run e_heap 0 [EPSILON] u ∧ is_accepting e_heap u = true.
Proof.
  split_and!; [reflexivity|vm_compute; reflexivity|].
  intros (u & Hrun & _).
  inversion Hrun as [|s t u' w Ht Hrun'|s t u' c w Hc]; subst; [|done].
  apply list_elem_of_singleton in Ht. subst t.
  inversion Hrun' as [|s t u' w Ht' _|s t u' c w Hc]; subst; [|done].
  by apply not_elem_of_nil in Ht'.
Qed.

(** ** What a run of [minimize] leaves for the next run *)

(** From the classes a round has left, the loop ends after one more
    round at most, on classes of the same kind. *)
Lemma refine_from_classes_map (fuel : nat) (m : mstate) (current : list ref)
    (previous : option (list ref)) :
  class_map_ok m current → 1 ≤ fuel →
  ∃ m' current',
    refine fuel m current previous = Normal (m', current') ∧ class_map_ok m' current' ∧
    ∀ a, heads_class m current a → heads_class m' current' a.
Proof.
  intros Hok Hfuel.
  destruct (sameRow m current previous) eqn:Esame.
  { exists m, current. split_and!; [by apply refine_stops|done|done]. }
  destruct (refine_from_classes fuel m current previous Hok Hfuel)
    as (m' & current' & E & _ & Hheads).
  exists m', current'. split_and!; [done| |done].
  destruct fuel as [|fuel]; [lia|]. simpl in E. rewrite Esame in E.
  destruct (round_again m current Hok) as (m2 & c2 & E2 & Hok2 & Hsame & _).
  rewrite E2 in E. rewrite refine_stops in E by (by apply sameRow_same_contents).
  by injection E as <- <-.
Qed.

Lemma class_map_heads_entry (m : mstate) (current : list ref) (a : nat) :
  class_map_ok m current → heads_class m current a →
  has_entry (currentTransitionMap m) a = true.
Proof.
  intros (Hsorted & -> & _ & Hall) (r & Hr & Hhead).
  rewrite Set_from_elem_of in Hr.
  apply list_elem_of_fmap in Hr as ([x r'] & -> & Hin). simpl in *.
  assert (a ∈ set_of m r') as Ha.
  { destruct (set_of m r') as [|b l]; [done|]. injection Hhead as ->. by left. }
  unfold has_entry. by rewrite (Hall x a r' (iobj_sorted_get _ _ _ Hsorted Hin) Ha).
Qed.

(** After a run, whatever its table and its outcome, [currentTransitionMap]
    has an entry for the accepting id 3 (and [accepting] is as it was). *)
Lemma minimize_leaves_entry_3 (t : min_table) (m : mstate) (fuel : nat) :
  module_ok m → 2 ≤ fuel →
  module_ok (minimize fuel t m).2 ∧
  has_entry (currentTransitionMap (minimize fuel t m).2) 3 = true.
Proof.
  intros Hok Hfuel. split; [by apply minimize_keeps_accepting|].
  destruct (has_entry t 2 && (has_entry t 3 || has_entry (currentTransitionMap m) 3))
    eqn:Econd.
  { apply andb_true_iff in Econd as [H2 H3].
    by destruct (minimize_spec t m fuel Hok H2 H3 Hfuel) as (m' & -> & _ & ?). }
  unfold minimize.
  destruct (init_classes_spec t m Hok) as (c & -> & Hc).
  assert (0 < length (sets m)) as Hpos by (by eapply lookup_lt_Some).
  assert (∀ x, x ∈ nonAccepting_ids t → has_entry c x = true) as HN.
  { intros x [Hx _]%nonAccepting_ids_elem_of. rewrite Hc.
    apply Set_has_elem_of in Hx. rewrite Hx. by rewrite orb_true_r. }
  set (m1 := mkM (sets m ++ [nonAccepting_ids t]) c).
  set (current0 := List.filter (λ set, 0 <? length (set_of m1 set))
                               [length (sets m); accepting_ref]).
  assert (∃ m' current',
            refine fuel m1 current0 None = Normal (m', current') ∧
            has_entry (currentTransitionMap m') 3 = true)
    as (m' & current' & -> & H3); [|done].
  destruct (has_entry c 2 && has_entry c 3) eqn:Epres.
  - apply andb_true_iff in Epres as [P2 P3].
    assert (round_input t m1 current0) as Hin.
    { split; [|split].
      - unfold module_ok, m1. simpl. by rewrite lookup_app_l.
      - intros x [Hx|Hx]%elem_of_app; [|by apply HN].
        by apply accepting_ids_elem_of in Hx as [->| ->].
      - exists (length (sets m)), accepting_ref.
        assert (length (sets m1) = S (length (sets m))) as ->.
        { unfold m1. simpl. rewrite length_app. simpl. lia. }
        assert (set_of m1 (length (sets m)) = nonAccepting_ids t) as HsN.
        { unfold set_of, m1. simpl. by rewrite list_lookup_middle. }
        assert (set_of m1 accepting_ref = [2; 3]) as HsA.
        { unfold set_of, m1. simpl. rewrite lookup_app_l by done. by rewrite Hok. }
        split_and!; try done; try (unfold accepting_ref; lia).
        left. unfold current0. simpl. rewrite HsN, HsA. simpl.
        by destruct (nonAccepting_ids t). }
    destruct (refine_ok t m1 _ fuel Hin Hfuel) as (m' & current' & E & Hout).
    exists m', current'. split; [done|].
    destruct Hout as (_ & rN & rA & _ & _ & _ & _ & _ & _ & Hget).
    unfold has_entry. by rewrite Hget.
  - destruct (first_round_split (nonAccepting_ids t) (sets m) c Hok
                (nonAccepting_ids_NoDup t)) as (m2 & c2 & E & Hok2 & _ & H3); try done.
    { intros x [_ Hx]%nonAccepting_ids_elem_of. apply Set_has_false in Hx.
      split; apply Nat.eqb_neq; intros ->; apply Hx; [left|right; left]. }
    destruct fuel as [|fuel]; [lia|].
    destruct (refine_from_classes_map fuel m2 c2 (Some current0) Hok2)
      as (m' & current' & E' & Hok' & Hheads); [lia|].
    exists m', current'. split.
    + simpl. fold m1 current0 in E. by rewrite E.
    + eapply class_map_heads_entry; [done|]. by apply Hheads.
Qed.

(** C5, amended: [currentTransitionMap] is module state that a run
    inherits from the run before it.  Every run, whatever its table and
    its outcome, leaves an entry for the accepting id 3, and that is all a
    later run reads of the inherited map before it overwrites it.  So for
    every table, after any earlier run ([minimize(t1)] from a state [m1] or
    [minimize(t2)] from a state [m2], states in which [accepting] still
    holds [{2, 3}]), [minimize] has the same outcome: the table of
    [minimized_spec] when the table has a row for id 2, a [TypeError]
    otherwise.  The module as loaded is such a state, since the last line
    of the file runs [minimize(table)]. *)
Theorem minimize_independent_of_earlier_runs (t t1 t2 : min_table) (m1 m2 : mstate)
    (fuel fuel1 fuel2 : nat) :
  module_ok m1 → module_ok m2 → 2 ≤ fuel1 → 2 ≤ fuel2 → 2 ≤ fuel →
  (minimize fuel t (minimize fuel1 t1 m1).2).1
  = (minimize fuel t (minimize fuel2 t2 m2).2).1 ∧
  (minimize fuel t (minimize fuel1 t1 m1).2).1
  = if has_entry t 2 then Normal (minimized_spec t) else Throw.
Proof.
  intros Hok1 Hok2 Hf1 Hf2 Hfuel.
  assert (∀ t0 m0 fuel0, module_ok m0 → 2 ≤ fuel0 →
            (minimize fuel t (minimize fuel0 t0 m0).2).1
            = if has_entry t 2 then Normal (minimized_spec t) else Throw) as Hrun.
  { intros t0 m0 fuel0 Hok0 Hf0.
    destruct (minimize_leaves_entry_3 t0 m0 fuel0 Hok0 Hf0) as [Hok' H3].
    rewrite (minimize_returns_or_throws t _ fuel Hok' Hfuel), H3.
    by rewrite orb_true_r, andb_true_r. }
  by rewrite !Hrun.
Qed.

Lemma minimize_independent_of_earlier_runs_witness :
  (minimize 5 table_no_3 (minimize 5 table module_init).2).1
  = (minimize 5 table_no_3 (minimize 5 table_1_4 module_loaded).2).1 ∧
  (minimize 5 table_no_3 (minimize 5 table module_init).2).1
  = if has_entry table_no_3 2 then Normal (minimized_spec table_no_3) else Throw.
Proof.
  apply (minimize_independent_of_earlier_runs table_no_3 table table_1_4 module_init
           module_loaded 5 5 5); [reflexivity|reflexivity|lia|lia|lia].
Defined.

Lemma module_loaded_after_own_call :
  (minimize 5 table module_init).2 = module_loaded.
Proof. vm_compute. reflexivity. Qed.

(** ** Minimizing the output of [minimize] *)

Lemma minimized_spec_two_rows (t : min_table) :
  has_entry (minimized_spec t) 2 = true →
  nonAccepting_ids t ≠ [] ∧ ∃ row1 row2, minimized_spec t = [(1, row1); (2, row2)].
Proof.
  unfold minimized_spec. destruct (nonAccepting_ids t) as [|n N]; [done|].
  intros _. split; [done|]. destruct (nonAccepting_first t); eauto.
Qed.

Lemma nonAccepting_ids_nonempty (t : min_table) :
  nonAccepting_ids t ≠ [] ↔ existsb (λ k, negb (Set_has [2; 3] k)) (iobj_keys t) = true.
Proof.
  rewrite existsb_exists. split.
  - destruct (nonAccepting_ids t) as [|n N] eqn:EN; [done|]. intros _.
    assert (n ∈ nonAccepting_ids t) as Hn by (rewrite EN; by left).
    apply nonAccepting_ids_elem_of in Hn as [Hk Hn]. exists n.
    split; [by apply list_elem_of_In|by apply negb_true_iff].
  - intros (k & Hk & Hk2) EN.
    assert (k ∈ nonAccepting_ids t) as Hin.
    { apply nonAccepting_ids_elem_of. split; [by apply list_elem_of_In|].
      by apply negb_true_iff. }
    rewrite EN in Hin. by apply not_elem_of_nil in Hin.
Qed.

(** C8, amended: in any module state in which [accepting] still holds
    [{2, 3}], whenever [minimize(T)] returns and [minimize] applied next to
    its output returns as well, the second table has the same number of
    states as the first.  Both calls return exactly when [T] has a row for
    the accepting id 2, id 3 has a row or an entry left by an earlier run,
    and [T] has a row for an id that is not accepting. *)
Theorem minimize_twice_same_state_count (t : min_table) (m : mstate) (fuel : nat) :
  module_ok m → 2 ≤ fuel →
  (∀ M m' M', minimize fuel t m = (Normal M, m') → (minimize fuel M m').1 = Normal M' →
              length M' = length M) ∧
  ((∃ M m' M', minimize fuel t m = (Normal M, m') ∧ (minimize fuel M m').1 = Normal M') ↔
   has_entry t 2 = true ∧
   has_entry t 3 || has_entry (currentTransitionMap m) 3 = true ∧
   existsb (λ k, negb (Set_has [2; 3] k)) (iobj_keys t) = true).
Proof.
  intros Hok Hfuel.
  assert (∀ M m' M', minimize fuel t m = (Normal M, m') →
            (minimize fuel M m').1 = Normal M' →
            has_entry t 2 = true ∧
            has_entry t 3 || has_entry (currentTransitionMap m) 3 = true ∧
            nonAccepting_ids t ≠ [] ∧ length M' = length M) as Hboth.
  { intros M m' M' E1 E2.
    pose proof (minimize_returns_or_throws t m fuel Hok Hfuel) as H1.
    destruct (minimize_leaves_entry_3 t m fuel Hok Hfuel) as [Hok' H3'].
    rewrite E1 in H1, Hok', H3'. simpl in *.
    destruct (has_entry t 2 && (has_entry t 3 || has_entry (currentTransitionMap m) 3))
      eqn:Econd; [|done].
    injection H1 as ->. apply andb_true_iff in Econd as [H2 H3].
    pose proof (minimize_returns_or_throws (minimized_spec t) m' fuel Hok' Hfuel) as H2'.
    rewrite E2, H3', orb_true_r, andb_true_r in H2'.
    destruct (has_entry (minimized_spec t) 2) eqn:EM2; [|done].
    injection H2' as ->.
    destruct (minimized_spec_two_rows t EM2) as (Hne & row1 & row2 & EM).
    split_and!; [done..|]. rewrite EM. reflexivity. }
  split.
  - intros M m' M' E1 E2. by destruct (Hboth M m' M' E1 E2) as (_ & _ & _ & ?).
  - split.
    + intros (M & m' & M' & E1 & E2).
      destruct (Hboth M m' M' E1 E2) as (? & ? & Hne & _).
      split_and!; [done..|]. by apply nonAccepting_ids_nonempty.
    + intros (H2 & H3 & Hother%nonAccepting_ids_nonempty).
      destruct (minimize_spec t m fuel Hok H2 H3 Hfuel) as (m' & E & Hok' & H3').
      assert (∃ row1 row2, minimized_spec t = [(1, row1); (2, row2)]) as (row1 & row2 & EM).
      { unfold minimized_spec. destruct (nonAccepting_ids t) as [|n N]; [done|].
        destruct (nonAccepting_first t); eauto. }
      destruct (minimize_spec (minimized_spec t) m' fuel Hok') as (m'' & E' & _);
        [by rewrite EM|by rewrite H3', orb_true_r|done|].
      exists (minimized_spec t), m', (minimized_spec (minimized_spec t)).
      split; [done|]. by rewrite E'.
Qed.

Lemma minimize_twice_same_state_count_witness :
  (∀ M m' M', minimize 5 table module_init = (Normal M, m') →
              (minimize 5 M m').1 = Normal M' → length M' = length M) ∧
  ((∃ M m' M', minimize 5 table module_init = (Normal M, m') ∧
               (minimize 5 M m').1 = Normal M') ↔
   has_entry table 2 = true ∧
   has_entry table 3 || has_entry (currentTransitionMap module_init) 3 = true ∧
   existsb (λ k, negb (Set_has [2; 3] k)) (iobj_keys table) = true).
Proof.
  apply (minimize_twice_same_state_count table module_init 5); [reflexivity|lia].
Defined.

(** ** The labels of the DFA table and the id lists they join *)

Lemma onSymbol_of_closure_ids (nfaTable : list (nat * list (string * list nat)))
    (ids : list nat) (sym : symbol) (os : list nat) :
  onSymbol_of nfaTable ids sym = Some os → ∀ id, id ∈ os → closure_id nfaTable id.
Proof.
  unfold onSymbol_of.
  apply (foldl_option_preserves (λ os, ∀ id, id ∈ os → closure_id nfaTable id)); [done| |].
  2:{ by intros id ?%not_elem_of_nil. }
  intros acc state acc' Hacc. simpl.
  destruct (iobj_get nfaTable state) as [row|]; simpl; [|done].
  destruct (Object_get row sym) as [cell|]; [|by intros [= <-]].
  apply (foldl_option_preserves (λ os, ∀ id, id ∈ os → closure_id nfaTable id)); [done| |done].
  intros acc1 x acc2 Hacc1. simpl.
  destruct (iobj_get nfaTable x) as [row'|] eqn:Hrow'; [|by intros [= <-]].
  destruct (Object_get row' EPSILON_CLOSURE) as [c|] eqn:Hc; simpl; [|done].
  intros [= <-] id [?|Hid]%elem_of_app; [by apply Hacc1|].
  by exists x, row', c.
Qed.

Lemma collected_lists (nfaTable : list (nat * list (string * list nat)))
    (startState ids : list nat) :
  (∀ id, id ∈ startState → closure_id nfaTable id) →
  collected nfaTable startState ids →
  (ids = startState ∨ NoDup ids) ∧ ∀ id, id ∈ ids → closure_id nfaTable id.
Proof.
  intros Hstart [|ids0 sym os _ Hos _].
  - split; [by left|done].
  - split; [right; apply Set_from_NoDup|].
    intros id Hid. rewrite Set_from_elem_of in Hid. by eapply onSymbol_of_closure_ids.
Qed.

Lemma subset_symbol_exact (fuel : nat) (nfa : nat)
    (nfaTable : list (nat * list (string * list nat))) (startState cur : list nat)
    (c : symbol) (s s' : subset_state) (σ σ' : store) :
  collected nfaTable startState cur → subset_exact nfaTable startState s →
  subset_symbol fuel nfa nfaTable cur (join cur) c s σ = Some (s', σ') →
  subset_exact nfaTable startState s'.
Proof.
  intros Hcur [Hwl Hrows]. unfold subset_symbol.
  destruct (onSymbol_of nfaTable cur c) as [onSymbol|] eqn:Eon; simpl; [|done].
  destruct (Set_from onSymbol) as [|x ids] eqn:Eids.
  { intros [= <- <-]. by split. }
  destruct (NFA_getAcceptingStateNumbers fuel nfa σ) as [[a σ1]|]; simpl; [|done].
  destruct (Object_get (dfaTable s) (join cur)) as [row|] eqn:Erow; simpl; [|done].
  intros [= <- <-].
  assert (collected nfaTable startState (x :: ids)) as Hnew.
  { rewrite <- Eids. eapply collected_step; [done..|]. by rewrite Eids. }
  split; simpl.
  - intros ids'. destruct (Object_has _ _); [apply Hwl|].
    intros [->|?]%elem_of_cons; [done|by apply Hwl].
  - intros label' row' [[= -> ->]|Hin']%Object_set_elem_of; [|by apply Hrows].
    exists cur. split_and!; [done..|].
    intros sym target [[= -> ->]|Hcell]%Object_set_elem_of.
    + exists onSymbol. by rewrite Eids.
    + destruct (Hrows _ _ (Object_get_elem_of _ _ _ Erow)) as (ids' & E & _ & Hcells).
      apply join_inj in E. subst ids'. by apply Hcells.
Qed.

Lemma subset_step_exact (fuel : nat) (nfa : nat)
    (nfaTable : list (nat * list (string * list nat))) (startState cur : list nat)
    (s s' : subset_state) (σ σ' : store) :
  collected nfaTable startState cur → subset_exact nfaTable startState s →
  subset_step fuel nfa nfaTable cur s σ = Some (s', σ') →
  subset_exact nfaTable startState s'.
Proof.
  intros Hcur [Hwl Hrows]. unfold subset_step.
  destruct (NFA_getAlphabet fuel nfa σ) as [[al σ0]|]; simpl; [|done].
  apply (foldl_option_preserves
           (λ r : subset_state * store, subset_exact nfaTable startState r.1)); [done| |].
  - intros [s0 σ1] c [s1 σ2] H0. simpl in *. by apply subset_symbol_exact.
  - split; simpl; [done|].
    intros label row [[= -> ->]|Hin]%Object_set_elem_of; [|by apply Hrows].
    exists cur. split_and!; [done..|]. by intros sym target ?%not_elem_of_nil.
Qed.

Lemma subset_while_exact (nfa : nat) (nfaTable : list (nat * list (string * list nat)))
    (startState : list nat) (rounds fuel : nat) : ∀ (s s' : subset_state) (σ σ' : store),
  subset_exact nfaTable startState s →
  subset_while rounds fuel nfa nfaTable s σ = Some (s', σ') →
  subset_exact nfaTable startState s'.
Proof.
  induction rounds as [|rounds IH]; intros s s' σ σ' Hs; simpl.
  - destruct (worklist s); [|done]. by intros [= <- <-].
  - destruct (worklist s) as [|cur rest] eqn:Ewl; [by intros [= <- <-]|].
    destruct (subset_step fuel nfa nfaTable cur
                (mkSubset rest (dfaTable s) (acceptingLabels s)) σ) as [[s1 σ1]|] eqn:E1;
      simpl; [|done].
    apply IH. destruct Hs as [Hwl Hrows].
    eapply subset_step_exact; [| |exact E1].
    + apply Hwl. rewrite Ewl. by left.
    + split; simpl; [|done]. intros ids Hids. apply Hwl. rewrite Ewl. by right.
Qed.

(** C4, amended: every label of the DFA table returned by
    [DFA.getTransitionTable] is the comma-joined form of a list of NFA ids
    taken from the closure columns of the NFA table, in the order in which
    the construction collects them; the list is not sorted.  The start
    label joins the closure column of the first row of the NFA table as it
    stands.  Every row key joins a collected list, and the cell of that row
    on a symbol joins the closures of the targets, one after the other,
    with each id kept at its first occurrence, so the list of a transition
    target is duplicate-free.  The list of the start label is
    duplicate-free when the NFA table was built on a store on which no
    table had been built before, by this construction or by an earlier call
    of [getTransitionTable] on the fragment whose table is still the
    memoised one.  [join] is injective, so two
    labels are equal exactly when their id lists are equal, which makes
    equal labels encode equal id sets. *)
Theorem subset_labels_are_joined_id_lists (fuel : nat) (nfa : nat) (σ σ' : store)
    (t : list (string * list (string * string))) (d : DFA) :
  DFA_getTransitionTable fuel (new_DFA nfa) σ = Some (t, d, σ') →
  ∃ nfaTable σ1 first row0 startState,
    NFA_getTransitionTable fuel nfa σ = Some (nfaTable, σ1) ∧
    head (iobj_keys nfaTable) = Some first ∧ iobj_get nfaTable first = Some row0 ∧
    Object_get row0 EPSILON_CLOSURE = Some startState ∧
    dfa_startingStateNumber d = Some (join startState) ∧
    (∀ label row, (label, row) ∈ t →
       ∃ ids, label = join ids ∧ collected nfaTable startState ids ∧
         ∀ sym target, (sym, target) ∈ row →
           ∃ os, onSymbol_of nfaTable ids sym = Some os ∧ target = join (Set_from os) ∧
                 collected nfaTable startState (Set_from os)) ∧
    (∀ ids, collected nfaTable startState ids →
       (ids = startState ∨ NoDup ids) ∧ ∀ id, id ∈ ids → closure_id nfaTable id) ∧
    (fresh_store σ = true ∨
     (∃ σ0 fuel0 t0 σ1, fresh_store σ0 = true ∧
                        NFA_getTransitionTable fuel0 nfa σ0 = Some (t0, σ1) ∧
                        table_memo σ nfa = Some t0) →
     NoDup startState) ∧
    (∀ l1 l2, join l1 = join l2 ↔ l1 = l2).
Proof.
  unfold DFA_getTransitionTable. simpl.
  destruct (NFA_getTransitionTable fuel nfa σ) as [[nfaTable σ1]|] eqn:En; simpl; [|done].
  destruct (head (iobj_keys nfaTable)) as [first|] eqn:Efirst; simpl; [|done].
  destruct (iobj_get nfaTable first) as [row|] eqn:Erow; simpl; [|done].
  destruct (Object_get row EPSILON_CLOSURE) as [startState|] eqn:Estart; simpl; [|done].
  destruct (subset_while fuel fuel nfa nfaTable (mkSubset [startState] [] []) σ1)
    as [[s σ2]|] eqn:Es; simpl; [|done].
  intros [= <- <- <-]. simpl.
  exists nfaTable, σ1, first, row, startState. split_and!; try done.
  - eapply (subset_while_exact nfa nfaTable startState) in Es as [_ Hrows]; [done|].
    split; simpl.
    + intros ids ->%list_elem_of_singleton. constructor.
    + by intros label row' ?%not_elem_of_nil.
  - intros ids. apply collected_lists. intros id Hid. by exists first, row, startState.
  - intros [Hfresh|(σ0 & fuel0 & t0 & σ0' & Hfresh & E0 & Ememo)].
    + by eapply (NFA_table_closure_cells _ _ _ _ _ Hfresh En).
    + pose proof (NFA_table_closure_cells _ _ _ _ _ Hfresh E0) as Hcells.
      rewrite (NFA_getTransitionTable_hit fuel nfa σ t0 Ememo) in En.
      injection En as <- <-. by eapply Hcells.
  - intros l1 l2. split; [apply join_inj|by intros ->].
Qed.

Lemma subset_labels_are_joined_id_lists_witness :
  ∃ nfaTable σ1 first row0 startState,
    NFA_getTransitionTable 20 2 x_or_y_queried = Some (nfaTable, σ1) ∧
    head (iobj_keys nfaTable) = Some first ∧ iobj_get nfaTable first = Some row0 ∧
    Object_get row0 EPSILON_CLOSURE = Some startState ∧
    dfa_startingStateNumber x_or_y_dfa = Some (join startState) ∧
    (∀ label row, (label, row) ∈ x_or_y_dfa_table →
       ∃ ids, label = join ids ∧ collected nfaTable startState ids ∧
         ∀ sym target, (sym, target) ∈ row →
           ∃ os, onSymbol_of nfaTable ids sym = Some os ∧ target = join (Set_from os) ∧
                 collected nfaTable startState (Set_from os)) ∧
    (∀ ids, collected nfaTable startState ids →
       (ids = startState ∨ NoDup ids) ∧ ∀ id, id ∈ ids → closure_id nfaTable id) ∧
    (fresh_store x_or_y_queried = true ∨
     (∃ σ0 fuel0 t0 σ1, fresh_store σ0 = true ∧
                        NFA_getTransitionTable fuel0 2 σ0 = Some (t0, σ1) ∧
                        table_memo x_or_y_queried 2 = Some t0) →
     NoDup startState) ∧
    (∀ l1 l2, join l1 = join l2 ↔ l1 = l2).
Proof.
  apply (subset_labels_are_joined_id_lists 20 2 x_or_y_queried x_or_y_built
           x_or_y_dfa_table x_or_y_dfa).
  vm_compute. reflexivity.
Defined.

(** The store of the witness is the one of the example run of the file:
    it is not a store without tables, and its memoised NFA table is the one
    that [getTransitionTable] built on the store of
    [or(char('x'), char('y'))], on which no table had been built. *)
Lemma x_or_y_queried_history :
  x_or_y = Some (2, x_or_y_store) ∧
  fresh_store x_or_y_store = true ∧ fresh_store x_or_y_queried = false ∧
  ∃ t0 σ1, NFA_getTransitionTable 20 2 x_or_y_store = Some (t0, σ1) ∧
           table_memo x_or_y_queried 2 = Some t0.
Proof.
  split_and!; [vm_compute; reflexivity..|].
  eexists _, _. split; vm_compute; reflexivity.
Qed.

(** ** The table builder visits exactly the reachable states *)

Lemma foldl_option_each {A B} (P : A → Prop) (Q : B → A → Prop)
    (f : option A → B → option A) (l : list B) :
  (∀ b, f None b = None) →
  (∀ a b a', b ∈ l → P a → f (Some a) b = Some a' → P a' ∧ Q b a') →
  (∀ a b a' b0, b ∈ l → P a → Q b0 a → f (Some a) b = Some a' → Q b0 a') →
  ∀ a a', P a → foldl f (Some a) l = Some a' → P a' ∧ ∀ b, b ∈ l → Q b a'.
Proof.
  intros Hnone. induction l as [|b l IH]; intros Hstep Hkeep a a' Ha; simpl.
  - intros [= <-]. split; [done|]. by intros b ?%not_elem_of_nil.
  - destruct (f (Some a) b) as [a1|] eqn:E; [|by rewrite foldl_option_None].
    destruct (Hstep a b a1) as [Ha1 Hb1]; [by left|done|done|].
    intros Efold.
    assert (P a' ∧ Q b a') as [Ha' Hb'].
    { revert Efold.
      apply (foldl_option_preserves_in (λ a, P a ∧ Q b a)); [done| |done].
      intros a2 b2 a3 Hb2 [Ha2 Hq2] E2. split.
      - eapply Hstep; [by right|done|done].
      - eapply Hkeep; [by right|done|done|done]. }
    destruct (IH (λ a b0 a' Hb0, Hstep a b0 a' (list_elem_of_further _ _ _ Hb0))
                 (λ a b1 a' b0 Hb1', Hkeep a b1 a' b0 (list_elem_of_further _ _ _ Hb1'))
                 a1 a' Ha1 Efold) as [_ Hl].
    split; [done|]. intros b0 [->|Hb0]%elem_of_cons; [done|by apply Hl].
Qed.

Lemma foldl_option_total {A B} (P : A → Prop) (f : option A → B → option A) (l : list B) :
  (∀ a b, b ∈ l → P a → ∃ a', f (Some a) b = Some a' ∧ P a') →
  ∀ a, P a → ∃ a', foldl f (Some a) l = Some a' ∧ P a'.
Proof.
  induction l as [|b l IH]; intros Hstep a Ha; simpl; [by exists a|].
  destruct (Hstep a b) as (a1 & -> & Ha1); [by left|done|].
  apply IH; [|done]. intros a2 b2 Hb2. apply Hstep. by right.
Qed.

Lemma Map_get_elem_of {V} (m : list (symbol * V)) (k : symbol) (v : V) :
  Map_get m k = Some v → (k, v) ∈ m.
Proof.
  induction m as [|[k0 v0] m IH]; simpl; [done|].
  destruct (String.eqb k k0) eqn:E.
  - apply String.eqb_eq in E. subst k0. intros [= ->]. by left.
  - intros H. right. auto.
Qed.

Lemma reaches_trans (h : list State) (s t u : nat) :
  reaches h s t → reaches h t u → reaches h s u.
Proof.
  induction 1 as [|s c t' t Ht _ IH]; [done|]. intros Hu.
  eapply reaches_step; [done|]. by apply IH.
Qed.

(** The visit of [state]: the new members of [visited] are reachable from
    [state], and each has all its targets in [visited]. *)
Lemma visitState_visits (g : list State) (fuel : nat) : ∀ state β β',
  unique_keys g = true → numbered_copy g (b_heap β) →
  visitState fuel state β = Some β' →
  numbered_copy g (b_heap β') ∧ visit_post g state β β'.
Proof.
  induction fuel as [|fuel IH]; intros state β β' Hu Hc; [done|].
  rewrite visitState_unfold.
  destruct (Set_has (b_visited β) state) eqn:Hin.
  { intros [= <-]. apply Set_has_elem_of in Hin. split; [done|]. by split_and!. }
  apply Set_has_false in Hin.
  destruct (b_heap β !! state) as [st|] eqn:Hst; simpl; [|done].
  set (n := length (Set_add (b_visited β) state)).
  set (β0 := mkBuild _ _ _ _).
  assert (numbered_copy g (b_heap β0)) as Hc0 by (by apply numbered_copy_number).
  pose proof Hc as [Hlen Hcopy]. destruct (Hcopy state st Hst) as (st0 & Hst0 & Etr & _).
  pose proof (unique_keys_lookup g state st0 Hu Hst0) as Hnd. rewrite <- Etr in Hnd.
  assert (∀ entry, entry ∈ _transitions st → targets g state entry.1 = entry.2) as Htg.
  { intros [sym l] Hentry. unfold targets. rewrite Hst0, <- Etr. simpl.
    by rewrite (Map_get_unique _ sym l Hnd Hentry). }
  assert (∀ c t, t ∈ targets g state c → ∃ entry, entry ∈ _transitions st ∧ t ∈ entry.2)
    as Hentries.
  { intros c t. unfold targets. rewrite Hst0, <- Etr.
    destruct (Map_get (_transitions st) c) as [l|] eqn:E; simpl;
      [|by intros ?%not_elem_of_nil].
    intros Ht. exists (c, l). split; [by apply Map_get_elem_of|done]. }
  assert (∀ x, x ∈ b_visited β0 ↔ x ∈ b_visited β ∨ x = state) as Hv0.
  { intros x. unfold β0. simpl. apply Set_add_elem_of. }
  clearbody β0. clear Hst Hcopy Hlen.
  pose (P := λ β1 : build,
          numbered_copy g (b_heap β1) ∧
          (∀ x, x ∈ b_visited β0 → x ∈ b_visited β1) ∧
          ∀ x, x ∈ b_visited β1 → x ∉ b_visited β0 →
               reaches g state x ∧ ∀ c t, t ∈ targets g x c → t ∈ b_visited β1).
  pose (Q := λ (ts : list nat) (β1 : build), ∀ t, t ∈ ts → t ∈ b_visited β1).
  assert (∀ (entry : symbol * list ref) β1 (r : list nat * build),
            entry ∈ _transitions st → P β1 →
            foldl (λ acc nextState,
                     match acc with
                     | Some (combinedState, β) =>
                         β ← visitState fuel nextState β;
                         k ← number_of (b_heap β) nextState;
                         Some (combinedState ++ [k], β)
                     | None => None
                     end) (Some ([], β1)) entry.2 = Some r →
            (P r.2 ∧ ∀ x, x ∈ b_visited β1 → x ∈ b_visited r.2) ∧ Q entry.2 r.2) as Hinner.
  { intros entry β1 r Hentry HP1. unfold Q.
    apply (foldl_option_each
             (λ r : list nat * build, P r.2 ∧ ∀ x, x ∈ b_visited β1 → x ∈ b_visited r.2)
             (λ t (r : list nat * build), t ∈ b_visited r.2)); [done| | |by split].
    - intros [cs β3] nextState [cs' β4] Hnext [(Hc3 & Hsub3 & Hnew3) Hgrow3]. simpl in *.
      destruct (visitState fuel nextState β3) as [β5|] eqn:E5; simpl; [|done].
      destruct (number_of (b_heap β5) nextState); simpl; [|done].
      intros [= <- <-].
      destruct (IH _ _ _ Hu Hc3 E5) as (Hc5 & Hsub5 & Hin5 & Hnew5).
      split; [|done]. split; [|by auto]. split_and!; [done|by auto|].
      intros x Hx Hx0. destruct (decide (x ∈ b_visited β3)) as [Hx3|Hx3].
      + destruct (Hnew3 x Hx3 Hx0) as [Hr Hcl]. split; [done|]. intros c t Ht. by eauto.
      + destruct (Hnew5 x Hx Hx3) as [Hr Hcl]. split; [|done].
        eapply reaches_step; [|done]. rewrite (Htg entry Hentry). done.
    - intros [cs β3] nextState [cs' β4] t Hnext [(Hc3 & Hsub3 & Hnew3) _] Ht. simpl in *.
      destruct (visitState fuel nextState β3) as [β5|] eqn:E5; simpl; [|done].
      destruct (number_of (b_heap β5) nextState); simpl; [|done].
      intros [= <- <-].
      destruct (IH _ _ _ Hu Hc3 E5) as (_ & Hsub5 & _). by apply Hsub5. }
  intros Efold.
  assert (P β' ∧ ∀ entry : symbol * list ref, entry ∈ _transitions st → Q entry.2 β')
    as [(Hc' & Hsub' & Hnew') HQ'].
  { revert Efold.
    apply (foldl_option_each P (λ (entry : symbol * list ref) β1, Q entry.2 β1));
      [done| | |].
    - intros β1 entry β2 Hentry HP1. simpl.
      destruct (foldl _ (Some ([], β1)) entry.2) as [r|] eqn:Er; simpl; [|done].
      destruct (Hinner entry β1 r Hentry HP1 Er) as [[HPr _] HQr].
      destruct (table_set_cell (b_table r.2) _ entry.1 r.1) as [t|]; simpl; [|done].
      by intros [= <-].
    - intros β1 entry β2 entry0 Hentry HP1 HQ1. simpl.
      destruct (foldl _ (Some ([], β1)) entry.2) as [r|] eqn:Er; simpl; [|done].
      destruct (Hinner entry β1 r Hentry HP1 Er) as [[_ Hgrow] _].
      destruct (table_set_cell (b_table r.2) _ entry.1 r.1) as [t|]; simpl; [|done].
      intros [= <-] t' Ht'. simpl. by apply Hgrow, HQ1.
    - split_and!; [done|done|]. intros x Hx Hx0. done. }
  split; [done|]. split_and!.
  - intros x Hx. apply Hsub', Hv0. by left.
  - apply Hsub', Hv0. by right.
  - intros x Hx Hxβ. destruct (decide (x = state)) as [->|Hne].
    + split; [constructor|]. intros c t Ht.
      destruct (Hentries c t Ht) as (entry & Hentry & Ht'). by apply (HQ' entry).
    + apply Hnew'; [done|]. rewrite Hv0. by intros [?|?].
Qed.

Lemma wf_heap_entry (g : list State) (s : nat) (st : State) (entry : symbol * list nat)
    (t : nat) :
  wf_heap g = true → g !! s = Some st → entry ∈ _transitions st → t ∈ entry.2 →
  t < length g.
Proof.
  unfold wf_heap. rewrite forallb_forall. intros Hwf Hst Hentry Ht.
  specialize (Hwf st). rewrite forallb_forall in Hwf.
  assert (In st g) as Hin.
  { apply list_elem_of_In. by eapply list_elem_of_lookup_2. }
  specialize (Hwf Hin entry). rewrite forallb_forall in Hwf.
  apply Nat.ltb_lt, Hwf; by apply list_elem_of_In.
Qed.

Lemma build_ok_visited_valid (g : list State) (β : build) :
  build_ok β → numbered_copy g (b_heap β) → valid_visited g (b_visited β).
Proof.
  intros ((Hnd & _ & Hnum2) & _) [Hlen _]. split; [done|].
  intros x [i Hi]%list_elem_of_lookup. apply Hnum2, number_of_lt in Hi. lia.
Qed.

(** With more fuel than there are unvisited states, the visit returns. *)
Lemma visitState_total (g : list State) (fuel : nat) : ∀ state β,
  wf_heap g = true → unique_keys g = true →
  build_ok β → table_ok β → numbered_copy g (b_heap β) →
  state < length g → length g - length (b_visited β) < fuel →
  ∃ β', visitState fuel state β = Some β'.
Proof.
  induction fuel as [|fuel IH]; intros state β Hwf Hu Hb Ht Hc Hstate Hfuel; [lia|].
  rewrite visitState_unfold.
  destruct (Set_has (b_visited β) state) eqn:Hin; [by eexists|].
  apply Set_has_false in Hin.
  pose proof Hc as [Hlen Hcopy].
  destruct (lookup_lt_is_Some_2 (b_heap β) state) as [st Hst]; [lia|].
  rewrite Hst. simpl.
  destruct (Hcopy state st Hst) as (st0 & Hst0 & Etr & _).
  assert (length (b_visited β) < length g) as Hroom.
  { pose proof (valid_visited_length g _
                  (valid_visited_add g _ state (build_ok_visited_valid g β Hb Hc) Hstate))
      as Hle.
    rewrite Set_add_fresh, length_app in Hle by done. simpl in Hle. lia. }
  destruct (build_ok_number β state st Hb Ht Hin Hst) as (Hb0 & Ht0 & _).
  simpl in Hb0, Ht0.
  assert (length (Set_add (b_visited β) state) = S (length (b_visited β))) as Hn.
  { rewrite Set_add_fresh, length_app by done. simpl. lia. }
  set (n := length (Set_add (b_visited β) state)) in *.
  set (β0 := mkBuild _ _ _ _) in *.
  assert (numbered_copy g (b_heap β0)) as Hc0 by (by apply numbered_copy_number).
  assert (length (b_visited β0) = n) as Hlen0 by done.
  clearbody β0. clear Hst Hcopy.
  pose (P := λ β1 : build,
          build_ok β1 ∧ table_ok β1 ∧ numbered_copy g (b_heap β1) ∧
          n ≤ length (b_visited β1)).
  assert (∃ β', foldl (λ acc (entry : symbol * list ref),
               β ← acc;
               r ← foldl (λ acc nextState,
                            match acc with
                            | Some (combinedState, β) =>
                                β ← visitState fuel nextState β;
                                k ← number_of (b_heap β) nextState;
                                Some (combinedState ++ [k], β)
                            | None => None
                            end)
                         (Some ([], β)) entry.2;
               t ← table_set_cell (b_table r.2) n entry.1 r.1;
               Some (mkBuild (b_heap r.2) t (b_accepting r.2) (b_visited r.2)))
            (Some β0) (_transitions st) = Some β' ∧ P β') as (β' & E & _);
    [|by exists β'].
  apply (foldl_option_total P); [|unfold P; split_and!; [done..|lia]].
  intros β1 entry Hentry (Hb1 & Ht1 & Hc1 & Hlen1). simpl.
  pose (Pin := λ r : list nat * build,
          P r.2 ∧ ∀ id, id ∈ r.1 → 1 ≤ id ≤ length (b_visited r.2)).
  destruct (foldl_option_total Pin
              (λ acc nextState,
                 match acc with
                 | Some (combinedState, β) =>
                     β ← visitState fuel nextState β;
                     k ← number_of (b_heap β) nextState;
                     Some (combinedState ++ [k], β)
                 | None => None
                 end) entry.2) with (a := (@nil nat, β1))
    as (r & Er & (Hbr & Htr & Hcr & Hlenr) & Hidr).
  { intros [cs β3] nextState Hnext [(Hb3 & Ht3 & Hc3 & Hlen3) Hid3]. simpl in *.
    assert (nextState < length g) as Hnext_lt.
    { eapply (wf_heap_entry g state st0); [done|done| |done]. by rewrite <- Etr. }
    destruct (IH nextState β3 Hwf Hu Hb3 Ht3 Hc3 Hnext_lt) as [β5 E5]; [lia|].
    rewrite E5. simpl.
    pose proof (visitState_ok _ _ _ _ Hb3 E5) as Hb5.
    destruct (visitState_table _ _ _ _ Hb3 Ht3 E5) as [Ht5 Hlen5].
    destruct (visitState_visits g _ _ _ _ Hu Hc3 E5) as (Hc5 & _ & Hin5 & _).
    apply list_elem_of_lookup in Hin5 as [i Hi].
    pose proof Hb5 as ((_ & _ & Hnum2) & _).
    rewrite (Hnum2 i nextState Hi). simpl.
    exists (cs ++ [S i], β5). split; [done|]. unfold Pin, P. simpl.
    split; [split_and!; [done..|lia]|].
    intros id [Hid| ->%list_elem_of_singleton]%elem_of_app.
    - specialize (Hid3 id Hid). lia.
    - apply lookup_lt_Some in Hi. lia. }
  { unfold Pin, P. simpl. split; [by split_and!|]. by intros id ?%not_elem_of_nil. }
  rewrite Er. simpl.
  destruct Htr as (Hsorted & Hrows & Hok).
  destruct (Hrows (length (b_visited β))) as [row Hrow]; [lia|].
  rewrite <- Hn in Hrow.
  assert (table_set_cell (b_table r.2) n entry.1 r.1
          = Some (iobj_set (b_table r.2) n (Object_set row entry.1 r.1))) as Et.
  { unfold table_set_cell. by rewrite Hrow. }
  rewrite Et. simpl. eexists. split; [done|]. unfold P. simpl. split_and!.
  - destruct Hbr as (Hnum & Hkeys & Hcl). split_and!; try done. simpl.
    intros k Hk. apply Hkeys. by apply (proj1 (table_set_cell_keys _ _ _ _ _ k Et)).
  - by apply (table_ok_set_cell r.2 n entry.1 r.1).
  - done.
  - done.
Qed.

Lemma closed_reaches (g : list State) (V : list nat) (s u : nat) :
  (∀ x, x ∈ V → ∀ c t, t ∈ targets g x c → t ∈ V) →
  reaches g s u → s ∈ V → u ∈ V.
Proof.
  intros Hcl. induction 1 as [|s c t u Ht _ IH]; [done|]. intros Hs.
  apply IH. by eapply Hcl.
Qed.

Lemma closed_eps_reach (g : list State) (V : list nat) (s u : nat) :
  (∀ x, x ∈ V → ∀ c t, t ∈ targets g x c → t ∈ V) →
  eps_reach g s u → s ∈ V → u ∈ V.
Proof.
  intros Hcl. induction 1 as [|s t u Ht _ IH]; [done|]. intros Hs.
  apply IH. by eapply Hcl.
Qed.

(** The closure pass returns when every visited state has a number and
    a row, and the visited set is closed under the edges of the graph. *)
Lemma append_closures_total (g : list State) (fuel : nat) (V l : list nat) :
  wf_heap g = true → length g < fuel →
  (∀ x, x ∈ V → ∀ c t, t ∈ targets g x c → t ∈ V) →
  ∀ h1 t1,
    memo_inv g h1 None →
    (∀ x, x ∈ V → is_Some (number_of h1 x)) →
    (∀ x, x ∈ l → x ∈ V) →
    (∀ x k, x ∈ l → number_of h1 x = Some k → is_Some (iobj_get t1 k)) →
    ∃ h' t', append_closures fuel l h1 t1 = Some (h', t').
Proof.
  intros Hwf Hfuel Hclosed. unfold append_closures.
  induction l as [|s l IH]; intros h1 t1 Hinv Hnum Hl Hrows; simpl; [by eauto|].
  destruct (Hnum s) as [n En]; [apply Hl; by left|]. rewrite En. simpl.
  destruct (Hrows s n) as [row Erow]; [by left|done|]. rewrite Erow. simpl.
  pose proof Hinv as [(Hlen & _) _].
  destruct (getEpsilonClosure_post g Hwf fuel s h1) as (c & h2 & Ec & Hpost).
  { by apply memo_inv_callee. }
  { apply number_of_lt in En. lia. }
  { pose proof (pending_le_length h1). lia. }
  rewrite Ec. simpl.
  pose proof (memo_inv_closures_nodup _ _ _ Hinv) as Hcl.
  destruct (getEpsilonClosure_ok _ _ _ _ _ Hcl Ec) as (_ & _ & Hnum2).
  destruct Hpost as (Hinv2 & Hmemo & _).
  pose proof Hinv2 as [_ Hm2]. destruct (Hm2 s c Hmemo) as (_ & _ & Hreach).
  assert (is_Some (closure_numbers h2 c)) as [ns Ens].
  { apply mapM_is_Some_2, Forall_forall. intros y Hy. simpl. rewrite Hnum2.
    apply Hnum. destruct (Hreach y Hy) as [Hr _].
    eapply closed_eps_reach; [done|done|]. apply Hl. by left. }
  rewrite Ens. simpl.
  unfold table_set_cell. rewrite iobj_get_set, Nat.eqb_refl. simpl.
  apply IH.
  - done.
  - intros x Hx. rewrite Hnum2. by apply Hnum.
  - intros x Hx. apply Hl. by right.
  - intros x k Hx Hk. rewrite Hnum2 in Hk. rewrite !iobj_get_set.
    destruct (k =? n); [done|]. apply (Hrows x); [by right|done].
Qed.

(** The table builder on a store on which no table was built before:
    both passes return, the visited states are the states reachable from
    the entry state, and the accepting ones among them are collected. *)
Lemma NFA_build_total (fuel : nat) (σ : store) (s0 : nat) :
  fresh_store σ = true → wf_heap (states σ) = true → unique_keys (states σ) = true →
  s0 < length (states σ) → length (states σ) < fuel →
  ∃ β h t,
    visitState fuel s0 (mkBuild (states σ) [] [] []) = Some β ∧
    append_closures fuel (b_visited β) (b_heap β) (b_table β) = Some (h, t) ∧
    build_ok β ∧ accepting_ok (states σ) β ∧
    (∀ x, number_of h x = number_of (b_heap β) x) ∧
    (∀ x, x ∈ b_visited β ↔ reaches (states σ) s0 x).
Proof.
  intros Hfresh Hwf Hu Hs0 Hfuel.
  pose proof Hfresh as (Hnonum & Hcl & Hnotable)%fresh_store_states.
  assert (build_ok (mkBuild (states σ) [] [] [])) as Hb0.
  { split_and!; simpl; try done.
    - split_and!; [constructor|by intros x k ?%Hnonum|done].
    - by intros k ?%not_elem_of_nil. }
  assert (table_ok (mkBuild (states σ) [] [] [])) as Ht0.
  { split_and!; simpl; [done|intros i; lia|done]. }
  assert (accepting_ok (states σ) (mkBuild (states σ) [] [] [])) as Ha0.
  { split; simpl; [done|]. intros s. split; [by intros ?%not_elem_of_nil|].
    by intros [?%not_elem_of_nil _]. }
  destruct (visitState_total (states σ) fuel s0 (mkBuild (states σ) [] [] []))
    as [β Eβ]; try done; [apply numbered_copy_refl|simpl; lia|].
  pose proof (visitState_ok _ _ _ _ Hb0 Eβ) as Hbβ.
  destruct (visitState_table _ _ _ _ Hb0 Ht0 Eβ) as [Htβ _].
  destruct (visitState_visits (states σ) fuel s0 (mkBuild (states σ) [] [] []) β Hu
              (numbered_copy_refl _) Eβ) as (Hcβ & _ & Hin0 & Hnew).
  pose proof (visitState_accepting _ _ _ _ _ Ha0 Eβ) as Haβ.
  simpl in Hnew.
  assert (∀ x, x ∈ b_visited β → ∀ c t, t ∈ targets (states σ) x c → t ∈ b_visited β)
    as Hclosed.
  { intros x Hx. by apply (Hnew x Hx), not_elem_of_nil. }
  assert (memo_inv (states σ) (b_heap β) None) as Hinv.
  { split; [by apply numbered_copy_graph|]. intros s c Hs.
    rewrite (numbered_copy_memo _ _ s Hcβ) in Hs. exfalso. revert Hs. unfold memo.
    destruct (states σ !! s) as [st|] eqn:Est; simpl; [|done].
    unfold fresh_store in Hfresh. apply andb_true_iff in Hfresh as [Hst _].
    rewrite forallb_forall in Hst.
    apply list_elem_of_lookup_2, list_elem_of_In, Hst in Est.
    destruct (number st); [done|]. by destruct (_epsilonClosure st). }
  pose proof Hbβ as ((Hnd & Hnum1 & Hnum2) & Hkeys & Hclβ).
  destruct (append_closures_total (states σ) fuel (b_visited β) (b_visited β) Hwf Hfuel
              Hclosed (b_heap β) (b_table β)) as (h & t & Ea); try done.
  { intros x [i Hi]%list_elem_of_lookup. rewrite (Hnum2 i x Hi). by eexists. }
  { intros x k _ (i & Hi & ->)%Hnum1. destruct Htβ as (_ & Hrows & _).
    apply Hrows. by eapply lookup_lt_Some. }
  exists β, h, t. split_and!; try done.
  - by eapply append_closures_numbers.
  - intros x. split.
    + intros Hx. by apply (Hnew x Hx), not_elem_of_nil.
    + intros Hr. by eapply closed_reaches.
Qed.

(** X23: on a store on which no table was built before, with more fuel
    than there are states, [NFA.getAcceptingStateNumbers] returns, and it
    returns, each once, exactly the numbers that the table builder gave to
    the accepting states that can be reached from the entry state of the
    fragment along edges on any symbol.  The builder numbers every
    reachable state, and no two states share a number. *)
Theorem NFA_accepting_numbers_exact (fuel : nat) (nfa : nat) (n : NFA) (σ : store) :
  fresh_store σ = true → wf_heap (states σ) = true → unique_keys (states σ) = true →
  nfas σ !! nfa = Some n → no_accepting_memo σ nfa = true →
  in_ n < length (states σ) → length (states σ) < fuel →
  ∃ ns σ',
    NFA_getAcceptingStateNumbers fuel nfa σ = Some (ns, σ') ∧ NoDup ns ∧
    (∀ s, reaches (states σ) (in_ n) s → is_Some (number_of (states σ') s)) ∧
    (∀ x y k, number_of (states σ') x = Some k → number_of (states σ') y = Some k →
              x = y) ∧
    ∀ k, k ∈ ns ↔ ∃ s, reaches (states σ) (in_ n) s ∧ is_accepting (states σ) s = true ∧
                       number_of (states σ') s = Some k.
Proof.
  intros Hfresh Hwf Hu Hn Hmemo Hin Hfuel.
  destruct (NFA_build_total fuel σ (in_ n) Hfresh Hwf Hu Hin Hfuel)
    as (β & h & t & Eβ & Ea & Hbβ & (Hflag & Hacc) & Hnum & Hreach).
  pose proof Hfresh as (_ & _ & Hnotable)%fresh_store_states.
  pose proof Hbβ as ((Hnd & Hnum1 & Hnum2) & _).
  unfold no_accepting_memo in Hmemo. rewrite Hn in Hmemo.
  unfold NFA_getAcceptingStateNumbers, NFA_getAcceptingStates, NFA_getTransitionTable.
  rewrite Hn. simpl.
  destruct (_acceptingStates n) eqn:E1; [done|].
  destruct (_acceptingStateNumbers n) eqn:E2; [done|].
  rewrite (Hnotable _ _ Hn), Eβ. simpl. rewrite Ea. simpl.
  assert (nfa < length (nfas σ)) as Hlt by (by eapply lookup_lt_Some).
  rewrite list_lookup_insert_eq by done. simpl.
  rewrite list_lookup_insert_eq by done. simpl.
  assert (is_Some (mapM (number_of h) (b_accepting β))) as [ks Eks].
  { apply mapM_is_Some_2, Forall_forall. intros x Hx. simpl. rewrite Hnum.
    apply Hacc in Hx as [[i Hi]%list_elem_of_lookup _]. rewrite (Hnum2 i x Hi). by eexists. }
  rewrite Eks. simpl. rewrite ?list_lookup_insert_eq by done. simpl.
  eexists _, _. split; [done|]. simpl. split_and!.
  - apply Set_from_NoDup.
  - intros s Hs. rewrite Hnum. apply Hreach in Hs as [i Hi]%list_elem_of_lookup.
    rewrite (Hnum2 i s Hi). by eexists.
  - intros x y k. rewrite !Hnum.
    intros (i & Hi & ->)%Hnum1 (j & Hj & [= <-])%Hnum1. congruence.
  - apply mapM_Some in Eks. intros k. rewrite Set_from_elem_of. split.
    + intros [j Hj]%list_elem_of_lookup.
      destruct (Forall2_lookup_r _ _ _ _ _ Eks Hj) as (s & Hs & Hsk).
      apply list_elem_of_lookup_2, Hacc in Hs as [Hv Hfl].
      exists s. split_and!; [by apply Hreach|done|done].
    + intros (s & Hr & Hfl & Hs).
      assert (s ∈ b_accepting β) as Hsin by (apply Hacc; split; [by apply Hreach|done]).
      apply list_elem_of_lookup in Hsin as [j Hj].
      destruct (Forall2_lookup_l _ _ _ _ _ Eks Hj) as (k' & Hk' & Hsk').
      rewrite Hs in Hsk'. injection Hsk' as <-. by eapply list_elem_of_lookup_2.
Qed.

Lemma NFA_accepting_numbers_exact_witness :
  ∃ ns σ',
    NFA_getAcceptingStateNumbers 10 1 star_store = Some (ns, σ') ∧ NoDup ns ∧
    (∀ s, reaches (states star_store) 2 s → is_Some (number_of (states σ') s)) ∧
    (∀ x y k, number_of (states σ') x = Some k → number_of (states σ') y = Some k →
              x = y) ∧
    ∀ k, k ∈ ns ↔ ∃ s, reaches (states star_store) 2 s ∧
                       is_accepting (states star_store) s = true ∧
                       number_of (states σ') s = Some k.
Proof.
  apply (NFA_accepting_numbers_exact 10 1 (mkNFA 2 3 None None None None) star_store);
    [reflexivity|reflexivity|vm_compute; reflexivity|reflexivity|reflexivity|
     simpl; lia|simpl; lia].
Defined.

(** On [rep(char('a'))] the accepting state numbers are [{4}]: the exit
    state of the star is the only accepting state and is numbered 4. *)
Lemma star_accepting_numbers :
  NFA_getAcceptingStateNumbers 10 1 star_store = Some ([4], star_store_accepting).
Proof. vm_compute. reflexivity. Qed.

(** ** The table of a fragment on a store that other calls have used *)

Lemma getEpsilonClosure_numbers (fuel : nat) : ∀ this h c h',
  getEpsilonClosure fuel this h = Some (c, h') → ∀ x, number_of h' x = number_of h x.
Proof.
  induction fuel as [|fuel IH]; intros this h c h'; [done|].
  rewrite getEpsilonClosure_unfold.
  destruct (h !! this) as [st|] eqn:Hst; simpl; [|done].
  destruct (_epsilonClosure st) as [closure|] eqn:Hc; [by intros [= <- <-]|].
  destruct (getTransitionsOnSymbol this EPSILON h) as [[eps h1]|] eqn:E1; simpl; [|done].
  apply getTransitionsOnSymbol_keeps in E1 as [Hnum1 _].
  destruct (set_closure_keeps this (Set_add [] this) h1) as [Hnum2 _].
  set (h2 := set_closure this (Set_add [] this) h1) in *.
  destruct (foldl _ (Some h2) eps) as [h3|] eqn:E3; simpl; [|done].
  intros [= <- <-]. revert E3.
  apply (foldl_option_preserves (λ h3, ∀ x, number_of h3 x = number_of h x)); [done| |].
  - intros ha nextState hb Hnuma. simpl.
    destruct (Set_has (closure_of ha this) nextState); [by intros [= <-]|].
    destruct (set_closure_keeps this (Set_add (closure_of ha this) nextState) ha)
      as [Hnumb _].
    destruct (getEpsilonClosure fuel nextState _) as [[nc hc]|] eqn:Ec; simpl; [|done].
    intros [= <-].
    destruct (set_closure_keeps this (Set_addAll (closure_of hc this) nc) hc) as [Hnumd _].
    intros x. by rewrite Hnumd, (IH _ _ _ _ Ec), Hnumb, Hnuma.
  - intros x. by rewrite Hnum2, Hnum1.
Qed.

Lemma visitState_weak (fuel : nat) : ∀ state β β',
  build_weak β → visitState fuel state β = Some β' →
  build_weak β' ∧ length (b_visited β) ≤ length (b_visited β').
Proof.
  induction fuel as [|fuel IH]; intros state β β' Hβ; [done|].
  rewrite visitState_unfold.
  destruct (Set_has (b_visited β) state) eqn:Hin; [by intros [= <-]|].
  apply Set_has_false in Hin.
  destruct (b_heap β !! state) as [st|] eqn:Hst; simpl; [|done].
  destruct Hβ as (Hnd & Hnum & Hkeys & Hsorted & Hrows & Heps).
  assert (length (Set_add (b_visited β) state) = S (length (b_visited β))) as Hn.
  { rewrite Set_add_fresh, length_app by done. simpl. lia. }
  set (n := length (Set_add (b_visited β) state)) in *.
  set (β0 := mkBuild _ _ _ _).
  assert (build_weak β0 ∧ n ≤ length (b_visited β0)) as H0.
  { split; [|done]. unfold build_weak, β0. simpl. rewrite Set_add_fresh by done.
    split_and!.
    - apply NoDup_app. split_and!; [done| |apply NoDup_singleton].
      by intros x Hx ->%list_elem_of_singleton.
    - intros i x Hi. rewrite number_of_insert by done.
      apply lookup_app_Some in Hi as [Hi|[Hlen Hi]].
      + destruct (decide (x = state)) as [->|Hne]; [|by apply Hnum].
        exfalso. apply Hin. by eapply list_elem_of_lookup_2.
      + apply list_lookup_singleton_Some in Hi as [Hi <-].
        rewrite decide_True by done. f_equal. lia.
    - intros k [->|Hk]%iobj_keys_set.
      + exists (length (b_visited β)). split; [lia|]. rewrite length_app. simpl. lia.
      + destruct (Hkeys k Hk) as (i & -> & Hi). exists i. split; [done|].
        rewrite length_app. lia.
    - by apply iobj_set_sorted.
    - intros i Hi. rewrite length_app in Hi. simpl in Hi. rewrite iobj_get_set.
      destruct (S i =? n) eqn:E; [done|]. apply Nat.eqb_neq in E. apply Hrows. lia.
    - intros k row. rewrite iobj_get_set. destruct (k =? n).
      + intros [= <-]. unfold eps_columns. simpl. lia.
      + apply Heps. }
  clearbody β0. intros Efold.
  assert (build_weak β' ∧ n ≤ length (b_visited β')) as [? ?]; [|split; [done|lia]].
  revert Efold.
  apply (foldl_option_preserves (λ β1, build_weak β1 ∧ n ≤ length (b_visited β1)));
    [done| |done].
  intros β1 entry β2 [Hw1 Hlen1]. simpl.
  destruct (foldl _ (Some ([], β1)) entry.2) as [r|] eqn:Er; simpl; [|done].
  assert (build_weak r.2 ∧ n ≤ length (b_visited r.2)) as [Hwr Hlenr].
  { revert Er.
    apply (foldl_option_preserves
             (λ r : list nat * build, build_weak r.2 ∧ n ≤ length (b_visited r.2)));
      [done| |done].
    intros [cs β3] nextState [cs' β4] [Hw3 Hlen3]. simpl in *.
    destruct (visitState fuel nextState β3) as [β5|] eqn:E5; simpl; [|done].
    destruct (number_of (b_heap β5) nextState); simpl; [|done].
    intros [= <- <-]. destruct (IH _ _ _ Hw3 E5) as [Hw5 Hlen5]. split; [done|lia]. }
  destruct (table_set_cell (b_table r.2) n entry.1 r.1) as [t|] eqn:Et; simpl; [|done].
  intros [= <-]. split; [|done].
  destruct Hwr as (Hndr & Hnumr & Hkeysr & Hsortedr & Hrowsr & Hepsr).
  unfold build_weak. simpl. split_and!; try done.
  - intros k Hk. apply Hkeysr. by apply (proj1 (table_set_cell_keys _ _ _ _ _ k Et)).
  - unfold table_set_cell in Et.
    destruct (iobj_get (b_table r.2) n) as [row|]; simpl in Et; [|done].
    injection Et as <-. by apply iobj_set_sorted.
  - intros i Hi. apply iobj_get_keys, (table_set_cell_keys _ _ _ _ _ _ Et), iobj_get_keys.
    by apply Hrowsr.
  - unfold table_set_cell in Et.
    destruct (iobj_get (b_table r.2) n) as [row|] eqn:Erow; simpl in Et; [|done].
    injection Et as <-. intros k row'. rewrite iobj_get_set. destruct (k =? n).
    + intros [= <-]. apply eps_columns_set. by eapply Hepsr.
    + apply Hepsr.
Qed.

Lemma append_closures_weak (fuel : nat) (l : list nat) : ∀ h1 t1 h' t',
  iobj_sorted t1 → (∀ k row, iobj_get t1 k = Some row → eps_columns row ≤ 1) →
  append_closures fuel l h1 t1 = Some (h', t') →
  iobj_sorted t' ∧
  (∀ k, k ∈ iobj_keys t' ↔ k ∈ iobj_keys t1) ∧
  (∀ k, eps_free t1 k ∨ (∃ s, s ∈ l ∧ number_of h1 s = Some k) → eps_free t' k).
Proof.
  unfold append_closures.
  induction l as [|s l IH]; intros h1 t1 h' t' Hsorted Heps; simpl.
  - intros [= <- <-]. split_and!; [done|done|].
    intros k [?|(s & Hs%not_elem_of_nil & _)]; done.
  - destruct (number_of h1 s) as [n|] eqn:En; simpl;
      [|by rewrite foldl_option_None].
    destruct (iobj_get t1 n) as [row|] eqn:Erow; simpl;
      [|by rewrite foldl_option_None].
    destruct (getEpsilonClosure fuel s h1) as [[closure h2]|] eqn:Ec; simpl;
      [|by rewrite foldl_option_None].
    destruct (closure_numbers h2 closure) as [ns|] eqn:Ens; simpl;
      [|by rewrite foldl_option_None].
    unfold table_set_cell. rewrite iobj_get_set, Nat.eqb_refl. simpl.
    rewrite iobj_set_set.
    pose proof (getEpsilonClosure_numbers _ _ _ _ _ Ec) as Hnum2.
    pose proof (Object_delete_eps row (Heps _ _ Erow)) as Hdel.
    set (row' := Object_set (Object_delete row EPSILON) EPSILON_CLOSURE ns).
    assert (eps_columns row' ≤ 1) as Hrow' by (apply eps_columns_set; lia).
    assert (Object_get row' EPSILON = None) as Hfree.
    { unfold row'. rewrite Object_get_set, EPSILON_neq_closure.
      by apply Object_get_None_eps. }
    intros Hfold.
    destruct (IH h2 (iobj_set t1 n row') h' t') as (Hsorted' & Hkeys' & Hfree');
      [by apply iobj_set_sorted| |done|].
    { intros k r. rewrite iobj_get_set. destruct (k =? n); [by intros [= <-]|apply Heps]. }
    split_and!; [done| |].
    + intros k. rewrite Hkeys', iobj_keys_set. split; [|by right].
      intros [->|?]; [|done]. apply iobj_get_keys. by eexists.
    + intros k Hk. apply Hfree'.
      destruct (decide (k = n)) as [->|Hne].
      * left. intros r. rewrite iobj_get_set, Nat.eqb_refl. by intros [= <-].
      * destruct Hk as [Hk|(s' & [->|Hs']%elem_of_cons & Hs'')].
        -- left. intros r. rewrite iobj_get_set.
           apply Nat.eqb_neq in Hne. rewrite Hne. apply Hk.
        -- rewrite En in Hs''. congruence.
        -- right. exists s'. split; [done|]. by rewrite Hnum2.
Qed.

(** The table that [getTransitionTable] builds for a fragment whose table
    is not memoised, whatever numbers and closures the states carry from
    other calls: the rows come in ascending order and none keeps an
    [EPSILON] column. *)
Lemma NFA_table_built_rows (fuel : nat) (nfa : nat) (σ σ' : store)
    (t : list (nat * list (string * list nat))) :
  table_memo σ nfa = None →
  NFA_getTransitionTable fuel nfa σ = Some (t, σ') →
  iobj_sorted t ∧ ∀ k, eps_free t k.
Proof.
  unfold table_memo, NFA_getTransitionTable.
  destruct (nfas σ !! nfa) as [n|] eqn:En; simpl; [|done]. intros ->.
  destruct (visitState fuel (in_ n) (mkBuild (states σ) [] [] [])) as [β|] eqn:Eβ;
    simpl; [|done].
  assert (build_weak (mkBuild (states σ) [] [] [])) as Hw0.
  { unfold build_weak. simpl. split_and!; try done.
    - constructor.
    - by intros k ?%not_elem_of_nil.
    - intros i Hi. lia. }
  destruct (visitState_weak _ _ _ _ Hw0 Eβ) as [(Hnd & Hnum & Hkeys & Hsorted & Hrows & Heps) _].
  destruct (append_closures fuel (b_visited β) (b_heap β) (b_table β)) as [[h t']|] eqn:Ea;
    simpl; [|done].
  intros [= <- <-].
  destruct (append_closures_weak _ _ _ _ _ _ Hsorted Heps Ea) as (Hsorted' & Hkeys' & Hfree).
  split; [done|]. intros k.
  destruct (decide (k ∈ iobj_keys t')) as [Hk|Hk].
  - apply Hfree. right. apply Hkeys', Hkeys in Hk as (i & -> & Hi).
    destruct (lookup_lt_is_Some_2 _ _ Hi) as [x Hx].
    exists x. split; [by eapply list_elem_of_lookup_2|by apply Hnum].
  - intros row Hrow. exfalso. apply Hk, iobj_get_keys. by eexists.
Qed.

(** X14: the alphabet of a fragment whose table and alphabet have not been
    computed before, on a store in which no transition is labelled
    ['__proto__'] (the property name that JavaScript does not store as a
    column of a row); the states may carry numbers and closures from calls
    on other fragments.  [getAlphabet] returns, without duplicates, exactly
    the column names of the table other than the closure column; neither
    [EPSILON] nor the name of the closure column is among them. *)
Theorem NFA_alphabet_is_the_columns (fuel : nat) (nfa : nat) (σ σ' : store)
    (al : list symbol) :
  table_memo σ nfa = None → alpha_memo σ nfa = None →
  no_proto_key (states σ) = true →
  NFA_getAlphabet fuel nfa σ = Some (al, σ') →
  ∃ t, table_memo σ' nfa = Some t ∧ alpha_memo σ' nfa = Some al ∧
       NoDup al ∧ (EPSILON ∉ al) ∧ (EPSILON_CLOSURE ∉ al) ∧
       ∀ c, c ∈ al ↔ c ≠ EPSILON_CLOSURE ∧
                      ∃ k row, iobj_get t k = Some row ∧ is_Some (Object_get row c).
Proof.
  intros Htable Halpha _. unfold NFA_getAlphabet.
  unfold alpha_memo in Halpha.
  destruct (nfas σ !! nfa) as [n|] eqn:Hn; simpl in *; [|done]. rewrite Halpha.
  destruct (NFA_getTransitionTable fuel nfa σ) as [[t σ1]|] eqn:Et; simpl; [|done].
  destruct (NFA_table_built_rows _ _ _ _ _ Htable Et) as [Hsorted Hfree].
  apply NFA_getTransitionTable_memo in Et. unfold table_memo in Et.
  destruct (nfas σ1 !! nfa) as [n1|] eqn:Hn1; simpl in *; [|done].
  intros [= <- <-]. exists t.
  unfold table_memo, alpha_memo. rewrite (set_nfa_lookup _ _ _ _ Hn1). simpl.
  destruct (alphabet_table t [] (NoDup_nil_2)) as [Hnd Hin]. simpl in Hnd, Hin.
  assert (∀ c, c ∈ foldl (λ a (row : nat * list (string * list nat)),
                           foldl (λ a symbol, if String.eqb symbol EPSILON_CLOSURE then a
                                              else SSet_add a symbol)
                                 a (Object_keys row.2)) [] t
               ↔ c ≠ EPSILON_CLOSURE ∧
                 ∃ k row, iobj_get t k = Some row ∧ is_Some (Object_get row c)) as Hchar.
  { intros c. rewrite Hin. split.
    - intros [?%not_elem_of_nil|[Hne ([k row] & Hp & Hc)]]; [done|].
      split; [done|]. exists k, row. split; [by apply iobj_sorted_get|].
      by apply Object_keys_get.
    - intros [Hne (k & row & Hrow & Hc)]. right. split; [done|].
      exists (k, row). split; [by apply iobj_get_elem_of|by apply Object_keys_get]. }
  split_and!; try done.
  - intros (_ & k & row & Hrow & Hc)%Hchar.
    rewrite (Hfree k row Hrow) in Hc. by destruct Hc.
  - by intros [Hne _]%Hchar.
Qed.

Lemma NFA_alphabet_is_the_columns_witness :
  ∃ t, table_memo star_over_tabled_operand_alphabet 1 = Some t ∧
       alpha_memo star_over_tabled_operand_alphabet 1 = Some ["a"] ∧
       NoDup ["a"] ∧ (EPSILON ∉ ["a"]) ∧ (EPSILON_CLOSURE ∉ ["a"]) ∧
       ∀ c, c ∈ ["a"] ↔ c ≠ EPSILON_CLOSURE ∧
                         ∃ k row, iobj_get t k = Some row ∧ is_Some (Object_get row c).
Proof.
  apply (NFA_alphabet_is_the_columns 10 1 star_over_tabled_operand
           star_over_tabled_operand_alphabet ["a"]);
    [reflexivity|reflexivity|reflexivity|vm_compute; reflexivity].
Defined.

(** The store of the witness is not one without tables: the table of the
    operand was built before the star. *)
Lemma star_over_tabled_operand_history :
  fresh_store star_over_tabled_operand = false ∧
  table_memo star_over_tabled_operand 0 ≠ None ∧
  table_memo star_over_tabled_operand 1 = None.
Proof. split_and!; [vm_compute; reflexivity|vm_compute; discriminate|reflexivity]. Qed.
